(** * Document extractor: a shallow embedding of the content extraction
      and structuring pipeline

    The development follows the TypeScript sources: [utils/helpers.ts],
    [StructuredDataExtractor.ts], [parsers/PdfParser.ts],
    [nlp/ZeroShotClassifier.ts], [nlp/ContentAnalyzer.ts], [types/index.ts],
    [DocumentExtractor.ts] and [exporters/CsvExporter.ts].

    Strings are sequences of code units; the model takes the code units of
    the Latin-1 range (one [ascii] each).  Regular expressions are run by a
    backtracking matcher with the priorities of the ECMAScript one, so that
    every pattern of the sources is written down as it stands there. *)

From Stdlib Require Import String.
From Stdlib Require Import List Ascii Bool Arith PeanoNat Lia.
From Stdlib Require Import ZArith QArith Qround DecimalString.
From Stdlib Require Floats.
Import ListNotations.

Local Open Scope nat_scope.
Local Open Scope list_scope.

Set Implicit Arguments.

(* ================================================================== *)
(** ** Strings *)
(* ================================================================== *)

Definition str : Type := list ascii.

(** A string literal of the sources. *)
Definition lit (s : string) : str := list_ascii_of_string s.

Definition code (c : ascii) : nat := nat_of_ascii c.

(** The class [\s] (white space and line terminators) below U+0100:
    TAB, LF, VT, FF, CR, SPACE and NO-BREAK SPACE. *)
Definition isSpace (c : ascii) : bool :=
  let n := code c in
  ((9 <=? n) && (n <=? 13)) || (n =? 32) || (n =? 160).

(** The class [\d]. *)
Definition isDigit (c : ascii) : bool :=
  let n := code c in (48 <=? n) && (n <=? 57).

(** The class [\w]: letters, digits and the underscore. *)
Definition isWord (c : ascii) : bool :=
  let n := code c in
  ((65 <=? n) && (n <=? 90)) || ((97 <=? n) && (n <=? 122))
  || isDigit c || (n =? 95).

Definition LF : ascii := ascii_of_nat 10.
Definition CR : ascii := ascii_of_nat 13.
Definition TAB : ascii := ascii_of_nat 9.

Definition str_eqb (a b : str) : bool :=
  if list_eq_dec ascii_dec a b then true else false.

Definition nonEmpty (s : str) : bool := 0 <? length s.

Fixpoint dropWhile (p : ascii -> bool) (s : str) : str :=
  match s with
  | [] => []
  | x :: s' => if p x then dropWhile p s' else s
  end.

(** [String.prototype.trim]. *)
Definition trimStart (s : str) : str := dropWhile isSpace s.
Definition trimEnd (s : str) : str := rev (dropWhile isSpace (rev s)).
Definition trim (s : str) : str := trimEnd (trimStart s).

(** [String.prototype.toLowerCase] on Latin-1 code units. *)
Definition lowerChar (c : ascii) : ascii :=
  let n := code c in
  if ((65 <=? n) && (n <=? 90))
     || ((192 <=? n) && (n <=? 222) && negb (n =? 215))
  then ascii_of_nat (n + 32) else c.

Definition toLowerCase (s : str) : str := map lowerChar s.

Fixpoint isPrefixOf (p s : str) : bool :=
  match p, s with
  | [], _ => true
  | _ :: _, [] => false
  | a :: p', b :: s' => Ascii.eqb a b && isPrefixOf p' s'
  end.

(** [String.prototype.includes]. *)
Fixpoint includes (s sub : str) : bool :=
  isPrefixOf sub s ||
  match s with
  | [] => false
  | _ :: s' => includes s' sub
  end.

(** [Array.prototype.includes] on an array of strings. *)
Definition arrIncludes (l : list str) (v : str) : bool :=
  existsb (str_eqb v) l.

(** [Array.prototype.join]. *)
Fixpoint join (sep : str) (l : list str) : str :=
  match l with
  | [] => []
  | [a] => a
  | a :: l' => a ++ sep ++ join sep l'
  end.

(** [text.split('\n')]: split on one separator character; the result is
    never empty. *)
Fixpoint splitOnChar (sep : ascii) (s : str) : list str :=
  match s with
  | [] => [[]]
  | x :: s' =>
      if Ascii.eqb x sep then [] :: splitOnChar sep s'
      else match splitOnChar sep s' with
           | [] => [[x]]
           | p :: ps => (x :: p) :: ps
           end
  end.

(** [s.replace(/\n/g, ' ')] and the like: a one-character pattern. *)
Definition replaceChar (from : ascii) (to : str) (s : str) : str :=
  flat_map (fun x => if Ascii.eqb x from then to else [x]) s.

(* ================================================================== *)
(** ** Regular expressions: the backtracking matcher *)
(* ================================================================== *)

Inductive regex : Type :=
| Chr (p : ascii -> bool)          (* a character or a character class *)
| Seq (r1 r2 : regex)
| Alt (r1 r2 : regex)
| Star (r : regex)                 (* greedy [r*] *)
| Group (i : nat) (r : regex).     (* capture group number [i] *)

(** [r+] and [r{2,}]. *)
Definition Plus (r : regex) : regex := Seq r (Star r).
Definition AtLeast2 (r : regex) : regex := Seq r (Seq r (Star r)).

Definition chr (c : ascii) : regex := Chr (Ascii.eqb c).

(** A letter under the flag [i]. *)
Definition chrI (lower upper : ascii) : regex :=
  Chr (fun x => Ascii.eqb x lower || Ascii.eqb x upper).

Definition captures : Type := list (nat * str).

Fixpoint group (i : nat) (c : captures) : str :=
  match c with
  | [] => []
  | (j, s) :: c' => if j =? i then s else group i c'
  end.

Section Matcher.
Variable A : Type.

Definition cont : Type := str -> captures -> option A.

(** One more round of a greedy star: a round that consumes nothing is
    refused, and the rounds are at most as many as the characters left. *)
Definition starLoop (step : str -> captures -> cont -> option A) (k : cont)
  : nat -> str -> captures -> option A :=
  fix loop (n : nat) (s : str) (c : captures) : option A :=
    match n with
    | O => k s c
    | S n' =>
        match step s c (fun s' c' =>
                          if length s' <? length s then loop n' s' c'
                          else None) with
        | Some a => Some a
        | None => k s c
        end
    end.

Fixpoint matchR (r : regex) (s : str) (c : captures) (k : cont)
  {struct r} : option A :=
  match r with
  | Chr p =>
      match s with
      | x :: s' => if p x then k s' c else None
      | [] => None
      end
  | Seq r1 r2 => matchR r1 s c (fun s' c' => matchR r2 s' c' k)
  | Alt r1 r2 =>
      match matchR r1 s c k with
      | Some a => Some a
      | None => matchR r2 s c k
      end
  | Star r1 => starLoop (matchR r1) k (length s) s c
  | Group i r1 =>
      matchR r1 s c
        (fun s' c' => k s' ((i, firstn (length s - length s') s) :: c'))
  end.
End Matcher.

(** The result of one successful match at the start of [s]: the matched
    text, the captures and what is left of the input. *)
Record Match : Type := mkMatch {
  matched : str;
  caps : captures;
  rest : str
}.

Definition matchAt (r : regex) (s : str) : option Match :=
  matchR r s []
    (fun s' c => Some (mkMatch (firstn (length s - length s') s) c s')).

(** [RegExp.prototype.exec] on a global pattern whose [lastIndex] points at
    [s]: the first position at or after it where the pattern matches. *)
Fixpoint search (r : regex) (s : str) : option Match :=
  match matchAt r s with
  | Some m => Some m
  | None =>
      match s with
      | [] => None
      | _ :: s' => search r s'
      end
  end.

(** [String.prototype.split] with a pattern without capture groups.
    [piece] holds, reversed, the characters passed since the last split
    point.  An empty match right at the last split point is skipped. *)
Fixpoint splitLoop (r : regex) (fuel : nat) (piece : str) (s : str)
  : list str :=
  match fuel with
  | O => [rev piece ++ s]
  | S fuel' =>
      match s with
      | [] => [rev piece]
      | x :: s' =>
          match matchAt r s with
          | None => splitLoop r fuel' (x :: piece) s'
          | Some m =>
              if (length (matched m) =? 0) && (length piece =? 0)
              then splitLoop r fuel' (x :: piece) s'
              else rev piece :: splitLoop r fuel' [] (rest m)
          end
      end
  end.

Definition jsSplit (r : regex) (s : str) : list str :=
  match s with
  | [] => match matchAt r [] with Some _ => [] | None => [[]] end
  | _ => splitLoop r (2 * length s + 2) [] s
  end.

(** [String.prototype.replace] with a global pattern and a replacement text
    without [$]. *)
Fixpoint replaceLoop (r : regex) (by_ : str) (fuel : nat) (s : str) : str :=
  match fuel with
  | O => s
  | S fuel' =>
      match matchAt r s with
      | Some m =>
          by_ ++
          (if length (matched m) =? 0
           then match s with
                | [] => []
                | x :: s' => x :: replaceLoop r by_ fuel' s'
                end
           else replaceLoop r by_ fuel' (rest m))
      | None =>
          match s with
          | [] => []
          | x :: s' => x :: replaceLoop r by_ fuel' s'
          end
      end
  end.

Definition replaceAll (r : regex) (by_ : str) (s : str) : str :=
  replaceLoop r by_ (S (length s)) s.

(** The classes used by the patterns of the sources. *)
Definition reSpace : regex := Chr isSpace.
Definition reWord : regex := Chr isWord.

(* ================================================================== *)
(** ** StructuredDataExtractor.ts *)
(* ================================================================== *)

Record StructuredField : Type := mkField {
  key : str;
  values : list str;
  rawText : str
}.

Module StructuredDataExtractor.

(** [[^;\n]] *)
Definition notSemiNl (c : ascii) : bool :=
  negb (Ascii.eqb c ";"%char || Ascii.eqb c LF).

(** [/( \w+ (?: \s+ \w+ )* ) \s* : \s* ( [^;\n]+ )/gi], written here with
    blanks between its parts. *)
Definition colonPattern : regex :=
  Seq (Group 1 (Seq (Plus reWord) (Star (Seq (Plus reSpace) (Plus reWord)))))
 (Seq (Star reSpace)
 (Seq (chr ":"%char)
 (Seq (Star reSpace)
      (Group 2 (Plus (Chr notSemiNl)))))).

(** [[,;|]] *)
Definition isDelim (c : ascii) : bool :=
  Ascii.eqb c ","%char || Ascii.eqb c ";"%char || Ascii.eqb c "|"%char.

(** [/[,;|]/] *)
Definition delimPattern : regex := Chr isDelim.

(** [/\s+(?:and|or)\s+/i] *)
Definition conjPattern : regex :=
  Seq (Plus reSpace)
 (Seq (Alt (Seq (chrI "a" "A") (Seq (chrI "n" "N") (chrI "d" "D")))
           (Seq (chrI "o" "O") (chrI "r" "R")))
      (Plus reSpace)).

Definition splitValues (text : str) : list str :=
  let values := map trim (jsSplit delimPattern text) in
  let values :=
    if length values =? 1
    then map trim (jsSplit conjPattern text)
    else values in
  filter nonEmpty values.

(** The [while ((match = colonPattern.exec(text)) !== null)] loop; [s] is
    the text from [lastIndex] on. *)
Fixpoint extractLoop (fuel : nat) (s : str) : list StructuredField :=
  match fuel with
  | O => []
  | S fuel' =>
      match search colonPattern s with
      | None => []
      | Some m =>
          let key := trim (group 1 (caps m)) in
          let valuesText := trim (group 2 (caps m)) in
          let values := splitValues valuesText in
          (if 0 <? length values
           then [mkField key values (matched m)]
           else [])
          ++ extractLoop fuel' (rest m)
      end
  end.

Definition extractFields (text : str) : list StructuredField :=
  extractLoop (S (length text)) text.

Definition extractFromMultiple (texts : list str) : list StructuredField :=
  flat_map extractFields texts.

(** [Map<string, string[]>]: the entries in insertion order. *)
Definition FieldMap : Type := list (str * list str).

Fixpoint mapGet (k : str) (m : FieldMap) : option (list str) :=
  match m with
  | [] => None
  | (k', v) :: m' => if str_eqb k' k then Some v else mapGet k m'
  end.

(** [Map.prototype.set]: a present key keeps its place. *)
Fixpoint mapSet (k : str) (v : list str) (m : FieldMap) : FieldMap :=
  match m with
  | [] => [(k, v)]
  | (k', v') :: m' =>
      if str_eqb k' k then (k, v) :: m' else (k', v') :: mapSet k v m'
  end.

Definition mapKeys (m : FieldMap) : list str := map fst m.

(** [for (const value of field.values) if (!existing.includes(value))
    existing.push(value)] *)
Definition pushUnique (existing vs : list str) : list str :=
  fold_left (fun ex v => if arrIncludes ex v then ex else ex ++ [v])
            vs existing.

Definition mergeStep (merged : FieldMap) (field : StructuredField)
  : FieldMap :=
  match mapGet (key field) merged with
  | Some existing =>
      mapSet (key field) (pushUnique existing (values field)) merged
  | None => mapSet (key field) (values field) merged
  end.

Definition mergeFields (fields : list StructuredField) : FieldMap :=
  fold_left mergeStep fields [].

(** [Record<string, string>]: the properties in insertion order. *)
Definition Row : Type := list (str * str).

Fixpoint rowSet (k v : str) (row : Row) : Row :=
  match row with
  | [] => [(k, v)]
  | (k', v') :: row' =>
      if str_eqb k' k then (k, v) :: row' else (k', v') :: rowSet k v row'
  end.

(** [values[i] || ''] *)
Definition at_or_empty (vs : list str) (i : nat) : str := nth i vs [].

Definition maxLength (m : FieldMap) : nat :=
  fold_right Nat.max 0 (map (fun kv => length (snd kv)) m).

Definition toFlatStructure (fields : list StructuredField) : list Row :=
  match fields with
  | [] => []
  | _ =>
      let merged := mergeFields fields in
      let keys := mapKeys merged in
      let maxValues := maxLength merged in
      map (fun i =>
             fold_left
               (fun row key =>
                  match mapGet key merged with
                  | Some values => rowSet key (at_or_empty values i) row
                  | None => row
                  end)
               keys [])
          (seq 0 maxValues)
  end.

Definition extractToExcelFormat (texts : list str) : list Row :=
  toFlatStructure (extractFromMultiple texts).

End StructuredDataExtractor.

Import StructuredDataExtractor.

(* ================================================================== *)
(** ** Numbers *)
(* ================================================================== *)

(** The number type of the sources, with the operations and constants the
    code uses.  [nle x y] is [x <= y] (and [y >= x]), [nlt x y] is [x < y]
    (and [y > x]). *)
Class NumOps (F : Type) : Type := {
  num0 : F;                     (* 0, 0.0 *)
  num1 : F;                     (* 1, 1.0 *)
  num0_05 : F;                  (* 0.05 *)
  num0_1 : F;                   (* 0.1 *)
  num0_5 : F;                   (* 0.5 *)
  num100 : F;                   (* 100 *)
  nadd : F -> F -> F;
  nsub : F -> F -> F;
  nmul : F -> F -> F;
  ndiv : F -> F -> F;
  nmin : F -> F -> F;           (* Math.min *)
  nmax : F -> F -> F;           (* Math.max *)
  nround : F -> F;              (* Math.round *)
  nle : F -> F -> bool;
  nlt : F -> F -> bool;
  nisNaN : F -> bool            (* Number.isNaN *)
}.

(** [Math.round(x * 100) / 100] *)
Definition round2 {F} `{NumOps F} (x : F) : F :=
  ndiv (nround (nmul x num100)) num100.

(** What the proofs use of the order of numbers: it is transitive, a
    number that is compared is comparable with itself, [<] excludes the
    converse [<=], and a few facts on the confidence of a zero score.
    Exact arithmetic and double precision arithmetic both have them. *)
Class OrderLaws (F : Type) `{NumOps F} : Prop := {
  nle_trans : forall x y z, nle x y = true -> nle y z = true -> nle x z = true;
  nle_refl_l : forall x y, nle x y = true -> nle x x = true;
  nle_refl_r : forall x y, nle x y = true -> nle y y = true;
  nlt_not_nle : forall x y, nlt x y = true -> nle y x = false;
  num0_le_num0_05 : nle num0 num0_05 = true;
  zero_conf : nle (round2 num0) num0 = true;
  zero_bonus_conf :
    nle (round2 (nmin num1 (nadd num0 num0_05))) num0_05 = true;
  zero_penalty_conf :
    nle (round2 (nmax num0 (nsub num0 num0_1))) num0 = true
}.

Arguments OrderLaws F {_}.

(** What the proofs use of the operations, on the numbers between 0 and 1:
    adding the bonus, subtracting the penalty and rounding to two decimal
    places keep the order, [Math.min] and [Math.max] are bounds on
    comparable arguments, and a few facts on the constants.  Exact
    arithmetic and double precision arithmetic both have them, since
    rounding to nearest keeps the order. *)
Class NumLaws (F : Type) `{NumOps F} : Prop := {
  nadd_mono : forall x y,
    nle num0 x = true -> nle x y = true -> nle y num1 = true ->
    nle (nadd x num0_05) (nadd y num0_05) = true;
  nsub_mono : forall x y,
    nle num0 x = true -> nle x y = true -> nle y num1 = true ->
    nle (nsub x num0_1) (nsub y num0_1) = true;
  round2_mono : forall x y,
    nle num0 x = true -> nle x y = true -> nle y num1 = true ->
    nle (round2 x) (round2 y) = true;
  nmin_le_l : forall x, nle x x = true -> nle (nmin num1 x) num1 = true;
  nmin_le_r : forall x, nle x x = true -> nle (nmin num1 x) x = true;
  nmin_glb : forall x z,
    nle z num1 = true -> nle z x = true -> nle z (nmin num1 x) = true;
  nmax_ge_l : forall x, nle x x = true -> nle num0 (nmax num0 x) = true;
  nmax_ge_r : forall x, nle x x = true -> nle x (nmax num0 x) = true;
  nmax_lub : forall x z,
    nle num0 z = true -> nle x z = true -> nle (nmax num0 x) z = true;
  num0_le_bonus : nle num0 (nadd num0 num0_05) = true;
  penalty_le_num1 : nle (nsub num1 num0_1) num1 = true;
  round2_num0_ge : nle num0 (round2 num0) = true;
  round2_num1_le : nle (round2 num1) num1 = true
}.

Arguments NumLaws F {_}.

(** Exact rational arithmetic. *)
Module Exact.
Local Open Scope Q_scope.

Definition qmin (a b : Q) : Q := if Qle_bool a b then a else b.
Definition qmax (a b : Q) : Q := if Qle_bool a b then b else a.
(** The nearest integer, a half going up. *)
Definition qround (x : Q) : Q := inject_Z (Qfloor (x + (1 # 2))).

#[export] Instance QOps : NumOps Q := {|
  num0 := 0;
  num1 := 1;
  num0_05 := 5 # 100;
  num0_1 := 1 # 10;
  num0_5 := 1 # 2;
  num100 := 100;
  nadd := Qplus;
  nsub := Qminus;
  nmul := Qmult;
  ndiv := Qdiv;
  nmin := qmin;
  nmax := qmax;
  nround := qround;
  nle := Qle_bool;
  nlt := fun x y => negb (Qle_bool y x);
  nisNaN := fun _ => false
|}.
End Exact.

(** IEEE 754 double precision, the number type of the language. *)
Module Binary64.
Import Floats.
Local Open Scope float_scope.
Local Set Warnings "-inexact-float".

Definition b64min (a b : float) : float :=
  if is_nan a || is_nan b then nan
  else if a <? b then a
  else if b <? a then b
  else if get_sign a then a else b.

Definition b64max (a b : float) : float :=
  if is_nan a || is_nan b then nan
  else if a <? b then b
  else if b <? a then a
  else if get_sign a then b else a.

Definition ofZ (z : Z) : float := of_uint63 (Uint63.of_Z z).

(** [Math.round]: a value with a fractional part [m * 2^e], [e < 0], goes
    to the integer [floor (x + 1/2)], which needs no rounding; the other
    values are left as they are. *)
Definition b64round (x : float) : float :=
  match Prim2SF x with
  | S754_finite sg m e =>
      if (0 <=? e)%Z then x
      else
        let d := (2 ^ (- e))%Z in
        let n := if sg then Z.neg m else Z.pos m in
        let q := ((2 * n + d) / (2 * d))%Z in
        if (q =? 0)%Z then (if sg then neg_zero else zero)
        else if (q <? 0)%Z then - ofZ (- q)
        else ofZ q
  | _ => x
  end.

#[export] Instance B64Ops : NumOps float := {|
  num0 := 0;
  num1 := 1;
  num0_05 := 0.05;
  num0_1 := 0.1;
  num0_5 := 0.5;
  num100 := 100;
  nadd := add;
  nsub := sub;
  nmul := mul;
  ndiv := div;
  nmin := b64min;
  nmax := b64max;
  nround := b64round;
  nle := leb;
  nlt := ltb;
  nisNaN := is_nan
|}.

(** A low, positive threshold. *)
Definition lowThreshold : float := 0.01.

(** The place of a number that is not [NaN] in the order: its class (from
    minus infinity to plus infinity), then its exponent and its mantissa. *)
Definition rank (f : spec_float) : Z * Z * Z :=
  match f with
  | S754_zero _ => (0, 0, 0)%Z
  | S754_infinity sg => (if sg then (-2)%Z else 2%Z, 0%Z, 0%Z)
  | S754_nan => (0, 0, 0)%Z
  | S754_finite sg m e =>
      if sg then ((-1)%Z, (- e)%Z, Z.neg m) else (1%Z, e, Z.pos m)
  end.

Definition lexle (a b : Z * Z * Z) : Prop :=
  let '(a1, a2, a3) := a in
  let '(b1, b2, b3) := b in
  (a1 < b1 \/ (a1 = b1 /\ (a2 < b2 \/ (a2 = b2 /\ a3 <= b3))))%Z.

Definition lexlt (a b : Z * Z * Z) : Prop :=
  let '(a1, a2, a3) := a in
  let '(b1, b2, b3) := b in
  (a1 < b1 \/ (a1 = b1 /\ (a2 < b2 \/ (a2 = b2 /\ a3 < b3))))%Z.

Definition comparable (f : spec_float) : Prop := f <> S754_nan.

(** Rounding [m / 2^n] to the nearest integer, a tie going to the even
    one. *)
Definition rne (m n : Z) : Z :=
  (let q := m / 2 ^ n in
   let t := 2 * (m mod 2 ^ n) in
   if t <? 2 ^ n then q
   else if 2 ^ n <? t then q + 1
   else if Z.even q then q else q + 1)%Z.

(** The mantissa and the exponent of the double nearest to [m * 2^e]. *)
Definition roundPos (m : positive) (e : Z) : Z * Z :=
  (let E := fexp prec emax (Zpos (digits2_pos m) + e) in
   let M := rne (Zpos m) (E - e) in
   if M =? 2 ^ 53 then (2 ^ 52, E + 1) else (M, E))%Z.

Definition ofRounded (s : bool) (r : Z * Z) : spec_float :=
  match fst r with
  | Z0 => S754_zero s
  | Zpos p => if (snd r <=? 971)%Z then S754_finite s p (snd r)
              else S754_infinity s
  | Zneg _ => S754_nan
  end.

(** The order of the results of a rounding: by exponent, then by mantissa. *)
Definition pairLe (a b : Z * Z) : Prop :=
  (snd a < snd b \/ (snd a = snd b /\ fst a <= fst b))%Z.

Definition goodPair (r : Z * Z) : Prop :=
  (0 <= fst r /\ -1074 <= snd r /\ (fst r = 0 -> snd r = -1074))%Z.

(** A number that is zero or positive, and finite. *)
Definition nonnegFinite (f : spec_float) : Prop :=
  match f with
  | S754_zero _ => True
  | S754_finite false _ _ => True
  | _ => False
  end.

(** The value of a finite number, in units of [2^-1074]. *)
Definition val64 (f : spec_float) : Z :=
  match f with
  | S754_finite s m e =>
      ((if s then Z.neg m else Z.pos m) * 2 ^ (e + 1074))%Z
  | _ => 0%Z
  end.

(** The integer nearest to a number that is not negative, a half going
    up: what [Math.round] computes from the mantissa and the exponent. *)
Definition nearestInt (f : spec_float) : Z :=
  match f with
  | S754_finite false m e =>
      ((2 * Z.pos m + 2 ^ (- e)) / (2 * 2 ^ (- e)))%Z
  | _ => 0%Z
  end.

(** [q / 100] for an integer [q] that [Math.round] returned. *)
Definition hundredths (q : Z) : float :=
  (if (q =? 0)%Z then zero else ofZ q) / 100.

Definition percentSteps : list Z := map Z.of_nat (seq 0 101).
End Binary64.

(* ================================================================== *)
(** ** utils/helpers.ts *)
(* ================================================================== *)

Module Helpers.

(** [/\r\n/g], [/\r/g], [/\t/g] and [/\s+/g] *)
Definition crlfPattern : regex := Seq (chr CR) (chr LF).
Definition crPattern : regex := chr CR.
Definition tabPattern : regex := chr TAB.
Definition spacesPattern : regex := Plus reSpace.

Definition normalizeText (text : str) : str :=
  trim
    (replaceAll spacesPattern (lit " ")
       (replaceAll tabPattern (lit " ")
          (replaceAll crPattern [LF]
             (replaceAll crlfPattern [LF] text)))).

(** [/\n\n+/] *)
Definition paragraphBreak : regex := Seq (chr LF) (Plus (chr LF)).

Definition splitIntoParagraphs (text : str) : list str :=
  filter nonEmpty (map trim (jsSplit paragraphBreak text)).

Definition calculateConfidence {F} `{NumOps F}
  (text : str) (classificationScore : F) : F :=
  let confidence := classificationScore in
  let confidence :=
    if 100 <? length text then nmin num1 (nadd confidence num0_05)
    else confidence in
  let confidence :=
    if length text <? 20 then nmax num0 (nsub confidence num0_1)
    else confidence in
  round2 confidence.

End Helpers.

Import Helpers.

(* ================================================================== *)
(** ** types/index.ts *)
(* ================================================================== *)

Record TableData : Type := mkTable {
  headers : option (list str);
  rows : list (list str)
}.

(* ================================================================== *)
(** ** parsers/PdfParser.ts *)
(* ================================================================== *)

Module PdfParser.

(** [/\s{2,}|\t+/] *)
Definition cellBreak : regex :=
  Alt (AtLeast2 reSpace) (Plus (chr TAB)).

Definition splitTableRow (line : str) : list str :=
  filter nonEmpty (map trim (jsSplit cellBreak line)).

Definition cellLooksLikeHeader (cell : str) : bool :=
  includes (toLowerCase cell) (lit "name")
  || includes (toLowerCase cell) (lit "type")
  || includes (toLowerCase cell) (lit "description")
  || includes (toLowerCase cell) (lit "value")
  || negb (existsb isDigit cell).

Definition detectHeaders (table : list (list str)) : option (list str) :=
  match table with
  | [] => None
  | firstRow :: _ =>
      let looksLikeHeader := existsb cellLooksLikeHeader firstRow in
      if looksLikeHeader then Some firstRow else None
  end.

(** The table pushed when a block is closed. *)
Definition closeBlock (currentTable : list (list str)) : TableData :=
  let headers := detectHeaders currentTable in
  let rows :=
    match headers with
    | Some _ => skipn 1 currentTable
    | None => currentTable
    end in
  mkTable headers rows.

(** The [for] loop over the lines and the check after it; the state is
    [tables], [currentTable] and [inTable]. *)
Fixpoint tableLoop (lines : list str) (tables : list TableData)
  (currentTable : list (list str)) (inTable : bool) : list TableData :=
  match lines with
  | [] =>
      if inTable && (1 <? length currentTable)
      then tables ++ [closeBlock currentTable]
      else tables
  | l :: lines' =>
      let line := trim l in
      let cells := splitTableRow line in
      if 2 <=? length cells then
        let currentTable := if inTable then currentTable else [] in
        tableLoop lines' tables (currentTable ++ [cells]) true
      else
        let tables :=
          if inTable && (1 <? length currentTable)
          then tables ++ [closeBlock currentTable]
          else tables in
        tableLoop lines' tables [] false
  end.

Definition extractTables (text : str) : list TableData :=
  tableLoop (splitOnChar LF text) [] [] false.

End PdfParser.

(* ================================================================== *)
(** ** Exceptions *)
(* ================================================================== *)

(** A call either returns or throws an [Error] with a message. *)
Inductive outcome (A : Type) : Type :=
| Ok (a : A)
| Throw (message : str).

Arguments Ok {A} a.
Arguments Throw {A} message.

Definition bind {A B} (x : outcome A) (f : A -> outcome B) : outcome B :=
  match x with
  | Ok a => f a
  | Throw e => Throw e
  end.

Notation "x <- e1 ;; e2" := (bind e1 (fun x => e2))
  (at level 61, e1 at next level, right associativity).

(** Decimal rendering of an index or a count. *)
Definition natToString (n : nat) : str :=
  lit (NilEmpty.string_of_uint (Nat.to_uint n)).

Section Pipeline.
Context {F : Type} `{NumOps F}.

(** [generateId] draws a fresh UUID; the [n]-th draw of a run is
    [freshId n]. *)
Variable freshId : nat -> str.

(** [Number.prototype.toString]. *)
Variable numToString : F -> str.

(* ---------------------------------------------------------------- *)
(** *** types/index.ts *)

Record Position : Type := mkPosition {
  page : option nat;
  paragraph : option nat;
  line : option nat
}.

Record ExtractedContent : Type := mkContent {
  id : str;
  type : str;
  content : str;
  confidence : F;
  position : option Position;
  tableData : option TableData
}.

Record ClassificationResult : Type := mkClassification {
  label : str;
  score : F
}.

Record DocumentMetadata : Type := mkMetadata {
  fileName : str;
  fileType : str;
  extractedAtISO : str;          (* extractedAt.toISOString() *)
  totalPages : option nat;
  totalParagraphs : option nat
}.

Record Summary : Type := mkSummary {
  totalItems : nat;
  byType : list (str * nat)
}.

Record ExtractionResult : Type := mkResult {
  metadata : DocumentMetadata;
  contents : list ExtractedContent;
  summary : option Summary
}.

Record ExportOptions : Type := mkOptions {
  outputPath : str;
  includeMetadata : bool;
  prettyPrint : bool
}.

(** [IClassifier] *)
Class IClassifier (C : Type) : Type := {
  classify : C -> str -> list str -> outcome (list ClassificationResult)
}.

(** [ExtractorConfigType], and [Partial<ExtractorConfigType>] where an
    absent property is [None]. *)
Record ExtractorConfig : Type := mkConfig {
  classificationLabels : list str;
  confidenceThreshold : F;
  enableTableExtraction : bool;
  modelName : str
}.

Record PartialConfig : Type := mkPartial {
  p_classificationLabels : option (list str);
  p_confidenceThreshold : option F;
  p_enableTableExtraction : option bool;
  p_modelName : option str
}.

Definition defaultLabels : list str :=
  [lit "business_rule"; lit "formula"; lit "condition"; lit "definition";
   lit "table"; lit "text"].

(** [z.number().min(0).max(1)]: a number that is not [NaN], not below 0
    and not above 1. *)
Definition checkThreshold (t : F) : outcome F :=
  if nisNaN t then Throw (lit "Expected number, received nan")
  else if nlt t num0
  then Throw (lit "Number must be greater than or equal to 0")
  else if nlt num1 t
  then Throw (lit "Number must be less than or equal to 1")
  else Ok t.

(** [ExtractorConfigSchema.parse]: the label array has no constraint
    besides its type. *)
Definition parseConfig (c : PartialConfig) : outcome ExtractorConfig :=
  let labels :=
    match p_classificationLabels c with
    | Some l => l
    | None => defaultLabels
    end in
  threshold <-
    match p_confidenceThreshold c with
    | Some t => checkThreshold t
    | None => Ok num0_5
    end ;;
  Ok (mkConfig labels threshold
        (match p_enableTableExtraction c with Some b => b | None => true end)
        (match p_modelName c with
         | Some m => m
         | None => lit "Xenova/distilbert-base-uncased-mnli"
         end)).

(* ---------------------------------------------------------------- *)
(** *** nlp/ZeroShotClassifier.ts *)

(** What the inference pipeline answers: [None] when [result.labels] is
    not an array, else [labels[i]] with [scores[i]]; or it throws. *)
Definition Scorer : Type :=
  str -> list str -> outcome (option (list (str * F))).

(** The classifier with the outcome of loading its model: [initialize]
    either throws or leaves the pipeline in [this.classifier]. *)
Record ZeroShotClassifier : Type := mkClassifier {
  zsModelName : str;
  pipeline : outcome Scorer
}.

Definition zeroScores (candidateLabels : list str)
  : list ClassificationResult :=
  map (fun label => mkClassification label num0) candidateLabels.

Definition zsClassify (z : ZeroShotClassifier) (text : str)
  (candidateLabels : list str) : outcome (list ClassificationResult) :=
  match pipeline z with
  | Throw e => Throw (lit "Failed to initialize classifier: " ++ e)
  | Ok classifier =>
      if length (trim text) =? 0 then Ok (zeroScores candidateLabels)
      else
        (* try *)
        match classifier text candidateLabels with
        | Ok result =>
            Ok (match result with
                | Some pairs =>
                    map (fun p => mkClassification (fst p) (snd p)) pairs
                | None => []
                end)
        | Throw _ =>
            (* catch: default scores if classification fails *)
            Ok (zeroScores candidateLabels)
        end
  end.

#[export] Instance ZeroShot_IClassifier : IClassifier ZeroShotClassifier :=
  {| classify := zsClassify |}.

(* ---------------------------------------------------------------- *)
(** *** nlp/ContentAnalyzer.ts *)

Section Analyzer.
Context {C : Type} `{IClassifier C}.

Record ContentAnalyzer : Type := mkAnalyzer {
  classifier : C;
  analyzerThreshold : F;
  analyzerLabels : list str
}.

Definition analyzerDefaultLabels : list str :=
  [lit "business_rule"; lit "formula"; lit "condition";
   lit "definition"; lit "text"].

(** The constructor; [None] is an absent option. *)
Definition newAnalyzer (c : C) (threshold : option F)
  (labels : option (list str)) : ContentAnalyzer :=
  mkAnalyzer c
    (match threshold with Some t => t | None => num0_5 end)
    (match labels with Some l => l | None => analyzerDefaultLabels end).

(** The body of the [for] loop of [analyzeText] over the paragraphs
    from index [i] on; [g] counts the identifiers drawn so far. *)
Fixpoint analyzeLoop (a : ContentAnalyzer) (pg : option nat)
  (paragraphs : list str) (i g : nat)
  : outcome (list ExtractedContent) :=
  match paragraphs with
  | [] => Ok []
  | paragraph :: paragraphs' =>
      if length paragraph <? 10 then analyzeLoop a pg paragraphs' (S i) g
      else
        classifications <-
          classify (classifier a) paragraph (analyzerLabels a) ;;
        match classifications with
        | [] => analyzeLoop a pg paragraphs' (S i) g
        | topClassification :: _ =>
            let confidence :=
              calculateConfidence paragraph (score topClassification) in
            if nle (analyzerThreshold a) confidence then
              more <- analyzeLoop a pg paragraphs' (S i) (S g) ;;
              Ok (mkContent (freshId g) (label topClassification)
                    paragraph confidence
                    (Some (mkPosition pg (Some i) None)) None
                  :: more)
            else analyzeLoop a pg paragraphs' (S i) g
        end
  end.

Definition analyzeText (a : ContentAnalyzer) (text : str)
  (pg : option nat) (g : nat) : outcome (list ExtractedContent) :=
  let paragraphs := splitIntoParagraphs (normalizeText text) in
  analyzeLoop a pg paragraphs 0 g.

Definition tableToText (table : TableData) : str :=
  let lines :=
    match headers table with
    | Some h => [join (lit " | ") h; repeat "-"%char 50]
    | None => []
    end in
  join [LF] (lines ++ map (join (lit " | ")) (rows table)).

Fixpoint analyzeTables (tables : list TableData) (pg : option nat)
  (g : nat) : list ExtractedContent :=
  match tables with
  | [] => []
  | table :: tables' =>
      mkContent (freshId g) (lit "table") (tableToText table) num1
        (Some (mkPosition pg None None)) (Some table)
      :: analyzeTables tables' pg (S g)
  end.

Definition setConfidenceThreshold (a : ContentAnalyzer) (threshold : F)
  : outcome ContentAnalyzer :=
  if nlt threshold num0 || nlt num1 threshold
  then Throw (lit "Confidence threshold must be between 0 and 1")
  else Ok (mkAnalyzer (classifier a) threshold (analyzerLabels a)).

Definition setClassificationLabels (a : ContentAnalyzer)
  (labels : list str) : outcome ContentAnalyzer :=
  if length labels =? 0
  then Throw (lit "Classification labels cannot be empty")
  else Ok (mkAnalyzer (classifier a) (analyzerThreshold a) labels).
End Analyzer.

(* ---------------------------------------------------------------- *)
(** *** DocumentExtractor.ts *)

(** Loading the model named in the configuration. *)
Variable loadPipeline : str -> outcome Scorer.

Record DocumentExtractor : Type := mkExtractor {
  config : ExtractorConfig;
  extractorClassifier : ZeroShotClassifier;
  analyzer : @ContentAnalyzer ZeroShotClassifier
}.

Definition newDocumentExtractor (c : PartialConfig)
  : outcome DocumentExtractor :=
  cfg <- parseConfig c ;;
  let classifier := mkClassifier (modelName cfg)
                      (loadPipeline (modelName cfg)) in
  Ok (mkExtractor cfg classifier
        (newAnalyzer classifier
           (Some (confidenceThreshold cfg))
           (Some (classificationLabels cfg)))).

(** [{ ...this.config, ...config }] *)
Definition spread (cfg : ExtractorConfig) (c : PartialConfig)
  : PartialConfig :=
  mkPartial
    (Some (match p_classificationLabels c with
           | Some l => l | None => classificationLabels cfg end))
    (Some (match p_confidenceThreshold c with
           | Some t => t | None => confidenceThreshold cfg end))
    (Some (match p_enableTableExtraction c with
           | Some b => b | None => enableTableExtraction cfg end))
    (Some (match p_modelName c with
           | Some m => m | None => modelName cfg end)).

(** [updateConfig]: the extractor after the call, and the error when the
    call throws.  [this.config] is assigned before the analyzer's setters
    run. *)
Definition updateConfig (d : DocumentExtractor) (c : PartialConfig)
  : DocumentExtractor * option str :=
  match parseConfig (spread (config d) c) with
  | Throw e => (d, Some e)
  | Ok cfg =>
      let d1 := mkExtractor cfg (extractorClassifier d) (analyzer d) in
      let step1 :=
        match p_confidenceThreshold c with
        | Some t => setConfidenceThreshold (analyzer d1) t
        | None => Ok (analyzer d1)
        end in
      match step1 with
      | Throw e => (d1, Some e)
      | Ok a1 =>
          let d2 := mkExtractor cfg (extractorClassifier d) a1 in
          match p_classificationLabels c with
          | Some l =>
              match setClassificationLabels a1 l with
              | Throw e => (d2, Some e)
              | Ok a2 =>
                  (mkExtractor cfg (extractorClassifier d) a2, None)
              end
          | None => (d2, None)
          end
      end
  end.

(** The text part of [extract]: what the analyzer is run on once a
    document is parsed. *)
Definition extractText (d : DocumentExtractor) (text : str)
  : outcome (list ExtractedContent) :=
  analyzeText (analyzer d) text None 0.

(* ---------------------------------------------------------------- *)
(** *** exporters/CsvExporter.ts *)

Definition csvHeaders : list str :=
  [lit "ID"; lit "Type"; lit "Content"; lit "Confidence"; lit "Page";
   lit "Paragraph"; lit "Has Table Data"].

Definition DQUOTE : ascii := ascii_of_nat 34.

Definition hasChar (c : ascii) (cell : str) : bool :=
  existsb (Ascii.eqb c) cell.

Definition needsQuotes (cell : str) : bool :=
  hasChar ","%char cell || hasChar DQUOTE cell || hasChar LF cell.

Definition escapeCsvCell (cell : str) : str :=
  if needsQuotes cell
  then [DQUOTE] ++ replaceChar DQUOTE [DQUOTE; DQUOTE] cell ++ [DQUOTE]
  else cell.

Definition escapeCsvRow (row : list str) : str :=
  join (lit ",") (map escapeCsvCell row).

Definition optNatToString (n : option nat) (dflt : str) : str :=
  match n with
  | Some k => natToString k
  | None => dflt
  end.

Definition csvRow (c : ExtractedContent) : list str :=
  [ id c;
    type c;
    replaceChar LF (lit " ") (content c);
    numToString (confidence c);
    optNatToString
      (match position c with Some p => page p | None => None end) [];
    optNatToString
      (match position c with Some p => paragraph p | None => None end) [];
    match tableData c with
    | Some _ => lit "Yes"
    | None => lit "No"
    end ].

Definition metadataRows (result : ExtractionResult) : list str :=
  [ [];
    lit "# Metadata";
    lit "# File Name: " ++ fileName (metadata result);
    lit "# File Type: " ++ fileType (metadata result);
    lit "# Extracted At: " ++ extractedAtISO (metadata result);
    lit "# Total Pages: "
      ++ optNatToString (totalPages (metadata result)) (lit "N/A");
    lit "# Total Paragraphs: "
      ++ optNatToString (totalParagraphs (metadata result)) (lit "N/A") ].

Definition summaryRows (result : ExtractionResult) : list str :=
  match summary result with
  | Some sm =>
      [ [];
        lit "# Summary";
        lit "# Total Items: " ++ natToString (totalItems sm);
        lit "# By Type:" ]
      ++ map (fun tc => lit "#   " ++ fst tc ++ lit ": "
                        ++ natToString (snd tc))
             (byType sm)
  | None => []
  end.

(** The array [rows] of [generateCsv], before it is joined. *)
Definition csvLines (result : ExtractionResult) (options : ExportOptions)
  : list str :=
  [escapeCsvRow csvHeaders]
  ++ map (fun c => escapeCsvRow (csvRow c)) (contents result)
  ++ (if includeMetadata options
      then metadataRows result ++ summaryRows result
      else []).

Definition generateCsv (result : ExtractionResult)
  (options : ExportOptions) : str :=
  join [LF] (csvLines result options).

End Pipeline.

(* ================================================================== *)
(** ** Notions used to state the properties *)
(* ================================================================== *)

Import PdfParser.

(** The cells of a line, as the loop of [extractTables] computes them, and
    the test that makes the line a table row. *)
Definition cellsOf (l : str) : list str := splitTableRow (trim l).
Definition isTableRow (l : str) : bool := 2 <=? length (cellsOf l).

(** All the tables found in a sequence of lines. *)
Definition tablesOf (lines : list str) : list TableData :=
  tableLoop lines [] [] false.

(** A sequence of lines after which no block is open, and one before which
    a block ends. *)
Definition endsClosed (lines : list str) : bool :=
  match rev lines with
  | [] => true
  | l :: _ => negb (isTableRow l)
  end.

Definition startsClosed (lines : list str) : bool :=
  match lines with
  | [] => true
  | l :: _ => negb (isTableRow l)
  end.

(** [sub] occurs in [s]. *)
Definition occursIn (sub s : str) : Prop :=
  exists pre post, s = pre ++ sub ++ post.

Definition headerTokens : list str :=
  [lit "name"; lit "type"; lit "description"; lit "value"].

(** A first row that the header rule accepts: one of its cells contains a
    token whatever the case of its letters, or has no digit. *)
Definition headerLike (firstRow : list str) : Prop :=
  exists cell, In cell firstRow /\
    ((exists tok, In tok headerTokens /\ occursIn tok (toLowerCase cell))
     \/ Forall (fun ch => isDigit ch = false) cell).

(** The text of scenario A, with one line break between the two
    assertions. *)
Definition scenarioA : str :=
  lit "Country: India, US, China" ++ [LF]
  ++ lit "TripType: OneWay, RoundTrip".

(** A report with a two-line table between two lines of prose. *)
Definition sampleTableText : str :=
  lit "Stock report" ++ [LF] ++ lit "Part  Qty" ++ [LF] ++ lit "Bolt  10"
  ++ [LF] ++ lit "Ten bolts in all.".

(** The words matched by a pattern. *)
Inductive Lang : regex -> str -> Prop :=
| LangChr p x : p x = true -> Lang (Chr p) [x]
| LangSeq r1 r2 s1 s2 :
    Lang r1 s1 -> Lang r2 s2 -> Lang (Seq r1 r2) (s1 ++ s2)
| LangAltL r1 r2 s : Lang r1 s -> Lang (Alt r1 r2) s
| LangAltR r1 r2 s : Lang r2 s -> Lang (Alt r1 r2) s
| LangStarNil r : Lang (Star r) []
| LangStarCons r s1 s2 :
    Lang r s1 -> Lang (Star r) s2 -> Lang (Star r) (s1 ++ s2)
| LangGroup i r s : Lang r s -> Lang (Group i r) s.

(** A pattern that may match the empty word. *)
Fixpoint nullable (r : regex) : bool :=
  match r with
  | Chr _ => false
  | Seq r1 r2 => nullable r1 && nullable r2
  | Alt r1 r2 => nullable r1 || nullable r2
  | Star _ => true
  | Group _ r1 => nullable r1
  end.

(** The greedy star of a character class in front of [k]: the longest run
    first, then one character less at a time. *)
Fixpoint backtrack {A} (p : ascii -> bool) (k : cont A) (s : str)
  (c : captures) : option A :=
  match s with
  | x :: s' =>
      if p x
      then match backtrack p k s' c with
           | Some a => Some a
           | None => k s c
           end
      else k s c
  | [] => k s c
  end.

(** Splitting at every character of a class. *)
Fixpoint splitWhere (p : ascii -> bool) (s : str) : list str :=
  match s with
  | [] => [[]]
  | x :: s' =>
      if p x then [] :: splitWhere p s'
      else match splitWhere p s' with
           | [] => [[x]]
           | h :: t => (x :: h) :: t
           end
  end.

(** What a successful run of the matcher has consumed is a word of the
    pattern, and the continuation has accepted what is left. *)
Definition sound_step (A : Type) (L : str -> Prop)
  (step : str -> captures -> cont A -> option A) : Prop :=
  forall s c k a, step s c k = Some a ->
    exists s1 s2 c', s = s1 ++ s2 /\ L s1 /\ k s2 c' = Some a.

(** The rounds [splitLoop] still needs. *)
Definition splitMeasure (piece s : str) : nat :=
  2 * length s + (if length piece =? 0 then 0 else 1).

(** A span with one of the delimiters [,], [;] and [|]. *)
Definition hasDelim (text : str) : bool := existsb isDelim text.

(** The value list as the claim words it: the first split is used iff it
    has two or more non-empty trimmed values, and the span is split on the
    conjunctions otherwise. *)
Definition splitValues_asClaimed (text : str) : list str :=
  let first := filter nonEmpty (map trim (splitWhere isDelim text)) in
  if 2 <=? length first then first
  else filter nonEmpty (map trim (jsSplit conjPattern text)).

(** The adjustment as the claim words it: the bonus for a text of more
    than 100 characters, the penalty for one of fewer than 20, and the
    rounding to two decimal places at the end. *)
Definition adjusted {F} `{NumOps F} (text : str) (s : F) : F :=
  if 100 <? length text then nmin num1 (nadd s num0_05)
  else if length text <? 20 then nmax num0 (nsub s num0_1)
  else s.

Definition confidence_asClaimed {F} `{NumOps F} (text : str) (s : F) : F :=
  round2 (adjusted text s).

(** A classifier whose model loads and whose inference always fails, and a
    paragraph of 101 characters. *)
Definition failingScorer {F : Type} : @Scorer F :=
  fun _ _ => Throw (lit "inference failed").

Definition failingClassifier {F : Type} : @ZeroShotClassifier F :=
  mkClassifier (lit "Xenova/distilbert-base-uncased-mnli") (Ok failingScorer).

Definition longParagraph : str := repeat "a"%char 101.

Definition shortParagraph : str := lit "A paragraph of text.".

(** A configuration that only sets an empty list of labels. *)
Definition emptyLabelsConfig {F : Type} : @PartialConfig F :=
  mkPartial (Some []) None None None.

(** A cell that needs quoting: it has a comma, a double quote or a line
    feed. *)
Definition mustQuote (cell : str) : Prop :=
  In ","%char cell \/ In DQUOTE cell \/ In LF cell.

(** A cell between double quotes, its own double quotes doubled. *)
Definition quoted (cell : str) : str :=
  [DQUOTE]
  ++ flat_map (fun x => if Ascii.eqb x DQUOTE then [DQUOTE; DQUOTE] else [x])
       cell
  ++ [DQUOTE].

(** A text with its line feeds turned into blanks. *)
Definition collapseLines (s : str) : str :=
  map (fun x => if Ascii.eqb x LF then " "%char else x) s.

(** A pattern without capture group. *)
Fixpoint groupFree (r : regex) : bool :=
  match r with
  | Chr _ => true
  | Seq r1 r2 => groupFree r1 && groupFree r2
  | Alt r1 r2 => groupFree r1 && groupFree r2
  | Star r1 => groupFree r1
  | Group _ _ => false
  end.

(** The parts of [colonPattern]. *)
Definition labelPattern : regex :=
  Seq (Plus reWord) (Star (Seq (Plus reSpace) (Plus reWord))).

Definition valuePattern : regex := Plus (Chr notSemiNl).

(** A non-empty run of characters of a class. *)
Definition runOf (p : ascii -> bool) (s : str) : Prop :=
  s <> [] /\ Forall (fun c => p c = true) s.

(** A label: word tokens with white space between them. *)
Inductive LabelTail : str -> Prop :=
| LabelTail_nil : LabelTail []
| LabelTail_cons ws w tl :
    runOf isSpace ws -> runOf isWord w -> LabelTail tl ->
    LabelTail (ws ++ w ++ tl).

Definition Label (k : str) : Prop :=
  exists w tl, runOf isWord w /\ LabelTail tl /\ k = w ++ tl.

(** A value as [splitValues] leaves it inside a span of [colonPattern]:
    not empty, trimmed, with no delimiter and no line feed. *)
Definition plainChar (c : ascii) : Prop := isDelim c = false /\ c <> LF.

Definition cleanValue (v : str) : Prop :=
  v <> [] /\ trim v = v /\ Forall plainChar v.

Definition fieldOk (f : StructuredField) : Prop :=
  Label (key f) /\ values f <> [] /\ Forall cleanValue (values f).

Definition entryOk (kv : str * list str) : Prop :=
  Label (fst kv) /\ snd kv <> [] /\ Forall cleanValue (snd kv).

(** Modelled from the spec: the serialization of a merged table back to
    text, one line [key: v1, v2, v3] for each key, which the sources do not
    have. *)
Definition serializeLine (kv : str * list str) : str :=
  fst kv ++ lit ": " ++ join (lit ", ") (snd kv).

Definition serialize (m : FieldMap) : str :=
  join [LF] (map serializeLine m).

(** Extracting again from the serialized table. *)
Definition reExtract (m : FieldMap) : FieldMap :=
  mergeFields (extractFields (serialize m)).

(** The same keys and, for each key, the same values whatever their
    order. *)
Definition valuesOf (k : str) (m : FieldMap) : list str :=
  match mapGet k m with
  | Some vs => vs
  | None => []
  end.

Definition sameTable (m1 m2 : FieldMap) : Prop :=
  (forall k, In k (mapKeys m1) <-> In k (mapKeys m2))
  /\ (forall k v, In v (valuesOf k m1) <-> In v (valuesOf k m2)).

(** A value in which the conjunction pattern matches somewhere. *)
Definition hasConjunction (v : str) : bool :=
  match search conjPattern v with
  | Some _ => true
  | None => false
  end.

(** No key has, as its only value, a value with a conjunction. *)
Definition singleValuesPlain (m : FieldMap) : bool :=
  forallb (fun kv => match snd kv with
                     | [v] => negb (hasConjunction v)
                     | _ => true
                     end) m.

(** The field read back from one serialized line. *)
Definition lineField (kv : str * list str) : StructuredField :=
  mkField (fst kv) (snd kv) (serializeLine kv).

(** A pattern without group hands the captures on as they are. *)
Definition sound_step_gf (A : Type) (L : str -> Prop)
  (step : str -> captures -> cont A -> option A) : Prop :=
  forall s c k a, step s c k = Some a ->
    exists s1 s2, s = s1 ++ s2 /\ L s1 /\ k s2 c = Some a.

(** A text with a key that has one value and a key that has two. *)
Definition statusText : str :=
  lit "Status: Active" ++ [LF] ++ lit "Country: India, US".

(* ================================================================== *)
(** ** Further parts of the sources, with the notions used to state
       their properties *)
(* ================================================================== *)

(** The fields of a list that have a given key, in their order. *)
Definition fieldsOf (k : str) (fs : list StructuredField)
  : list StructuredField :=
  filter (fun f => str_eqb (key f) k) fs.

(** [row[key]] for an own property of a row. *)
Fixpoint rowGet (k : str) (row : Row) : option str :=
  match row with
  | [] => None
  | (k', v) :: row' => if str_eqb k' k then Some v else rowGet k row'
  end.

(** The third format that the comment of [extractFields] announces. *)
Definition semicolonText : str := lit "Status : Active ; Pending ; Closed".

(** No two neighbours in a text are both in a class. *)
Fixpoint noAdjacent (p : ascii -> bool) (s : str) : Prop :=
  match s with
  | [] => True
  | x :: s' =>
      match s' with
      | [] => True
      | y :: _ => ~ (p x = true /\ p y = true)
      end
      /\ noAdjacent p s'
  end.

(** The characters of a text that are not white space. *)
Definition inkOf (s : str) : str := filter (fun c => negb (isSpace c)) s.

(** A text with each run of characters of a class replaced by [by_];
    [inRun] tells that the character before was in the class. *)
Fixpoint squeezeRuns (p : ascii -> bool) (by_ : str) (inRun : bool)
  (s : str) : str :=
  match s with
  | [] => []
  | x :: s' =>
      if p x
      then (if inRun then [] else by_) ++ squeezeRuns p by_ true s'
      else x :: squeezeRuns p by_ false s'
  end.

(** A cell as [splitTableRow] leaves it. *)
Definition cellOk (cell : str) : Prop :=
  cell <> [] /\ trim cell = cell /\ ~ In TAB cell
  /\ noAdjacent isSpace cell.

(** A table as [extractTables] builds it from a block of lines: the block
    has two lines or more, each with two cells or more. *)
Definition tableOk (t : TableData) : Prop :=
  rows t <> []
  /\ Forall (fun r => 2 <= length r /\ Forall cellOk r) (rows t)
  /\ match headers t with
     | Some h => 2 <= length h /\ Forall cellOk h
     | None => 2 <= length (rows t)
     end.

(* ================================================================== *)
(** ** More of utils/helpers.ts *)
(* ================================================================== *)

(** [String.prototype.match] with a global pattern: the matched texts from
    left to right, the search starting again where the last match ended
    (one character further after an empty match).  No match at all is
    [null], here [None]. *)
Fixpoint matchAllLoop (r : regex) (fuel : nat) (s : str) : list str :=
  match fuel with
  | O => []
  | S fuel' =>
      match search r s with
      | None => []
      | Some m =>
          matched m ::
          (if length (matched m) =? 0
           then match rest m with
                | [] => []
                | _ :: s' => matchAllLoop r fuel' s'
                end
           else matchAllLoop r fuel' (rest m))
      end
  end.

Definition jsMatchAll (r : regex) (s : str) : option (list str) :=
  match matchAllLoop r (S (length s)) s with
  | [] => None
  | l => Some l
  end.

Module MoreHelpers.

(** [[.!?]] *)
Definition isTerm (c : ascii) : bool :=
  Ascii.eqb c "."%char || Ascii.eqb c "!"%char || Ascii.eqb c "?"%char.

Definition notTerm (c : ascii) : bool := negb (isTerm c).

(** [/[^.!?]+[.!?]+/g] *)
Definition sentencePattern : regex :=
  Seq (Plus (Chr notTerm)) (Plus (Chr isTerm)).

Definition splitIntoSentences (text : str) : list str :=
  let sentences :=
    match jsMatchAll sentencePattern text with
    | Some l => l
    | None => [text]
    end in
  filter nonEmpty (map trim sentences).

(** [[^a-z0-9_\-\.]] under the flag [i]: every character but the letters
    of both cases, the digits, [_], [-] and [.]. *)
Definition unsafeChar (c : ascii) : bool :=
  let n := code c in
  negb (((97 <=? n) && (n <=? 122)) || ((65 <=? n) && (n <=? 90))
        || isDigit c || Ascii.eqb c "_"%char || Ascii.eqb c "-"%char
        || Ascii.eqb c "."%char).

Definition sanitizeFilename (filename : str) : str :=
  replaceAll (Chr unsafeChar) (lit "_") filename.

End MoreHelpers.

Import MoreHelpers.

(** A text in which a character that ends no sentence is followed by one
    that ends a sentence. *)
Fixpoint hasSentenceEnd (s : str) : bool :=
  match s with
  | [] => false
  | x :: t =>
      match t with
      | [] => false
      | y :: _ => (notTerm x && isTerm y) || hasSentenceEnd t
      end
  end.


(* ---------------------------------------------------------------- *)
(** *** nlp/ZeroShotClassifier.ts: [classifyBatch] *)

Section Batch.
Context {F : Type} `{NumOps F}.

(** The [for] loop of [classifyBatch]: a text whose classification throws
    ends the loop, and the results gathered so far are lost. *)
Fixpoint classifyBatch (z : @ZeroShotClassifier F) (texts : list str)
  (candidateLabels : list str)
  : outcome (list (list (@ClassificationResult F))) :=
  match texts with
  | [] => Ok []
  | text :: texts' =>
      result <- zsClassify z text candidateLabels ;;
      results <- classifyBatch z texts' candidateLabels ;;
      Ok (result :: results)
  end.

(** The analyzer works with the threshold and the labels of the
    configuration. *)
Definition inSync (d : @DocumentExtractor F) : Prop :=
  analyzerThreshold (analyzer d) = confidenceThreshold (config d)
  /\ analyzerLabels (analyzer d) = classificationLabels (config d).

(** A model that gives every label the score 0.5. *)
Definition evenScorer : @Scorer F :=
  fun _ labels => Ok (Some (map (fun l => (l, num0_5)) labels)).

Definition evenClassifier : @ZeroShotClassifier F :=
  mkClassifier (lit "Xenova/distilbert-base-uncased-mnli") (Ok evenScorer).

End Batch.

(** An extractor with the default configuration, and an update that only
    sets an empty list of labels. *)
Definition sampleExtractor : @DocumentExtractor PrimFloat.float :=
  let cfg := mkConfig defaultLabels (@num0_5 _ Binary64.B64Ops) true
               (lit "Xenova/distilbert-base-uncased-mnli") in
  mkExtractor cfg (@evenClassifier _ Binary64.B64Ops)
    (@newAnalyzer _ Binary64.B64Ops _ (@evenClassifier _ Binary64.B64Ops)
       (Some (confidenceThreshold cfg)) (Some (classificationLabels cfg))).

(* ---------------------------------------------------------------- *)
(** *** DocumentExtractor.ts: [calculateSummary] *)

(** A number held in [byType]: a count, or the [NaN] that [++] leaves when
    what it read is not a number. *)
Inductive Count : Type :=
| Num (n : nat)
| NaN.

(** What reading a property of [byType] gives. *)
Inductive Read : Type :=
| Undefined
| Number (c : Count)
| Inherited.                    (* a function or object of Object.prototype *)

(** The names every object inherits from [Object.prototype]. *)
Definition inheritedNames : list str :=
  [lit "constructor"; lit "__defineGetter__"; lit "__defineSetter__";
   lit "hasOwnProperty"; lit "__lookupGetter__"; lit "__lookupSetter__";
   lit "isPrototypeOf"; lit "propertyIsEnumerable"; lit "toString";
   lit "valueOf"; lit "__proto__"; lit "toLocaleString"].

(** The own properties of an object, in the order they were created. *)
Fixpoint ownGet {V} (k : str) (o : list (str * V)) : option V :=
  match o with
  | [] => None
  | (k', v) :: o' => if str_eqb k' k then Some v else ownGet k o'
  end.

Fixpoint ownSet {V} (k : str) (v : V) (o : list (str * V))
  : list (str * V) :=
  match o with
  | [] => [(k, v)]
  | (k', v') :: o' =>
      if str_eqb k' k then (k, v) :: o' else (k', v') :: ownSet k v o'
  end.

(** [byType[k]] *)
Definition readCount (k : str) (byType : list (str * Count)) : Read :=
  match ownGet k byType with
  | Some c => Number c
  | None => if arrIncludes inheritedNames k then Inherited else Undefined
  end.

(** [byType[k] = c]: the setter of [__proto__] ignores a number. *)
Definition writeCount (k : str) (c : Count) (byType : list (str * Count))
  : list (str * Count) :=
  if str_eqb k (lit "__proto__") then byType else ownSet k c byType.

(** [!v] *)
Definition falsy (v : Read) : bool :=
  match v with
  | Undefined => true
  | Number (Num 0) => true
  | Number NaN => true
  | _ => false
  end.

(** [v + 1] after the conversion of [v] to a number *)
Definition increment (v : Read) : Count :=
  match v with
  | Number (Num n) => Num (S n)
  | _ => NaN
  end.

(** The body of the loop of [calculateSummary]. *)
Definition countStep (byType : list (str * Count)) (k : str)
  : list (str * Count) :=
  let byType :=
    if falsy (readCount k byType) then writeCount k (Num 0) byType
    else byType in
  writeCount k (increment (readCount k byType)) byType.

(** [totalItems] and [byType]. *)
Definition calculateSummary {F : Type} (contents : list (@ExtractedContent F))
  : nat * list (str * Count) :=
  (length contents,
   fold_left (fun byType c => countStep byType (type c)) contents []).

(** The number of units of a type, and the total of the counts. *)
Definition unitsOfType {F : Type} (k : str)
  (contents : list (@ExtractedContent F)) : nat :=
  length (filter (fun c => str_eqb (type c) k) contents).

Definition countValue (c : Count) : nat :=
  match c with
  | Num n => n
  | NaN => 0
  end.

Definition totalCount (byType : list (str * Count)) : nat :=
  list_sum (map (fun kv => countValue (snd kv)) byType).

(* ---------------------------------------------------------------- *)
(** *** exporters/ExcelExporter.ts *)

(** An array that may have holes: [None] is a hole, and reading a hole or
    past the end gives [undefined]. *)
Definition arrGet {A} (i : nat) (a : list (option A)) : option A :=
  nth i a None.

(** [a[i] = v]: writing past the end leaves holes before the index. *)
Definition arrSet {A} (i : nat) (v : A) (a : list (option A))
  : list (option A) :=
  if i <? length a then firstn i a ++ Some v :: skipn (S i) a
  else a ++ repeat None (i - length a) ++ [Some v].

(** [cell?.toString() || ''] for a cell given by its text; [None] is a
    cell that is [null] or [undefined]. *)
Definition cellText (cell : option str) : str :=
  match cell with
  | Some s => s
  | None => []
  end.

(** [row.forEach((cell, colIndex) => ...)] visits the cells with their
    indices. *)
Definition indexed {A} (l : list A) : list (nat * A) :=
  combine (seq 0 (length l)) l.

Definition colStep (colWidths : list (option nat)) (ic : nat * option str)
  : list (option nat) :=
  let cellLength := length (cellText (snd ic)) in
  let current :=                       (* colWidths[colIndex] || 10 *)
    match arrGet (fst ic) colWidths with
    | Some (S w) => S w
    | _ => 10
    end in
  arrSet (fst ic) (Nat.max current (Nat.min (cellLength + 2) 50)) colWidths.

(** The widths that [autoSizeColumns] stores in [worksheet['!cols']]. *)
Definition autoSizeColumns (data : list (list (option str)))
  : list (option nat) :=
  fold_left (fun colWidths row => fold_left colStep (indexed row) colWidths)
            data [].

(** The width a cell asks for, the widths after a row when no width is a
    hole, and the largest width asked for in a column. *)
Definition cellWidth (cell : option str) : nat :=
  Nat.min (length (cellText cell) + 2) 50.

Fixpoint mergeRow (w : list nat) (row : list (option str)) : list nat :=
  match row with
  | [] => w
  | cell :: row' =>
      match w with
      | [] => Nat.max 10 (cellWidth cell) :: mergeRow [] row'
      | x :: w' => Nat.max x (cellWidth cell) :: mergeRow w' row'
      end
  end.

Definition asked (j : nat) (row : list (option str)) : nat :=
  match nth_error row j with
  | Some cell => cellWidth cell
  | None => 0
  end.

Definition colMax (j : nat) (data : list (list (option str))) : nat :=
  fold_right Nat.max 0 (map (asked j) data).

(** The number that a string of digits writes. *)
Definition decimalValue (k : str) : N :=
  fold_left (fun n c => (10 * n + N.of_nat (code c - 48))%N) k 0%N.

(** An array index: the decimal numeral, without a leading zero, of a
    number below [2^32 - 1]. *)
Definition isArrayIndex (k : str) : bool :=
  match k with
  | [] => false
  | c :: k' =>
      forallb isDigit k
      && (negb (Ascii.eqb c "0"%char) || (length k' =? 0))
      && (decimalValue k <? 4294967295)%N
  end.

Fixpoint insertIndex (k : str) (sorted : list str) : list str :=
  match sorted with
  | [] => [k]
  | k' :: sorted' =>
      if (decimalValue k <=? decimalValue k')%N then k :: sorted
      else k' :: insertIndex k sorted'
  end.

(** [Object.keys]: the array indices in ascending order, then the other
    names in the order of their creation. *)
Definition objectKeys {V} (o : list (str * V)) : list str :=
  fold_right insertIndex [] (filter isArrayIndex (map fst o))
  ++ filter (fun k => negb (isArrayIndex k)) (map fst o).

(** [addStructuredDataSheet]: the rows handed to [aoa_to_sheet], and the
    column widths when they are set. *)
Definition addStructuredDataSheet {F : Type} (result : @ExtractionResult F)
  : list (list (option str)) * option (list (option nat)) :=
  let texts := map (@content F) (contents result) in
  let structuredData := extractToExcelFormat texts in
  match structuredData with
  | [] => ([[Some (lit "No structured key-value data found")]], None)
  | first :: _ =>
      let keys := objectKeys first in
      let data :=
        map Some keys
        :: map (fun row => map (fun key => rowGet key row) keys)
               structuredData in
      (data, Some (autoSizeColumns data))
  end.

(** A result whose one unit holds the text of scenario A. *)
Definition scenarioResult : @ExtractionResult nat :=
  mkResult (mkMetadata (lit "rules.pdf") (lit "pdf")
              (lit "2024-01-01T00:00:00.000Z") None None)
    [mkContent (lit "1") (lit "text") scenarioA 1 None None] None.

(* ---------------------------------------------------------------- *)
(** *** Reading a line of the CSV text *)

(** A reader of the first cell of a line, with what follows the cell: a
    cell that opens with a double quote runs to the closing one, two
    double quotes standing for one; any other cell runs to the next
    comma. *)
Fixpoint plainCell (s : str) : str * str :=
  match s with
  | [] => ([], [])
  | x :: t =>
      if Ascii.eqb x ","%char then ([], s)
      else let cr := plainCell t in (x :: fst cr, snd cr)
  end.

Fixpoint quotedCell (s : str) : option (str * str) :=
  match s with
  | [] => None
  | x :: t =>
      if Ascii.eqb x DQUOTE then
        match t with
        | [] => Some ([], [])
        | y :: t' =>
            if Ascii.eqb y DQUOTE
            then option_map (fun cr => (DQUOTE :: fst cr, snd cr))
                            (quotedCell t')
            else Some ([], t)
        end
      else option_map (fun cr => (x :: fst cr, snd cr)) (quotedCell t)
  end.

Definition readCell (s : str) : option (str * str) :=
  match s with
  | [] => Some ([], [])
  | x :: t => if Ascii.eqb x DQUOTE then quotedCell t else Some (plainCell s)
  end.

(** What follows a cell in a line: nothing, or a comma and more cells. *)
Definition cellEnd (rest : str) : Prop :=
  rest = [] \/ exists r, rest = ","%char :: r.

(** The lines of the text of a table: the header and a rule of 50 dashes
    when there is a header, then the rows. *)
Definition tableLines (table : TableData) : list str :=
  match headers table with
  | Some h => [join (lit " | ") h; repeat "-"%char 50]
  | None => []
  end
  ++ map (join (lit " | ")) (rows table).

(** Every cell of a table is free of line feeds. *)
Definition oneLineCells (table : TableData) : Prop :=
  Forall (Forall (fun cell => ~ In LF cell)) (rows table)
  /\ match headers table with
     | Some h => Forall (fun cell => ~ In LF cell) h
     | None => True
     end.

(* ================================================================== *)
(** ** parsers/DocxParser.ts *)
(* ================================================================== *)

(** [String.prototype.replace] with a global pattern and a replacement
    built from the match, as [$1] is. *)
Fixpoint replaceLoopWith (r : regex) (by_ : Match -> str) (fuel : nat)
  (s : str) : str :=
  match fuel with
  | O => s
  | S fuel' =>
      match matchAt r s with
      | Some m =>
          by_ m ++
          (if length (matched m) =? 0
           then match s with
                | [] => []
                | x :: s' => x :: replaceLoopWith r by_ fuel' s'
                end
           else replaceLoopWith r by_ fuel' (rest m))
      | None =>
          match s with
          | [] => []
          | x :: s' => x :: replaceLoopWith r by_ fuel' s'
          end
      end
  end.

Definition replaceAllWith (r : regex) (by_ : Match -> str) (s : str) : str :=
  replaceLoopWith r by_ (S (length s)) s.

(** The pattern of a text that is matched as it is written, [c] being its
    first character. *)
Fixpoint word (c : ascii) (s : str) : regex :=
  match s with
  | [] => chr c
  | d :: s' => Seq (chr c) (word d s')
  end.

Module DocxParser.

Definition notGt (c : ascii) : bool := negb (Ascii.eqb c ">"%char).
Definition notLt (c : ascii) : bool := negb (Ascii.eqb c "<"%char).

(** [/<w:t [^>]* > ( [^<]* ) <\/w:t>/g], written here with blanks between
    its parts. *)
Definition textRun : regex :=
  Seq (word "<" (lit "w:t"))
 (Seq (Star (Chr notGt))
 (Seq (chr ">"%char)
 (Seq (Group 1 (Star (Chr notLt)))
      (word "<" (lit "/w:t>"))))).

(** [/<w:p[^>]*>/g] *)
Definition paragraphTag : regex :=
  Seq (word "<" (lit "w:p")) (Seq (Star (Chr notGt)) (chr ">"%char)).

(** [/<[^>]+>/g] *)
Definition anyTag : regex :=
  Seq (chr "<"%char) (Seq (Plus (Chr notGt)) (chr ">"%char)).

(** [/\n+/g] *)
Definition lineFeeds : regex := Plus (chr LF).

(** [extractText], from what unzipping the buffer gives: the text of
    [word/document.xml], [None] when the archive has no such file; or an
    error. *)
Definition extractText (unzipped : outcome (option str)) : outcome str :=
  match unzipped with
  | Throw e => Throw (lit "Failed to extract text: " ++ e)
  | Ok None | Ok (Some []) =>
      Throw (lit "Failed to extract text: "
             ++ lit "Could not find document.xml in DOCX file")
  | Ok (Some xml) =>
      let text := replaceAllWith textRun (fun m => group 1 (caps m)) xml in
      let text := replaceAll paragraphTag [LF] text in
      let text := replaceAll anyTag [] text in
      Ok (trim (replaceAll lineFeeds [LF] text))
  end.

(** [text.split('\n\n').filter((p) => p.trim()).length] in [parse] *)
Definition paragraphCount (text : str) : nat :=
  length (filter (fun p => nonEmpty (trim p))
                 (jsSplit (Seq (chr LF) (chr LF)) text)).

End DocxParser.

(** A document of two paragraphs. *)
Definition twoParagraphs : str :=
  lit "<w:body><w:p><w:r><w:t>Alpha</w:t></w:r></w:p>"
  ++ lit "<w:p><w:r><w:t xml:space='preserve'>Beta </w:t></w:r></w:p>"
  ++ lit "</w:body>".

(* ================================================================== *)
(** ** cli.ts: the [extract] command *)
(* ================================================================== *)

Section Cli.
Context {F : Type} `{NumOps F}.
Variable loadPipeline : str -> outcome (@Scorer F).

(** [options.labels.split(',').map((label) => label.trim())] *)
Definition cliLabels (labels : str) : list str :=
  map trim (splitOnChar ","%char labels).

(** The action of the command up to the construction of the extractor,
    from the threshold that [parseFloat] read and the other options.
    [Throw] is the message printed before [process.exit(1)]. *)
Definition cliExtractor (confidenceThreshold : F) (format labels : str)
  (tables : bool) (model : str) : outcome (@DocumentExtractor F) :=
  if nisNaN confidenceThreshold || nlt confidenceThreshold num0
     || nlt num1 confidenceThreshold
  then Throw (lit "Error: Confidence threshold must be between 0 and 1")
  else
    let format := toLowerCase format in
    if negb (str_eqb format (lit "json")) && negb (str_eqb format (lit "csv"))
       && negb (str_eqb format (lit "xlsx"))
    then Throw (lit "Error: Format must be either "
                ++ [DQUOTE] ++ lit "json" ++ [DQUOTE] ++ lit ", "
                ++ [DQUOTE] ++ lit "csv" ++ [DQUOTE] ++ lit ", or "
                ++ [DQUOTE] ++ lit "xlsx" ++ [DQUOTE])
    else
      match newDocumentExtractor loadPipeline
              (mkPartial (Some (cliLabels labels))
                 (Some confidenceThreshold) (Some tables) (Some model)) with
      | Ok extractor => Ok extractor
      | Throw message => Throw (lit "Error: " ++ message)
      end.

End Cli.

(** A result with one unit, whose content runs over two lines, and the
    options of an export without metadata. *)
Definition twoLineResult : @ExtractionResult nat :=
  mkResult (mkMetadata (lit "rules.pdf") (lit "pdf")
              (lit "2024-01-01T00:00:00.000Z") None None)
    [mkContent (lit "7") (lit "business_rule")
       (lit "Orders above 100, ship free." ++ [LF] ++ lit "Others pay 5.")
       1 (Some (mkPosition None (Some 0) None)) None]
    None.

Definition plainOptions : ExportOptions :=
  mkOptions (lit "out.csv") false true.


(* ================================================================== *)
(** ** DocumentExtractor.ts: [extract] on a PDF document *)
(* ================================================================== *)

(** [ParsedDocument] *)
Record ParsedDocument : Type := mkParsed {
  text : str;
  tables : list TableData;
  pageCount : option nat;
  paragraphCount : option nat
}.

(** [PdfParser.parse], from what [pdf-parse] gives for the file: the text
    and the number of pages, or an error. *)
Definition parsePdf (data : outcome (str * nat)) : outcome ParsedDocument :=
  match data with
  | Ok (text, numpages) =>
      Ok (mkParsed text (extractTables text) (Some numpages) None)
  | Throw e => Throw (lit "Failed to parse PDF file: " ++ e)
  end.

Section Extract.
Context {F : Type} `{NumOps F}.
Variable freshId : nat -> str.

(** [extract]: [parsed] is the outcome of choosing the parser and parsing
    the file, [fileName] and [fileType] are [path.basename(filePath)] and
    [getDocumentType(filePath)], [now] is the date of the call, and [g]
    counts the identifiers drawn before the call. *)
Definition extract (d : @DocumentExtractor F)
  (parsed : outcome ParsedDocument) (fileName fileType now : str) (g : nat)
  : outcome (DocumentMetadata * list (@ExtractedContent F)
             * (nat * list (str * Count))) :=
  match pipeline (extractorClassifier d) with   (* classifier.isReady() *)
  | Throw e => Throw (lit "Failed to initialize classifier: " ++ e)
  | Ok _ =>
      parsedDoc <- parsed ;;
      textContents <-
        analyzeText freshId (analyzer d) (text parsedDoc) None g ;;
      let tableContents :=
        if enableTableExtraction (config d)
           && (0 <? length (tables parsedDoc))
        then analyzeTables freshId (tables parsedDoc) None
               (g + length textContents)
        else [] in
      let allContents := textContents ++ tableContents in
      let summary := calculateSummary allContents in
      Ok (mkMetadata fileName fileType now (pageCount parsedDoc)
            (paragraphCount parsedDoc),
          allContents, summary)
  end.

End Extract.

(** A PDF text with a sentence and a table of two lines. *)
Definition pdfSample : str :=
  lit "Orders above 100 ship free." ++ [LF]
  ++ lit "Name   Price" ++ [LF] ++ lit "Pen    2".

(* ================================================================== *)
(** ** utils/helpers.ts: [looksLikeFormula] and [looksLikeCondition] *)
(* ================================================================== *)

(** [RegExp.prototype.test] for a pattern without [\b]. *)
Definition testPattern (r : regex) (text : str) : bool :=
  match search r text with
  | Some _ => true
  | None => false
  end.

(** [\b] between a character that is, or is not, a word character
    ([before]; there is none at the start of the text) and what follows. *)
Definition boundary (before : bool) (s : str) : bool :=
  xorb before (match s with x :: _ => isWord x | [] => false end).

(** Whether the character before [s'] is a word character, for a match
    that started at [s] after a character that was one or not ([prev]). *)
Definition wordBefore (prev : bool) (s s' : str) : bool :=
  match rev (firstn (length s - length s') s) with
  | x :: _ => isWord x
  | [] => prev
  end.

(** [/\b r \b/.test(text)]: the first [\b] is checked before the matcher
    starts at a position, the second by its continuation, so that the
    matcher backtracks into [r] when it fails. *)
Fixpoint testBounded (r : regex) (prev : bool) (s : str) : bool :=
  (boundary prev s
   && match matchR r s []
              (fun s' _ =>
                 if boundary (wordBefore prev s s') s' then Some tt
                 else None) with
      | Some _ => true
      | None => false
      end)
  || match s with
     | [] => false
     | x :: t => testBounded r (isWord x) t
     end.

(** A character and a text under the flag [i], and a choice between
    patterns. *)
Definition chrCI (c : ascii) : regex :=
  Chr (fun x => Ascii.eqb (lowerChar x) (lowerChar c)).

Fixpoint wordCI (c : ascii) (s : str) : regex :=
  match s with
  | [] => chrCI c
  | d :: s' => Seq (chrCI c) (wordCI d s')
  end.

Fixpoint oneOf (r : regex) (rs : list regex) : regex :=
  match rs with
  | [] => r
  | r' :: rs' => Alt r (oneOf r' rs')
  end.

Module Looks.

(** [[+\-*/=()]], [[+\-*/]], [[A-Z]] and [[<>=!]] *)
Definition opChar (c : ascii) : bool :=
  existsb (Ascii.eqb c) (lit "+-*/=()").
Definition arithChar (c : ascii) : bool :=
  existsb (Ascii.eqb c) (lit "+-*/").
Definition isUpper (c : ascii) : bool :=
  let n := code c in (65 <=? n) && (n <=? 90).
Definition cmpChar (c : ascii) : bool :=
  existsb (Ascii.eqb c) (lit "<>=!").

(** [(SUM|AVG|COUNT|MAX|MIN|IF|THEN|ELSE)] under the flag [i] *)
Definition formulaWords : regex :=
  oneOf (wordCI "S" (lit "UM"))
    [wordCI "A" (lit "VG"); wordCI "C" (lit "OUNT"); wordCI "M" (lit "AX");
     wordCI "M" (lit "IN"); wordCI "I" (lit "F"); wordCI "T" (lit "HEN");
     wordCI "E" (lit "LSE")].

(** [/\d+\s*[+\-*/]\s*\d+/] *)
Definition arithmetic : regex :=
  Seq (Plus (Chr isDigit))
 (Seq (Star reSpace)
 (Seq (Chr arithChar)
 (Seq (Star reSpace) (Plus (Chr isDigit))))).

(** [/[A-Z]\d+/] *)
Definition cellReference : regex := Seq (Chr isUpper) (Plus (Chr isDigit)).

(** [formulaPatterns.some((pattern) => pattern.test(text))] *)
Definition looksLikeFormula (text : str) : bool :=
  testPattern (Chr opChar) text
  || testBounded formulaWords false text
  || testPattern arithmetic text
  || testPattern cellReference text.

(** [(if|when|where|unless|provided that|in case)],
    [(must|should|shall|may|can|cannot)] and [(and|or|not)] under the
    flag [i] *)
Definition conditionWords : regex :=
  oneOf (wordCI "i" (lit "f"))
    [wordCI "w" (lit "hen"); wordCI "w" (lit "here");
     wordCI "u" (lit "nless"); wordCI "p" (lit "rovided that");
     wordCI "i" (lit "n case")].

Definition modalWords : regex :=
  oneOf (wordCI "m" (lit "ust"))
    [wordCI "s" (lit "hould"); wordCI "s" (lit "hall");
     wordCI "m" (lit "ay"); wordCI "c" (lit "an");
     wordCI "c" (lit "annot")].

Definition logicWords : regex :=
  oneOf (wordCI "a" (lit "nd")) [wordCI "o" (lit "r"); wordCI "n" (lit "ot")].

(** [conditionPatterns.some((pattern) => pattern.test(text))] *)
Definition looksLikeCondition (text : str) : bool :=
  testBounded conditionWords false text
  || testBounded modalWords false text
  || testBounded logicWords false text
  || testPattern (Plus (Chr cmpChar)) text.

End Looks.

(* ================================================================== *)
(** * Properties *)
(* ================================================================== *)

Unset Implicit Arguments.

(** ** Strings *)

Lemma isPrefixOf_spec (p s : str) :
  isPrefixOf p s = true <-> exists post, s = p ++ post.
Proof.
  revert s. induction p as [|a p IH]; intros s; simpl.
  - split; [intros _; now exists s | reflexivity].
  - destruct s as [|b s].
    + split; [discriminate | intros [post Hp]; discriminate].
    + rewrite andb_true_iff, Ascii.eqb_eq, IH. split.
      * intros [-> [post ->]]. now exists post.
      * intros [post Hp]. injection Hp as -> ->. split; [reflexivity | now exists post].
Qed.

Lemma includes_spec (s sub : str) :
  includes s sub = true <-> occursIn sub s.
Proof.
  unfold occursIn. induction s as [|x s IH].
  - simpl. rewrite orb_false_r, isPrefixOf_spec. split.
    + intros [post Hp]. now exists [], post.
    + intros [pre [post Hp]]. destruct pre; [now exists post | discriminate].
  - cbn [includes]. rewrite orb_true_iff, isPrefixOf_spec, IH. split.
    + intros [[post Hp] | [pre [post Hp]]].
      * now exists [], post.
      * exists (x :: pre), post. now rewrite Hp.
    + intros [pre [post Hp]]. destruct pre as [|y pre].
      * left. now exists post.
      * right. injection Hp as _ Hp. now exists pre, post.
Qed.

Lemma existsb_isDigit_false (cell : str) :
  existsb isDigit cell = false <-> Forall (fun ch => isDigit ch = false) cell.
Proof.
  induction cell as [|x cell IH]; simpl.
  - split; [constructor | reflexivity].
  - rewrite orb_false_iff, IH. split.
    + intros [Hx Hc]. now constructor.
    + intros Hf. inversion Hf; subst. now split.
Qed.

(** ** The table heuristic of the PDF parser *)

Lemma cellLooksLikeHeader_spec (cell : str) :
  cellLooksLikeHeader cell = true <->
  ((exists tok, In tok headerTokens /\ occursIn tok (toLowerCase cell))
   \/ Forall (fun ch => isDigit ch = false) cell).
Proof.
  unfold cellLooksLikeHeader.
  rewrite !orb_true_iff, negb_true_iff, existsb_isDigit_false, !includes_spec.
  unfold headerTokens. split.
  - intros [[[[Hn | Ht] | Hd] | Hv] | Hnd]; [left .. | right; exact Hnd];
      eexists; (split; [ | eassumption ]); simpl; tauto.
  - intros [[tok [Hin Hocc]] | Hnd]; [ | right; exact Hnd ].
    simpl in Hin.
    destruct Hin as [<- | [<- | [<- | [<- | []]]]]; tauto.
Qed.

Lemma detectHeaders_spec (firstRow : list str) (others : list (list str)) :
  detectHeaders (firstRow :: others) = Some firstRow <-> headerLike firstRow.
Proof.
  unfold detectHeaders, headerLike.
  destruct (existsb cellLooksLikeHeader firstRow) eqn:E.
  - split; [intros _ | reflexivity].
    apply existsb_exists in E. destruct E as [cell [Hin Hc]].
    exists cell. split; [exact Hin | now apply cellLooksLikeHeader_spec].
  - split; [discriminate | ].
    intros [cell [Hin Hc]]. apply cellLooksLikeHeader_spec in Hc.
    assert (existsb cellLooksLikeHeader firstRow = true)
      by (apply existsb_exists; eauto).
    congruence.
Qed.

Lemma detectHeaders_None (firstRow : list str) (others : list (list str)) :
  detectHeaders (firstRow :: others) = None <-> ~ headerLike firstRow.
Proof.
  rewrite <- (detectHeaders_spec firstRow others). unfold detectHeaders.
  destruct (existsb cellLooksLikeHeader firstRow); intuition congruence.
Qed.

(** C6.  For a detected block, the first row is the header exactly when one
    of its cells contains [name], [type], [description] or [value] in any
    letter case, or has no digit; the rows are then the block without its
    first row, and otherwise the whole block, with no header. *)
Theorem header_detection (firstRow : list str) (others : list (list str)) :
  (headers (closeBlock (firstRow :: others)) = Some firstRow
   <-> headerLike firstRow)
  /\ (headerLike firstRow
      <-> closeBlock (firstRow :: others) = mkTable (Some firstRow) others)
  /\ (~ headerLike firstRow
      <-> closeBlock (firstRow :: others)
          = mkTable None (firstRow :: others)).
Proof.
  unfold closeBlock.
  pose proof (detectHeaders_spec firstRow others) as HS.
  pose proof (detectHeaders_None firstRow others) as HN.
  destruct (detectHeaders (firstRow :: others)) as [h|] eqn:E; simpl.
  - assert (h = firstRow) as ->.
    { unfold detectHeaders in E.
      destruct (existsb cellLooksLikeHeader firstRow); congruence. }
    intuition congruence.
  - intuition congruence.
Qed.

Lemma tableLoop_cons (l : str) (lines : list str) (tables : list TableData)
  (cur : list (list str)) (b : bool) :
  tableLoop (l :: lines) tables cur b
  = if isTableRow l
    then tableLoop lines tables ((if b then cur else []) ++ [cellsOf l]) true
    else tableLoop lines
           (if b && (1 <? length cur)
            then tables ++ [closeBlock cur] else tables)
           [] false.
Proof. reflexivity. Qed.

Lemma tableLoop_nil (tables : list TableData) (cur : list (list str))
  (b : bool) :
  tableLoop [] tables cur b
  = if b && (1 <? length cur) then tables ++ [closeBlock cur] else tables.
Proof. reflexivity. Qed.

Lemma tableLoop_tables (lines : list str) (tables : list TableData)
  (cur : list (list str)) (b : bool) :
  tableLoop lines tables cur b = tables ++ tableLoop lines [] cur b.
Proof.
  revert tables cur b. induction lines as [|l lines IH]; intros tables cur b.
  - rewrite !tableLoop_nil.
    destruct (b && (1 <? length cur)); [reflexivity | now rewrite app_nil_r].
  - rewrite !tableLoop_cons. destruct (isTableRow l).
    + apply IH.
    + destruct (b && (1 <? length cur)).
      * rewrite (IH (tables ++ _)), (IH ([] ++ _)). simpl.
        now rewrite <- app_assoc.
      * apply IH.
Qed.

(** Lines after a line that is no table row are scanned afresh. *)
Lemma tableLoop_closed_prefix (pre rest : list str) :
  pre <> [] -> endsClosed pre = true ->
  forall cur b,
    tableLoop (pre ++ rest) [] cur b
    = tableLoop pre [] cur b ++ tablesOf rest.
Proof.
  induction pre as [|l pre IH]; intros Hne Hend cur b; [congruence|].
  destruct pre as [|l' pre].
  - unfold endsClosed in Hend. simpl in Hend. apply negb_true_iff in Hend.
    change ([l] ++ rest) with (l :: rest).
    rewrite !tableLoop_cons, Hend, tableLoop_nil. cbn [andb].
    rewrite tableLoop_tables. reflexivity.
  - assert (Hend' : endsClosed (l' :: pre) = true).
    { unfold endsClosed in *. simpl in *.
      destruct (rev pre ++ [l']) eqn:E.
      - destruct (rev pre); discriminate.
      - simpl in Hend. exact Hend. }
    specialize (IH ltac:(discriminate) Hend').
    change ((l :: l' :: pre) ++ rest) with (l :: ((l' :: pre) ++ rest)).
    rewrite (tableLoop_cons l ((l' :: pre) ++ rest)).
    rewrite (tableLoop_cons l (l' :: pre)).
    destruct (isTableRow l).
    + apply IH.
    + destruct (b && (1 <? length cur)).
      * rewrite tableLoop_tables, IH.
        rewrite (tableLoop_tables (l' :: pre) ([] ++ _)).
        now rewrite app_assoc.
      * apply IH.
Qed.

(** A run of table rows inside an open block, up to a line that is none. *)
Lemma tableLoop_rows (grp rest : list str) :
  Forall (fun l => isTableRow l = true) grp -> startsClosed rest = true ->
  forall cur,
    tableLoop (grp ++ rest) [] cur true
    = (if 1 <? length (cur ++ map cellsOf grp)
       then [closeBlock (cur ++ map cellsOf grp)] else [])
      ++ tablesOf rest.
Proof.
  intros Hgrp Hrest. induction Hgrp as [|l grp Hl Hgrp IH]; intros cur.
  - simpl. rewrite app_nil_r. destruct rest as [|l rest].
    + rewrite tableLoop_nil. cbn [andb app]. unfold tablesOf.
      rewrite tableLoop_nil. cbn [andb]. now rewrite app_nil_r.
    + simpl in Hrest. apply negb_true_iff in Hrest.
      unfold tablesOf. rewrite !tableLoop_cons, Hrest. cbn [andb].
      now rewrite tableLoop_tables.
  - change ((l :: grp) ++ rest) with (l :: (grp ++ rest)).
    rewrite tableLoop_cons, Hl, IH. cbn [map].
    now rewrite <- !app_assoc.
Qed.

Lemma tableLoop_block (grp rest : list str) :
  Forall (fun l => isTableRow l = true) grp -> startsClosed rest = true ->
  tablesOf (grp ++ rest)
  = (if 2 <=? length grp then [closeBlock (map cellsOf grp)] else [])
    ++ tablesOf rest.
Proof.
  intros Hgrp Hrest. destruct grp as [|l grp]; [reflexivity|].
  inversion Hgrp as [|? ? Hl Hgrp']; subst.
  unfold tablesOf at 1.
  change ((l :: grp) ++ rest) with (l :: (grp ++ rest)).
  rewrite tableLoop_cons, Hl, (@tableLoop_rows grp rest Hgrp' Hrest).
  cbn [app map length]. rewrite length_map.
  reflexivity.
Qed.

Lemma closeBlock_rows (block : list (list str)) :
  2 <= length block -> 1 <= length (rows (closeBlock block)).
Proof.
  intros Hlen. unfold closeBlock.
  destruct block as [|r1 [|r2 block]]; simpl in Hlen; try lia.
  destruct (detectHeaders (r1 :: r2 :: block)); simpl; lia.
Qed.

(** C5.  In the lines of a text, a maximal run of consecutive table rows
    (a line before it and a line after it, if any, split into fewer than
    two cells) gives no table when it has fewer than two lines and exactly
    one table, with at least one row, when it has two or more; this covers
    a run that ends with the text. *)
Theorem table_blocks (text : str) (pre grp post : list str) :
  splitOnChar LF text = pre ++ grp ++ post ->
  Forall (fun l => isTableRow l = true) grp ->
  endsClosed pre = true ->
  startsClosed post = true ->
  extractTables text
  = tablesOf pre
    ++ (if 2 <=? length grp then [closeBlock (map cellsOf grp)] else [])
    ++ tablesOf post
  /\ (length grp < 2 ->
      extractTables text = tablesOf pre ++ tablesOf post)
  /\ (2 <= length grp ->
      1 <= length (rows (closeBlock (map cellsOf grp)))).
Proof.
  intros Hlines Hgrp Hpre Hpost.
  assert (Heq : extractTables text
                = tablesOf pre
                  ++ (if 2 <=? length grp
                      then [closeBlock (map cellsOf grp)] else [])
                  ++ tablesOf post).
  { unfold extractTables. rewrite Hlines.
    destruct pre as [|l pre].
    - simpl. apply (@tableLoop_block grp post Hgrp Hpost).
    - rewrite (@tableLoop_closed_prefix (l :: pre) (grp ++ post)
                 ltac:(discriminate) Hpre).
      fold (tablesOf (l :: pre)).
      now rewrite (@tableLoop_block grp post Hgrp Hpost). }
  split; [exact Heq | split].
  - intros Hlt. rewrite Heq.
    destruct (2 <=? length grp) eqn:E; [apply Nat.leb_le in E; lia|].
    reflexivity.
  - intros Hge. apply closeBlock_rows. now rewrite length_map.
Qed.

Lemma table_blocks_witness :
  extractTables sampleTableText
  = tablesOf [lit "Stock report"]
    ++ [closeBlock (map cellsOf [lit "Part  Qty"; lit "Bolt  10"])]
    ++ tablesOf [lit "Ten bolts in all."]
  /\ (2 < 2 ->
      extractTables sampleTableText
      = tablesOf [lit "Stock report"] ++ tablesOf [lit "Ten bolts in all."])
  /\ (2 <= 2 ->
      1 <= length (rows (closeBlock
                           (map cellsOf [lit "Part  Qty"; lit "Bolt  10"])))).
Proof.
  apply (@table_blocks sampleTableText [lit "Stock report"]
           [lit "Part  Qty"; lit "Bolt  10"] [lit "Ten bolts in all."]).
  - reflexivity.
  - repeat constructor.
  - reflexivity.
  - reflexivity.
Defined.

(** ** Structured fields: the scenario of the guide *)

(** C1.  On the text of scenario A the merged keys are [Country] and
    [TripType], in this order, and the flat structure has the three rows
    (India, OneWay), (US, RoundTrip) and (China, empty). *)
Theorem scenarioA_table :
  mapKeys (mergeFields (extractFields scenarioA))
  = [lit "Country"; lit "TripType"]
  /\ toFlatStructure (extractFields scenarioA)
     = [ [(lit "Country", lit "India"); (lit "TripType", lit "OneWay")];
         [(lit "Country", lit "US"); (lit "TripType", lit "RoundTrip")];
         [(lit "Country", lit "China"); (lit "TripType", lit "")] ].
Proof. split; vm_compute; reflexivity. Qed.

(* ================================================================== *)
(** ** The matcher *)
(* ================================================================== *)

Lemma Lang_nullable (r : regex) (s : str) :
  Lang r s -> s = [] -> nullable r = true.
Proof.
  induction 1; intros Hs; simpl; try reflexivity.
  - discriminate.
  - apply app_eq_nil in Hs. destruct Hs as [-> ->].
    now rewrite IHLang1, IHLang2.
  - now rewrite IHLang.
  - rewrite IHLang by assumption. apply orb_true_r.
  - now apply IHLang.
Qed.

Section MatcherFacts.
Variable A : Type.

Lemma starLoop_sound (r : regex)
  (step : str -> captures -> cont A -> option A) (k : cont A) :
  sound_step (Lang r) step ->
  forall n s c a, starLoop step k n s c = Some a ->
    exists s1 s2 c', s = s1 ++ s2 /\ Lang (Star r) s1 /\ k s2 c' = Some a.
Proof.
  intros Hstep. induction n as [|n IH]; intros s c a Hrun; simpl in Hrun.
  - exists [], s, c. repeat split; [constructor | exact Hrun].
  - destruct (step s c _) as [a'|] eqn:E.
    + injection Hrun as ->. apply Hstep in E.
      destruct E as (s1 & s2 & c' & -> & HL & Hk).
      destruct (length s2 <? length (s1 ++ s2)); [|discriminate].
      apply IH in Hk. destruct Hk as (t1 & t2 & c2 & -> & HL' & Hk).
      exists (s1 ++ t1), t2, c2. rewrite app_assoc.
      repeat split; [now constructor | exact Hk].
    + exists [], s, c. repeat split; [constructor | exact Hrun].
Qed.

Lemma matchR_sound (r : regex) : sound_step (Lang r) (@matchR A r).
Proof.
  induction r as [p | r1 IH1 r2 IH2 | r1 IH1 r2 IH2 | r1 IH1 | i r1 IH1];
    intros s c k a Hrun; simpl in Hrun.
  - destruct s as [|x s]; [discriminate|].
    destruct (p x) eqn:Hp; [|discriminate].
    exists [x], s, c. repeat split; [now constructor | exact Hrun].
  - apply IH1 in Hrun. destruct Hrun as (s1 & s2 & c' & -> & HL1 & Hrun).
    apply IH2 in Hrun. destruct Hrun as (t1 & t2 & c2 & -> & HL2 & Hk).
    exists (s1 ++ t1), t2, c2. rewrite app_assoc.
    repeat split; [now constructor | exact Hk].
  - destruct (matchR r1 s c k) as [a'|] eqn:E.
    + injection Hrun as ->. apply IH1 in E.
      destruct E as (s1 & s2 & c' & -> & HL & Hk).
      exists s1, s2, c'. repeat split; [now apply LangAltL | exact Hk].
    + apply IH2 in Hrun. destruct Hrun as (s1 & s2 & c' & -> & HL & Hk).
      exists s1, s2, c'. repeat split; [now apply LangAltR | exact Hk].
  - eapply starLoop_sound; eassumption.
  - apply IH1 in Hrun. destruct Hrun as (s1 & s2 & c' & -> & HL & Hk).
    exists s1, s2,
      ((i, firstn (length (s1 ++ s2) - length s2) (s1 ++ s2)) :: c').
    repeat split; [now constructor | exact Hk].
Qed.

(** The greedy star of a character class is [backtrack]. *)
Lemma starLoop_chr (p : ascii -> bool) (k : cont A) (n : nat) (s : str)
  (c : captures) :
  length s <= n ->
  starLoop (@matchR A (Chr p)) k n s c = backtrack p k s c.
Proof.
  revert s. induction n as [|n IH]; intros s Hlen.
  - destruct s; [reflexivity | simpl in Hlen; lia].
  - destruct s as [|x s]; [reflexivity|].
    simpl in Hlen. cbn [starLoop matchR backtrack].
    destruct (p x); [|reflexivity].
    replace (length s <? length (x :: s)) with true
      by (symmetry; apply Nat.ltb_lt; simpl; lia).
    rewrite IH by lia. reflexivity.
Qed.

Lemma matchR_star_chr (p : ascii -> bool) (k : cont A) (s : str)
  (c : captures) :
  matchR (Star (Chr p)) s c k = backtrack p k s c.
Proof. simpl. now apply starLoop_chr. Qed.

(** When the continuation accepts after the longest run, that is the
    result. *)
Lemma backtrack_greedy (p : ascii -> bool) (k : cont A) (s : str)
  (c : captures) (a : A) :
  k (dropWhile p s) c = Some a -> backtrack p k s c = Some a.
Proof.
  induction s as [|x s IH]; simpl; [trivial|].
  destruct (p x); [|trivial].
  intros Hk. now rewrite IH.
Qed.

(** A continuation that always accepts makes the star accept. *)
Lemma backtrack_total (p : ascii -> bool) (k : cont A) (s : str)
  (c : captures) :
  (forall t, k t c <> None) -> backtrack p k s c <> None.
Proof.
  intros Hk. induction s as [|x s IH]; simpl; [apply Hk|].
  destruct (p x); [|apply Hk].
  destruct (backtrack p k s c); [discriminate | apply Hk].
Qed.

End MatcherFacts.

Lemma firstn_app_minus (s1 s2 : str) :
  firstn (length (s1 ++ s2) - length s2) (s1 ++ s2) = s1.
Proof.
  rewrite length_app, Nat.add_sub.
  rewrite firstn_app, Nat.sub_diag, firstn_all. simpl. apply app_nil_r.
Qed.

Lemma matchAt_sound (r : regex) (s : str) (m : Match) :
  matchAt r s = Some m ->
  s = matched m ++ rest m /\ Lang r (matched m).
Proof.
  unfold matchAt. intros Hrun. apply matchR_sound in Hrun.
  destruct Hrun as (s1 & s2 & c' & -> & HL & Hk).
  injection Hk as <-. simpl. rewrite firstn_app_minus. now split.
Qed.

Lemma matchAt_rest_shorter (r : regex) (s : str) (m : Match) :
  nullable r = false -> matchAt r s = Some m -> length (rest m) < length s.
Proof.
  intros Hn Hrun. apply matchAt_sound in Hrun. destruct Hrun as [Hs HL].
  rewrite Hs, length_app.
  destruct (matched m) eqn:E; [|simpl; lia].
  apply Lang_nullable in HL; congruence.
Qed.

Lemma matchAt_matched_nonempty (r : regex) (s : str) (m : Match) :
  nullable r = false -> matchAt r s = Some m -> matched m <> [].
Proof.
  intros Hn Hrun. apply matchAt_sound in Hrun. destruct Hrun as [_ HL].
  intros E. rewrite E in HL. apply Lang_nullable in HL; congruence.
Qed.

Lemma search_sound (r : regex) (s : str) (m : Match) :
  search r s = Some m ->
  exists pre, s = pre ++ matched m ++ rest m /\ Lang r (matched m).
Proof.
  induction s as [|x s IH]; simpl.
  - destruct (matchAt r []) eqn:E; [|discriminate].
    intros [= ->]. apply matchAt_sound in E. now exists [].
  - destruct (matchAt r (x :: s)) eqn:E.
    + intros [= ->]. apply matchAt_sound in E. now exists [].
    + intros Hs. apply IH in Hs. destruct Hs as (pre & -> & HL).
      now exists (x :: pre).
Qed.

Lemma search_rest_shorter (r : regex) (s : str) (m : Match) :
  nullable r = false -> search r s = Some m -> length (rest m) < length s.
Proof.
  intros Hn Hs. apply search_sound in Hs. destruct Hs as (pre & -> & HL).
  rewrite !length_app.
  destruct (matched m) eqn:E; [|simpl; lia].
  apply Lang_nullable in HL; congruence.
Qed.

(** *** The loops run to their end

    Each loop that follows a pattern through a text is given as many rounds
    as it can need; more rounds change nothing. *)

Lemma replaceLoop_fuel (r : regex) (by_ : str) :
  nullable r = false ->
  forall n n' s, length s < n -> length s < n' ->
    replaceLoop r by_ n s = replaceLoop r by_ n' s.
Proof.
  intros Hn. induction n as [|n IH]; intros n' s H1 H2; [lia|].
  destruct n' as [|n']; [lia|]. simpl.
  destruct (matchAt r s) as [m|] eqn:E.
  - pose proof (matchAt_rest_shorter _ _ _ Hn E) as Hlt.
    pose proof (matchAt_matched_nonempty _ _ _ Hn E) as Hne.
    destruct (matched m) as [|y ms]; [congruence|]. simpl.
    f_equal. apply IH; lia.
  - destruct s as [|x s]; [reflexivity|]. simpl in *.
    f_equal. apply IH; lia.
Qed.

Lemma splitLoop_fuel (r : regex) :
  forall n n' piece s,
    splitMeasure piece s < n -> splitMeasure piece s < n' ->
    splitLoop r n piece s = splitLoop r n' piece s.
Proof.
  unfold splitMeasure.
  induction n as [|n IH]; intros n' piece s H1 H2; [lia|].
  destruct n' as [|n']; [lia|]. simpl.
  destruct s as [|x s]; [reflexivity|].
  assert (Hadv : splitLoop r n (x :: piece) s
                 = splitLoop r n' (x :: piece) s).
  { apply IH; simpl in *; lia. }
  destruct (matchAt r (x :: s)) as [m|] eqn:E; [|exact Hadv].
  destruct ((length (matched m) =? 0) && (length piece =? 0)) eqn:Eb;
    [exact Hadv|].
  f_equal. apply matchAt_sound in E. destruct E as [Hs _].
  assert (Hlen : length (x :: s) = length (matched m) + length (rest m))
    by (rewrite Hs at 1; apply length_app).
  apply andb_false_iff in Eb.
  apply IH; simpl in *;
    destruct Eb as [Eb | Eb]; apply Nat.eqb_neq in Eb;
    destruct (length piece =? 0) eqn:Ep;
    try (apply Nat.eqb_eq in Ep); lia.
Qed.

(** ** Trimming *)

Lemma dropWhile_Forall (P : ascii -> Prop) (p : ascii -> bool) (s : str) :
  Forall P s -> Forall P (dropWhile p s).
Proof.
  induction 1 as [|x s Hx Hs IH]; simpl; [constructor|].
  destruct (p x); [exact IH | now constructor].
Qed.

Lemma trim_Forall (P : ascii -> Prop) (s : str) :
  Forall P s -> Forall P (trim s).
Proof.
  intros Hs. unfold trim, trimEnd, trimStart.
  apply Forall_rev, dropWhile_Forall, Forall_rev, dropWhile_Forall, Hs.
Qed.

Lemma dropWhile_idem (p : ascii -> bool) (s : str) :
  dropWhile p (dropWhile p s) = dropWhile p s.
Proof.
  induction s as [|x s IH]; simpl; [reflexivity|].
  destruct (p x) eqn:E; [exact IH | simpl; now rewrite E].
Qed.

Lemma dropWhile_app_stop (p : ascii -> bool) (l : str) (x : ascii)
  (t : str) :
  p x = false -> dropWhile p (l ++ x :: t) = dropWhile p l ++ x :: t.
Proof.
  intros Hx. induction l as [|y l IH]; simpl.
  - now rewrite Hx.
  - destruct (p y); [exact IH | reflexivity].
Qed.

Lemma dropWhile_stop (p : ascii -> bool) (x : ascii) (t : str) :
  p x = false -> dropWhile p (x :: t) = x :: t.
Proof. intros Hx. simpl. now rewrite Hx. Qed.

(** A string without white space at either end. *)
Lemma trimEnd_idem (s : str) : trimEnd (trimEnd s) = trimEnd s.
Proof. unfold trimEnd. now rewrite rev_involutive, dropWhile_idem. Qed.

Lemma trimEnd_head (x : ascii) (s : str) :
  isSpace x = false -> exists s', trimEnd (x :: s) = x :: s'.
Proof.
  intros Hx. unfold trimEnd. simpl rev.
  rewrite dropWhile_app_stop by exact Hx.
  rewrite rev_app_distr. simpl. eauto.
Qed.

Lemma trim_idem (s : str) : trim (trim s) = trim s.
Proof.
  unfold trim, trimStart.
  destruct (dropWhile isSpace s) as [|x d] eqn:E.
  - reflexivity.
  - assert (Hx : isSpace x = false).
    { clear -E. induction s as [|y s IH]; simpl in E; [discriminate|].
      destruct (isSpace y) eqn:Ey; [now apply IH|].
      now injection E as <- _. }
    destruct (@trimEnd_head x d Hx) as [s' Hs']. rewrite Hs'.
    rewrite dropWhile_stop by exact Hx. rewrite <- Hs'.
    apply trimEnd_idem.
Qed.

(** ** Normalized text has one paragraph *)

Lemma matchAt_plus_chr (p : ascii -> bool) (x : ascii) (s : str) :
  p x = true -> matchAt (Plus (Chr p)) (x :: s) <> None.
Proof.
  intros Hx. unfold matchAt, Plus. cbn [matchR]. rewrite Hx.
  fold (matchR (Star (Chr p)) s []
          (fun s' c => Some (mkMatch (firstn (length (x :: s) - length s')
                                        (x :: s)) c s'))).
  rewrite matchR_star_chr. apply backtrack_total. discriminate.
Qed.

(** After [/\s+/g] has been replaced by a blank, the only white space left
    is the blank. *)
Lemma replace_spaces_chars (n : nat) (s : str) :
  length s < n ->
  Forall (fun c => isSpace c = false \/ c = " "%char)
         (replaceLoop spacesPattern (lit " ") n s).
Proof.
  revert s. induction n as [|n IH]; intros s Hlen; [lia|].
  simpl. destruct (matchAt spacesPattern s) as [m|] eqn:E.
  - constructor; [now right|].
    pose proof (@matchAt_rest_shorter spacesPattern s m eq_refl E) as Hlt.
    pose proof (@matchAt_matched_nonempty spacesPattern s m eq_refl E) as Hne.
    destruct (matched m); [congruence|]. simpl. apply IH. lia.
  - destruct s as [|x s]; [constructor|].
    constructor; [|apply IH; simpl in Hlen; lia].
    left. destruct (isSpace x) eqn:Hx; [|reflexivity].
    exfalso. now apply (@matchAt_plus_chr isSpace x s Hx).
Qed.

Lemma normalizeText_no_LF (text : str) : ~ In LF (normalizeText text).
Proof.
  unfold normalizeText. intros Hin.
  assert (HF : Forall (fun c => isSpace c = false \/ c = " "%char)
                 (trim (replaceAll spacesPattern (lit " ")
                    (replaceAll tabPattern (lit " ")
                       (replaceAll crPattern [LF]
                          (replaceAll crlfPattern [LF] text)))))).
  { apply trim_Forall. unfold replaceAll at 1. apply replace_spaces_chars. lia. }
  rewrite Forall_forall in HF. apply HF in Hin.
  destruct Hin as [Hin | Hin]; discriminate.
Qed.

Lemma normalizeText_trimmed (text : str) :
  trim (normalizeText text) = normalizeText text.
Proof. unfold normalizeText. apply trim_idem. Qed.

Lemma splitLoop_no_break (n : nat) (piece s : str) :
  ~ In LF s -> splitLoop paragraphBreak n piece s = [rev piece ++ s].
Proof.
  revert piece s. induction n as [|n IH]; intros piece s Hs; [reflexivity|].
  destruct s as [|x s]; simpl.
  - now rewrite app_nil_r.
  - assert (Hx : Ascii.eqb LF x = false).
    { apply Ascii.eqb_neq. intros <-. apply Hs. now left. }
    unfold matchAt, paragraphBreak, chr. cbn [matchR]. rewrite Hx.
    rewrite IH by (intros Hin; apply Hs; now right).
    simpl. now rewrite <- app_assoc.
Qed.

Lemma splitIntoParagraphs_normalized (text : str) :
  splitIntoParagraphs (normalizeText text)
  = if 0 <? length (normalizeText text) then [normalizeText text] else [].
Proof.
  pose proof (normalizeText_no_LF text) as HLF.
  pose proof (normalizeText_trimmed text) as Htrim.
  unfold splitIntoParagraphs, jsSplit.
  destruct (normalizeText text) as [|x p] eqn:E.
  - reflexivity.
  - rewrite splitLoop_no_break by exact HLF.
    cbn [rev app map filter]. rewrite Htrim. reflexivity.
Qed.

Section AnalyzerFacts.
Context {F : Type} {ops : NumOps F} {C : Type} {cls : @IClassifier F C}.
Variable freshId : nat -> str.

(** C2.  A normalized text has no line break left, so it is never split:
    [splitIntoParagraphs] gives the whole normalized text, or nothing when
    that is empty.  [analyzeText] therefore classifies at most this one
    paragraph (none when it has fewer than 10 characters), and the one unit
    it can produce is at paragraph 0. *)
Theorem single_paragraph (a : @ContentAnalyzer F C) (text : str)
  (pg : option nat) (g : nat) :
  let p := normalizeText text in
  ~ In LF p
  /\ length (splitIntoParagraphs p) <= 1
  /\ splitIntoParagraphs p = (if 0 <? length p then [p] else [])
  /\ analyzeText freshId a text pg g
     = (if length p <? 10 then Ok []
        else
          classifications <- classify (classifier a) p (analyzerLabels a) ;;
          match classifications with
          | [] => Ok []
          | top :: _ =>
              let confidence := calculateConfidence p (score top) in
              if nle (analyzerThreshold a) confidence
              then Ok [mkContent (freshId g) (label top) p confidence
                         (Some (mkPosition pg (Some 0) None)) None]
              else Ok []
          end)
  /\ (forall units,
        analyzeText freshId a text pg g = Ok units ->
        length units <= 1
        /\ Forall (fun u => content u = p
                            /\ position u
                               = Some (mkPosition pg (Some 0) None))
                  units).
Proof.
  intros p. pose proof (splitIntoParagraphs_normalized text) as Hsplit.
  fold p in Hsplit.
  assert (Hrun :
    analyzeText freshId a text pg g
    = (if length p <? 10 then Ok []
       else
         classifications <- classify (classifier a) p (analyzerLabels a) ;;
         match classifications with
         | [] => Ok []
         | top :: _ =>
             let confidence := calculateConfidence p (score top) in
             if nle (analyzerThreshold a) confidence
             then Ok [mkContent (freshId g) (label top) p confidence
                        (Some (mkPosition pg (Some 0) None)) None]
             else Ok []
         end)).
  { unfold analyzeText. fold p. rewrite Hsplit.
    destruct (0 <? length p) eqn:E0.
    - cbn [analyzeLoop]. destruct (length p <? 10); [reflexivity|].
      destruct (classify (classifier a) p (analyzerLabels a)) as [cs|e];
        [|reflexivity].
      cbn [bind]. destruct cs as [|top cs]; [reflexivity|].
      cbv zeta. destruct (nle _ _); reflexivity.
    - apply Nat.ltb_ge in E0.
      replace (length p <? 10) with true
        by (symmetry; apply Nat.ltb_lt; lia).
      reflexivity. }
  split; [apply normalizeText_no_LF|].
  split; [rewrite Hsplit; destruct (0 <? length p); simpl; lia|].
  split; [exact Hsplit|].
  split; [exact Hrun|].
  intros units Hu. rewrite Hrun in Hu.
  destruct (length p <? 10).
  - injection Hu as <-. split; [simpl; lia | constructor].
  - destruct (classify (classifier a) p (analyzerLabels a)) as [cs|e];
      [|discriminate].
    cbn [bind] in Hu. destruct cs as [|top cs].
    + injection Hu as <-. split; [simpl; lia | constructor].
    + cbv zeta in Hu. destruct (nle _ _); injection Hu as <-.
      * split; [simpl; lia|]. constructor; [now split | constructor].
      * split; [simpl; lia | constructor].
Qed.

End AnalyzerFacts.

(** ** Splitting a value span *)

Lemma splitWhere_nonempty (p : ascii -> bool) (s : str) :
  splitWhere p s <> [].
Proof.
  destruct s as [|x s]; simpl; [discriminate|].
  destruct (p x); [discriminate|].
  destruct (splitWhere p s); discriminate.
Qed.

Lemma matchAt_chr (p : ascii -> bool) (x : ascii) (s : str) :
  matchAt (Chr p) (x :: s)
  = if p x then Some (mkMatch [x] [] s) else None.
Proof.
  unfold matchAt. cbn [matchR]. destruct (p x); [|reflexivity].
  change (x :: s) with ([x] ++ s).
  now rewrite (@firstn_app_minus [x] s).
Qed.

(** Splitting on a character class is [splitWhere]. *)
Lemma splitLoop_chr (p : ascii -> bool) (n : nat) (piece s : str) :
  length s < n ->
  splitLoop (Chr p) n piece s
  = match splitWhere p s with
    | h :: t => (rev piece ++ h) :: t
    | [] => [rev piece]
    end.
Proof.
  revert piece s. induction n as [|n IH]; intros piece s Hlen; [lia|].
  destruct s as [|x s].
  - simpl. now rewrite app_nil_r.
  - cbn [splitLoop]. rewrite matchAt_chr. cbn [splitWhere].
    simpl in Hlen. destruct (p x).
    + cbn [matched length Nat.eqb andb rest]. rewrite app_nil_r.
      rewrite IH by lia. simpl.
      destruct (splitWhere p s) eqn:E; [|reflexivity].
      now apply splitWhere_nonempty in E.
    + rewrite IH by lia. simpl.
      destruct (splitWhere p s) eqn:E.
      * now apply splitWhere_nonempty in E.
      * now rewrite <- app_assoc.
Qed.

Lemma jsSplit_chr (p : ascii -> bool) (s : str) :
  jsSplit (Chr p) s = splitWhere p s.
Proof.
  unfold jsSplit. destruct s as [|x s]; [reflexivity|].
  rewrite splitLoop_chr by (simpl; lia). simpl rev. simpl app.
  destruct (splitWhere p (x :: s)) eqn:E; [|reflexivity].
  now apply splitWhere_nonempty in E.
Qed.

Lemma splitWhere_none (p : ascii -> bool) (s : str) :
  existsb p s = false -> splitWhere p s = [s].
Proof.
  induction s as [|x s IH]; simpl; [reflexivity|].
  intros H. apply orb_false_iff in H. destruct H as [-> H].
  now rewrite IH.
Qed.

Lemma splitWhere_some (p : ascii -> bool) (s : str) :
  existsb p s = true -> 2 <= length (splitWhere p s).
Proof.
  induction s as [|x s IH]; simpl; [discriminate|].
  destruct (p x) eqn:Hx; simpl.
  - intros _. pose proof (@splitWhere_nonempty p s).
    destruct (splitWhere p s); [congruence | simpl; lia].
  - intros H. apply IH in H.
    destruct (splitWhere p s); simpl in *; lia.
Qed.

Lemma splitValues_unfold (text : str) :
  splitValues text
  = filter nonEmpty
      (map trim (if hasDelim text then splitWhere isDelim text
                 else jsSplit conjPattern text)).
Proof.
  unfold splitValues, delimPattern, hasDelim. rewrite jsSplit_chr.
  rewrite length_map.
  destruct (existsb isDelim text) eqn:E.
  - apply splitWhere_some in E.
    destruct (length (splitWhere isDelim text) =? 1) eqn:E1;
      [apply Nat.eqb_eq in E1; lia | reflexivity].
  - now rewrite (splitWhere_none _ _ E).
Qed.

Lemma filter_trim_clean (l : list str) :
  Forall (fun v => v <> [] /\ trim v = v) (filter nonEmpty (map trim l)).
Proof.
  apply Forall_forall. intros v Hv. apply filter_In in Hv.
  destruct Hv as [Hin Hne]. apply in_map_iff in Hin.
  destruct Hin as (u & <- & _). split.
  - intros E. rewrite E in Hne. discriminate.
  - apply trim_idem.
Qed.

Lemma extractLoop_unfold (n : nat) (s : str) :
  extractLoop (S n) s
  = match search colonPattern s with
    | None => []
    | Some m =>
        match splitValues (trim (group 2 (caps m))) with
        | [] => extractLoop n (rest m)
        | v :: vs =>
            mkField (trim (group 1 (caps m))) (v :: vs) (matched m)
            :: extractLoop n (rest m)
        end
    end.
Proof.
  cbn [extractLoop]. destruct (search colonPattern s); [|reflexivity].
  cbv zeta. destruct (splitValues _); reflexivity.
Qed.

Lemma extractLoop_fuel (n n' : nat) (s : str) :
  length s < n -> length s < n' -> extractLoop n s = extractLoop n' s.
Proof.
  revert n' s. induction n as [|n IH]; intros n' s H1 H2; [lia|].
  destruct n' as [|n']; [lia|]. rewrite !extractLoop_unfold.
  destruct (search colonPattern s) as [m|] eqn:E; [|reflexivity].
  pose proof (search_rest_shorter colonPattern s m eq_refl E) as Hlt.
  rewrite (IH n' (rest m)) by lia. reflexivity.
Qed.

Lemma extractLoop_values (n : nat) (s : str) :
  Forall (fun f => values f <> []) (extractLoop n s).
Proof.
  revert s. induction n as [|n IH]; intros s; [constructor|].
  rewrite extractLoop_unfold.
  destruct (search colonPattern s); [|constructor].
  destruct (splitValues _); [apply IH|].
  constructor; [discriminate | apply IH].
Qed.

(** C3, as the code has it.  The first split, on [,], [;] and [|], is used
    exactly when the span has one of these delimiters (the split then has
    two pieces or more, empty ones included); a span without delimiter is
    split on the conjunctions instead.  Either way the values are trimmed
    and the empty ones dropped, and a span left without a value records no
    field. *)
Theorem splitValues_by_delimiter (text : str) :
  splitValues text
  = filter nonEmpty
      (map trim (if hasDelim text then splitWhere isDelim text
                 else jsSplit conjPattern text))
  /\ Forall (fun v => v <> [] /\ trim v = v) (splitValues text)
  /\ (forall doc, Forall (fun f => values f <> []) (extractFields doc))
  /\ (forall n s m,
        search colonPattern s = Some m ->
        splitValues (trim (group 2 (caps m))) = [] ->
        extractLoop (S n) s = extractLoop n (rest m)).
Proof.
  split; [apply splitValues_unfold|].
  split; [rewrite splitValues_unfold; apply filter_trim_clean|].
  split; [intros doc; apply extractLoop_values|].
  intros n s m Hs Hv. now rewrite extractLoop_unfold, Hs, Hv.
Qed.

(** C3, as it is worded, fails on a span that ends with a delimiter: the
    code keeps the one value of the first split, the wording would split
    the span on the conjunction. *)
Lemma splitValues_claim_fails :
  splitValues (lit "x and y,") = [lit "x and y"]
  /\ splitValues_asClaimed (lit "x and y,") = [lit "x"; lit "y,"]
  /\ splitValues (lit "x and y,") <> splitValues_asClaimed (lit "x and y,").
Proof.
  split; [vm_compute; reflexivity|].
  split; [vm_compute; reflexivity|].
  vm_compute. discriminate.
Qed.

(* ================================================================== *)
(** ** Numbers: exact and double precision arithmetic have the laws *)
(* ================================================================== *)

Import Exact Binary64.

Lemma Qle_bool_true (x y : Q) : Qle_bool x y = true <-> (x <= y)%Q.
Proof. apply Qle_bool_iff. Qed.

Lemma Qle_bool_false (x y : Q) : Qle_bool x y = false -> (y <= x)%Q.
Proof.
  intros H. apply Qlt_le_weak, Qnot_le_lt. intros Hle.
  apply Qle_bool_iff in Hle. congruence.
Qed.

#[export] Instance QOrder : OrderLaws Q.
Proof.
  split; cbn [nle nlt Exact.QOps]; try (vm_compute; reflexivity).
  - intros x y z H1 H2. apply Qle_bool_true in H1, H2. apply Qle_bool_true.
    eapply Qle_trans; eassumption.
  - intros x y _. apply Qle_bool_true, Qle_refl.
  - intros x y _. apply Qle_bool_true, Qle_refl.
  - intros x y H. now apply negb_true_iff in H.
Qed.

#[export] Instance QLaws : NumLaws Q.
Proof.
  split; cbn [nle nlt nadd nsub nmul ndiv nmin nmax nround
              num0 num1 num0_05 num0_1 num100 Exact.QOps];
    try (vm_compute; reflexivity).
  - intros x y _ H _. apply Qle_bool_true in H. apply Qle_bool_true.
    apply Qplus_le_compat; [exact H | apply Qle_refl].
  - intros x y _ H _. apply Qle_bool_true in H. apply Qle_bool_true.
    unfold Qminus. apply Qplus_le_compat; [exact H | apply Qle_refl].
  - intros x y _ H _. apply Qle_bool_true in H. apply Qle_bool_true.
    unfold round2. cbn [nmul ndiv nround num100 Exact.QOps].
    unfold Qdiv. apply Qmult_le_compat_r; [|discriminate].
    unfold Exact.qround. rewrite <- Zle_Qle. apply Qfloor_resp_le.
    apply Qplus_le_compat; [|apply Qle_refl].
    apply Qmult_le_compat_r; [exact H | discriminate].
  - intros x _. unfold Exact.qmin. destruct (Qle_bool 1 x) eqn:E.
    + reflexivity.
    + apply Qle_bool_true. now apply Qle_bool_false.
  - intros x _. unfold Exact.qmin. destruct (Qle_bool 1 x) eqn:E.
    + exact E.
    + apply Qle_bool_true, Qle_refl.
  - intros x z H1 H2. unfold Exact.qmin. now destruct (Qle_bool 1 x).
  - intros x _. unfold Exact.qmax. destruct (Qle_bool 0 x) eqn:E.
    + exact E.
    + reflexivity.
  - intros x _. unfold Exact.qmax. destruct (Qle_bool 0 x) eqn:E.
    + apply Qle_bool_true, Qle_refl.
    + apply Qle_bool_true. now apply Qle_bool_false.
  - intros x z H1 H2. unfold Exact.qmax. now destruct (Qle_bool 0 x).
Qed.

(** *** Double precision: the order *)

Lemma SFcompare_rank (a b : SpecFloat.spec_float) :
  comparable a -> comparable b ->
  exists cmp, SpecFloat.SFcompare a b = Some cmp
    /\ (cmp = Lt <-> lexlt (rank a) (rank b))
    /\ (cmp <> Gt <-> lexle (rank a) (rank b)).
Proof.
  unfold comparable.
  destruct a as [sa | sa | | sa ma ea]; destruct b as [sb | sb | | sb mb eb];
    intros Ha Hb; try congruence; clear Ha Hb;
    try destruct sa; try destruct sb; cbn [SpecFloat.SFcompare rank];
    try (eexists; split; [reflexivity|];
         unfold lexlt, lexle; split; split; intros; try lia; congruence).
  - change (Pos.compare_cont Eq ma mb) with (Pos.compare ma mb).
    eexists; split; [reflexivity|].
    unfold lexlt, lexle.
    destruct (Z.compare_spec ea eb) as [E | E | E];
      destruct (Pos.compare_spec ma mb) as [Em | Em | Em];
      cbn [CompOpp]; split; split; intros; try lia; try congruence.
  - change (Pos.compare_cont Eq ma mb) with (Pos.compare ma mb).
    eexists; split; [reflexivity|].
    unfold lexlt, lexle.
    destruct (Z.compare_spec ea eb) as [E | E | E];
      destruct (Pos.compare_spec ma mb) as [Em | Em | Em];
      split; split; intros; try lia; try congruence.
Qed.

Lemma SFleb_rank (a b : SpecFloat.spec_float) :
  SpecFloat.SFleb a b = true
  <-> comparable a /\ comparable b /\ lexle (rank a) (rank b).
Proof.
  unfold SpecFloat.SFleb. split.
  - intros H.
    assert (Ha : comparable a) by (intros ->; discriminate).
    assert (Hb : comparable b) by (intros ->; destruct a; discriminate).
    split; [exact Ha|]. split; [exact Hb|].
    destruct (SFcompare_rank a b Ha Hb) as (cmp & E & _ & Hle).
    rewrite E in H. apply Hle. intros ->. discriminate.
  - intros (Ha & Hb & Hle).
    destruct (SFcompare_rank a b Ha Hb) as (cmp & E & _ & Hiff).
    rewrite E. apply Hiff in Hle. destruct cmp; congruence.
Qed.

Lemma SFltb_rank (a b : SpecFloat.spec_float) :
  SpecFloat.SFltb a b = true
  <-> comparable a /\ comparable b /\ lexlt (rank a) (rank b).
Proof.
  unfold SpecFloat.SFltb. split.
  - intros H.
    assert (Ha : comparable a) by (intros ->; discriminate).
    assert (Hb : comparable b) by (intros ->; destruct a; discriminate).
    split; [exact Ha|]. split; [exact Hb|].
    destruct (SFcompare_rank a b Ha Hb) as (cmp & E & Hlt & _).
    rewrite E in H. apply Hlt. destruct cmp; congruence.
  - intros (Ha & Hb & Hlt).
    destruct (SFcompare_rank a b Ha Hb) as (cmp & E & Hiff & _).
    rewrite E. apply Hiff in Hlt. now rewrite Hlt.
Qed.

#[export] Instance B64Order : OrderLaws PrimFloat.float.
Proof.
  split; cbn [nle nlt Binary64.B64Ops]; try (vm_compute; reflexivity).
  - intros x y z. rewrite !FloatAxioms.leb_spec, !SFleb_rank.
    intros (Hx & Hy & Hxy) (_ & Hz & Hyz).
    split; [exact Hx|]. split; [exact Hz|].
    destruct (rank (FloatOps.Prim2SF x)) as [[a1 a2] a3].
    destruct (rank (FloatOps.Prim2SF y)) as [[b1 b2] b3].
    destruct (rank (FloatOps.Prim2SF z)) as [[c1 c2] c3].
    unfold lexle in *. lia.
  - intros x y. rewrite !FloatAxioms.leb_spec, !SFleb_rank.
    intros (Hx & _ & _). split; [exact Hx|]. split; [exact Hx|].
    destruct (rank (FloatOps.Prim2SF x)) as [[a1 a2] a3].
    unfold lexle. lia.
  - intros x y. rewrite !FloatAxioms.leb_spec, !SFleb_rank.
    intros (_ & Hy & _). split; [exact Hy|]. split; [exact Hy|].
    destruct (rank (FloatOps.Prim2SF y)) as [[a1 a2] a3].
    unfold lexle. lia.
  - intros x y. rewrite FloatAxioms.ltb_spec, SFltb_rank.
    intros (Hx & Hy & Hlt).
    destruct (PrimFloat.leb y x) eqn:E; [|reflexivity].
    rewrite FloatAxioms.leb_spec, SFleb_rank in E.
    destruct E as (_ & _ & Hle).
    destruct (rank (FloatOps.Prim2SF x)) as [[a1 a2] a3].
    destruct (rank (FloatOps.Prim2SF y)) as [[b1 b2] b3].
    unfold lexle, lexlt in *. lia.
Qed.

(** *** Double precision: rounding to nearest keeps the order *)

Module Rounding64.
Import Floats.
Local Open Scope Z_scope.
Local Set Warnings "-inexact-float".

(** Powers of two. *)
Lemma pow2_pos (n : Z) : 0 <= n -> 0 < 2 ^ n.
Proof. intros H. apply Z.pow_pos_nonneg; lia. Qed.

Lemma pow2_add (a b : Z) : 0 <= a -> 0 <= b -> 2 ^ (a + b) = 2 ^ a * 2 ^ b.
Proof. intros. apply Z.pow_add_r; lia. Qed.

Lemma pow2_succ (a : Z) : 0 <= a -> 2 ^ (a + 1) = 2 * 2 ^ a.
Proof. intros. rewrite pow2_add by lia. change (2 ^ 1) with 2. lia. Qed.

Lemma pow2_le (a b : Z) : 0 <= a <= b -> 2 ^ a <= 2 ^ b.
Proof. intros. apply Z.pow_le_mono_r; lia. Qed.

(** The number of binary digits. *)
Lemma digits2_bounds (p : positive) :
  2 ^ (Zpos (digits2_pos p) - 1) <= Zpos p < 2 ^ Zpos (digits2_pos p).
Proof.
  induction p as [p IH | p IH |]; cbn [digits2_pos].
  - rewrite Pos2Z.inj_succ.
    replace (Z.succ (Zpos (digits2_pos p)) - 1)
      with ((Zpos (digits2_pos p) - 1) + 1) by lia.
    unfold Z.succ. rewrite !pow2_succ by lia. lia.
  - rewrite Pos2Z.inj_succ.
    replace (Z.succ (Zpos (digits2_pos p)) - 1)
      with ((Zpos (digits2_pos p) - 1) + 1) by lia.
    unfold Z.succ. rewrite !pow2_succ by lia. lia.
  - cbn. lia.
Qed.

Lemma iter_pos_nat {A} (f : A -> A) (p : positive) (x : A) :
  iter_pos f p x = Nat.iter (Pos.to_nat p) f x.
Proof.
  revert x. induction p as [p IH | p IH |]; intros x; cbn [iter_pos].
  - rewrite !IH. rewrite Pos2Nat.inj_xI.
    replace (S (2 * Pos.to_nat p))%nat
      with (Pos.to_nat p + (Pos.to_nat p + 1))%nat by lia.
    rewrite !Nat.iter_add. reflexivity.
  - rewrite !IH. rewrite Pos2Nat.inj_xO.
    replace (2 * Pos.to_nat p)%nat
      with (Pos.to_nat p + Pos.to_nat p)%nat by lia.
    rewrite !Nat.iter_add. reflexivity.
  - reflexivity.
Qed.

Lemma shr_1_spec (q : Z) (r s : bool) :
  0 <= q ->
  shr_1 (Build_shr_record q r s)
  = Build_shr_record (q / 2) (Z.odd q) (r || s).
Proof.
  intros Hq. rewrite <- Z.div2_div.
  destruct q as [| [p | p |] |]; try lia; reflexivity.
Qed.

Lemma shr_iter (m : Z) (k : nat) :
  0 <= m ->
  let st := Nat.iter k shr_1 (Build_shr_record m false false) in
  exists t,
    2 * m = shr_m st * 2 ^ (Z.of_nat k + 1)
            + (if shr_r st then 2 ^ Z.of_nat k else 0) + t
    /\ 0 <= t < 2 ^ Z.of_nat k
    /\ shr_s st = negb (t =? 0)
    /\ 0 <= shr_m st.
Proof.
  intros Hm. induction k as [|k IH].
  - exists 0. cbn [Nat.iter nat_rect shr_m shr_r shr_s].
    change (Z.of_nat 0) with 0. change (2 ^ (0 + 1)) with 2.
    change (2 ^ 0) with 1. cbn [negb Z.eqb]. lia.
  - cbn zeta in *. rewrite Nat.iter_succ.
    destruct (Nat.iter k shr_1 (Build_shr_record m false false))
      as [q r s].
    cbn [shr_m shr_r shr_s] in IH.
    destruct IH as (t & E & Ht & Hs & Hq).
    rewrite shr_1_spec by exact Hq. cbn [shr_m shr_r shr_s].
    rewrite Nat2Z.inj_succ. unfold Z.succ.
    rewrite (pow2_succ (Z.of_nat k + 1)) by lia.
    rewrite (pow2_succ (Z.of_nat k)) in * by lia.
    pose proof (pow2_pos (Z.of_nat k) ltac:(lia)) as Hp.
    exists ((if r then 2 ^ Z.of_nat k else 0) + t).
    pose proof (Z.div_mod q 2 ltac:(lia)) as Hd.
    rewrite Zmod_odd in Hd.
    split; [|split; [|split]].
    + destruct (Z.odd q); nia.
    + destruct r; lia.
    + rewrite Hs. destruct r; cbn [orb].
      * symmetry. apply negb_true_iff, Z.eqb_neq. lia.
      * reflexivity.
    + apply Z.div_pos; lia.
Qed.

Lemma rne_unique (m n q t : Z) :
  0 <= n -> 2 * m = q * 2 ^ (n + 1) + t -> 0 <= t < 2 ^ (n + 1) ->
  rne m n = if t <? 2 ^ n then q
            else if 2 ^ n <? t then q + 1
            else if Z.even q then q else q + 1.
Proof.
  intros Hn E Ht. rewrite pow2_succ in * by exact Hn.
  pose proof (pow2_pos n Hn) as Hp.
  assert (Hq : m / 2 ^ n = q).
  { symmetry. apply (Z.div_unique m (2 ^ n) q (m - q * 2 ^ n)); lia. }
  assert (Hr : m mod 2 ^ n = m - q * 2 ^ n).
  { symmetry. apply (Z.mod_unique m (2 ^ n) q (m - q * 2 ^ n)); lia. }
  unfold rne. rewrite Hq, Hr.
  replace (2 * (m - q * 2 ^ n)) with t by lia. reflexivity.
Qed.

Lemma round_shr (m : Z) (k : nat) :
  0 <= m ->
  let st := Nat.iter k shr_1 (Build_shr_record m false false) in
  round_nearest_even (shr_m st) (loc_of_shr_record st) = rne m (Z.of_nat k).
Proof.
  intros Hm. pose proof (shr_iter m k Hm) as H. cbn zeta in *.
  destruct (Nat.iter k shr_1 (Build_shr_record m false false)) as [q r s].
  cbn [shr_m shr_r shr_s] in H. destruct H as (t & E & Ht & Hs & Hq).
  pose proof (pow2_pos (Z.of_nat k) ltac:(lia)) as Hp.
  rewrite (rne_unique m (Z.of_nat k) q
             ((if r then 2 ^ Z.of_nat k else 0) + t)); try lia.
  - cbn [shr_m loc_of_shr_record].
    destruct r.
    + destruct (Z.eqb_spec t 0) as [-> | Hne]; cbn [negb] in Hs; subst s;
        cbn [round_nearest_even].
      * rewrite Z.add_0_r, Z.ltb_irrefl. reflexivity.
      * replace (2 ^ Z.of_nat k + t <? 2 ^ Z.of_nat k) with false
          by (symmetry; apply Z.ltb_ge; lia).
        replace (2 ^ Z.of_nat k <? 2 ^ Z.of_nat k + t) with true
          by (symmetry; apply Z.ltb_lt; lia).
        reflexivity.
    + replace (0 + t <? 2 ^ Z.of_nat k) with true
        by (symmetry; apply Z.ltb_lt; lia).
      destruct s; reflexivity.
  - rewrite pow2_succ by lia. destruct r; lia.
Qed.

Lemma rne_between (m n : Z) :
  m / 2 ^ n <= rne m n <= m / 2 ^ n + 1.
Proof.
  unfold rne. cbn zeta.
  destruct (_ <? _); [lia|]. destruct (_ <? _); [lia|].
  destruct (Z.even _); lia.
Qed.

Lemma rne_mono (m1 m2 n : Z) :
  0 <= n -> m1 <= m2 -> rne m1 n <= rne m2 n.
Proof.
  intros Hn H. pose proof (pow2_pos n Hn) as Hp.
  pose proof (Z.div_le_mono m1 m2 (2 ^ n) Hp H) as Hq.
  destruct (Z.eq_dec (m1 / 2 ^ n) (m2 / 2 ^ n)) as [E | NE].
  - pose proof (Z.div_mod m1 (2 ^ n) ltac:(lia)) as D1.
    pose proof (Z.div_mod m2 (2 ^ n) ltac:(lia)) as D2.
    assert (Hr : m1 mod 2 ^ n <= m2 mod 2 ^ n) by (rewrite E in D1; lia).
    unfold rne. cbn zeta. rewrite E.
    destruct (Z.ltb_spec (2 * (m1 mod 2 ^ n)) (2 ^ n));
      destruct (Z.ltb_spec (2 * (m2 mod 2 ^ n)) (2 ^ n));
      destruct (Z.ltb_spec (2 ^ n) (2 * (m1 mod 2 ^ n)));
      destruct (Z.ltb_spec (2 ^ n) (2 * (m2 mod 2 ^ n)));
      destruct (Z.even (m2 / 2 ^ n)); lia.
  - pose proof (rne_between m1 n). pose proof (rne_between m2 n). lia.
Qed.

Lemma rne_scale (m n k : Z) :
  0 <= n -> 0 <= k -> rne (m * 2 ^ k) (n + k) = rne m n.
Proof.
  intros Hn Hk. pose proof (pow2_pos n Hn) as Hp.
  pose proof (pow2_pos k Hk) as Hpk.
  unfold rne. rewrite pow2_add by lia.
  rewrite Z.div_mul_cancel_r by lia.
  rewrite Zmult_mod_distr_r. cbn zeta.
  destruct (Z.ltb_spec (2 * (m mod 2 ^ n)) (2 ^ n));
    destruct (Z.ltb_spec (2 * (m mod 2 ^ n * 2 ^ k)) (2 ^ n * 2 ^ k));
    try nia; try reflexivity.
  destruct (Z.ltb_spec (2 ^ n) (2 * (m mod 2 ^ n)));
    destruct (Z.ltb_spec (2 ^ n * 2 ^ k) (2 * (m mod 2 ^ n * 2 ^ k)));
    try nia; reflexivity.
Qed.

Lemma rne_0 (m : Z) : rne m 0 = m.
Proof.
  unfold rne. change (2 ^ 0) with 1. rewrite Z.div_1_r, Z.mod_1_r.
  reflexivity.
Qed.

Lemma rne_nonneg (m n : Z) : 0 <= n -> 0 <= m -> 0 <= rne m n.
Proof.
  intros Hn Hm. pose proof (rne_between m n).
  pose proof (Z.div_pos m (2 ^ n) Hm (pow2_pos n Hn)). lia.
Qed.

(** A multiple of the unit is kept. *)
Lemma rne_exact (q n : Z) : 0 <= n -> rne (q * 2 ^ n) n = q.
Proof.
  intros Hn. pose proof (pow2_pos n Hn) as Hp.
  unfold rne. rewrite Z.div_mul, Z.mod_mul by lia. cbn zeta.
  replace (2 * 0 <? 2 ^ n) with true by (symmetry; apply Z.ltb_lt; lia).
  reflexivity.
Qed.

Lemma rne_upper (m n B : Z) :
  0 <= n -> m <= B * 2 ^ n -> rne m n <= B.
Proof.
  intros Hn H. rewrite <- (rne_exact B n Hn). now apply rne_mono.
Qed.

Lemma rne_lower (m n B : Z) :
  0 <= n -> B * 2 ^ n <= m -> B <= rne m n.
Proof.
  intros Hn H. rewrite <- (rne_exact B n Hn). now apply rne_mono.
Qed.

(** The double precision format. *)
Lemma fexp_eq (k : Z) : fexp prec emax k = Z.max (k - 53) (-1074).
Proof. reflexivity. Qed.

Lemma digits2_le (p : positive) (k : Z) :
  0 <= k -> Zpos p < 2 ^ k -> Zpos (digits2_pos p) <= k.
Proof.
  intros Hk H. pose proof (digits2_bounds p) as [Hl _].
  destruct (Z_le_gt_dec (Zpos (digits2_pos p)) k) as [L | G]; [exact L|].
  pose proof (pow2_le k (Zpos (digits2_pos p) - 1) ltac:(lia)). lia.
Qed.

Lemma digits2_ge (p : positive) (k : Z) :
  0 <= k -> 2 ^ k <= Zpos p -> k + 1 <= Zpos (digits2_pos p).
Proof.
  intros Hk H. pose proof (digits2_bounds p) as [_ Hu].
  destruct (Z_le_gt_dec (k + 1) (Zpos (digits2_pos p))) as [L | G];
    [exact L|].
  pose proof (pow2_le (Zpos (digits2_pos p)) k ltac:(lia)). lia.
Qed.

Lemma shr_exact (m e n : Z) :
  0 <= m -> 0 <= n ->
  let '(st, e') := shr (Build_shr_record m false false) e n in
  round_nearest_even (shr_m st) (loc_of_shr_record st) = rne m n
  /\ e' = e + n.
Proof.
  intros Hm Hn. destruct n as [| p | p]; try lia; cbn [shr].
  - cbn [shr_m loc_of_shr_record round_nearest_even]. rewrite rne_0. lia.
  - rewrite iter_pos_nat. split; [|reflexivity].
    rewrite round_shr by exact Hm. now rewrite positive_nat_Z.
Qed.

Lemma shr_none (m e n : Z) :
  n <= 0 ->
  shr (Build_shr_record m false false) e n
  = (Build_shr_record m false false, e).
Proof. intros Hn. destruct n; try lia; reflexivity. Qed.

Lemma rne_le_pow53 (m : positive) (e : Z) :
  let E := fexp prec emax (Zpos (digits2_pos m) + e) in
  e <= E -> 0 <= rne (Zpos m) (E - e) <= 2 ^ 53.
Proof.
  intros E HE. split; [apply rne_nonneg; lia|].
  apply rne_upper; [lia|].
  pose proof (digits2_bounds m) as [_ Hu].
  assert (Hd : Zpos (digits2_pos m) <= 53 + (E - e))
    by (subst E; rewrite fexp_eq; lia).
  rewrite <- pow2_add by lia.
  pose proof (pow2_le (Zpos (digits2_pos m)) (53 + (E - e)) ltac:(lia)).
  lia.
Qed.

Lemma binary_round_aux_spec (s : bool) (m : positive) (e : Z) :
  e <= fexp prec emax (Zpos (digits2_pos m) + e) ->
  binary_round_aux prec emax s (Zpos m) e loc_Exact
  = ofRounded s (roundPos m e).
Proof.
  intros HE. pose proof (rne_le_pow53 m e HE) as HM. cbn zeta in HM.
  unfold binary_round_aux, shr_fexp, roundPos.
  cbn [shr_record_of_loc Zdigits2].
  set (E := fexp prec emax (Zpos (digits2_pos m) + e)) in *.
  assert (HEmin : -1074 <= E) by (subst E; rewrite fexp_eq; lia).
  pose proof (shr_exact (Zpos m) e (E - e) ltac:(lia) ltac:(lia)) as H1.
  destruct (shr (Build_shr_record (Zpos m) false false) e (E - e))
    as [st e'].
  destruct H1 as [-> ->]. replace (e + (E - e)) with E by lia.
  set (M := rne (Zpos m) (E - e)) in *.
  destruct (Z.eqb_spec M (2 ^ 53)) as [EM | NM].
  - rewrite EM. replace (fexp prec emax (Zdigits2 (2 ^ 53) + E) - E) with 1
      by (rewrite fexp_eq; change (Zdigits2 (2 ^ 53)) with 54; lia).
    reflexivity.
  - rewrite shr_none.
    + reflexivity.
    + rewrite fexp_eq. destruct M as [| p | p]; cbn [Zdigits2]; try lia.
      pose proof (digits2_le p 53 ltac:(lia) ltac:(lia)). lia.
Qed.

Lemma roundPos_good (m : positive) (e : Z) :
  e <= fexp prec emax (Zpos (digits2_pos m) + e) ->
  goodPair (roundPos m e).
Proof.
  intros HE. pose proof (rne_le_pow53 m e HE) as HM. cbn zeta in HM.
  unfold roundPos, goodPair.
  set (E := fexp prec emax (Zpos (digits2_pos m) + e)) in *.
  assert (HEmin : -1074 <= E) by (subst E; rewrite fexp_eq; lia).
  destruct (Z.eqb_spec (rne (Zpos m) (E - e)) (2 ^ 53)) as [EM | NM];
    cbn [fst snd]; [lia|].
  split; [lia|]. split; [lia|]. intros H0.
  pose proof (digits2_bounds m) as [Hl _].
  destruct (Z_le_gt_dec (E - e) (Zpos (digits2_pos m) - 1)) as [L | G].
  - assert (1 <= rne (Zpos m) (E - e)); [|lia].
    apply rne_lower; [lia|].
    pose proof (pow2_le (E - e) (Zpos (digits2_pos m) - 1) ltac:(lia)).
    lia.
  - subst E. rewrite fexp_eq in *. lia.
Qed.

(** Rounding keeps the order of the values. *)
Lemma roundPos_mono (m1 m2 : positive) (e1 e2 b : Z) :
  b <= e1 -> b <= e2 ->
  e1 <= fexp prec emax (Zpos (digits2_pos m1) + e1) ->
  e2 <= fexp prec emax (Zpos (digits2_pos m2) + e2) ->
  Zpos m1 * 2 ^ (e1 - b) <= Zpos m2 * 2 ^ (e2 - b) ->
  pairLe (roundPos m1 e1) (roundPos m2 e2).
Proof.
  intros Hb1 Hb2 HE1 HE2 Hv. unfold roundPos, pairLe.
  pose proof (rne_le_pow53 m1 e1 HE1) as HM1.
  pose proof (rne_le_pow53 m2 e2 HE2) as HM2. cbn zeta in HM1, HM2.
  pose proof (digits2_bounds m1) as [Hl1 Hu1].
  pose proof (digits2_bounds m2) as [Hl2 Hu2].
  set (d1 := Zpos (digits2_pos m1)) in *.
  set (d2 := Zpos (digits2_pos m2)) in *.
  assert (Hd1 : 1 <= d1) by (subst d1; lia).
  assert (Hd2 : 1 <= d2) by (subst d2; lia).
  assert (Hmag : d1 + e1 <= d2 + e2).
  { destruct (Z_le_gt_dec (d1 + e1) (d2 + e2)) as [L | G]; [exact L|].
    exfalso.
    assert (A : 2 ^ (d2 + e2 - b) <= 2 ^ (d1 - 1 + e1 - b))
      by (apply pow2_le; lia).
    replace (d2 + e2 - b) with (d2 + (e2 - b)) in A by lia.
    replace (d1 - 1 + e1 - b) with ((d1 - 1) + (e1 - b)) in A by lia.
    rewrite !pow2_add in A by lia.
    pose proof (pow2_pos (e1 - b) ltac:(lia)).
    pose proof (pow2_pos (e2 - b) ltac:(lia)).
    nia. }
  set (E1 := fexp prec emax (d1 + e1)) in *.
  set (E2 := fexp prec emax (d2 + e2)) in *.
  assert (HE12 : E1 <= E2) by (subst E1 E2; rewrite !fexp_eq; lia).
  set (M1 := rne (Zpos m1) (E1 - e1)) in *.
  set (M2 := rne (Zpos m2) (E2 - e2)) in *.
  destruct (Z.eq_dec E1 E2) as [EE | NE].
  - assert (HM : M1 <= M2).
    { subst M1 M2. rewrite <- EE.
      rewrite <- (rne_scale (Zpos m1) (E1 - e1) (e1 - b)) by lia.
      rewrite <- (rne_scale (Zpos m2) (E1 - e2) (e2 - b)) by lia.
      replace (E1 - e1 + (e1 - b)) with (E1 - b) by lia.
      replace (E1 - e2 + (e2 - b)) with (E1 - b) by lia.
      apply rne_mono; lia. }
    destruct (Z.eqb_spec M1 (2 ^ 53)); destruct (Z.eqb_spec M2 (2 ^ 53));
      cbn [fst snd]; lia.
  - assert (HE2' : E2 = d2 + e2 - 53)
      by (subst E1 E2; rewrite !fexp_eq in *; lia).
    assert (HM : 2 ^ 52 <= M2).
    { subst M2. apply rne_lower; [lia|].
      rewrite <- pow2_add by lia.
      replace (52 + (E2 - e2)) with (d2 - 1) by lia. exact Hl2. }
    destruct (Z.eqb_spec M1 (2 ^ 53)); destruct (Z.eqb_spec M2 (2 ^ 53));
      cbn [fst snd]; lia.
Qed.

Lemma ofRounded_mono (r1 r2 : Z * Z) :
  goodPair r1 -> goodPair r2 -> pairLe r1 r2 ->
  lexle (rank (ofRounded false r1)) (rank (ofRounded false r2))
  /\ lexle (rank (ofRounded true r2)) (rank (ofRounded true r1)).
Proof.
  destruct r1 as [M1 F1], r2 as [M2 F2].
  unfold goodPair, pairLe, ofRounded. cbn [fst snd].
  intros (G1 & G1' & G1'') (G2 & G2' & G2'') H.
  destruct M1 as [| p1 | p1]; destruct M2 as [| p2 | p2]; try lia;
    try (destruct (Z.leb_spec F1 971)); try (destruct (Z.leb_spec F2 971));
    cbn [rank lexle]; lia.
Qed.

Lemma ofRounded_sign (s : bool) (r : Z * Z) :
  goodPair r ->
  lexle (rank (ofRounded true r)) (0, 0, 0)
  /\ lexle (0, 0, 0) (rank (ofRounded false r))
  /\ comparable (ofRounded s r).
Proof.
  destruct r as [M F]. unfold goodPair, ofRounded, comparable.
  cbn [fst snd]. intros (G & _ & _).
  destruct M as [| p | p]; try lia;
    try (destruct (Z.leb_spec F 971)); cbn [rank lexle];
    (split; [lia|]; split; [lia|]; discriminate).
Qed.

(** Aligning a mantissa on a smaller exponent. *)
Lemma iter_xO_spec (m d : positive) :
  Zpos (Pos.iter xO m d) = Zpos m * 2 ^ Zpos d
  /\ Zpos (digits2_pos (Pos.iter xO m d)) = Zpos (digits2_pos m) + Zpos d.
Proof.
  induction d as [|d IH] using Pos.peano_ind.
  - cbn [Pos.iter digits2_pos]. change (2 ^ 1) with 2. lia.
  - rewrite Pos.iter_succ. cbn [digits2_pos].
    rewrite Pos2Z.inj_succ. unfold Z.succ. rewrite pow2_succ by lia.
    rewrite Pos2Z.inj_xO, Pos2Z.inj_succ. lia.
Qed.

Lemma shl_align_spec (m : positive) (e E : Z) :
  let '(m', e') := shl_align m e E in
  e' = Z.min e E
  /\ Zpos m' = Zpos m * 2 ^ (e - e')
  /\ Zpos (digits2_pos m') + e' = Zpos (digits2_pos m) + e.
Proof.
  unfold shl_align. destruct (E - e) as [| d | d] eqn:Ed.
  - replace (e - e) with 0 by lia. change (2 ^ 0) with 1. lia.
  - replace (e - e) with 0 by lia. change (2 ^ 0) with 1. lia.
  - destruct (iter_xO_spec m d) as [H1 H2].
    replace (e - E) with (Zpos d) by lia. lia.
Qed.

Lemma binary_round_spec (s : bool) (m : positive) (e b : Z) :
  b <= e -> b <= -1074 ->
  exists m' e',
    binary_round prec emax s m e = ofRounded s (roundPos m' e')
    /\ b <= e'
    /\ e' <= fexp prec emax (Zpos (digits2_pos m') + e')
    /\ Zpos m' * 2 ^ (e' - b) = Zpos m * 2 ^ (e - b).
Proof.
  intros Hb Hb'. unfold binary_round.
  pose proof (shl_align_spec m e
                (fexp prec emax (Zpos (digits2_pos m) + e))) as H.
  destruct (shl_align m e (fexp prec emax (Zpos (digits2_pos m) + e)))
    as [m' e'].
  destruct H as (He & Hm & Hd).
  assert (HE : e' <= fexp prec emax (Zpos (digits2_pos m') + e'))
    by (rewrite Hd; lia).
  exists m', e'. split; [now apply binary_round_aux_spec|].
  assert (Hb2 : b <= e') by (rewrite He, fexp_eq; lia).
  split; [exact Hb2|]. split; [exact HE|].
  rewrite Hm, <- Z.mul_assoc, <- pow2_add by lia. f_equal. f_equal. lia.
Qed.

(** The sign of a rounded number, and the order of two of them. *)
Lemma binary_round_sign (s : bool) (m : positive) (e : Z) :
  lexle (rank (binary_round prec emax true m e)) (0, 0, 0)
  /\ lexle (0, 0, 0) (rank (binary_round prec emax false m e))
  /\ comparable (binary_round prec emax s m e).
Proof.
  set (b := Z.min e (-1074)).
  destruct (binary_round_spec true m e b) as (m1 & e1 & E1 & B1 & A1 & _);
    try (subst b; lia).
  destruct (binary_round_spec false m e b) as (m2 & e2 & E2 & B2 & A2 & _);
    try (subst b; lia).
  destruct (binary_round_spec s m e b) as (m3 & e3 & E3 & B3 & A3 & _);
    try (subst b; lia).
  rewrite E1, E2, E3.
  split; [apply (ofRounded_sign true), roundPos_good, A1|].
  split; [apply (ofRounded_sign true), roundPos_good, A2|].
  apply (ofRounded_sign s), roundPos_good, A3.
Qed.

Lemma binary_round_mono (m1 m2 : positive) (e1 e2 b : Z) :
  b <= e1 -> b <= e2 -> b <= -1074 ->
  Zpos m1 * 2 ^ (e1 - b) <= Zpos m2 * 2 ^ (e2 - b) ->
  lexle (rank (binary_round prec emax false m1 e1))
        (rank (binary_round prec emax false m2 e2))
  /\ lexle (rank (binary_round prec emax true m2 e2))
           (rank (binary_round prec emax true m1 e1)).
Proof.
  intros Hb1 Hb2 Hb Hv.
  destruct (binary_round_spec false m1 e1 b Hb1 Hb)
    as (n1 & f1 & E1 & B1 & A1 & V1).
  destruct (binary_round_spec false m2 e2 b Hb2 Hb)
    as (n2 & f2 & E2 & B2 & A2 & V2).
  destruct (binary_round_spec true m1 e1 b Hb1 Hb)
    as (n1' & f1' & E1' & B1' & A1' & V1').
  destruct (binary_round_spec true m2 e2 b Hb2 Hb)
    as (n2' & f2' & E2' & B2' & A2' & V2').
  rewrite E1, E2, E1', E2'. split.
  - apply ofRounded_mono; try (apply roundPos_good; assumption).
    apply (roundPos_mono n1 n2 f1 f2 b); try assumption. lia.
  - apply ofRounded_mono; try (apply roundPos_good; assumption).
    apply (roundPos_mono n1' n2' f1' f2' b); try assumption. lia.
Qed.

(** Numbers of the format. *)
Lemma valid_finite (s : bool) (m : positive) (e : Z) :
  valid_binary (S754_finite s m e) = true ->
  fexp prec emax (Zpos (digits2_pos m) + e) = e
  /\ -1074 <= e <= 971
  /\ Zpos m < 2 ^ 53
  /\ (-1074 < e -> 2 ^ 52 <= Zpos m).
Proof.
  cbn [SpecFloat.valid_binary]. unfold bounded, canonical_mantissa.
  intros H. apply andb_true_iff in H. destruct H as [H1 H2].
  apply Z.eqb_eq in H1. apply Z.leb_le in H2.
  change (emax - prec) with 971 in H2.
  pose proof (digits2_bounds m) as [Hl Hu].
  split; [exact H1|]. rewrite fexp_eq in H1.
  split; [lia|]. split.
  - pose proof (pow2_le (Zpos (digits2_pos m)) 53 ltac:(lia)). lia.
  - intros He. replace (Zpos (digits2_pos m) - 1) with 52 in Hl by lia.
    exact Hl.
Qed.

Lemma valid_le_value (m1 m2 : positive) (e1 e2 b : Z) :
  valid_binary (S754_finite false m1 e1) = true ->
  valid_binary (S754_finite false m2 e2) = true ->
  lexle (rank (S754_finite false m1 e1)) (rank (S754_finite false m2 e2)) ->
  b <= -1074 ->
  Zpos m1 * 2 ^ (e1 - b) <= Zpos m2 * 2 ^ (e2 - b).
Proof.
  intros V1 V2 H Hb. cbn [rank lexle] in H.
  apply valid_finite in V1, V2.
  destruct V1 as (_ & R1 & U1 & L1), V2 as (_ & R2 & U2 & L2).
  pose proof (pow2_pos (e1 - b) ltac:(lia)) as P1.
  destruct (Z.eq_dec e1 e2) as [-> | NE].
  - nia.
  - assert (He : e1 < e2) by lia. specialize (L2 ltac:(lia)).
    replace (e2 - b) with ((e2 - e1 - 1) + 1 + (e1 - b)) by lia.
    rewrite !pow2_add by lia. change (2 ^ 1) with 2.
    pose proof (pow2_pos (e2 - e1 - 1) ltac:(lia)) as P2.
    rewrite Z.mul_assoc. apply Z.mul_le_mono_nonneg_r; [lia|].
    change (2 ^ 53) with (2 * 2 ^ 52) in U1. nia.
Qed.

Lemma lexle_trans (a b c : Z * Z * Z) : lexle a b -> lexle b c -> lexle a c.
Proof.
  destruct a as [[a1 a2] a3], b as [[b1 b2] b3], c as [[c1 c2] c3].
  unfold lexle. lia.
Qed.

Lemma lexle_refl (a : Z * Z * Z) : lexle a a.
Proof. destruct a as [[a1 a2] a3]. unfold lexle. lia. Qed.

Lemma binary_normalize_mono (D1 D2 e1 e2 : Z) :
  -1074 <= e1 -> -1074 <= e2 ->
  D1 * 2 ^ (e1 + 1074) <= D2 * 2 ^ (e2 + 1074) ->
  lexle (rank (binary_normalize prec emax D1 e1 false))
        (rank (binary_normalize prec emax D2 e2 false))
  /\ comparable (binary_normalize prec emax D1 e1 false)
  /\ comparable (binary_normalize prec emax D2 e2 false).
Proof.
  intros H1 H2 Hv.
  pose proof (pow2_pos (e1 + 1074) ltac:(lia)) as P1.
  pose proof (pow2_pos (e2 + 1074) ltac:(lia)) as P2.
  assert (Hc : forall D e,
             comparable (binary_normalize prec emax D e false)).
  { intros [| p | p] e; cbn [binary_normalize];
      [discriminate | apply (binary_round_sign false)
       | apply (binary_round_sign true)]. }
  split; [|split; apply Hc].
  destruct D1 as [| p1 | p1]; destruct D2 as [| p2 | p2];
    cbn [binary_normalize]; try nia.
  - apply lexle_refl.
  - apply (binary_round_sign false).
  - apply (binary_round_mono p1 p2 e1 e2 (-1074)); try lia.
    replace (e1 - -1074) with (e1 + 1074) by lia.
    replace (e2 - -1074) with (e2 + 1074) by lia. exact Hv.
  - apply (binary_round_sign false).
  - eapply lexle_trans; [apply (binary_round_sign false)
                        | apply (binary_round_sign false)].
  - apply (binary_round_mono p2 p1 e2 e1 (-1074)); try lia.
    replace (e1 - -1074) with (e1 + 1074) by lia.
    replace (e2 - -1074) with (e2 + 1074) by lia. lia.
Qed.

Lemma valid_rank_val (X Y : spec_float) :
  valid_binary X = true -> valid_binary Y = true ->
  nonnegFinite X -> nonnegFinite Y ->
  lexle (rank X) (rank Y) -> val64 X <= val64 Y.
Proof.
  intros VX VY.
  destruct X as [sx | sx | | [|] mx ex]; try contradiction;
    destruct Y as [sy | sy | | [|] my ey]; try contradiction;
    intros _ _ H; cbn [val64].
  - lia.
  - apply valid_finite in VY.
    pose proof (pow2_pos (ey + 1074) ltac:(lia)). nia.
  - cbn [rank lexle] in H. lia.
  - pose proof (valid_le_value mx my ex ey (-1074) VX VY H ltac:(lia)) as V.
    replace (ex - -1074) with (ex + 1074) in V by lia.
    replace (ey - -1074) with (ey + 1074) in V by lia. exact V.
Qed.

Lemma shl_align_value (m : positive) (e ez : Z) :
  ez <= e -> -1074 <= ez ->
  Zpos (fst (shl_align m e ez)) * 2 ^ (ez + 1074) = Zpos m * 2 ^ (e + 1074).
Proof.
  intros H Hz. pose proof (shl_align_spec m e ez) as A.
  destruct (shl_align m e ez) as [m' e']. cbn [fst].
  destruct A as (He & Hm & _).
  rewrite Hm, <- Z.mul_assoc, <- pow2_add by lia. f_equal. f_equal. lia.
Qed.

(** The sum and the difference with a positive constant are roundings of
    the exact sum and difference. *)
Lemma SFadd_val (X : spec_float) (mc : positive) (ec : Z) :
  valid_binary X = true -> nonnegFinite X ->
  valid_binary (S754_finite false mc ec) = true ->
  binary_round prec emax false mc ec = S754_finite false mc ec ->
  exists D e,
    SFadd prec emax X (S754_finite false mc ec)
    = binary_normalize prec emax D e false
    /\ -1074 <= e
    /\ D * 2 ^ (e + 1074) = val64 X + val64 (S754_finite false mc ec).
Proof.
  intros VX NX VC RC. apply valid_finite in VC.
  destruct X as [sx | sx | | [|] mx ex]; try contradiction.
  - exists (Zpos mc), ec. cbn [SFadd binary_normalize val64].
    split; [now rewrite RC|]. lia.
  - apply valid_finite in VX.
    exists (Zpos (fst (shl_align mx ex (Z.min ex ec)))
            + Zpos (fst (shl_align mc ec (Z.min ex ec)))), (Z.min ex ec).
    split; [reflexivity|]. split; [lia|]. cbn [val64].
    rewrite Z.mul_add_distr_r, !shl_align_value by lia. reflexivity.
Qed.

Lemma SFsub_val (X : spec_float) (mc : positive) (ec : Z) :
  valid_binary X = true -> nonnegFinite X ->
  valid_binary (S754_finite false mc ec) = true ->
  binary_round prec emax true mc ec = S754_finite true mc ec ->
  exists D e,
    SFsub prec emax X (S754_finite false mc ec)
    = binary_normalize prec emax D e false
    /\ -1074 <= e
    /\ D * 2 ^ (e + 1074) = val64 X - val64 (S754_finite false mc ec).
Proof.
  intros VX NX VC RC. apply valid_finite in VC.
  destruct X as [sx | sx | | [|] mx ex]; try contradiction.
  - exists (Zneg mc), ec. cbn [SFsub binary_normalize val64 negb].
    split; [now rewrite RC|]. lia.
  - apply valid_finite in VX.
    exists (Zpos (fst (shl_align mx ex (Z.min ex ec)))
            - Zpos (fst (shl_align mc ec (Z.min ex ec)))), (Z.min ex ec).
    split; [reflexivity|]. split; [lia|]. cbn [val64].
    rewrite Z.mul_sub_distr_r, !shl_align_value by lia. reflexivity.
Qed.

Lemma SFadd_mono (X Y : spec_float) (mc : positive) (ec : Z) :
  valid_binary X = true -> valid_binary Y = true ->
  nonnegFinite X -> nonnegFinite Y ->
  valid_binary (S754_finite false mc ec) = true ->
  binary_round prec emax false mc ec = S754_finite false mc ec ->
  lexle (rank X) (rank Y) ->
  SFleb (SFadd prec emax X (S754_finite false mc ec))
        (SFadd prec emax Y (S754_finite false mc ec)) = true.
Proof.
  intros VX VY NX NY VC RC H.
  destruct (SFadd_val X mc ec VX NX VC RC) as (D1 & e1 & -> & B1 & V1).
  destruct (SFadd_val Y mc ec VY NY VC RC) as (D2 & e2 & -> & B2 & V2).
  pose proof (valid_rank_val X Y VX VY NX NY H) as Hv.
  destruct (binary_normalize_mono D1 D2 e1 e2 B1 B2 ltac:(lia))
    as (L & C1 & C2).
  apply SFleb_rank. auto.
Qed.

Lemma SFsub_mono (X Y : spec_float) (mc : positive) (ec : Z) :
  valid_binary X = true -> valid_binary Y = true ->
  nonnegFinite X -> nonnegFinite Y ->
  valid_binary (S754_finite false mc ec) = true ->
  binary_round prec emax true mc ec = S754_finite true mc ec ->
  lexle (rank X) (rank Y) ->
  SFleb (SFsub prec emax X (S754_finite false mc ec))
        (SFsub prec emax Y (S754_finite false mc ec)) = true.
Proof.
  intros VX VY NX NY VC RC H.
  destruct (SFsub_val X mc ec VX NX VC RC) as (D1 & e1 & -> & B1 & V1).
  destruct (SFsub_val Y mc ec VY NY VC RC) as (D2 & e2 & -> & B2 & V2).
  pose proof (valid_rank_val X Y VX VY NX NY H) as Hv.
  destruct (binary_normalize_mono D1 D2 e1 e2 B1 B2 ltac:(lia))
    as (L & C1 & C2).
  apply SFleb_rank. auto.
Qed.

(** The numbers between 0 and 1. *)
Lemma unit_interval (x : float) :
  PrimFloat.leb 0 x = true -> PrimFloat.leb x 1 = true ->
  valid_binary (Prim2SF x) = true /\ nonnegFinite (Prim2SF x).
Proof.
  rewrite !leb_spec, !SFleb_rank. intros (_ & Cx & H0) (_ & _ & H1).
  split; [apply Prim2SF_valid|]. unfold comparable in Cx.
  change (Prim2SF 0) with (S754_zero false) in H0.
  change (Prim2SF 1) with (S754_finite false 4503599627370496 (-52)) in H1.
  destruct (Prim2SF x) as [s | [|] | | [|] m e]; cbn [rank lexle] in *;
    cbn [nonnegFinite]; try lia; try congruence; exact I.
Qed.

Lemma leb_rank (x y : float) :
  PrimFloat.leb x y = true -> lexle (rank (Prim2SF x)) (rank (Prim2SF y)).
Proof. rewrite leb_spec, SFleb_rank. now intros (_ & _ & H). Qed.

Lemma add_mono01 (x y : float) :
  PrimFloat.leb 0 x = true -> PrimFloat.leb x y = true ->
  PrimFloat.leb y 1 = true ->
  PrimFloat.leb (x + 0.05) (y + 0.05) = true.
Proof.
  intros H0 Hxy H1.
  assert (Hx1 : PrimFloat.leb x 1 = true).
  { revert Hxy H1. rewrite !leb_spec, !SFleb_rank.
    intros (A & _ & L1) (_ & B & L2). split; [exact A|]. split; [exact B|].
    eapply lexle_trans; eassumption. }
  assert (H0y : PrimFloat.leb 0 y = true).
  { revert H0 Hxy. rewrite !leb_spec, !SFleb_rank.
    intros (A & _ & L1) (_ & B & L2). split; [exact A|]. split; [exact B|].
    eapply lexle_trans; eassumption. }
  destruct (unit_interval x H0 Hx1) as [VX NX].
  destruct (unit_interval y H0y H1) as [VY NY].
  rewrite leb_spec, !add_spec.
  change (Prim2SF 0.05) with (S754_finite false 7205759403792794 (-57)).
  apply SFadd_mono; try assumption; try (vm_compute; reflexivity).
  now apply leb_rank.
Qed.

Lemma sub_mono01 (x y : float) :
  PrimFloat.leb 0 x = true -> PrimFloat.leb x y = true ->
  PrimFloat.leb y 1 = true ->
  PrimFloat.leb (x - 0.1) (y - 0.1) = true.
Proof.
  intros H0 Hxy H1.
  assert (Hx1 : PrimFloat.leb x 1 = true).
  { revert Hxy H1. rewrite !leb_spec, !SFleb_rank.
    intros (A & _ & L1) (_ & B & L2). split; [exact A|]. split; [exact B|].
    eapply lexle_trans; eassumption. }
  assert (H0y : PrimFloat.leb 0 y = true).
  { revert H0 Hxy. rewrite !leb_spec, !SFleb_rank.
    intros (A & _ & L1) (_ & B & L2). split; [exact A|]. split; [exact B|].
    eapply lexle_trans; eassumption. }
  destruct (unit_interval x H0 Hx1) as [VX NX].
  destruct (unit_interval y H0y H1) as [VY NY].
  rewrite leb_spec, !sub_spec.
  change (Prim2SF 0.1) with (S754_finite false 7205759403792794 (-56)).
  apply SFsub_mono; try assumption; try (vm_compute; reflexivity).
  now apply leb_rank.
Qed.

(** The product with a positive normal constant. *)
Lemma digits2_mul (a b : positive) :
  Zpos (digits2_pos a) + Zpos (digits2_pos b) - 1
  <= Zpos (digits2_pos (a * b)).
Proof.
  pose proof (digits2_bounds a) as [La _].
  pose proof (digits2_bounds b) as [Lb _].
  pose proof (pow2_pos (Zpos (digits2_pos a) - 1) ltac:(lia)) as Pa.
  pose proof (pow2_pos (Zpos (digits2_pos b) - 1) ltac:(lia)) as Pb.
  pose proof (digits2_ge (a * b)
                (Zpos (digits2_pos a) - 1 + (Zpos (digits2_pos b) - 1))
                ltac:(lia)) as H.
  rewrite pow2_add in H by lia. rewrite Pos2Z.inj_mul in H.
  specialize (H ltac:(nia)). lia.
Qed.

Lemma SFmul_finite (mx mc : positive) (ex ec : Z) :
  Zpos (digits2_pos mc) = 53 ->
  SFmul prec emax (S754_finite false mx ex) (S754_finite false mc ec)
  = ofRounded false (roundPos (mx * mc) (ex + ec))
  /\ ex + ec <= fexp prec emax (Zpos (digits2_pos (mx * mc)) + (ex + ec)).
Proof.
  intros Hc. pose proof (digits2_mul mx mc) as Hd.
  assert (A : ex + ec
              <= fexp prec emax (Zpos (digits2_pos (mx * mc)) + (ex + ec)))
    by (rewrite fexp_eq; lia).
  split; [|exact A]. cbn [SFmul xorb]. now apply binary_round_aux_spec.
Qed.

Lemma SFmul_mono (X Y : spec_float) (mc : positive) (ec : Z) :
  valid_binary X = true -> valid_binary Y = true ->
  nonnegFinite X -> nonnegFinite Y ->
  Zpos (digits2_pos mc) = 53 ->
  lexle (rank X) (rank Y) ->
  lexle (rank (SFmul prec emax X (S754_finite false mc ec)))
        (rank (SFmul prec emax Y (S754_finite false mc ec)))
  /\ lexle (0, 0, 0) (rank (SFmul prec emax X (S754_finite false mc ec))).
Proof.
  intros VX VY NX NY Hc H.
  pose proof (valid_rank_val X Y VX VY NX NY H) as Hv.
  destruct X as [sx | sx | | [|] mx ex]; try contradiction;
    destruct Y as [sy | sy | | [|] my ey]; try contradiction.
  - cbn [SFmul rank lexle]. lia.
  - destruct (SFmul_finite my mc ey ec Hc) as [-> A].
    cbn [SFmul rank]. split; [|cbn [lexle]; lia].
    apply (ofRounded_sign false), roundPos_good, A.
  - cbn [rank lexle] in H. lia.
  - destruct (SFmul_finite mx mc ex ec Hc) as [-> Ax].
    destruct (SFmul_finite my mc ey ec Hc) as [-> Ay].
    apply valid_finite in VX, VY. cbn [val64] in Hv.
    split; [|apply (ofRounded_sign false), roundPos_good, Ax].
    apply ofRounded_mono; try (apply roundPos_good; assumption).
    apply (roundPos_mono _ _ _ _ (-1074 + ec)); try assumption; try lia.
    replace (ex + ec - (-1074 + ec)) with (ex + 1074) by lia.
    replace (ey + ec - (-1074 + ec)) with (ey + 1074) by lia.
    rewrite !Pos2Z.inj_mul. nia.
Qed.

(** [x * 100] for [x] between 0 and 1. *)
Lemma percent_range (x : float) :
  PrimFloat.leb 0 x = true -> PrimFloat.leb x 1 = true ->
  let P := Prim2SF (x * 100) in
  valid_binary P = true /\ nonnegFinite P
  /\ lexle (rank P) (rank (S754_finite false 7036874417766400 (-46))).
Proof.
  intros H0 H1. destruct (unit_interval x H0 H1) as [VX NX]. cbn zeta.
  split; [apply Prim2SF_valid|].
  pose proof (leb_rank _ _ H1) as L1.
  rewrite mul_spec.
  change (Prim2SF 100) with (S754_finite false 7036874417766400 (-46)).
  change (Prim2SF 1) with (S754_finite false 4503599627370496 (-52)) in L1.
  destruct (SFmul_mono (Prim2SF x)
              (S754_finite false 4503599627370496 (-52))
              7036874417766400 (-46) VX eq_refl NX I eq_refl L1)
    as [Hle H0'].
  unfold SF64mul.
  replace (SFmul prec emax (S754_finite false 4503599627370496 (-52))
             (S754_finite false 7036874417766400 (-46)))
    with (S754_finite false 7036874417766400 (-46)) in Hle
    by (vm_compute; reflexivity).
  split; [|exact Hle].
  assert (C : comparable (SFmul prec emax (Prim2SF x)
                            (S754_finite false 7036874417766400 (-46)))).
  { destruct (Prim2SF x) as [sx | sx | | [|] mx ex]; try contradiction.
    - discriminate.
    - destruct (SFmul_finite mx 7036874417766400 ex (-46) eq_refl)
        as [-> A].
      apply (ofRounded_sign false), roundPos_good, A. }
  unfold comparable in C.
  destruct (SFmul prec emax (Prim2SF x)
              (S754_finite false 7036874417766400 (-46)))
    as [s | [|] | | [|] m e]; cbn [rank lexle nonnegFinite] in *;
    try lia; try congruence; exact I.
Qed.

(** [Math.round] on the numbers between 0 and 100. *)
Lemma nearestInt_val (m : positive) (e : Z) :
  -1074 <= e < 0 ->
  nearestInt (S754_finite false m e)
  = (2 * val64 (S754_finite false m e) + 2 ^ 1074) / (2 * 2 ^ 1074).
Proof.
  intros He. cbn [nearestInt val64].
  pose proof (pow2_pos (e + 1074) ltac:(lia)) as P.
  pose proof (pow2_pos (- e) ltac:(lia)) as P'.
  rewrite <- (Z.div_mul_cancel_r (2 * Z.pos m + 2 ^ (- e)) (2 * 2 ^ (- e))
                (2 ^ (e + 1074))) by lia.
  f_equal.
  - rewrite Z.mul_add_distr_r, <- pow2_add by lia.
    replace (- e + (e + 1074)) with 1074 by lia. lia.
  - rewrite <- Z.mul_assoc, <- pow2_add by lia.
    replace (- e + (e + 1074)) with 1074 by lia. reflexivity.
Qed.

Lemma nearestInt_mono (P1 P2 : spec_float) :
  valid_binary P1 = true -> valid_binary P2 = true ->
  nonnegFinite P1 -> nonnegFinite P2 ->
  lexle (rank P1) (rank P2) ->
  lexle (rank P2) (rank (S754_finite false 7036874417766400 (-46))) ->
  0 <= nearestInt P1 <= nearestInt P2 /\ nearestInt P2 <= 100.
Proof.
  intros V1 V2 N1 N2 H12 H2.
  assert (H1 : lexle (rank P1)
                 (rank (S754_finite false 7036874417766400 (-46))))
    by (eapply lexle_trans; eassumption).
  pose proof (valid_rank_val P1 P2 V1 V2 N1 N2 H12) as Hv.
  pose proof (valid_rank_val P2
                (S754_finite false 7036874417766400 (-46))
                V2 eq_refl N2 I H2) as Hv2.
  replace (val64 (S754_finite false 7036874417766400 (-46)))
    with (100 * 2 ^ 1074) in Hv2 by (vm_compute; reflexivity).
  pose proof (pow2_pos 1074 ltac:(lia)) as P.
  assert (Hq : forall Q, valid_binary Q = true -> nonnegFinite Q ->
            lexle (rank Q)
              (rank (S754_finite false 7036874417766400 (-46))) ->
            nearestInt Q = (2 * val64 Q + 2 ^ 1074) / (2 * 2 ^ 1074)).
  { intros [s | s | | [|] m e] VQ NQ HQ; try contradiction.
    - cbn [nearestInt val64]. symmetry. apply Z.div_small. lia.
    - apply nearestInt_val. apply valid_finite in VQ.
      cbn [rank lexle] in HQ. lia. }
  rewrite (Hq P1 V1 N1 H1), (Hq P2 V2 N2 H2).
  assert (Hv0 : 0 <= val64 P1).
  { destruct P1 as [s | s | | [|] m e]; try contradiction; cbn [val64];
      lia. }
  split; [split|].
  - apply Z.div_pos; lia.
  - apply Z.div_le_mono; lia.
  - assert ((2 * val64 P2 + 2 ^ 1074) / (2 * 2 ^ 1074) < 101); [|lia].
    apply Z.div_lt_upper_bound; lia.
Qed.

Lemma b64round_percent (p : float) (m : positive) (e : Z) :
  Prim2SF p = S754_finite false m e -> e < 0 ->
  (b64round p / 100)%float = hundredths (nearestInt (Prim2SF p)).
Proof.
  intros E He. unfold b64round, hundredths. rewrite E.
  cbn [nearestInt]. cbn zeta.
  replace (0 <=? e) with false by (symmetry; apply Z.leb_gt; lia).
  replace ((2 * Z.pos m + 2 ^ (- e)) / (2 * 2 ^ (- e)) <? 0) with false;
    [reflexivity|].
  symmetry. apply Z.ltb_ge.
  pose proof (pow2_pos (- e) ltac:(lia)). apply Z.div_pos; lia.
Qed.

Lemma hundredths_table :
  forallb (fun a =>
    forallb (fun b =>
      if a <=? b then PrimFloat.leb (hundredths a) (hundredths b)
      else true) percentSteps) percentSteps = true.
Proof. vm_compute. reflexivity. Qed.

Lemma hundredths_mono (q1 q2 : Z) :
  0 <= q1 <= q2 -> q2 <= 100 ->
  PrimFloat.leb (hundredths q1) (hundredths q2) = true.
Proof.
  intros H1 H2.
  assert (In1 : forall q, 0 <= q <= 100 -> In q percentSteps).
  { intros q Hq. unfold percentSteps. apply in_map_iff.
    exists (Z.to_nat q). split; [lia|]. apply in_seq. lia. }
  pose proof hundredths_table as T.
  rewrite forallb_forall in T. specialize (T q1 (In1 q1 ltac:(lia))).
  rewrite forallb_forall in T. specialize (T q2 (In1 q2 ltac:(lia))).
  replace (q1 <=? q2) with true in T by (symmetry; apply Z.leb_le; lia).
  exact T.
Qed.

(** [Math.round(x * 100) / 100] keeps the order between 0 and 1. *)
Lemma round2_mono01 (x y : float) :
  PrimFloat.leb 0 x = true -> PrimFloat.leb x y = true ->
  PrimFloat.leb y 1 = true ->
  PrimFloat.leb (b64round (x * 100) / 100)%float
    (b64round (y * 100) / 100)%float = true.
Proof.
  intros H0 Hxy H1.
  assert (Hx1 : PrimFloat.leb x 1 = true).
  { revert Hxy H1. rewrite !leb_spec, !SFleb_rank.
    intros (A & _ & L1) (_ & B & L2). split; [exact A|]. split; [exact B|].
    eapply lexle_trans; eassumption. }
  assert (H0y : PrimFloat.leb 0 y = true).
  { revert H0 Hxy. rewrite !leb_spec, !SFleb_rank.
    intros (A & _ & L1) (_ & B & L2). split; [exact A|]. split; [exact B|].
    eapply lexle_trans; eassumption. }
  destruct (unit_interval x H0 Hx1) as [VX NX].
  destruct (unit_interval y H0y H1) as [VY NY].
  destruct (percent_range x H0 Hx1) as (VPx & NPx & LPx).
  destruct (percent_range y H0y H1) as (VPy & NPy & LPy).
  assert (Hmul : lexle (rank (Prim2SF (x * 100))) (rank (Prim2SF (y * 100)))).
  { rewrite !mul_spec.
    change (Prim2SF 100) with (S754_finite false 7036874417766400 (-46)).
    apply SFmul_mono; try assumption; try reflexivity.
    now apply leb_rank. }
  destruct (nearestInt_mono _ _ VPx VPy NPx NPy Hmul LPy) as [Hq Hq'].
  assert (Hzero : forall p s, Prim2SF p = S754_zero s ->
            Prim2SF (b64round p / 100)%float = S754_zero s).
  { intros p s E. unfold b64round. rewrite E, div_spec, E.
    change (Prim2SF 100) with (S754_finite false 7036874417766400 (-46)).
    cbn. now destruct s. }
  assert (Hfin : forall p m e, Prim2SF p = S754_finite false m e ->
            lexle (rank (Prim2SF p))
              (rank (S754_finite false 7036874417766400 (-46))) ->
            (b64round p / 100)%float
            = hundredths (nearestInt (Prim2SF p))).
  { intros p m e E L. apply (b64round_percent p m e E).
    rewrite E in L. cbn [rank lexle] in L. lia. }
  destruct (Prim2SF (x * 100)) as [sx | sx | | [|] mx ex] eqn:Ex;
    try contradiction;
    destruct (Prim2SF (y * 100)) as [sy | sy | | [|] my ey] eqn:Ey;
    try contradiction.
  - rewrite leb_spec, (Hzero _ _ Ex), (Hzero _ _ Ey). reflexivity.
  - rewrite (Hfin _ _ _ Ey) by (rewrite Ey; exact LPy).
    pose proof (hundredths_mono 0 (nearestInt (Prim2SF (y * 100)))) as T.
    rewrite Ey in T |- *. specialize (T ltac:(lia) ltac:(lia)).
    revert T. rewrite !leb_spec, (Hzero _ _ Ex).
    change (Prim2SF (hundredths 0)) with (S754_zero false).
    rewrite !SFleb_rank. intros (_ & C & L).
    split; [discriminate|]. split; [exact C|exact L].
  - cbn [rank lexle] in Hmul. lia.
  - rewrite (Hfin _ _ _ Ex) by (rewrite Ex; exact LPx).
    rewrite (Hfin _ _ _ Ey) by (rewrite Ey; exact LPy).
    rewrite Ex, Ey. apply hundredths_mono; lia.
Qed.

(** [Math.min] and [Math.max]. *)
Lemma leb_not_nan (x y : float) :
  PrimFloat.leb x y = true -> is_nan x = false /\ is_nan y = false.
Proof.
  rewrite leb_spec, SFleb_rank. intros (Cx & Cy & _).
  assert (H : forall z, comparable (Prim2SF z) -> is_nan z = false).
  { intros z Cz. unfold is_nan. rewrite eqb_spec. unfold SFeqb.
    destruct (SFcompare_rank _ _ Cz Cz) as (cmp & -> & Hlt & Hle).
    destruct (rank (Prim2SF z)) as [[a1 a2] a3].
    unfold lexlt, lexle in *.
    destruct cmp; [reflexivity | |].
    - exfalso. assert (Lt = Lt) as A by reflexivity. apply Hlt in A. lia.
    - exfalso. apply Hle; [lia | reflexivity]. }
  split; apply H; assumption.
Qed.

Lemma ltb_leb (x y : float) :
  PrimFloat.ltb x y = true -> PrimFloat.leb x y = true.
Proof.
  rewrite ltb_spec, leb_spec, SFltb_rank, SFleb_rank.
  intros (Cx & Cy & H). split; [exact Cx|]. split; [exact Cy|].
  destruct (rank (Prim2SF x)) as [[a1 a2] a3].
  destruct (rank (Prim2SF y)) as [[b1 b2] b3].
  unfold lexlt, lexle in *. lia.
Qed.

Lemma ltb_false_leb (x y : float) :
  PrimFloat.leb x x = true -> PrimFloat.leb y y = true ->
  PrimFloat.ltb x y = false -> PrimFloat.leb y x = true.
Proof.
  rewrite !leb_spec, !SFleb_rank. intros (Cx & _ & _) (Cy & _ & _) H.
  split; [exact Cy|]. split; [exact Cx|].
  destruct (PrimFloat.ltb x y) eqn:E; [discriminate|].
  assert (N : ~ lexlt (rank (Prim2SF x)) (rank (Prim2SF y))).
  { intros L. rewrite ltb_spec in E.
    assert (SFltb (Prim2SF x) (Prim2SF y) = true) as A
      by (apply SFltb_rank; auto).
    congruence. }
  destruct (rank (Prim2SF x)) as [[a1 a2] a3].
  destruct (rank (Prim2SF y)) as [[b1 b2] b3].
  unfold lexlt, lexle in *. lia.
Qed.

Lemma b64min_cases (x : float) :
  PrimFloat.leb x x = true ->
  (b64min 1 x = 1%float /\ PrimFloat.leb 1 x = true)
  \/ (b64min 1 x = x /\ PrimFloat.leb x 1 = true).
Proof.
  intros Hx. destruct (leb_not_nan _ _ Hx) as [Nx _].
  unfold b64min. rewrite Nx.
  replace (is_nan 1) with false by (vm_compute; reflexivity).
  replace (get_sign 1) with false by (vm_compute; reflexivity).
  cbn [orb].
  destruct (PrimFloat.ltb 1 x) eqn:E1.
  - left. split; [reflexivity | now apply ltb_leb].
  - right. assert (PrimFloat.leb x 1 = true)
      by (apply ltb_false_leb; [reflexivity | exact Hx | exact E1]).
    destruct (PrimFloat.ltb x 1); auto.
Qed.

Lemma b64max_cases (x : float) :
  PrimFloat.leb x x = true ->
  (b64max 0 x = 0%float /\ PrimFloat.leb x 0 = true)
  \/ (b64max 0 x = x /\ PrimFloat.leb 0 x = true).
Proof.
  intros Hx. destruct (leb_not_nan _ _ Hx) as [Nx _].
  unfold b64max. rewrite Nx.
  replace (is_nan 0) with false by (vm_compute; reflexivity).
  replace (get_sign 0) with false by (vm_compute; reflexivity).
  cbn [orb].
  destruct (PrimFloat.ltb 0 x) eqn:E1.
  - right. split; [reflexivity | now apply ltb_leb].
  - left. assert (PrimFloat.leb x 0 = true)
      by (apply ltb_false_leb; [reflexivity | exact Hx | exact E1]).
    destruct (PrimFloat.ltb x 0); auto.
Qed.

End Rounding64.

#[export] Instance B64Laws : NumLaws PrimFloat.float.
Proof.
  split; cbn [nle nadd nsub nmin nmax num0 num1 num0_05 num0_1
              Binary64.B64Ops];
    try (vm_compute; reflexivity).
  - exact Rounding64.add_mono01.
  - exact Rounding64.sub_mono01.
  - exact Rounding64.round2_mono01.
  - intros x Hx. destruct (Rounding64.b64min_cases x Hx) as [[-> H] | [-> H]];
      [reflexivity | exact H].
  - intros x Hx. destruct (Rounding64.b64min_cases x Hx) as [[-> H] | [-> H]];
      [exact H | exact Hx].
  - intros x z H1 H2.
    destruct (Rounding64.b64min_cases x
                (@nle_refl_r PrimFloat.float B64Ops B64Order z x H2))
      as [[-> H] | [-> H]]; assumption.
  - intros x Hx. destruct (Rounding64.b64max_cases x Hx) as [[-> H] | [-> H]];
      [reflexivity | exact H].
  - intros x Hx. destruct (Rounding64.b64max_cases x Hx) as [[-> H] | [-> H]];
      [exact H | exact Hx].
  - intros x z H1 H2.
    destruct (Rounding64.b64max_cases x
                (@nle_refl_l PrimFloat.float B64Ops B64Order x z H2))
      as [[-> H] | [-> H]]; assumption.
Qed.

(* ================================================================== *)
(** ** The confidence adjustment *)
(* ================================================================== *)

Section ConfidenceFacts.
Context {F : Type} {ops : NumOps F}.
Context {order : OrderLaws F} {laws : NumLaws F}.

Lemma calculateConfidence_adjusted (text : str) (s : F) :
  calculateConfidence text s = confidence_asClaimed text s.
Proof.
  unfold calculateConfidence, confidence_asClaimed, adjusted.
  destruct (100 <? length text) eqn:E1; [|reflexivity].
  apply Nat.ltb_lt in E1.
  replace (length text <? 20) with false
    by (symmetry; apply Nat.ltb_ge; lia).
  reflexivity.
Qed.

Lemma adjusted_mono (text : str) (s s' : F) :
  nle num0 s = true -> nle s s' = true -> nle s' num1 = true ->
  nle (adjusted text s) (adjusted text s') = true.
Proof.
  intros H0 H H1. unfold adjusted.
  pose proof (nadd_mono _ _ H0 H H1) as Ha.
  pose proof (nsub_mono _ _ H0 H H1) as Hs.
  destruct (100 <? length text).
  - apply nmin_glb.
    + apply nmin_le_l. exact (nle_refl_l _ _ Ha).
    + eapply nle_trans; [|exact Ha].
      apply nmin_le_r. exact (nle_refl_l _ _ Ha).
  - destruct (length text <? 20); [|exact H].
    apply nmax_lub.
    + apply nmax_ge_l. exact (nle_refl_r _ _ Hs).
    + eapply nle_trans; [exact Hs|].
      apply nmax_ge_r. exact (nle_refl_r _ _ Hs).
Qed.

Lemma adjusted_bounds (text : str) (s : F) :
  nle num0 s = true -> nle s num1 = true ->
  nle num0 (adjusted text s) = true /\ nle (adjusted text s) num1 = true.
Proof.
  intros H0 H1. unfold adjusted.
  assert (H01 : nle num0 num1 = true) by (eapply nle_trans; eassumption).
  pose proof (nadd_mono _ _ (nle_refl_l _ _ H0) H0 H1) as Ha.
  pose proof (nsub_mono _ _ H0 H1 (nle_refl_r _ _ H1)) as Hs.
  destruct (100 <? length text).
  - split.
    + apply nmin_glb; [exact H01|].
      eapply nle_trans; [apply num0_le_bonus | exact Ha].
    + apply nmin_le_l. exact (nle_refl_r _ _ Ha).
  - destruct (length text <? 20); [|now split].
    split.
    + apply nmax_ge_l. exact (nle_refl_l _ _ Hs).
    + apply nmax_lub; [exact H01|].
      eapply nle_trans; [exact Hs | apply penalty_le_num1].
Qed.

(** C7.  The adjusted confidence is the raw score with the bonus of 0.05,
    capped at 1, for a text of more than 100 characters, or the penalty of
    0.1, floored at 0, for a text of fewer than 20, rounded to two decimal
    places; for scores between 0 and 1 it stays between 0 and 1, and it
    does not decrease when the score grows. *)
Theorem confidence_adjustment (text : str) (s s' : F) :
  nle num0 s = true -> nle s num1 = true ->
  nle num0 s' = true -> nle s' num1 = true ->
  nle s s' = true ->
  calculateConfidence text s = confidence_asClaimed text s
  /\ nle num0 (calculateConfidence text s) = true
  /\ nle (calculateConfidence text s) num1 = true
  /\ nle (calculateConfidence text s) (calculateConfidence text s') = true.
Proof.
  intros H0 H1 H0' H1' Hle.
  rewrite !calculateConfidence_adjusted. unfold confidence_asClaimed.
  destruct (@adjusted_bounds text s H0 H1) as [Hb0 Hb1].
  destruct (@adjusted_bounds text s' H0' H1') as [Hb0' Hb1'].
  assert (H00 : nle (@num0 F ops) num0 = true) by exact (nle_refl_l _ _ H0).
  assert (H11 : nle (@num1 F ops) num1 = true) by exact (nle_refl_r _ _ H1).
  split; [reflexivity|]. split; [|split].
  - eapply nle_trans; [apply round2_num0_ge|].
    apply round2_mono; assumption.
  - eapply nle_trans; [|apply round2_num1_le].
    apply round2_mono; assumption.
  - apply round2_mono; try assumption.
    now apply adjusted_mono.
Qed.

End ConfidenceFacts.

Lemma confidence_adjustment_witness :
  let text := lit "Total" in
  let s := @num0_5 PrimFloat.float B64Ops in
  let s' := @num1 PrimFloat.float B64Ops in
  calculateConfidence text s = confidence_asClaimed text s
  /\ nle num0 (calculateConfidence text s) = true
  /\ nle (calculateConfidence text s) num1 = true
  /\ nle (calculateConfidence text s) (calculateConfidence text s') = true.
Proof.
  apply (@confidence_adjustment PrimFloat.float B64Ops B64Order B64Laws
           (lit "Total") num0_5 num1);
    vm_compute; reflexivity.
Defined.

(* ================================================================== *)
(** ** A failing scorer *)
(* ================================================================== *)

Section ScorerFailure.
Context {F : Type} {ops : NumOps F} {order : OrderLaws F}.
Variable freshId : nat -> str.

(** With a raw score of 0 the confidence is at most the bonus of 0.05, and
    at most 0 for a text of up to 100 characters. *)
Lemma confidence_of_zero (text : str) :
  nle (calculateConfidence text num0) num0_05 = true
  /\ (length text <= 100 -> nle (calculateConfidence text num0) num0 = true).
Proof.
  unfold calculateConfidence.
  destruct (100 <? length text) eqn:E1; destruct (length text <? 20) eqn:E2.
  - apply Nat.ltb_lt in E1, E2. lia.
  - split; [apply zero_bonus_conf|]. apply Nat.ltb_lt in E1. lia.
  - split; [|intros _; apply zero_penalty_conf].
    eapply nle_trans; [apply zero_penalty_conf | apply num0_le_num0_05].
  - split; [|intros _; apply zero_conf].
    eapply nle_trans; [apply zero_conf | apply num0_le_num0_05].
Qed.

Lemma above_confidence (x y t : F) :
  nle x y = true -> nlt y t = true -> nle t x = false.
Proof.
  intros Hxy Hyt. destruct (nle t x) eqn:E; [|reflexivity].
  pose proof (nle_trans _ _ _ E Hxy) as Hty.
  pose proof (nlt_not_nle _ _ Hyt). congruence.
Qed.

(** Once the model is loaded, [classify] returns whatever the scorer
    does, and so does the loop of [analyzeText]. *)
Lemma zsClassify_returns (z : @ZeroShotClassifier F) (scorer : @Scorer F)
  (text : str) (labels : list str) :
  pipeline z = Ok scorer ->
  exists classifications, zsClassify z text labels = Ok classifications.
Proof.
  intros Hload. unfold zsClassify. rewrite Hload.
  destruct (length (trim text) =? 0); [eauto|].
  destruct (scorer text labels); eauto.
Qed.

Lemma analyzeLoop_returns (z : @ZeroShotClassifier F) (scorer : @Scorer F)
  (a : @ContentAnalyzer F (@ZeroShotClassifier F)) (pg : option nat) :
  pipeline z = Ok scorer -> classifier a = z ->
  forall paragraphs i g,
    exists units, analyzeLoop freshId a pg paragraphs i g = Ok units.
Proof.
  intros Hload Hz. induction paragraphs as [|p ps IH]; intros i g.
  - exists []. reflexivity.
  - cbn [analyzeLoop]. destruct (length p <? 10); [apply IH|].
    rewrite Hz. cbn [classify ZeroShot_IClassifier].
    destruct (zsClassify_returns z scorer p (analyzerLabels a) Hload)
      as [cs ->].
    cbn [bind]. destruct cs as [|top cs]; [apply IH|].
    cbv zeta. destruct (nle _ _); [|apply IH].
    destruct (IH (S i) (S g)) as [more ->]. cbn [bind]. eauto.
Qed.

(** C8, as the code has it.  When the scorer throws, [classify] returns
    the score 0 for every requested label and throws nothing.  The
    paragraph is then left out by every threshold above 0.05, and by every
    positive threshold when it has at most 100 characters; the loop goes on
    with the paragraphs that follow and returns. *)
Theorem scorer_failure_absorbed (z : @ZeroShotClassifier F)
  (scorer : @Scorer F) (a : @ContentAnalyzer F (@ZeroShotClassifier F))
  (pg : option nat) (paragraph : str) (more : list str) (i g : nat)
  (e : str) :
  pipeline z = Ok scorer ->
  scorer paragraph (analyzerLabels a) = Throw e ->
  classifier a = z ->
  classify z paragraph (analyzerLabels a)
  = Ok (zeroScores (analyzerLabels a))
  /\ (nlt num0_05 (analyzerThreshold a) = true
      \/ (length paragraph <= 100
          /\ nlt num0 (analyzerThreshold a) = true) ->
      analyzeLoop freshId a pg (paragraph :: more) i g
      = analyzeLoop freshId a pg more (S i) g)
  /\ (exists units,
        analyzeLoop freshId a pg (paragraph :: more) i g = Ok units).
Proof.
  intros Hload Hfail Hz.
  assert (Hc : classify z paragraph (analyzerLabels a)
               = Ok (zeroScores (analyzerLabels a))).
  { cbn [classify ZeroShot_IClassifier]. unfold zsClassify.
    rewrite Hload. destruct (length (trim paragraph) =? 0); [reflexivity|].
    now rewrite Hfail. }
  split; [exact Hc|].
  split; [|now apply (analyzeLoop_returns z scorer)].
  intros Hthr.
  cbn [analyzeLoop]. destruct (length paragraph <? 10); [reflexivity|].
  rewrite Hz, Hc. cbn [bind].
  destruct (analyzerLabels a) as [|l ls]; [reflexivity|].
  cbn [zeroScores map score]. cbv zeta.
  destruct (confidence_of_zero paragraph) as [H005 H0].
  replace (nle (analyzerThreshold a) (calculateConfidence paragraph num0))
    with false; [reflexivity|].
  symmetry. destruct Hthr as [Hthr | [Hlen Hthr]].
  - eapply above_confidence; eassumption.
  - eapply above_confidence; [apply H0, Hlen | exact Hthr].
Qed.

End ScorerFailure.

Lemma scorer_failure_absorbed_witness :
  let a := newAnalyzer (@failingClassifier PrimFloat.float) None
             (Some [lit "text"]) in
  classify (@failingClassifier PrimFloat.float) shortParagraph
    (analyzerLabels a)
  = Ok (zeroScores (analyzerLabels a))
  /\ (nlt num0_05 (analyzerThreshold a) = true
      \/ (length shortParagraph <= 100
          /\ nlt num0 (analyzerThreshold a) = true) ->
      analyzeLoop natToString a None [shortParagraph; shortParagraph] 0 0
      = analyzeLoop natToString a None [shortParagraph] 1 0)
  /\ (exists units,
        analyzeLoop natToString a None [shortParagraph; shortParagraph] 0 0
        = Ok units).
Proof.
  apply (@scorer_failure_absorbed PrimFloat.float B64Ops B64Order natToString
           failingClassifier failingScorer
           (newAnalyzer (@failingClassifier PrimFloat.float) None
              (Some [lit "text"]))
           None shortParagraph [shortParagraph] 0 0
           (lit "inference failed"));
    reflexivity.
Defined.

(** C8, as it is worded, fails for a paragraph of more than 100 characters:
    with the scorer failing and the positive threshold 0.01, the paragraph
    is kept, with the confidence 0.05 of the length bonus. *)
Lemma failed_paragraph_kept :
  let a := newAnalyzer (@failingClassifier PrimFloat.float) (Some lowThreshold)
             (Some [lit "text"]) in
  nlt num0 (analyzerThreshold a) = true
  /\ analyzeText natToString a longParagraph None 0
     = Ok [mkContent (lit "0") (lit "text") longParagraph num0_05
             (Some (mkPosition None (Some 0) None)) None].
Proof. split; vm_compute; reflexivity. Qed.

(* ================================================================== *)
(** ** Configuration *)
(* ================================================================== *)

Section ConfigFacts.
Context {F : Type} {ops : NumOps F}.
Variable loadPipeline : str -> outcome (@Scorer F).

(** A threshold below 0 or above 1 is refused by the schema, hence by the
    constructor. *)
Lemma threshold_refused_by_constructor (t : F) (labels : option (list str))
  (tables : option bool) (model : option str) :
  nlt t num0 = true \/ nlt num1 t = true ->
  exists msg,
    newDocumentExtractor loadPipeline (mkPartial labels (Some t) tables model)
    = Throw msg.
Proof.
  intros Hout. unfold newDocumentExtractor, parseConfig, checkThreshold.
  cbn [p_confidenceThreshold].
  destruct (nisNaN t); [simpl; eauto|].
  destruct (nlt t num0); [simpl; eauto|].
  destruct (nlt num1 t); [simpl; eauto|].
  destruct Hout; discriminate.
Qed.

Lemma threshold_refused_by_setter (C : Type) (a : @ContentAnalyzer F C)
  (t : F) :
  nlt t num0 = true \/ nlt num1 t = true ->
  setConfidenceThreshold a t
  = Throw (lit "Confidence threshold must be between 0 and 1").
Proof.
  intros Hout. unfold setConfidenceThreshold.
  destruct Hout as [-> | ->]; [reflexivity | now rewrite orb_true_r].
Qed.

Lemma empty_labels_refused_by_setter (C : Type) (a : @ContentAnalyzer F C) :
  setClassificationLabels a []
  = Throw (lit "Classification labels cannot be empty").
Proof. reflexivity. Qed.

(** [updateConfig] with an empty list throws, from the setter, after the
    empty list has been stored in the configuration. *)
Lemma empty_labels_in_updateConfig (d : @DocumentExtractor F) :
  checkThreshold (confidenceThreshold (config d))
  = Ok (confidenceThreshold (config d)) ->
  exists d',
    updateConfig d emptyLabelsConfig
    = (d', Some (lit "Classification labels cannot be empty"))
    /\ classificationLabels (config d') = []
    /\ analyzer d' = analyzer d.
Proof.
  intros Hthr. unfold updateConfig, emptyLabelsConfig, spread, parseConfig.
  cbn [p_classificationLabels p_confidenceThreshold
       p_enableTableExtraction p_modelName].
  rewrite Hthr. cbn [bind]. eexists. split; [reflexivity|].
  split; reflexivity.
Qed.

(** C9 at the input where the code departs from it: the constructor takes
    an empty list of labels, and the analyzer it builds has no label. *)
Theorem empty_labels_accepted :
  exists d,
    newDocumentExtractor loadPipeline emptyLabelsConfig = Ok d
    /\ classificationLabels (config d) = []
    /\ analyzerLabels (analyzer d) = []
    /\ setClassificationLabels (analyzer d) []
       = Throw (lit "Classification labels cannot be empty").
Proof.
  eexists. unfold newDocumentExtractor, emptyLabelsConfig, parseConfig.
  cbn [p_classificationLabels p_confidenceThreshold bind].
  split; [reflexivity|]. repeat split.
Qed.

End ConfigFacts.

(* ================================================================== *)
(** ** The CSV exporter *)
(* ================================================================== *)

Lemma hasChar_In (c : ascii) (cell : str) :
  hasChar c cell = true <-> In c cell.
Proof.
  unfold hasChar. rewrite existsb_exists. split.
  - intros (x & Hin & Hx). apply Ascii.eqb_eq in Hx. now subst.
  - intros Hin. exists c. split; [exact Hin | apply Ascii.eqb_refl].
Qed.

Lemma needsQuotes_spec (cell : str) :
  needsQuotes cell = true <-> mustQuote cell.
Proof.
  unfold needsQuotes, mustQuote.
  now rewrite !orb_true_iff, !hasChar_In, or_assoc.
Qed.

Lemma escapeCsvCell_spec (cell : str) :
  (mustQuote cell -> escapeCsvCell cell = quoted cell)
  /\ (~ mustQuote cell -> escapeCsvCell cell = cell).
Proof.
  unfold escapeCsvCell. rewrite <- needsQuotes_spec.
  destruct (needsQuotes cell); split; intros H;
    try reflexivity; congruence.
Qed.

Lemma replaceChar_LF (s : str) :
  replaceChar LF (lit " ") s = collapseLines s.
Proof.
  induction s as [|x s IH]; [reflexivity|].
  unfold replaceChar, collapseLines in *. cbn [flat_map map].
  rewrite IH. now destruct (Ascii.eqb x LF).
Qed.

Lemma collapseLines_no_LF (s : str) : ~ In LF (collapseLines s).
Proof.
  unfold collapseLines. rewrite in_map_iff. intros (x & Hx & _).
  destruct (Ascii.eqb x LF) eqn:E; [discriminate|].
  apply Ascii.eqb_neq in E. congruence.
Qed.

Section CsvFacts.
Context {F : Type}.
Variable numToString : F -> str.

(** C10.  The CSV text is the header row, then one row for each content
    unit in order, then, only when the metadata is asked for, the comment
    lines; the rows are joined by line feeds.  The content cell has its
    line feeds turned into blanks.  A cell with a comma, a double quote or
    a line feed is put between double quotes with its double quotes
    doubled, and every other cell is written as it is. *)
Theorem csv_serialization (result : @ExtractionResult F)
  (options : ExportOptions) :
  generateCsv numToString result options
  = join [LF]
      (lit "ID,Type,Content,Confidence,Page,Paragraph,Has Table Data"
       :: map (fun c => escapeCsvRow (csvRow numToString c))
              (contents result)
       ++ (if includeMetadata options
           then metadataRows result ++ summaryRows result
           else []))
  /\ (forall c,
        escapeCsvRow (csvRow numToString c)
        = join (lit ",") (map escapeCsvCell (csvRow numToString c))
        /\ length (csvRow numToString c) = length csvHeaders
        /\ nth 2 (csvRow numToString c) [] = collapseLines (content c)
        /\ ~ In LF (nth 2 (csvRow numToString c) []))
  /\ (forall cell,
        (mustQuote cell -> escapeCsvCell cell = quoted cell)
        /\ (~ mustQuote cell -> escapeCsvCell cell = cell)).
Proof.
  split; [reflexivity|]. split.
  - intros c. split; [reflexivity|]. split; [reflexivity|].
    cbn [csvRow nth]. rewrite replaceChar_LF.
    split; [reflexivity | apply collapseLines_no_LF].
  - apply escapeCsvCell_spec.
Qed.

End CsvFacts.

(* ================================================================== *)
(** ** The matcher on patterns without groups *)
(* ================================================================== *)

Section GroupFree.
Variable A : Type.

Lemma matchR_Seq (r1 r2 : regex) (s : str) (c : captures) (k : cont A) :
  matchR (Seq r1 r2) s c k = matchR r1 s c (fun s' c' => matchR r2 s' c' k).
Proof. reflexivity. Qed.

Lemma matchR_Group (i : nat) (r : regex) (s : str) (c : captures)
  (k : cont A) :
  matchR (Group i r) s c k
  = matchR r s c
      (fun s' c' => k s' ((i, firstn (length s - length s') s) :: c')).
Proof. reflexivity. Qed.

Lemma matchR_Chr (p : ascii -> bool) (x : ascii) (s : str) (c : captures)
  (k : cont A) :
  matchR (Chr p) (x :: s) c k = if p x then k s c else None.
Proof. reflexivity. Qed.

Lemma matchR_Plus_chr (p : ascii -> bool) (x : ascii) (s : str)
  (c : captures) (k : cont A) :
  matchR (Plus (Chr p)) (x :: s) c k
  = if p x then backtrack p k s c else None.
Proof.
  unfold Plus. rewrite matchR_Seq, matchR_Chr.
  destruct (p x); [apply matchR_star_chr | reflexivity].
Qed.

Lemma starLoop_sound_gf (r : regex)
  (step : str -> captures -> cont A -> option A) (k : cont A) :
  sound_step_gf (Lang r) step ->
  forall n s c a, starLoop step k n s c = Some a ->
    exists s1 s2, s = s1 ++ s2 /\ Lang (Star r) s1 /\ k s2 c = Some a.
Proof.
  intros Hstep. induction n as [|n IH]; intros s c a Hrun; simpl in Hrun.
  - exists [], s. repeat split; [constructor | exact Hrun].
  - destruct (step s c _) as [a'|] eqn:E.
    + injection Hrun as ->. apply Hstep in E.
      destruct E as (s1 & s2 & -> & HL & Hk).
      destruct (length s2 <? length (s1 ++ s2)); [|discriminate].
      apply IH in Hk. destruct Hk as (t1 & t2 & -> & HL' & Hk).
      exists (s1 ++ t1), t2. rewrite app_assoc.
      repeat split; [now constructor | exact Hk].
    + exists [], s. repeat split; [constructor | exact Hrun].
Qed.

Lemma matchR_sound_gf (r : regex) :
  groupFree r = true -> sound_step_gf (Lang r) (@matchR A r).
Proof.
  induction r as [p | r1 IH1 r2 IH2 | r1 IH1 r2 IH2 | r1 IH1 | i r1 IH1];
    simpl; intros Hgf s c k a Hrun.
  - destruct s as [|x s]; [discriminate|].
    destruct (p x) eqn:Hp; [|discriminate].
    exists [x], s. repeat split; [now constructor | exact Hrun].
  - apply andb_true_iff in Hgf. destruct Hgf as [H1 H2].
    apply (IH1 H1) in Hrun. destruct Hrun as (s1 & s2 & -> & HL1 & Hrun).
    apply (IH2 H2) in Hrun. destruct Hrun as (t1 & t2 & -> & HL2 & Hk).
    exists (s1 ++ t1), t2. rewrite app_assoc.
    repeat split; [now constructor | exact Hk].
  - apply andb_true_iff in Hgf. destruct Hgf as [H1 H2].
    destruct (matchR r1 s c k) as [a'|] eqn:E.
    + injection Hrun as ->. apply (IH1 H1) in E.
      destruct E as (s1 & s2 & -> & HL & Hk).
      exists s1, s2. repeat split; [now apply LangAltL | exact Hk].
    + apply (IH2 H2) in Hrun. destruct Hrun as (s1 & s2 & -> & HL & Hk).
      exists s1, s2. repeat split; [now apply LangAltR | exact Hk].
  - eapply starLoop_sound_gf; [apply IH1, Hgf | exact Hrun].
  - discriminate.
Qed.

End GroupFree.

(** *** Words of a star and of a run *)

Lemma Lang_star_pieces_gen (r' : regex) (s : str) :
  Lang r' s ->
  forall r, r' = Star r -> exists ps, s = concat ps /\ Forall (Lang r) ps.
Proof.
  induction 1 as [ | | | | r0 | r0 s1 s2 H1 _ H2 IH2 | ];
    intros q Er; try discriminate; injection Er as ->.
  - exists []. split; [reflexivity | constructor].
  - destruct (IH2 q eq_refl) as (ps & -> & Hps).
    exists (s1 :: ps). split; [reflexivity | now constructor].
Qed.

Lemma Lang_star_pieces (r : regex) (s : str) :
  Lang (Star r) s ->
  exists ps, s = concat ps /\ Forall (Lang r) ps.
Proof. intros H. now apply (@Lang_star_pieces_gen (Star r) s H r). Qed.

Lemma Lang_chr (p : ascii -> bool) (s : str) :
  Lang (Chr p) s -> exists x, s = [x] /\ p x = true.
Proof. intros H. inversion H; subst. eauto. Qed.

Lemma Lang_seq (r1 r2 : regex) (s : str) :
  Lang (Seq r1 r2) s ->
  exists s1 s2, s = s1 ++ s2 /\ Lang r1 s1 /\ Lang r2 s2.
Proof. intros H. inversion H; subst. eauto. Qed.

Lemma Lang_star_chr (p : ascii -> bool) (s : str) :
  Lang (Star (Chr p)) s -> Forall (fun c => p c = true) s.
Proof.
  intros H. apply Lang_star_pieces in H. destruct H as (ps & -> & Hps).
  induction Hps as [|q ps Hq Hps IH]; simpl; [constructor|].
  apply Lang_chr in Hq. destruct Hq as (x & -> & Hx). now constructor.
Qed.

Lemma Lang_plus_chr (p : ascii -> bool) (s : str) :
  Lang (Plus (Chr p)) s -> runOf p s.
Proof.
  intros H. apply Lang_seq in H. destruct H as (s1 & s2 & -> & H1 & H2).
  apply Lang_chr in H1. destruct H1 as (x & -> & Hx).
  apply Lang_star_chr in H2. split; [discriminate | now constructor].
Qed.

Lemma Lang_labelTail (s : str) :
  Lang (Star (Seq (Plus reSpace) (Plus reWord))) s -> LabelTail s.
Proof.
  intros H. apply Lang_star_pieces in H. destruct H as (ps & -> & Hps).
  induction Hps as [|q ps Hq Hps IH]; simpl; [constructor|].
  apply Lang_seq in Hq. destruct Hq as (ws & w & -> & Hws & Hw).
  rewrite <- app_assoc. constructor; [ | | exact IH].
  - now apply Lang_plus_chr.
  - now apply Lang_plus_chr.
Qed.

Lemma Lang_label (s : str) : Lang labelPattern s -> Label s.
Proof.
  intros H. apply Lang_seq in H. destruct H as (w & tl & -> & Hw & Htl).
  exists w, tl. split; [now apply Lang_plus_chr|].
  split; [now apply Lang_labelTail | reflexivity].
Qed.

(* ================================================================== *)
(** ** What a match of the field pattern captures *)
(* ================================================================== *)

Lemma isWord_not_space (c : ascii) : isWord c = true -> isSpace c = false.
Proof.
  destruct c as [[] [] [] [] [] [] [] []]; vm_compute; congruence.
Qed.

Lemma colon_match_shape (s : str) (m : Match) :
  matchAt colonPattern s = Some m ->
  exists lbl val,
    Label lbl /\ runOf notSemiNl val /\ caps m = [(2, val); (1, lbl)].
Proof.
  unfold matchAt, colonPattern.
  change (Seq (Plus reWord) (Star (Seq (Plus reSpace) (Plus reWord))))
    with labelPattern.
  change (Plus (Chr notSemiNl)) with valuePattern.
  rewrite matchR_Seq, matchR_Group. intros H.
  apply (@matchR_sound_gf Match labelPattern eq_refl) in H.
  destruct H as (lbl & s2 & -> & Hlbl & H).
  rewrite firstn_app_minus in H.
  rewrite matchR_Seq in H.
  apply (@matchR_sound_gf Match (Star reSpace) eq_refl) in H.
  destruct H as (w1 & s3 & -> & _ & H).
  rewrite matchR_Seq in H.
  apply (@matchR_sound_gf Match (chr ":"%char) eq_refl) in H.
  destruct H as (cl & s4 & -> & _ & H).
  rewrite matchR_Seq in H.
  apply (@matchR_sound_gf Match (Star reSpace) eq_refl) in H.
  destruct H as (w2 & s5 & -> & _ & H).
  rewrite matchR_Group in H.
  apply (@matchR_sound_gf Match valuePattern eq_refl) in H.
  destruct H as (val & s6 & -> & Hval & H).
  rewrite firstn_app_minus in H. injection H as <-.
  exists lbl, val. split; [now apply Lang_label|].
  split; [now apply Lang_plus_chr | reflexivity].
Qed.

Lemma search_colon_shape (s : str) (m : Match) :
  search colonPattern s = Some m ->
  exists lbl val,
    Label lbl /\ runOf notSemiNl val /\ caps m = [(2, val); (1, lbl)].
Proof.
  induction s as [|x s IH]; cbn [search].
  - destruct (matchAt colonPattern []) eqn:E; [|discriminate].
    intros [= ->]. now apply colon_match_shape in E.
  - destruct (matchAt colonPattern (x :: s)) eqn:E; [|exact IH].
    intros [= ->]. now apply colon_match_shape in E.
Qed.

(* ================================================================== *)
(** ** Every extracted field is well formed *)
(* ================================================================== *)

Lemma dropWhile_length (p : ascii -> bool) (s : str) :
  length (dropWhile p s) <= length s.
Proof.
  induction s as [|x s IH]; simpl; [lia|].
  destruct (p x); simpl; lia.
Qed.

Lemma dropWhile_fixed_head (p : ascii -> bool) (x : ascii) (s : str) :
  length (dropWhile p (x :: s)) = length (x :: s) -> p x = false.
Proof.
  simpl. destruct (p x); [|reflexivity].
  pose proof (dropWhile_length p s). lia.
Qed.

Lemma trimEnd_length (s : str) : length (trimEnd s) <= length s.
Proof.
  unfold trimEnd. rewrite length_rev.
  pose proof (dropWhile_length isSpace (rev s)) as H.
  now rewrite length_rev in H.
Qed.

(** A string that [trim] leaves alone has no white space at its ends, and
    conversely. *)
Lemma trim_fixed_ends (x : ascii) (s : str) :
  trim (x :: s) = x :: s ->
  isSpace x = false /\ isSpace (last (x :: s) x) = false.
Proof.
  intros H.
  assert (HlenS : length (trimStart (x :: s)) = length (x :: s)).
  { apply (f_equal (@length ascii)) in H. unfold trim in H.
    pose proof (trimEnd_length (trimStart (x :: s))).
    pose proof (dropWhile_length isSpace (x :: s)).
    unfold trimStart in *. lia. }
  pose proof (dropWhile_fixed_head isSpace x s HlenS) as Hx.
  split; [exact Hx|].
  unfold trim, trimStart in H. rewrite dropWhile_stop in H by exact Hx.
  unfold trimEnd in H.
  assert (Hrev : dropWhile isSpace (rev (x :: s)) = rev (x :: s)).
  { rewrite <- H at 2. now rewrite rev_involutive. }
  destruct (rev (x :: s)) as [|y r] eqn:Er.
  - apply (f_equal (@rev ascii)) in Er. rewrite rev_involutive in Er.
    discriminate.
  - assert (Hy : isSpace y = false).
    { apply (dropWhile_fixed_head isSpace y r). now rewrite Hrev. }
    apply (f_equal (@rev ascii)) in Er. rewrite rev_involutive in Er.
    simpl in Er. rewrite Er. now rewrite last_last.
Qed.

Lemma trim_of_clean_ends (s t : str) (x y : ascii) :
  isSpace x = false -> isSpace y = false ->
  s = x :: t -> (exists t', s = t' ++ [y]) -> trim s = s.
Proof.
  intros Hx Hy -> [t' Ht']. unfold trim, trimStart.
  rewrite dropWhile_stop by exact Hx. unfold trimEnd.
  rewrite Ht', rev_app_distr. simpl rev at 2. simpl app.
  rewrite dropWhile_stop by exact Hy.
  change (y :: rev t') with ([y] ++ rev t').
  now rewrite rev_app_distr, rev_involutive.
Qed.

Lemma runOf_head (p : ascii -> bool) (w : str) :
  runOf p w -> exists x w', w = x :: w' /\ p x = true.
Proof.
  intros [Hne Hall]. destruct w as [|x w']; [congruence|].
  inversion Hall; subst. eauto.
Qed.

Lemma runOf_last (p : ascii -> bool) (w : str) :
  runOf p w -> exists w' y, w = w' ++ [y] /\ p y = true.
Proof.
  intros [Hne Hall]. destruct (exists_last Hne) as (w' & y & ->).
  apply Forall_app in Hall. destruct Hall as [_ Hy].
  inversion Hy; subst. eauto.
Qed.

Lemma LabelTail_last (tl : str) :
  LabelTail tl -> tl = [] \/ exists t' y, tl = t' ++ [y] /\ isWord y = true.
Proof.
  induction 1 as [|ws w tl Hws Hw Htl IH]; [now left|]. right.
  destruct IH as [-> | (t' & y & -> & Hy)].
  - destruct (runOf_last _ _ Hw) as (w' & y & -> & Hy).
    exists (ws ++ w'), y. rewrite app_nil_r, app_assoc. now split.
  - exists (ws ++ w ++ t'), y. rewrite <- !app_assoc. now split.
Qed.

Lemma Label_ends (k : str) :
  Label k ->
  (exists x t, k = x :: t /\ isWord x = true)
  /\ (exists t y, k = t ++ [y] /\ isWord y = true).
Proof.
  intros (w & tl & Hw & Htl & ->). split.
  - destruct (runOf_head _ _ Hw) as (x & w' & -> & Hx).
    exists x, (w' ++ tl). now split.
  - destruct (LabelTail_last _ Htl) as [-> | (t' & y & -> & Hy)].
    + destruct (runOf_last _ _ Hw) as (w' & y & -> & Hy).
      exists w', y. rewrite app_nil_r. now split.
    + exists (w ++ t'), y. rewrite <- app_assoc. now split.
Qed.

Lemma Label_trim (k : str) : Label k -> trim k = k.
Proof.
  intros Hk. destruct (Label_ends _ Hk) as [(x & t & Hx & Hwx) (t' & y & Hy & Hwy)].
  eapply trim_of_clean_ends; [ | | exact Hx | eauto].
  - now apply isWord_not_space.
  - now apply isWord_not_space.
Qed.

(** *** The characters of the pieces of a split *)

Lemma splitWhere_Forall (P : ascii -> Prop) (p : ascii -> bool) (s : str) :
  Forall P s -> Forall (Forall P) (splitWhere p s).
Proof.
  induction 1 as [|x s Hx Hs IH]; simpl; [repeat constructor|].
  destruct (p x); [constructor; [constructor | exact IH]|].
  destruct (splitWhere p s) as [|h t]; [repeat constructor; exact Hx|].
  inversion IH; subst. constructor; [now constructor | assumption].
Qed.

Lemma splitWhere_free (p : ascii -> bool) (s : str) :
  Forall (Forall (fun c => p c = false)) (splitWhere p s).
Proof.
  induction s as [|x s IH]; simpl; [repeat constructor|].
  destruct (p x) eqn:Hx; [constructor; [constructor | exact IH]|].
  destruct (splitWhere p s) as [|h t]; [repeat constructor; exact Hx|].
  inversion IH; subst. constructor; [now constructor | assumption].
Qed.

Lemma splitLoop_Forall (r : regex) (P : ascii -> Prop) (n : nat)
  (piece s : str) :
  Forall P piece -> Forall P s -> Forall (Forall P) (splitLoop r n piece s).
Proof.
  revert piece s. induction n as [|n IH]; intros piece s Hp Hs; simpl.
  - constructor; [|constructor]. apply Forall_app. split; [|exact Hs].
    now apply Forall_rev.
  - destruct s as [|x s].
    + constructor; [now apply Forall_rev | constructor].
    + assert (Hadv : Forall (Forall P) (splitLoop r n (x :: piece) s)).
      { inversion Hs; subst. apply IH; [now constructor | assumption]. }
      destruct (matchAt r (x :: s)) as [m|] eqn:E; [|exact Hadv].
      destruct ((length (matched m) =? 0) && (length piece =? 0));
        [exact Hadv|].
      constructor; [now apply Forall_rev|].
      apply IH; [constructor|].
      apply matchAt_sound in E. destruct E as [E _].
      rewrite E in Hs. now apply Forall_app in Hs.
Qed.

Lemma jsSplit_Forall (r : regex) (P : ascii -> Prop) (s : str) :
  Forall P s -> Forall (Forall P) (jsSplit r s).
Proof.
  intros Hs. unfold jsSplit. destruct s as [|x s].
  - destruct (matchAt r []); repeat constructor.
  - apply splitLoop_Forall; [constructor | exact Hs].
Qed.

Lemma existsb_false_Forall (p : ascii -> bool) (s : str) :
  existsb p s = false -> Forall (fun c => p c = false) s.
Proof.
  induction s as [|x s IH]; simpl; [constructor|].
  intros H. apply orb_false_iff in H. destruct H as [Hx H].
  constructor; [exact Hx | now apply IH].
Qed.

Lemma Forall_and_fold (P Q : ascii -> Prop) (s : str) :
  Forall P s -> Forall Q s -> Forall (fun c => P c /\ Q c) s.
Proof.
  intros HP HQ. rewrite Forall_forall in *. intros c Hc. split; auto.
Qed.

Lemma splitValues_clean (text : str) :
  Forall (fun c => c <> LF) text -> Forall cleanValue (splitValues text).
Proof.
  intros Htext.
  assert (Hpieces :
    Forall (Forall plainChar)
      (if hasDelim text then splitWhere isDelim text
       else jsSplit conjPattern text)).
  { unfold hasDelim. destruct (existsb isDelim text) eqn:E.
    - pose proof (splitWhere_free isDelim text) as H1.
      pose proof (@splitWhere_Forall _ isDelim text Htext) as H2.
      rewrite Forall_forall in *. intros piece Hin.
      apply Forall_and_fold; [now apply H1 | now apply H2].
    - apply jsSplit_Forall. apply Forall_and_fold; [|exact Htext].
      now apply existsb_false_Forall. }
  rewrite splitValues_unfold.
  pose proof (filter_trim_clean
                (if hasDelim text then splitWhere isDelim text
                 else jsSplit conjPattern text)) as Hclean.
  rewrite Forall_forall in *. intros v Hv.
  destruct (Hclean v Hv) as [Hne Htrim]. split; [exact Hne|].
  split; [exact Htrim|].
  apply filter_In in Hv. destruct Hv as [Hv _].
  apply in_map_iff in Hv. destruct Hv as (u & <- & Hu).
  apply trim_Forall. now apply Hpieces.
Qed.

Lemma notSemiNl_not_LF (val : str) :
  Forall (fun c => notSemiNl c = true) val -> Forall (fun c => c <> LF) val.
Proof.
  apply Forall_impl. intros c Hc ->. discriminate.
Qed.

Lemma extractLoop_fieldOk (n : nat) (s : str) :
  Forall fieldOk (extractLoop n s).
Proof.
  revert s. induction n as [|n IH]; intros s; [constructor|].
  rewrite extractLoop_unfold.
  destruct (search colonPattern s) as [m|] eqn:E; [|constructor].
  destruct (search_colon_shape _ _ E) as (lbl & val & Hlbl & [_ Hval] & Hcaps).
  rewrite Hcaps. cbn [group Nat.eqb].
  destruct (splitValues (trim val)) as [|v vs] eqn:Ev; [apply IH|].
  constructor; [|apply IH].
  unfold fieldOk. cbn [key values].
  rewrite (Label_trim _ Hlbl). split; [exact Hlbl|].
  split; [discriminate|].
  rewrite <- Ev. apply splitValues_clean.
  apply trim_Forall. now apply notSemiNl_not_LF.
Qed.

(* ================================================================== *)
(** ** The merged table is well formed *)
(* ================================================================== *)

Lemma str_eqb_eq (a b : str) : str_eqb a b = true <-> a = b.
Proof.
  unfold str_eqb. destruct (list_eq_dec ascii_dec a b); split; congruence.
Qed.

Lemma str_eqb_neq (a b : str) : str_eqb a b = false <-> a <> b.
Proof.
  unfold str_eqb. destruct (list_eq_dec ascii_dec a b); split; congruence.
Qed.

Lemma mapGet_None (k : str) (m : FieldMap) :
  mapGet k m = None <-> ~ In k (mapKeys m).
Proof.
  induction m as [|[k' v] m IH]; simpl; [tauto|].
  destruct (str_eqb k' k) eqn:E.
  - apply str_eqb_eq in E. split; [discriminate | tauto].
  - apply str_eqb_neq in E. rewrite IH. tauto.
Qed.

Lemma mapGet_Some_In (k : str) (vs : list str) (m : FieldMap) :
  mapGet k m = Some vs -> In (k, vs) m.
Proof.
  induction m as [|[k' v] m IH]; simpl; [discriminate|].
  destruct (str_eqb k' k) eqn:E.
  - apply str_eqb_eq in E. intros [= ->]. left. now subst.
  - intros H. right. now apply IH.
Qed.

Lemma mapSet_new (k : str) (v : list str) (m : FieldMap) :
  mapGet k m = None -> mapSet k v m = m ++ [(k, v)].
Proof.
  induction m as [|[k' v'] m IH]; simpl; [reflexivity|].
  destruct (str_eqb k' k); [discriminate|].
  intros H. now rewrite IH.
Qed.

Lemma mapSet_keys (k : str) (v old : list str) (m : FieldMap) :
  mapGet k m = Some old -> mapKeys (mapSet k v m) = mapKeys m.
Proof.
  induction m as [|[k' v'] m IH]; simpl; [discriminate|].
  destruct (str_eqb k' k) eqn:E.
  - apply str_eqb_eq in E. intros _. simpl. now subst.
  - intros H. simpl. now rewrite IH.
Qed.

Lemma mapSet_Forall (Q : str * list str -> Prop) (k : str) (v : list str)
  (m : FieldMap) :
  Forall Q m -> Q (k, v) -> Forall Q (mapSet k v m).
Proof.
  intros Hm Hkv. induction Hm as [|[k' v'] m Hh Hm IH]; simpl.
  - now constructor.
  - destruct (str_eqb k' k); now constructor.
Qed.

Lemma pushUnique_Forall (Q : str -> Prop) (vs existing : list str) :
  Forall Q existing -> Forall Q vs -> Forall Q (pushUnique existing vs).
Proof.
  unfold pushUnique. revert existing.
  induction vs as [|v vs IH]; intros existing He Hv; simpl; [exact He|].
  inversion Hv; subst. apply IH; [|assumption].
  destruct (arrIncludes existing v); [exact He|].
  apply Forall_app. split; [exact He | now constructor].
Qed.

Lemma pushUnique_nonempty (vs existing : list str) :
  existing <> [] -> pushUnique existing vs <> [].
Proof.
  unfold pushUnique. revert existing.
  induction vs as [|v vs IH]; intros existing He; simpl; [exact He|].
  apply IH. destruct (arrIncludes existing v); [exact He|].
  destruct existing; discriminate.
Qed.

Lemma mergeStep_inv (m : FieldMap) (f : StructuredField) :
  fieldOk f -> Forall entryOk m -> NoDup (mapKeys m) ->
  Forall entryOk (mergeStep m f) /\ NoDup (mapKeys (mergeStep m f)).
Proof.
  intros (Hk & Hne & Hvs) Hm Hnd. unfold mergeStep.
  destruct (mapGet (key f) m) as [existing|] eqn:E.
  - split.
    + apply mapSet_Forall; [exact Hm|].
      apply mapGet_Some_In in E. rewrite Forall_forall in Hm.
      destruct (Hm _ E) as (_ & Hene & Hevs). cbn [fst snd] in *.
      split; [exact Hk|]. split.
      * now apply pushUnique_nonempty.
      * now apply pushUnique_Forall.
    + now rewrite (mapSet_keys _ _ _ _ E).
  - rewrite (mapSet_new _ _ _ E). split.
    + apply Forall_app. split; [exact Hm|].
      constructor; [|constructor]. now split.
    + unfold mapKeys. rewrite map_app. simpl.
      apply mapGet_None in E. apply NoDup_app; [exact Hnd | | ].
      * constructor; [intros [] | constructor].
      * intros k' Hin [<- | []]. now apply E.
Qed.

Lemma fold_mergeStep_inv (fs : list StructuredField) (m : FieldMap) :
  Forall fieldOk fs -> Forall entryOk m -> NoDup (mapKeys m) ->
  Forall entryOk (fold_left mergeStep fs m)
  /\ NoDup (mapKeys (fold_left mergeStep fs m)).
Proof.
  revert m. induction fs as [|f fs IH]; intros m Hfs Hm Hnd; simpl.
  - now split.
  - inversion Hfs as [|f' fs' Hf Hfs']; subst.
    destruct (mergeStep_inv m f Hf Hm Hnd) as [Hm' Hnd'].
    now apply IH.
Qed.

Lemma mergeFields_inv (text : str) :
  Forall entryOk (mergeFields (extractFields text))
  /\ NoDup (mapKeys (mergeFields (extractFields text))).
Proof.
  unfold mergeFields. apply fold_mergeStep_inv.
  - apply extractLoop_fieldOk.
  - constructor.
  - constructor.
Qed.

(* ================================================================== *)
(** ** Reading a serialized line back *)
(* ================================================================== *)

Lemma dropWhile_run (p : ascii -> bool) (l t : str) :
  Forall (fun c => p c = true) l -> dropWhile p (l ++ t) = dropWhile p t.
Proof.
  induction 1 as [|x l Hx Hl IH]; simpl; [reflexivity|].
  now rewrite Hx.
Qed.

Lemma isSpace_not_word (c : ascii) : isSpace c = true -> isWord c = false.
Proof.
  intros Hs. destruct (isWord c) eqn:Hw; [|reflexivity].
  apply isWord_not_space in Hw. congruence.
Qed.

Lemma labelTail_stops_word (tl t : str) :
  LabelTail tl ->
  dropWhile isWord (tl ++ ":"%char :: t) = tl ++ ":"%char :: t.
Proof.
  intros Htl. destruct Htl as [|ws w tl Hws Hw Htl]; [reflexivity|].
  destruct (runOf_head _ _ Hws) as (y & ws' & -> & Hy).
  simpl. now rewrite (isSpace_not_word _ Hy).
Qed.

Section Forward.
Variable A : Type.
Variable K : cont A.
Variable t : str.
Variable c : captures.
Variable a : A.
Hypothesis HK : K (":"%char :: t) c = Some a.

(** The greedy rounds of the label pattern run through a label up to the
    colon that follows it. *)
Lemma labelTail_forward (tl : str) :
  LabelTail tl ->
  forall n, length (tl ++ ":"%char :: t) <= n ->
    starLoop (@matchR A (Seq (Plus reSpace) (Plus reWord))) K n
      (tl ++ ":"%char :: t) c
    = Some a.
Proof.
  unfold reSpace, reWord.
  induction 1 as [|ws w tl Hws Hw Htl IH]; intros n Hn.
  - simpl app. destruct n as [|n]; [exact HK|].
    cbn [starLoop]. rewrite matchR_Seq, matchR_Plus_chr.
    change (isSpace ":"%char) with false. exact HK.
  - destruct (runOf_head _ _ Hws) as (y & ws' & -> & Hy).
    destruct (runOf_head _ _ Hw) as (x & w' & -> & Hx).
    destruct Hws as [_ Hws]. destruct Hw as [_ Hw].
    inversion Hws as [|? ? _ Hws']; subst.
    inversion Hw as [|? ? _ Hw']; subst.
    destruct n as [|n]; [simpl in Hn; lia|].
    assert (Hlen : length (tl ++ ":"%char :: t) <= n).
    { rewrite !length_app in Hn. simpl in Hn. rewrite length_app in *.
      simpl in *. lia. }
    assert (Hlt : length (tl ++ ":"%char :: t)
                  < length (y :: ws' ++ x :: w' ++ tl ++ ":"%char :: t)).
    { simpl. rewrite !length_app. simpl. rewrite !length_app. simpl. lia. }
    rewrite <- !app_assoc. cbn [app starLoop].
    rewrite matchR_Seq, matchR_Plus_chr, Hy.
    rewrite (backtrack_greedy A isSpace _ _ c a); [reflexivity|].
    rewrite dropWhile_run by exact Hws'.
    rewrite dropWhile_stop by now apply isWord_not_space.
    rewrite matchR_Plus_chr, Hx.
    apply backtrack_greedy.
    rewrite dropWhile_run by exact Hw'.
    rewrite labelTail_stops_word by exact Htl.
    apply Nat.ltb_lt in Hlt. rewrite Hlt.
    now apply IH.
Qed.

Lemma label_forward (k : str) :
  Label k -> matchR labelPattern (k ++ ":"%char :: t) c K = Some a.
Proof.
  intros (w & tl & Hw & Htl & ->).
  destruct (runOf_head _ _ Hw) as (x & w' & -> & Hx).
  destruct Hw as [_ Hw]. inversion Hw as [|? ? _ Hw']; subst.
  unfold labelPattern, reWord. rewrite matchR_Seq. rewrite <- app_assoc.
  simpl app.
  rewrite matchR_Plus_chr, Hx. apply backtrack_greedy.
  rewrite dropWhile_run by exact Hw'.
  rewrite labelTail_stops_word by exact Htl.
  cbn [matchR]. now apply (labelTail_forward tl Htl).
Qed.

End Forward.

(** A line [label: body] is matched from its start to its end, with the
    label and the body as captures. *)
Lemma colon_line_forward (k body tail : str) (b : ascii) (body' : str) :
  Label k ->
  body = b :: body' -> isSpace b = false ->
  Forall (fun c => notSemiNl c = true) body ->
  tail = [] \/ (exists tail', tail = LF :: tail') ->
  matchAt colonPattern (k ++ lit ": " ++ body ++ tail)
  = Some (mkMatch (k ++ lit ": " ++ body) [(2, body); (1, k)] tail).
Proof.
  intros Hk Hbody Hb Hall Htail.
  assert (Hstop : dropWhile notSemiNl tail = tail).
  { destruct Htail as [-> | [tail' ->]]; reflexivity. }
  unfold matchAt, colonPattern.
  change (Seq (Plus reWord) (Star (Seq (Plus reSpace) (Plus reWord))))
    with labelPattern.
  rewrite matchR_Seq, matchR_Group.
  change (lit ": " ++ body ++ tail)
    with (":"%char :: " "%char :: body ++ tail).
  apply label_forward; [|exact Hk].
  rewrite firstn_app_minus.
  unfold reSpace. rewrite matchR_Seq, matchR_star_chr.
  cbn [backtrack]. change (isSpace ":"%char) with false. cbv iota.
  rewrite matchR_Seq. unfold chr. rewrite matchR_Chr, Ascii.eqb_refl.
  rewrite matchR_Seq, matchR_star_chr.
  apply backtrack_greedy.
  rewrite Hbody in *. inversion Hall as [|? ? Hnb Hall']; subst.
  cbn [app dropWhile]. change (isSpace " "%char) with true. cbv iota.
  rewrite Hb.
  rewrite matchR_Group, matchR_Plus_chr, Hnb.
  apply backtrack_greedy.
  rewrite dropWhile_run by exact Hall'. rewrite Hstop.
  change (b :: body' ++ tail) with ((b :: body') ++ tail).
  rewrite firstn_app_minus.
  f_equal. f_equal.
  change (k ++ ":"%char :: " "%char :: (b :: body') ++ tail)
    with (k ++ lit ": " ++ (b :: body') ++ tail).
  rewrite !app_assoc. rewrite firstn_app_minus. reflexivity.
Qed.

(* ================================================================== *)
(** ** Splitting a serialized value list *)
(* ================================================================== *)

Lemma search_start (r : regex) (s : str) (m : Match) :
  matchAt r s = Some m -> search r s = Some m.
Proof. intros H. destruct s; cbn [search]; now rewrite H. Qed.

Lemma search_none_cons (r : regex) (x : ascii) (s : str) :
  search r (x :: s) = None -> matchAt r (x :: s) = None /\ search r s = None.
Proof.
  cbn [search]. destruct (matchAt r (x :: s)); [discriminate | now split].
Qed.

(** Where the pattern matches nowhere, nothing is split off. *)
Lemma splitLoop_no_match (r : regex) (s : str) :
  search r s = None ->
  forall n piece, splitLoop r n piece s = [rev piece ++ s].
Proof.
  induction s as [|x s IH]; intros Hs n piece.
  - destruct n; simpl; [reflexivity | now rewrite app_nil_r].
  - apply search_none_cons in Hs. destruct Hs as [Hx Hs].
    destruct n; [reflexivity|].
    cbn [splitLoop]. rewrite Hx, (IH Hs). simpl.
    now rewrite <- app_assoc.
Qed.

Lemma jsSplit_no_match (r : regex) (v : str) :
  v <> [] -> search r v = None -> jsSplit r v = [v].
Proof.
  intros Hne Hs. unfold jsSplit. destruct v as [|x v]; [congruence|].
  now rewrite splitLoop_no_match.
Qed.

Lemma splitWhere_app_delim (p : ascii -> bool) (l : str) (d : ascii)
  (t : str) :
  Forall (fun c => p c = false) l -> p d = true ->
  splitWhere p (l ++ d :: t) = l :: splitWhere p t.
Proof.
  intros Hl Hd. induction Hl as [|x l Hx Hl IH]; simpl.
  - now rewrite Hd.
  - now rewrite Hx, IH.
Qed.

Lemma splitWhere_free_one (p : ascii -> bool) (l : str) :
  Forall (fun c => p c = false) l -> splitWhere p l = [l].
Proof.
  intros Hl. induction Hl as [|x l Hx Hl IH]; simpl; [reflexivity|].
  now rewrite Hx, IH.
Qed.

Lemma cleanValue_free (v : str) :
  cleanValue v -> Forall (fun c => isDelim c = false) v.
Proof.
  intros (_ & _ & H). eapply Forall_impl; [|exact H]. now intros c [Hc _].
Qed.

Lemma splitWhere_join (v : str) (vs : list str) :
  Forall cleanValue (v :: vs) ->
  splitWhere isDelim (join (lit ", ") (v :: vs))
  = v :: map (fun u => " "%char :: u) vs.
Proof.
  revert v. induction vs as [|v' vs IH]; intros v Hall.
  - inversion Hall; subst. simpl. apply splitWhere_free_one.
    now apply cleanValue_free.
  - inversion Hall as [|? ? Hv Hall']; subst.
    change (join (lit ", ") (v :: v' :: vs))
      with (v ++ ","%char :: " "%char :: join (lit ", ") (v' :: vs)).
    rewrite splitWhere_app_delim;
      [|now apply cleanValue_free | reflexivity].
    cbn [splitWhere]. change (isDelim " "%char) with false. cbv iota.
    rewrite (IH v' Hall'). reflexivity.
Qed.

Lemma trim_blank (v : str) : trim (" "%char :: v) = trim v.
Proof. reflexivity. Qed.

Lemma map_trim_values (v : str) (vs : list str) :
  Forall cleanValue (v :: vs) ->
  map trim (v :: map (fun u => " "%char :: u) vs) = v :: vs.
Proof.
  intros Hall. inversion Hall as [|? ? (_ & Hv & _) Hall']; subst.
  cbn [map]. rewrite Hv. f_equal. clear Hall Hv.
  rewrite map_map. induction Hall' as [|u us (_ & Hu & _) _ IH];
    [reflexivity|].
  cbn [map]. now rewrite trim_blank, Hu, IH.
Qed.

Lemma filter_nonEmpty_values (vs : list str) :
  Forall cleanValue vs -> filter nonEmpty vs = vs.
Proof.
  induction 1 as [|v vs (Hne & _) _ IH]; [reflexivity|].
  cbn [filter]. rewrite IH.
  destruct v; [congruence | reflexivity].
Qed.

Lemma hasDelim_join (v v' : str) (vs : list str) :
  hasDelim (join (lit ", ") (v :: v' :: vs)) = true.
Proof.
  change (join (lit ", ") (v :: v' :: vs))
    with (v ++ ","%char :: " "%char :: join (lit ", ") (v' :: vs)).
  unfold hasDelim. rewrite existsb_app. cbn [existsb].
  change (isDelim ","%char) with true. now rewrite orb_true_r.
Qed.

Lemma hasDelim_clean (v : str) : cleanValue v -> hasDelim v = false.
Proof.
  intros Hv. apply cleanValue_free in Hv. unfold hasDelim.
  induction Hv as [|x v Hx _ IH]; [reflexivity|].
  cbn [existsb]. now rewrite Hx, IH.
Qed.

(** The values of a serialized list are read back as they are, unless the
    list is one value with a conjunction in it. *)
Lemma splitValues_join (vs : list str) :
  Forall cleanValue vs ->
  match vs with [v] => hasConjunction v = false | _ => True end ->
  splitValues (join (lit ", ") vs) = vs.
Proof.
  intros Hall Hconj. rewrite splitValues_unfold.
  destruct vs as [|v [|v' vs]].
  - reflexivity.
  - inversion Hall as [|? ? Hv _]; subst.
    cbn [join]. rewrite (hasDelim_clean v Hv).
    unfold hasConjunction in Hconj.
    destruct (search conjPattern v) eqn:E; [discriminate|].
    destruct Hv as (Hne & Htrim & _).
    rewrite (jsSplit_no_match conjPattern v Hne E).
    cbn [map filter]. rewrite Htrim.
    destruct v; [congruence | reflexivity].
  - rewrite hasDelim_join, splitWhere_join by exact Hall.
    rewrite map_trim_values by exact Hall.
    now apply filter_nonEmpty_values.
Qed.

(* ================================================================== *)
(** ** Extracting again from the serialized table *)
(* ================================================================== *)

Lemma plainChar_notSemiNl (c : ascii) : plainChar c -> notSemiNl c = true.
Proof.
  intros [Hd Hlf]. unfold notSemiNl, isDelim in *.
  apply orb_false_iff in Hd. destruct Hd as [Hd _].
  apply orb_false_iff in Hd. destruct Hd as [_ Hsemi].
  rewrite Hsemi. apply Ascii.eqb_neq in Hlf. now rewrite Hlf.
Qed.

Lemma join_Forall (P : ascii -> Prop) (sep : str) (l : list str) :
  Forall P sep -> Forall (Forall P) l -> Forall P (join sep l).
Proof.
  intros Hsep Hl. induction Hl as [|a l Ha Hl IH]; [constructor|].
  destruct l as [|b l]; [exact Ha|].
  change (join sep (a :: b :: l)) with (a ++ sep ++ join sep (b :: l)).
  apply Forall_app. split; [exact Ha|]. apply Forall_app. now split.
Qed.

Lemma cleanValue_head (v : str) :
  cleanValue v -> exists x v', v = x :: v' /\ isSpace x = false.
Proof.
  intros (Hne & Htrim & _). destruct v as [|x v']; [congruence|].
  exists x, v'. split; [reflexivity|].
  now destruct (trim_fixed_ends x v' Htrim).
Qed.

Lemma cleanValue_last (v : str) :
  cleanValue v -> exists v' y, v = v' ++ [y] /\ isSpace y = false.
Proof.
  intros (Hne & Htrim & _). destruct v as [|x v0]; [congruence|].
  destruct (trim_fixed_ends x v0 Htrim) as [_ Hlast].
  destruct (@exists_last _ (x :: v0) Hne) as (v' & y & E).
  exists v', y. split; [exact E|].
  rewrite E in Hlast. now rewrite last_last in Hlast.
Qed.

Lemma join_head (sep v : str) (vs : list str) (x : ascii) (v' : str) :
  v = x :: v' -> exists t, join sep (v :: vs) = x :: t.
Proof.
  intros ->. destruct vs as [|u vs]; simpl; eauto.
Qed.

Lemma join_last (sep : str) (vs : list str) :
  vs <> [] -> Forall cleanValue vs ->
  exists t y, join sep vs = t ++ [y] /\ isSpace y = false.
Proof.
  intros Hne Hall. induction Hall as [|v vs Hv Hall IH]; [congruence|].
  destruct vs as [|u vs].
  - apply cleanValue_last in Hv. exact Hv.
  - destruct (IH ltac:(discriminate)) as (t & y & E & Hy).
    exists (v ++ sep ++ t), y. split; [|exact Hy].
    change (join sep (v :: u :: vs)) with (v ++ sep ++ join sep (u :: vs)).
    rewrite E. now rewrite <- !app_assoc.
Qed.

Lemma extractLoop_skip_LF (n : nat) (s : str) :
  extractLoop n (LF :: s) = extractLoop n s.
Proof.
  destruct n as [|n]; [reflexivity|].
  rewrite !extractLoop_unfold. reflexivity.
Qed.

Lemma extractLoop_end (n : nat) : extractLoop n [] = [].
Proof. destruct n; reflexivity. Qed.

(** One serialized line gives back its key and its values. *)
Lemma extract_line (kv : str * list str) (tail : str) (n : nat) :
  entryOk kv ->
  match snd kv with [v] => hasConjunction v = false | _ => True end ->
  tail = [] \/ (exists tail', tail = LF :: tail') ->
  extractLoop (S n) (serializeLine kv ++ tail)
  = lineField kv :: extractLoop n tail.
Proof.
  destruct kv as [k vs]. intros (Hk & Hne & Hall) Hconj Htail.
  cbn [fst snd] in *.
  destruct vs as [|v vs]; [congruence|].
  assert (Hv : cleanValue v) by now inversion Hall.
  destruct (cleanValue_head v Hv) as (b & v' & Ev & Hb).
  destruct (join_head (lit ", ") v vs b v' Ev) as (body' & Ebody).
  assert (HallC : Forall (fun c => notSemiNl c = true)
                    (join (lit ", ") (v :: vs))).
  { apply join_Forall; [repeat constructor|].
    eapply Forall_impl; [|exact Hall].
    intros u (_ & _ & Hu). eapply Forall_impl; [|exact Hu].
    apply plainChar_notSemiNl. }
  assert (Htrim : trim (join (lit ", ") (v :: vs)) = join (lit ", ") (v :: vs)).
  { destruct (join_last (lit ", ") (v :: vs) Hne Hall) as (t & y & Ey & Hy).
    eapply trim_of_clean_ends; [exact Hb | exact Hy | exact Ebody | eauto]. }
  pose proof (colon_line_forward k (join (lit ", ") (v :: vs)) tail b body'
                Hk Ebody Hb HallC Htail) as Hm.
  unfold serializeLine. cbn [fst snd]. rewrite <- !app_assoc.
  rewrite extractLoop_unfold, (search_start _ _ _ Hm).
  cbn [caps group Nat.eqb rest matched].
  rewrite Htrim, (splitValues_join (v :: vs) Hall Hconj).
  rewrite (Label_trim k Hk). reflexivity.
Qed.

Lemma serialize_cons (kv : str * list str) (m : FieldMap) :
  serialize (kv :: m)
  = serializeLine kv
    ++ match m with
       | [] => []
       | _ :: _ => LF :: serialize m
       end.
Proof.
  unfold serialize. destruct m as [|kv' m]; simpl.
  - now rewrite app_nil_r.
  - reflexivity.
Qed.

Lemma extract_serialized (m : FieldMap) :
  Forall entryOk m -> singleValuesPlain m = true ->
  forall n, length (serialize m) < n ->
    extractLoop n (serialize m) = map lineField m.
Proof.
  intros Hm. induction Hm as [|kv m Hkv Hm IH]; intros Hplain n Hn.
  - apply extractLoop_end.
  - unfold singleValuesPlain in Hplain. cbn [forallb] in Hplain.
    apply andb_true_iff in Hplain. destruct Hplain as [Hkvp Hplain].
    assert (Hconj : match snd kv with
                    | [v] => hasConjunction v = false
                    | _ => True
                    end).
    { destruct (snd kv) as [|v [|v' vs]]; try exact I.
      now apply negb_true_iff in Hkvp. }
    rewrite serialize_cons in *.
    destruct n as [|n]; [lia|].
    rewrite length_app in Hn.
    destruct m as [|kv' m].
    + rewrite extract_line; [|exact Hkv | exact Hconj | now left].
      now rewrite extractLoop_end.
    + rewrite extract_line; [|exact Hkv | exact Hconj | right; eauto].
      rewrite extractLoop_skip_LF. cbn [map]. f_equal.
      apply (IH Hplain). simpl in Hn. lia.
Qed.

Lemma merge_lines (m2 m1 : FieldMap) :
  NoDup (mapKeys (m1 ++ m2)) ->
  fold_left mergeStep (map lineField m2) m1 = m1 ++ m2.
Proof.
  revert m1. induction m2 as [|[k vs] m2 IH]; intros m1 Hnd; simpl.
  - now rewrite app_nil_r.
  - assert (Hk : mapGet k m1 = None).
    { apply mapGet_None. intros Hin.
      unfold mapKeys in Hnd. rewrite map_app in Hnd. simpl in Hnd.
      apply NoDup_remove_2 in Hnd. apply Hnd.
      apply in_or_app. now left. }
    unfold mergeStep at 2. cbn [lineField key values fst snd].
    rewrite Hk, (mapSet_new _ _ _ Hk).
    rewrite IH; rewrite <- app_assoc; [reflexivity | exact Hnd].
Qed.

(** C4, as the code has it.  Serializing a merged table, one line
    [key: v1, v2, v3] for each key, and extracting and merging again gives
    the same table, hence the same keys and the same values for each key,
    as long as no key has for its only value one in which the conjunction
    pattern matches (such a value is split when it is read back). *)
Theorem reExtract_merged (text : str) :
  singleValuesPlain (mergeFields (extractFields text)) = true ->
  reExtract (mergeFields (extractFields text))
  = mergeFields (extractFields text)
  /\ sameTable (reExtract (mergeFields (extractFields text)))
               (mergeFields (extractFields text)).
Proof.
  intros Hplain. destruct (mergeFields_inv text) as [Hok Hnd].
  assert (E : reExtract (mergeFields (extractFields text))
              = mergeFields (extractFields text)).
  { unfold reExtract. unfold extractFields at 1.
    rewrite (extract_serialized _ Hok Hplain) by lia.
    unfold mergeFields at 1. now rewrite merge_lines. }
  split; [exact E|]. rewrite E. split; intros; reflexivity.
Qed.

Lemma reExtract_merged_witness :
  reExtract (mergeFields (extractFields statusText))
  = mergeFields (extractFields statusText)
  /\ sameTable (reExtract (mergeFields (extractFields statusText)))
               (mergeFields (extractFields statusText)).
Proof. apply (reExtract_merged statusText). vm_compute. reflexivity. Defined.

(** C4, as it is worded, fails on a span that ends with a delimiter and
    holds a conjunction: the merged value [x and y] is read back as the two
    values [x] and [y]. *)
Lemma reExtract_splits_conjunction :
  mergeFields (extractFields (lit "k: x and y,"))
  = [(lit "k", [lit "x and y"])]
  /\ reExtract (mergeFields (extractFields (lit "k: x and y,")))
     = [(lit "k", [lit "x"; lit "y"])]
  /\ ~ sameTable (reExtract (mergeFields (extractFields (lit "k: x and y,"))))
                 (mergeFields (extractFields (lit "k: x and y,"))).
Proof.
  split; [vm_compute; reflexivity|].
  split; [vm_compute; reflexivity|].
  intros [_ Hv]. specialize (Hv (lit "k") (lit "x and y")).
  vm_compute in Hv. destruct Hv as [_ Hv].
  destruct (Hv (or_introl eq_refl)) as [E | [E | []]]; discriminate.
Qed.
(* ================================================================== *)
(** * Further properties of the sources *)
(* ================================================================== *)

(** ** StructuredDataExtractor: the fields *)

Lemma LabelTail_chars (tl : str) :
  LabelTail tl -> Forall (fun c => isWord c = true \/ isSpace c = true) tl.
Proof.
  induction 1 as [|ws w tl [_ Hws] [_ Hw] _ IH]; [constructor|].
  apply Forall_app. split.
  - revert Hws. apply Forall_impl. auto.
  - apply Forall_app. split; [|exact IH].
    revert Hw. apply Forall_impl. auto.
Qed.

Lemma Label_chars (k : str) :
  Label k -> Forall (fun c => isWord c = true \/ isSpace c = true) k.
Proof.
  intros (w & tl & [_ Hw] & Htl & ->). apply Forall_app. split.
  - revert Hw. apply Forall_impl. auto.
  - now apply LabelTail_chars.
Qed.

Lemma Lang_colon_has_colon (w : str) : Lang colonPattern w -> In ":"%char w.
Proof.
  unfold colonPattern. intros H.
  apply Lang_seq in H. destruct H as (s1 & s2 & -> & _ & H).
  apply Lang_seq in H. destruct H as (s3 & s4 & -> & _ & H).
  apply Lang_seq in H. destruct H as (s5 & s6 & -> & H & _).
  apply Lang_chr in H. destruct H as (x & -> & Hx).
  apply Ascii.eqb_eq in Hx. subst x.
  apply in_or_app. right. apply in_or_app. right.
  apply in_or_app. left. now left.
Qed.

Lemma occursIn_suffix (sub pre s : str) :
  occursIn sub s -> occursIn sub (pre ++ s).
Proof.
  intros (a & b & ->). exists (pre ++ a), b. now rewrite <- app_assoc.
Qed.

Lemma extractLoop_raw (n : nat) (s : str) :
  Forall (fun f => occursIn (rawText f) s /\ In ":"%char (rawText f))
         (extractLoop n s).
Proof.
  revert s. induction n as [|n IH]; intros s; [constructor|].
  rewrite extractLoop_unfold.
  destruct (search colonPattern s) as [m|] eqn:E; [|constructor].
  destruct (search_sound _ _ _ E) as (pre & Hs & HL).
  assert (Hrest : Forall (fun f => occursIn (rawText f) s
                                   /\ In ":"%char (rawText f))
                    (extractLoop n (rest m))).
  { specialize (IH (rest m)). revert IH. apply Forall_impl.
    intros f [Ho Hc]. split; [|exact Hc].
    rewrite Hs. apply occursIn_suffix.
    apply (occursIn_suffix _ (matched m)). exact Ho. }
  destruct (splitValues _); [exact Hrest|].
  constructor; [|exact Hrest]. cbn [rawText]. split.
  - exists pre, (rest m). exact Hs.
  - now apply Lang_colon_has_colon.
Qed.

(** X1.  Every field that [extractFields] returns is well formed: its key
    starts with a word character, is trimmed and holds word characters and
    white space only; it has at least one value; each value is not empty,
    is trimmed and has no comma, semicolon, vertical bar or line feed; its
    raw text occurs in the input and has a colon.  So a text without colon
    gives no field, and values are never separated by a semicolon: of the
    announced format [Status : Active ; Pending ; Closed] only [Active] is
    kept. *)
Theorem extracted_fields_wellformed (text : str) :
  Forall (fun f =>
            (exists x t, key f = x :: t /\ isWord x = true)
            /\ trim (key f) = key f
            /\ Forall (fun c => isWord c = true \/ isSpace c = true) (key f)
            /\ values f <> []
            /\ Forall (fun v =>
                         v <> [] /\ trim v = v
                         /\ Forall (fun c => isDelim c = false /\ c <> LF) v)
                      (values f)
            /\ occursIn (rawText f) text
            /\ In ":"%char (rawText f))
         (extractFields text)
  /\ (~ In ":"%char text -> extractFields text = [])
  /\ map (fun f => (key f, values f)) (extractFields semicolonText)
     = [(lit "Status", [lit "Active"])].
Proof.
  split; [|split].
  - unfold extractFields.
    pose proof (extractLoop_fieldOk (S (length text)) text) as Hok.
    pose proof (extractLoop_raw (S (length text)) text) as Hraw.
    induction Hok as [|f fs (Hl & Hv & Hc) _ IH]; [constructor|].
    inversion Hraw as [|f' fs' Hf Hraw']; subst.
    destruct Hf as [Ho Hcolon].
    constructor; [|now apply IH].
    destruct (Label_ends _ Hl) as [(x & t & Ek & Hx) _].
    split; [eauto|]. split; [now apply Label_trim|].
    split; [now apply Label_chars|]. split; [exact Hv|].
    split; [exact Hc|]. now split.
  - intros Hno. unfold extractFields.
    pose proof (extractLoop_raw (S (length text)) text) as Hraw.
    destruct (extractLoop (S (length text)) text) as [|f fs]; [reflexivity|].
    inversion Hraw as [|f' fs' Hf _]; subst.
    destruct Hf as [(a & b & Ho) Hcolon].
    exfalso. apply Hno. rewrite Ho.
    apply in_or_app. right. apply in_or_app. now left.
  - vm_compute. reflexivity.
Qed.
(** ** StructuredDataExtractor: the merged table *)

Ltac str_cases a b E :=
  destruct (str_eqb a b) eqn:E;
  [apply str_eqb_eq in E | apply str_eqb_neq in E].

Lemma str_eqb_refl (a : str) : str_eqb a a = true.
Proof. now apply str_eqb_eq. Qed.

Lemma mapGet_mapSet (k k' : str) (v : list str) (m : FieldMap) :
  mapGet k (mapSet k' v m) = if str_eqb k' k then Some v else mapGet k m.
Proof.
  induction m as [|[k0 v0] m IH]; cbn [mapSet mapGet].
  - destruct (str_eqb k' k); reflexivity.
  - str_cases k0 k' E0; cbn [mapGet].
    + subst k0. destruct (str_eqb k' k); reflexivity.
    + rewrite IH. str_cases k0 k E1; [|reflexivity].
      subst k0. str_cases k' k E2; [congruence | reflexivity].
Qed.

Lemma mapGet_mergeStep (k : str) (m : FieldMap) (f : StructuredField) :
  mapGet k (mergeStep m f)
  = if str_eqb (key f) k
    then Some (match mapGet (key f) m with
               | Some existing => pushUnique existing (values f)
               | None => values f
               end)
    else mapGet k m.
Proof.
  unfold mergeStep. destruct (mapGet (key f) m); apply mapGet_mapSet.
Qed.

Lemma pushUnique_app (existing a b : list str) :
  pushUnique (pushUnique existing a) b = pushUnique existing (a ++ b).
Proof. unfold pushUnique. now rewrite fold_left_app. Qed.

Lemma arrIncludes_In (l : list str) (v : str) :
  arrIncludes l v = true <-> In v l.
Proof.
  unfold arrIncludes. rewrite existsb_exists. split.
  - intros (x & Hx & E). apply str_eqb_eq in E. now subst.
  - intros H. exists v. split; [exact H | apply str_eqb_refl].
Qed.

Lemma pushUnique_In (vs existing : list str) (v : str) :
  In v (pushUnique existing vs) <-> In v existing \/ In v vs.
Proof.
  revert existing. induction vs as [|x vs IH]; intros existing.
  - cbn. tauto.
  - change (pushUnique existing (x :: vs))
      with (pushUnique (if arrIncludes existing x then existing
                        else existing ++ [x]) vs).
    rewrite IH. destruct (arrIncludes existing x) eqn:E.
    + apply arrIncludes_In in E. cbn [In]. split; [tauto|].
      intros [H | [-> | H]]; auto.
    + rewrite in_app_iff. cbn [In]. tauto.
Qed.

Lemma pushUnique_NoDup (vs existing : list str) :
  NoDup existing -> NoDup (pushUnique existing vs).
Proof.
  revert existing. induction vs as [|x vs IH]; intros existing H; [exact H|].
  change (pushUnique existing (x :: vs))
    with (pushUnique (if arrIncludes existing x then existing
                      else existing ++ [x]) vs).
  apply IH. destruct (arrIncludes existing x) eqn:E; [exact H|].
  apply NoDup_app; [exact H | repeat constructor; intros [] |].
  intros y Hy [<- | []].
  apply arrIncludes_In in Hy. congruence.
Qed.

Lemma mergeStep_keys (m : FieldMap) (f : StructuredField) :
  mapKeys (mergeStep m f)
  = if arrIncludes (mapKeys m) (key f) then mapKeys m
    else mapKeys m ++ [key f].
Proof.
  unfold mergeStep. destruct (mapGet (key f) m) as [ex|] eqn:E.
  - rewrite (mapSet_keys _ _ _ _ E).
    replace (arrIncludes (mapKeys m) (key f)) with true; [reflexivity|].
    symmetry. apply arrIncludes_In.
    destruct (in_dec (list_eq_dec ascii_dec) (key f) (mapKeys m)) as [H|H];
      [exact H|].
    apply mapGet_None in H. congruence.
  - rewrite (mapSet_new _ _ _ E).
    replace (arrIncludes (mapKeys m) (key f)) with false.
    + unfold mapKeys. now rewrite map_app.
    + symmetry. apply mapGet_None in E.
      destruct (arrIncludes (mapKeys m) (key f)) eqn:A; [|reflexivity].
      apply arrIncludes_In in A. contradiction.
Qed.

Lemma fold_mergeStep_keys (fs : list StructuredField) (m : FieldMap) :
  mapKeys (fold_left mergeStep fs m) = pushUnique (mapKeys m) (map key fs).
Proof.
  revert m. induction fs as [|f fs IH]; intros m; [reflexivity|].
  cbn [fold_left map]. rewrite IH, mergeStep_keys. reflexivity.
Qed.

Lemma fold_mergeStep_values (k : str) (fs : list StructuredField)
  (m : FieldMap) :
  mapGet k (fold_left mergeStep fs m)
  = match mapGet k m with
    | Some existing =>
        Some (pushUnique existing (flat_map values (fieldsOf k fs)))
    | None =>
        match fieldsOf k fs with
        | [] => None
        | f1 :: more => Some (pushUnique (values f1) (flat_map values more))
        end
    end.
Proof.
  revert m. induction fs as [|f fs IH]; intros m.
  - cbn. destruct (mapGet k m); reflexivity.
  - cbn [fold_left]. rewrite IH, mapGet_mergeStep.
    unfold fieldsOf. cbn [filter].
    str_cases (key f) k E.
    + rewrite E. destruct (mapGet k m) as [ex|]; [|reflexivity].
      cbn [flat_map]. now rewrite pushUnique_app.
    + reflexivity.
Qed.

Lemma fieldsOf_In (k : str) (fs : list StructuredField)
  (f : StructuredField) :
  In f (fieldsOf k fs) <-> In f fs /\ key f = k.
Proof.
  unfold fieldsOf. rewrite filter_In. now rewrite str_eqb_eq.
Qed.

(** X2.  [mergeFields] gives one entry for each key, in the order in which
    the keys first occur.  The value list of a key is the value list of
    the first field with that key, as it stands, followed by every further
    value of the later fields with that key that is not yet in the list;
    so it holds exactly the values of the fields with that key. *)
Theorem mergeFields_table (fs : list StructuredField) :
  mapKeys (mergeFields fs) = pushUnique [] (map key fs)
  /\ NoDup (mapKeys (mergeFields fs))
  /\ (forall k, In k (mapKeys (mergeFields fs))
                <-> exists f, In f fs /\ key f = k)
  /\ (forall k,
        mapGet k (mergeFields fs)
        = match fieldsOf k fs with
          | [] => None
          | f1 :: more =>
              Some (pushUnique (values f1) (flat_map values more))
          end)
  /\ (forall k v, In v (valuesOf k (mergeFields fs))
                  <-> exists f, In f fs /\ key f = k /\ In v (values f)).
Proof.
  assert (Hk : mapKeys (mergeFields fs) = pushUnique [] (map key fs))
    by apply fold_mergeStep_keys.
  assert (Hv : forall k,
             mapGet k (mergeFields fs)
             = match fieldsOf k fs with
               | [] => None
               | f1 :: more =>
                   Some (pushUnique (values f1) (flat_map values more))
               end)
    by (intros k; apply (fold_mergeStep_values k fs [])).
  split; [exact Hk|]. split; [|split; [|split; [exact Hv|]]].
  - rewrite Hk. apply pushUnique_NoDup. constructor.
  - intros k. rewrite Hk, pushUnique_In, in_map_iff. cbn [In].
    split.
    + intros [[] | (f & E & Hf)]. eauto.
    + intros (f & Hf & E). right. eauto.
  - intros k v. unfold valuesOf. rewrite Hv.
    destruct (fieldsOf k fs) as [|f1 more] eqn:E.
    + split; [intros []|]. intros (f & Hf & Ek & _).
      assert (In f (fieldsOf k fs)) as A by (apply fieldsOf_In; auto).
      rewrite E in A. destruct A.
    + rewrite pushUnique_In, in_flat_map. split.
      * intros [H | (f & Hf & H)].
        -- assert (In f1 (fieldsOf k fs)) as A by (rewrite E; now left).
           apply fieldsOf_In in A. exists f1. tauto.
        -- assert (In f (fieldsOf k fs)) as A by (rewrite E; now right).
           apply fieldsOf_In in A. exists f. tauto.
      * intros (f & Hf & Ek & H).
        assert (In f (fieldsOf k fs)) as A by (apply fieldsOf_In; auto).
        rewrite E in A. destruct A as [-> | A]; [now left|].
        right. eauto.
Qed.
(** ** StructuredDataExtractor: the rows *)

Lemma rowGet_rowSet (k k' v : str) (row : Row) :
  rowGet k (rowSet k' v row) = if str_eqb k' k then Some v else rowGet k row.
Proof.
  induction row as [|[k0 v0] row IH]; cbn [rowSet rowGet].
  - destruct (str_eqb k' k); reflexivity.
  - str_cases k0 k' E0; cbn [rowGet].
    + subst k0. destruct (str_eqb k' k); reflexivity.
    + rewrite IH. str_cases k0 k E1; [|reflexivity].
      subst k0. str_cases k' k E2; [congruence | reflexivity].
Qed.

Lemma rowSet_keys (k v : str) (row : Row) :
  map fst (rowSet k v row)
  = if arrIncludes (map fst row) k then map fst row else map fst row ++ [k].
Proof.
  induction row as [|[k0 v0] row IH]; cbn [rowSet map fst]; [reflexivity|].
  unfold arrIncludes in *. cbn [existsb].
  str_cases k0 k E0.
  - subst k0. rewrite str_eqb_refl. reflexivity.
  - cbn [map fst]. rewrite IH.
    str_cases k k0 E1; [congruence|]. cbn [orb].
    destruct (existsb (str_eqb k) (map fst row)); reflexivity.
Qed.

Lemma maxLength_ge (k : str) (vs : list str) (m : FieldMap) :
  In (k, vs) m -> length vs <= maxLength m.
Proof.
  unfold maxLength. induction m as [|[k0 v0] m IH]; [intros []|].
  cbn [map fold_right snd]. intros [[= -> ->] | H]; [lia|].
  specialize (IH H). lia.
Qed.

Lemma maxLength_reached (m : FieldMap) :
  m <> [] -> exists k vs, In (k, vs) m /\ length vs = maxLength m.
Proof.
  unfold maxLength. induction m as [|[k0 v0] m IH]; [congruence|].
  intros _. cbn [map fold_right snd].
  destruct m as [|kv m'].
  - exists k0, v0. cbn. split; [now left | lia].
  - destruct (IH ltac:(discriminate)) as (k & vs & Hin & E).
    destruct (Nat.max_spec (length v0)
                (fold_right Nat.max 0
                   (map (fun kv => length (snd kv)) (kv :: m'))))
      as [[_ ->] | [_ ->]].
    + exists k, vs. split; [now right | exact E].
    + exists k0, v0. split; [now left | reflexivity].
Qed.

Lemma mapGet_In_NoDup (k : str) (vs : list str) (m : FieldMap) :
  NoDup (mapKeys m) -> In (k, vs) m -> mapGet k m = Some vs.
Proof.
  induction m as [|[k0 v0] m IH]; [intros _ []|].
  cbn [mapKeys map fst mapGet]. intros Hnd [[= -> ->] | H].
  - now rewrite str_eqb_refl.
  - inversion Hnd as [|? ? Hnot Hnd']; subst.
    str_cases k0 k E.
    + subst k0. exfalso. apply Hnot.
      change k with (fst (k, vs)). now apply in_map.
    + now apply IH.
Qed.

Lemma flatRow_get (merged : FieldMap) (i : nat) (keys : list str) (k : str)
  (acc : Row) :
  (forall k', In k' keys -> mapGet k' merged <> None) ->
  rowGet k
    (fold_left
       (fun row key =>
          match mapGet key merged with
          | Some values => rowSet key (at_or_empty values i) row
          | None => row
          end) keys acc)
  = if arrIncludes keys k
    then Some (nth i (valuesOf k merged) [])
    else rowGet k acc.
Proof.
  revert acc. induction keys as [|k0 keys IH]; intros acc Hall;
    [reflexivity|].
  cbn [fold_left]. rewrite IH by (intros k' Hk'; apply Hall; now right).
  unfold arrIncludes. cbn [existsb].
  destruct (existsb (str_eqb k) keys) eqn:E;
    [now rewrite Bool.orb_true_r|].
  rewrite Bool.orb_false_r.
  destruct (mapGet k0 merged) as [vs|] eqn:G;
    [|exfalso; apply (Hall k0); [now left | exact G]].
  rewrite rowGet_rowSet. str_cases k0 k E0.
  - subst k0. rewrite str_eqb_refl. unfold valuesOf. now rewrite G.
  - str_cases k k0 E1; [congruence | reflexivity].
Qed.

Lemma flatRow_keys (merged : FieldMap) (i : nat) (keys : list str)
  (acc : Row) :
  (forall k', In k' keys -> mapGet k' merged <> None) ->
  map fst
    (fold_left
       (fun row key =>
          match mapGet key merged with
          | Some values => rowSet key (at_or_empty values i) row
          | None => row
          end) keys acc)
  = pushUnique (map fst acc) keys.
Proof.
  revert acc. induction keys as [|k0 keys IH]; intros acc Hall;
    [reflexivity|].
  cbn [fold_left]. rewrite IH by (intros k' Hk'; apply Hall; now right).
  destruct (mapGet k0 merged) as [vs|] eqn:G;
    [|exfalso; apply (Hall k0); [now left | exact G]].
  rewrite rowSet_keys. reflexivity.
Qed.

(** X3.  [toFlatStructure] gives as many rows as the longest merged value
    list has values.  Every row has exactly the merged keys, and in row
    [i] the cell of a key is the [i]-th merged value of the key, or the
    empty string when the key has fewer values.  (The assignment
    [row[key] = ...] stores no property for the key [__proto__], which is
    left out here.) *)
Theorem toFlatStructure_rows (fs : list StructuredField) :
  ~ In (lit "__proto__") (map key fs) ->
  let merged := mergeFields fs in
  length (toFlatStructure fs) = maxLength merged
  /\ (forall k, length (valuesOf k merged) <= maxLength merged)
  /\ (fs <> [] ->
      exists k, In k (mapKeys merged)
                /\ length (valuesOf k merged) = maxLength merged)
  /\ (forall i row,
        nth_error (toFlatStructure fs) i = Some row ->
        NoDup (map fst row)
        /\ (forall k, In k (map fst row) <-> In k (mapKeys merged))
        /\ (forall k, In k (mapKeys merged) ->
              rowGet k row = Some (nth i (valuesOf k merged) []))).
Proof.
  intros _ merged.
  assert (Hnd : NoDup (mapKeys merged)).
  { unfold merged, mergeFields. rewrite fold_mergeStep_keys.
    apply pushUnique_NoDup. constructor. }
  assert (Hall : forall k', In k' (mapKeys merged) ->
                            mapGet k' merged <> None).
  { intros k' Hk' E. apply mapGet_None in E. contradiction. }
  split; [|split; [|split]].
  - destruct fs; [reflexivity|].
    cbn [toFlatStructure]. now rewrite length_map, length_seq.
  - intros k. unfold valuesOf.
    destruct (mapGet k merged) as [vs|] eqn:G; [|cbn; lia].
    apply (maxLength_ge k). now apply mapGet_Some_In.
  - intros Hfs.
    assert (Hm : merged <> []).
    { intros E. destruct fs as [|f fs]; [congruence|].
      assert (In (key f) (mapKeys merged)) as A.
      { unfold merged, mergeFields. rewrite fold_mergeStep_keys.
        apply pushUnique_In. right. now left. }
      rewrite E in A. destruct A. }
    destruct (maxLength_reached merged Hm) as (k & vs & Hin & E).
    exists k. split.
    + change k with (fst (k, vs)). now apply in_map.
    + unfold valuesOf. now rewrite (mapGet_In_NoDup _ _ _ Hnd Hin).
  - intros i row Hrow.
    destruct fs as [|f fs]; [destruct i; discriminate|].
    cbn [toFlatStructure] in Hrow. fold merged in Hrow.
    rewrite nth_error_map in Hrow.
    destruct (nth_error (seq 0 (maxLength merged)) i) as [j|] eqn:Ej;
      [|discriminate].
    assert (j = i).
    { pose proof (nth_error_Some (seq 0 (maxLength merged)) i) as B.
      rewrite Ej in B. assert (i < length (seq 0 (maxLength merged)))
        by (apply B; discriminate).
      rewrite length_seq in *. 
      apply (nth_error_nth _ _ 0) in Ej. rewrite seq_nth in Ej; lia. }
    subst j. cbn [option_map] in Hrow. injection Hrow as <-.
    split; [|split].
    + rewrite (flatRow_keys merged i _ [] Hall). cbn [map].
      apply pushUnique_NoDup. constructor.
    + intros k. rewrite (flatRow_keys merged i _ [] Hall). cbn [map].
      rewrite pushUnique_In. cbn [In]. tauto.
    + intros k Hk. rewrite (flatRow_get merged i _ k [] Hall).
      replace (arrIncludes (mapKeys merged) k) with true; [reflexivity|].
      symmetry. now apply arrIncludes_In.
Qed.

Lemma toFlatStructure_rows_witness :
  let fs := extractFields scenarioA in
  let merged := mergeFields fs in
  length (toFlatStructure fs) = maxLength merged
  /\ (forall k, length (valuesOf k merged) <= maxLength merged)
  /\ (fs <> [] ->
      exists k, In k (mapKeys merged)
                /\ length (valuesOf k merged) = maxLength merged)
  /\ (forall i row,
        nth_error (toFlatStructure fs) i = Some row ->
        NoDup (map fst row)
        /\ (forall k, In k (map fst row) <-> In k (mapKeys merged))
        /\ (forall k, In k (mapKeys merged) ->
              rowGet k row = Some (nth i (valuesOf k merged) []))).
Proof.
  apply (toFlatStructure_rows (extractFields scenarioA)).
  vm_compute. intros [H | [H | []]]; discriminate.
Defined.
(** ** The matcher on character classes *)

Lemma matchAt_Plus_chr (p : ascii -> bool) (x : ascii) (s : str) :
  matchAt (Plus (Chr p)) (x :: s)
  = if p x
    then Some (mkMatch
                 (firstn (length (x :: s) - length (dropWhile p s)) (x :: s))
                 [] (dropWhile p s))
    else None.
Proof.
  unfold matchAt. rewrite matchR_Plus_chr.
  destruct (p x); [|reflexivity].
  now apply backtrack_greedy.
Qed.

Lemma replaceLoop_nil (r : regex) (by_ : str) (n : nat) :
  matchAt r [] = None -> replaceLoop r by_ n [] = [].
Proof. intros H. destruct n; cbn [replaceLoop]; [|rewrite H]; reflexivity. Qed.

Lemma replaceLoop_no_match (r : regex) (by_ : str) (s : str) :
  search r s = None -> forall n, replaceLoop r by_ n s = s.
Proof.
  induction s as [|x s IH]; intros H n.
  - destruct n; cbn [replaceLoop]; [reflexivity|].
    cbn [search] in H. destruct (matchAt r []); [discriminate | reflexivity].
  - apply search_none_cons in H. destruct H as [H1 H2].
    destruct n; cbn [replaceLoop]; [reflexivity|].
    rewrite H1. f_equal. now apply IH.
Qed.

Lemma replaceLoop_Plus_chr (p : ascii -> bool) (by_ : str) (n : nat)
  (s : str) :
  length s < n ->
  replaceLoop (Plus (Chr p)) by_ n s = squeezeRuns p by_ false s.
Proof.
  assert (Hrun : forall s, squeezeRuns p by_ true s
                           = squeezeRuns p by_ false (dropWhile p s)).
  { intros t. induction t as [|x t IH]; [reflexivity|].
    cbn [squeezeRuns dropWhile]. destruct (p x) eqn:E.
    - cbn [app]. exact IH.
    - cbn [squeezeRuns]. now rewrite E. }
  revert s. induction n as [|n IH]; intros s Hlen; [lia|].
  destruct s as [|x s].
  - reflexivity.
  - cbn [replaceLoop]. rewrite matchAt_Plus_chr.
    cbn [squeezeRuns]. destruct (p x) eqn:E.
    + cbn [matched rest].
      pose proof (dropWhile_length p s) as Hd. cbn [length] in Hlen.
      replace (length (firstn (length (x :: s) - length (dropWhile p s))
                         (x :: s)) =? 0) with false.
      * rewrite IH by lia. now rewrite Hrun.
      * symmetry. apply Nat.eqb_neq. rewrite length_firstn.
        cbn [length]. lia.
    + f_equal. apply IH. cbn [length] in Hlen. lia.
Qed.

(** ** helpers.ts: normalizeText *)

Lemma noAdjacent_app (p : ascii -> bool) (a b : str) :
  noAdjacent p (a ++ b) -> noAdjacent p a /\ noAdjacent p b.
Proof.
  induction a as [|x a IH]; [now split|].
  cbn [app noAdjacent]. intros [H1 H2].
  destruct (IH H2) as [Ha Hb]. split; [|exact Hb]. split; [|exact Ha].
  destruct a; [exact I | exact H1].
Qed.

Lemma dropWhile_suffix (p : ascii -> bool) (s : str) :
  exists a, s = a ++ dropWhile p s.
Proof.
  induction s as [|x s [a IH]]; [now exists []|].
  cbn [dropWhile]. destruct (p x).
  - exists (x :: a). cbn. now f_equal.
  - now exists [].
Qed.

Lemma trim_substring (s : str) : exists a b, s = a ++ trim s ++ b.
Proof.
  unfold trim, trimEnd, trimStart.
  destruct (dropWhile_suffix isSpace s) as [a Ha].
  destruct (dropWhile_suffix isSpace (rev (dropWhile isSpace s))) as [b Hb].
  exists a, (rev b). rewrite <- rev_app_distr, <- Hb, rev_involutive.
  exact Ha.
Qed.

Lemma noAdjacent_trim (p : ascii -> bool) (s : str) :
  noAdjacent p s -> noAdjacent p (trim s).
Proof.
  intros H. destruct (trim_substring s) as (a & b & E).
  rewrite E in H. apply noAdjacent_app in H. destruct H as [_ H].
  apply noAdjacent_app in H. tauto.
Qed.

Lemma squeezeRuns_blank_shape (inRun : bool) (s : str) :
  Forall (fun c => isSpace c = true -> c = " "%char)
         (squeezeRuns isSpace (lit " ") inRun s)
  /\ noAdjacent isSpace (squeezeRuns isSpace (lit " ") inRun s)
  /\ (inRun = true ->
      match squeezeRuns isSpace (lit " ") inRun s with
      | [] => True
      | y :: _ => isSpace y = false
      end).
Proof.
  revert inRun. induction s as [|x s IH]; intros inRun.
  - cbn. repeat split; constructor.
  - cbn [squeezeRuns]. destruct (isSpace x) eqn:E.
    + destruct (IH true) as (F1 & A1 & H1). specialize (H1 eq_refl).
      set (q := squeezeRuns isSpace (lit " ") true s) in *.
      destruct inRun; cbn [app lit list_ascii_of_string].
      * split; [exact F1|]. split; [exact A1|]. intros _. exact H1.
      * split; [constructor; auto|]. split; [|discriminate].
        cbn [noAdjacent]. split; [|exact A1].
        destruct q; [exact I|].
        intros [_ Hy]. congruence.
    + destruct (IH false) as (F1 & A1 & _).
      split; [constructor; [congruence | exact F1]|].
      split; [|intros _; exact E].
      cbn [noAdjacent]. split; [|exact A1].
      destruct (squeezeRuns isSpace (lit " ") false s); [exact I|].
      intros [Hx _]. congruence.
Qed.

Lemma squeezeRuns_fixed (s : str) :
  Forall (fun c => isSpace c = true -> c = " "%char) s ->
  noAdjacent isSpace s ->
  squeezeRuns isSpace (lit " ") false s = s
  /\ (match s with
      | y :: _ => isSpace y = false
      | [] => True
      end -> squeezeRuns isSpace (lit " ") true s = s).
Proof.
  induction s as [|x s IH]; intros HF HA; [now split|].
  inversion HF as [|? ? Hx HF']; subst. cbn [noAdjacent] in HA.
  destruct HA as [Hxy HA]. destruct (IH HF' HA) as [IH1 IH2].
  cbn [squeezeRuns]. destruct (isSpace x) eqn:E.
  - split; [|intros Hy; congruence].
    rewrite (Hx eq_refl). cbn [app lit list_ascii_of_string]. f_equal.
    apply IH2. destruct s as [|y s]; [exact I|].
    destruct (isSpace y) eqn:Ey; [|reflexivity].
    exfalso. apply Hxy. now split.
  - split; [|intros _]; now rewrite IH1.
Qed.

Lemma search_none_class (r : regex) (q : ascii -> bool) (s : str) :
  matchAt r [] = None ->
  (forall x t, q x = false -> matchAt r (x :: t) = None) ->
  Forall (fun c => q c = false) s -> search r s = None.
Proof.
  intros H0 H1. induction 1 as [|x s Hx _ IH]; cbn [search].
  - now rewrite H0.
  - now rewrite (H1 x s Hx).
Qed.

Lemma inkOf_app (a b : str) : inkOf (a ++ b) = inkOf a ++ inkOf b.
Proof. apply filter_app. Qed.

Lemma inkOf_blank (w : str) :
  Forall (fun c => isSpace c = true) w -> inkOf w = [].
Proof.
  induction 1 as [|x w Hx _ IH]; [reflexivity|].
  cbn [inkOf filter]. rewrite Hx. exact IH.
Qed.

Lemma inkOf_dropWhile (s : str) : inkOf (dropWhile isSpace s) = inkOf s.
Proof.
  induction s as [|x s IH]; [reflexivity|].
  cbn [dropWhile inkOf filter]. destruct (isSpace x) eqn:E; [exact IH|].
  cbn [inkOf filter]. now rewrite E.
Qed.

Lemma inkOf_trim (s : str) : inkOf (trim s) = inkOf s.
Proof.
  unfold trim, trimEnd, trimStart, inkOf.
  rewrite <- (rev_involutive (filter _ (rev _))).
  rewrite <- filter_rev. rewrite rev_involutive.
  fold (inkOf (dropWhile isSpace (rev (dropWhile isSpace s)))).
  rewrite inkOf_dropWhile. unfold inkOf. rewrite filter_rev, rev_involutive.
  apply inkOf_dropWhile.
Qed.

Lemma inkOf_replaceLoop (r : regex) (by_ : str) :
  inkOf by_ = [] ->
  (forall w, Lang r w -> Forall (fun c => isSpace c = true) w) ->
  forall n s, inkOf (replaceLoop r by_ n s) = inkOf s.
Proof.
  intros Hby HL. induction n as [|n IH]; intros s; [reflexivity|].
  cbn [replaceLoop]. destruct (matchAt r s) as [m|] eqn:E.
  - destruct (matchAt_sound _ _ _ E) as [Hs Hw].
    rewrite inkOf_app, Hby. cbn [app].
    destruct (length (matched m) =? 0) eqn:E0.
    + destruct s as [|x s]; [reflexivity|].
      cbn [inkOf filter]. fold (inkOf (replaceLoop r by_ n s)).
      now rewrite IH.
    + rewrite IH.
      replace (inkOf s) with (inkOf (matched m ++ rest m))
        by (now rewrite <- Hs).
      rewrite inkOf_app. now rewrite (inkOf_blank _ (HL _ Hw)).
  - destruct s as [|x s]; [reflexivity|].
    cbn [inkOf filter]. fold (inkOf (replaceLoop r by_ n s)).
    now rewrite IH.
Qed.
Lemma blank_only_not (c : ascii) (s : str) :
  isSpace c = true -> c <> " "%char ->
  Forall (fun x => isSpace x = true -> x = " "%char) s ->
  Forall (fun x => Ascii.eqb c x = false) s.
Proof.
  intros Hc Hne. apply Forall_impl. intros x Hx.
  apply Ascii.eqb_neq. intros <-. now apply Hne, Hx.
Qed.

Lemma normalizeText_squeezed (text : str) :
  exists s, normalizeText text = trim (squeezeRuns isSpace (lit " ") false s)
            /\ inkOf s = inkOf text.
Proof.
  unfold normalizeText.
  set (s1 := replaceAll crlfPattern [LF] text).
  set (s2 := replaceAll crPattern [LF] s1).
  set (s3 := replaceAll tabPattern (lit " ") s2).
  exists s3. split.
  - unfold replaceAll at 1. unfold spacesPattern, reSpace.
    now rewrite replaceLoop_Plus_chr by lia.
  - unfold s3, s2, s1, replaceAll.
    rewrite !inkOf_replaceLoop; try reflexivity.
    + intros w H. unfold crlfPattern in H.
      apply Lang_seq in H. destruct H as (a & b & -> & Ha & Hb).
      apply Lang_chr in Ha, Hb.
      destruct Ha as (x & -> & Hx), Hb as (y & -> & Hy).
      apply Ascii.eqb_eq in Hx, Hy. subst. repeat constructor.
    + intros w H. apply Lang_chr in H. destruct H as (x & -> & Hx).
      apply Ascii.eqb_eq in Hx. subst. repeat constructor.
    + intros w H. apply Lang_chr in H. destruct H as (x & -> & Hx).
      apply Ascii.eqb_eq in Hx. subst. repeat constructor.
Qed.

(** X4.  [normalizeText] leaves a trimmed text whose only white space is
    the single blank between two other characters; it keeps the
    characters that are not white space, in their order; and normalizing
    a second time changes nothing. *)
Theorem normalizeText_normal (text : str) :
  trim (normalizeText text) = normalizeText text
  /\ Forall (fun c => isSpace c = true -> c = " "%char) (normalizeText text)
  /\ noAdjacent isSpace (normalizeText text)
  /\ inkOf (normalizeText text) = inkOf text
  /\ normalizeText (normalizeText text) = normalizeText text.
Proof.
  destruct (normalizeText_squeezed text) as (s & E & Hink).
  destruct (squeezeRuns_blank_shape false s) as (HF & HA & _).
  assert (P1 : Forall (fun c => isSpace c = true -> c = " "%char)
                 (normalizeText text))
    by (rewrite E; now apply trim_Forall).
  assert (P2 : noAdjacent isSpace (normalizeText text))
    by (rewrite E; now apply noAdjacent_trim).
  assert (P3 : trim (normalizeText text) = normalizeText text)
    by apply normalizeText_trimmed.
  split; [exact P3|]. split; [exact P1|]. split; [exact P2|]. split.
  - rewrite E, inkOf_trim.
    rewrite <- (replaceLoop_Plus_chr isSpace (lit " ") (S (length s)) s)
      by lia.
    rewrite inkOf_replaceLoop; [exact Hink | reflexivity |].
    intros w H. now apply Lang_plus_chr in H as [_ H].
  - set (p := normalizeText text) in *. unfold normalizeText.
    assert (Hcr : Forall (fun x => Ascii.eqb CR x = false) p)
      by (apply blank_only_not; [reflexivity | discriminate | exact P1]).
    assert (Htab : Forall (fun x => Ascii.eqb TAB x = false) p)
      by (apply blank_only_not; [reflexivity | discriminate | exact P1]).
    unfold replaceAll.
    rewrite (replaceLoop_no_match crlfPattern [LF] p).
    2:{ apply (search_none_class _ (Ascii.eqb CR)); [reflexivity | | exact Hcr].
        intros x t Hx. unfold matchAt, crlfPattern, chr. cbn [matchR].
        now rewrite Hx. }
    rewrite (replaceLoop_no_match crPattern [LF] p).
    2:{ apply (search_none_class _ (Ascii.eqb CR)); [reflexivity | | exact Hcr].
        intros x t Hx. unfold matchAt, crPattern, chr. cbn [matchR].
        now rewrite Hx. }
    rewrite (replaceLoop_no_match tabPattern (lit " ") p).
    2:{ apply (search_none_class _ (Ascii.eqb TAB));
          [reflexivity | | exact Htab].
        intros x t Hx. unfold matchAt, tabPattern, chr. cbn [matchR].
        now rewrite Hx. }
    unfold spacesPattern, reSpace.
    rewrite replaceLoop_Plus_chr by lia.
    destruct (squeezeRuns_fixed p P1 P2) as [-> _]. exact P3.
Qed.
(** ** The pieces of a split *)

Lemma noAdjacent_snoc (q : ascii -> bool) (a : str) (x : ascii) :
  noAdjacent q a ->
  match rev a with
  | y :: _ => ~ (q y = true /\ q x = true)
  | [] => True
  end ->
  noAdjacent q (a ++ [x]).
Proof.
  induction a as [|z a IH]; [cbn; tauto|].
  cbn [noAdjacent app rev]. intros [H1 H2] Hb.
  destruct a as [|z' a].
  - cbn in *. tauto.
  - split; [exact H1|]. apply IH; [exact H2|].
    cbn [rev] in *. destruct (rev a ++ [z']) eqn:E.
    + destruct (rev a); discriminate.
    + exact Hb.
Qed.

Lemma splitLoop_noAdjacent (r : regex) (q : ascii -> bool) :
  nullable r = false ->
  (forall x y t, q x = true -> q y = true -> matchAt r (x :: y :: t) <> None) ->
  forall n piece s,
    splitMeasure piece s < n ->
    noAdjacent q (rev piece) ->
    match piece, s with
    | y :: _, x :: _ => ~ (q y = true /\ q x = true)
    | _, _ => True
    end ->
    Forall (noAdjacent q) (splitLoop r n piece s).
Proof.
  intros Hn Hq. unfold splitMeasure.
  induction n as [|n IH]; intros piece s Hm Hp Hb; [lia|].
  cbn [splitLoop]. destruct s as [|x s]; [now repeat constructor|].
  destruct (matchAt r (x :: s)) as [m|] eqn:E.
  - pose proof (matchAt_rest_shorter _ _ _ Hn E) as Hlt.
    pose proof (matchAt_matched_nonempty _ _ _ Hn E) as Hne.
    replace (length (matched m) =? 0) with false
      by (symmetry; apply Nat.eqb_neq; destruct (matched m);
          [congruence | discriminate]).
    cbn [andb]. constructor; [exact Hp|].
    apply IH; [|exact I | exact I].
    cbn [length Nat.eqb] in *. destruct (length piece =? 0); lia.
  - apply IH.
    + cbn [length Nat.eqb] in *. destruct (length piece =? 0); lia.
    + cbn [rev]. apply noAdjacent_snoc; [exact Hp|].
      rewrite rev_involutive. destruct piece; [exact I | exact Hb].
    + destruct s as [|y s]; [exact I|].
      intros [Hx Hy]. now apply (Hq x y s Hx Hy).
Qed.

Lemma splitLoop_free (r : regex) (q : ascii -> bool) :
  nullable r = false ->
  (forall x t, q x = true -> matchAt r (x :: t) <> None) ->
  forall n piece s,
    splitMeasure piece s < n ->
    Forall (fun c => q c = false) piece ->
    Forall (Forall (fun c => q c = false)) (splitLoop r n piece s).
Proof.
  intros Hn Hq. unfold splitMeasure.
  induction n as [|n IH]; intros piece s Hm Hp; [lia|].
  cbn [splitLoop]. destruct s as [|x s].
  - constructor; [|constructor]. now apply Forall_rev.
  - destruct (matchAt r (x :: s)) as [m|] eqn:E.
    + pose proof (matchAt_rest_shorter _ _ _ Hn E) as Hlt.
      pose proof (matchAt_matched_nonempty _ _ _ Hn E) as Hne.
      replace (length (matched m) =? 0) with false
        by (symmetry; apply Nat.eqb_neq; destruct (matched m);
            [congruence | discriminate]).
      cbn [andb]. constructor; [now apply Forall_rev|].
      apply IH; [|constructor].
      cbn [length Nat.eqb] in *. destruct (length piece =? 0); lia.
    + apply IH.
      * cbn [length Nat.eqb] in *. destruct (length piece =? 0); lia.
      * constructor; [|exact Hp].
        destruct (q x) eqn:Hx; [|reflexivity].
        exfalso. now apply (Hq x s Hx).
Qed.

Lemma inkOf_splitLoop (r : regex) :
  nullable r = false ->
  (forall w, Lang r w -> Forall (fun c => isSpace c = true) w) ->
  forall n piece s,
    splitMeasure piece s < n ->
    inkOf (concat (splitLoop r n piece s)) = inkOf (rev piece ++ s).
Proof.
  intros Hn HL. unfold splitMeasure.
  induction n as [|n IH]; intros piece s Hm; [lia|].
  cbn [splitLoop]. destruct s as [|x s].
  - cbn [concat]. now rewrite !app_nil_r.
  - destruct (matchAt r (x :: s)) as [m|] eqn:E.
    + pose proof (matchAt_rest_shorter _ _ _ Hn E) as Hlt.
      pose proof (matchAt_matched_nonempty _ _ _ Hn E) as Hne.
      destruct (matchAt_sound _ _ _ E) as [Hs Hw].
      replace (length (matched m) =? 0) with false
        by (symmetry; apply Nat.eqb_neq; destruct (matched m);
            [congruence | discriminate]).
      cbn [andb concat]. rewrite !inkOf_app.
      rewrite IH
        by (cbn [length Nat.eqb] in *; destruct (length piece =? 0); lia).
      cbn [rev app].
      rewrite Hs, inkOf_app. now rewrite (inkOf_blank _ (HL _ Hw)).
    + rewrite IH
        by (cbn [length Nat.eqb] in *; destruct (length piece =? 0); lia).
      cbn [rev]. now rewrite <- app_assoc.
Qed.

Lemma inkOf_trimmed_pieces (l : list str) :
  inkOf (concat (filter nonEmpty (map trim l))) = inkOf (concat l).
Proof.
  induction l as [|p l IH]; [reflexivity|].
  cbn [map filter concat]. rewrite inkOf_app, <- IH, <- (inkOf_trim p).
  unfold nonEmpty. destruct (trim p) as [|y t]; [reflexivity|].
  cbn [length Nat.ltb Nat.leb concat]. now rewrite inkOf_app.
Qed.

Lemma noAdjacent_trimmed_pieces (q : ascii -> bool) (l : list str) :
  Forall (noAdjacent q) l ->
  Forall (noAdjacent q) (filter nonEmpty (map trim l)).
Proof.
  intros H. apply Forall_forall. intros p Hp.
  apply filter_In in Hp. destruct Hp as [Hp _].
  apply in_map_iff in Hp. destruct Hp as (p0 & <- & Hp0).
  apply noAdjacent_trim. rewrite Forall_forall in H. now apply H.
Qed.

Lemma free_trimmed_pieces (P : ascii -> Prop) (l : list str) :
  Forall (Forall P) l -> Forall (Forall P) (filter nonEmpty (map trim l)).
Proof.
  intros H. apply Forall_forall. intros p Hp.
  apply filter_In in Hp. destruct Hp as [Hp _].
  apply in_map_iff in Hp. destruct Hp as (p0 & <- & Hp0).
  apply trim_Forall. rewrite Forall_forall in H. now apply H.
Qed.

Lemma search_none_noAdjacent (r : regex) (q q1 : ascii -> bool) (s : str) :
  matchAt r [] = None ->
  (forall x, q1 x = false -> matchAt r [x] = None) ->
  (forall x y t, q1 x = false -> ~ (q x = true /\ q y = true) ->
                 matchAt r (x :: y :: t) = None) ->
  Forall (fun c => q1 c = false) s ->
  noAdjacent q s -> search r s = None.
Proof.
  intros H0 H1 H2. induction s as [|x s IH]; intros HF HA; cbn [search].
  - now rewrite H0.
  - cbn [noAdjacent] in HA. destruct HA as [Hxy HA].
    inversion HF as [|? ? Hx HF']; subst.
    destruct s as [|y s].
    + rewrite (H1 x Hx). cbn [search]. now rewrite H0.
    + rewrite (H2 x y s Hx Hxy). now apply IH.
Qed.

(** ** helpers.ts: splitIntoParagraphs *)

Lemma paragraphBreak_at (x y : ascii) (t : str) :
  matchAt paragraphBreak (x :: y :: t)
  = if Ascii.eqb LF x && Ascii.eqb LF y
    then Some (mkMatch
                 (firstn (length (x :: y :: t)
                          - length (dropWhile (Ascii.eqb LF) t))
                    (x :: y :: t))
                 [] (dropWhile (Ascii.eqb LF) t))
    else None.
Proof.
  unfold matchAt, paragraphBreak, chr.
  rewrite matchR_Seq, matchR_Chr.
  destruct (Ascii.eqb LF x); [|reflexivity].
  rewrite matchR_Plus_chr. destruct (Ascii.eqb LF y); [|reflexivity].
  cbn [andb]. now apply backtrack_greedy.
Qed.

Lemma Lang_paragraphBreak (w : str) :
  Lang paragraphBreak w -> Forall (fun c => isSpace c = true) w.
Proof.
  unfold paragraphBreak. intros H.
  apply Lang_seq in H. destruct H as (a & b & -> & Ha & Hb).
  apply Lang_chr in Ha. destruct Ha as (x & -> & Hx).
  apply Ascii.eqb_eq in Hx. subst x.
  apply Lang_plus_chr in Hb. destruct Hb as [_ Hb].
  constructor; [reflexivity|].
  revert Hb. apply Forall_impl. intros c Hc.
  apply Ascii.eqb_eq in Hc. now subst.
Qed.

(** X5.  The paragraphs that [splitIntoParagraphs] returns are not empty,
    are trimmed and have no two line feeds in a row; together they keep
    the characters of the text that are not white space, in their order;
    and a text without two line feeds in a row is one paragraph, or none
    when it is blank. *)
Theorem splitIntoParagraphs_shape (text : str) :
  Forall (fun p => p <> [] /\ trim p = p /\ noAdjacent (Ascii.eqb LF) p)
         (splitIntoParagraphs text)
  /\ inkOf (concat (splitIntoParagraphs text)) = inkOf text
  /\ (noAdjacent (Ascii.eqb LF) text ->
      splitIntoParagraphs text = filter nonEmpty [trim text]).
Proof.
  unfold splitIntoParagraphs.
  assert (Hq : forall x y t,
             Ascii.eqb LF x = true -> Ascii.eqb LF y = true ->
             matchAt paragraphBreak (x :: y :: t) <> None).
  { intros x y t Hx Hy. rewrite paragraphBreak_at, Hx, Hy. discriminate. }
  split; [|split].
  - pose proof (filter_trim_clean (jsSplit paragraphBreak text)) as H1.
    assert (H2 : Forall (noAdjacent (Ascii.eqb LF))
                   (filter nonEmpty (map trim (jsSplit paragraphBreak text)))).
    { apply noAdjacent_trimmed_pieces. unfold jsSplit.
      destruct text as [|x t]; [repeat constructor|].
      apply splitLoop_noAdjacent; try assumption; try reflexivity; try exact I.
      unfold splitMeasure. cbn [length Nat.eqb]. lia. }
    rewrite Forall_forall in *. intros p Hp.
    destruct (H1 p Hp). split; [assumption|]. split; [assumption|].
    now apply H2.
  - rewrite inkOf_trimmed_pieces. unfold jsSplit.
    destruct text as [|x t]; [reflexivity|].
    rewrite inkOf_splitLoop; [reflexivity | reflexivity | | ].
    + exact Lang_paragraphBreak.
    + unfold splitMeasure. cbn [length Nat.eqb]. lia.
  - intros HA. destruct text as [|x t]; [reflexivity|].
    rewrite jsSplit_no_match; [reflexivity | discriminate |].
    apply (search_none_noAdjacent _ (Ascii.eqb LF) (fun _ => false));
      try exact HA.
    + reflexivity.
    + intros y _. unfold matchAt, paragraphBreak, chr. cbn [matchR].
      destruct (Ascii.eqb LF y); reflexivity.
    + intros a b u _ Hab. rewrite paragraphBreak_at.
      destruct (Ascii.eqb LF a), (Ascii.eqb LF b); cbn [andb];
        try reflexivity.
      exfalso. now apply Hab.
    + apply Forall_forall. reflexivity.
Qed.
(** ** parsers/PdfParser.ts: the cells of a line *)

Lemma cellBreak_two_spaces (x y : ascii) (t : str) :
  isSpace x = true -> isSpace y = true ->
  matchAt cellBreak (x :: y :: t) <> None.
Proof.
  intros Hx Hy. unfold matchAt, cellBreak, AtLeast2, reSpace.
  cbn [matchR]. rewrite Hx, Hy.
  match goal with
  | |- context [starLoop ?f ?k ?n ?s ?c] =>
      change (starLoop f k n s c) with (matchR (Star (Chr isSpace)) s c k)
  end.
  rewrite matchR_star_chr.
  match goal with
  | |- match ?b with _ => _ end <> None =>
      assert (Hb : b <> None) by (apply backtrack_total; discriminate);
      destruct b; [discriminate | congruence]
  end.
Qed.

Lemma cellBreak_tab (x : ascii) (t : str) :
  Ascii.eqb TAB x = true -> matchAt cellBreak (x :: t) <> None.
Proof.
  intros Hx. unfold matchAt, cellBreak. cbn [matchR].
  match goal with
  | |- match ?a with _ => _ end <> None => destruct a; [discriminate|]
  end.
  apply (matchAt_plus_chr (Ascii.eqb TAB) x t Hx).
Qed.

Lemma cellBreak_none (x : ascii) (t : str) :
  Ascii.eqb TAB x = false ->
  match t with
  | y :: _ => ~ (isSpace x = true /\ isSpace y = true)
  | [] => True
  end ->
  matchAt cellBreak (x :: t) = None.
Proof.
  intros Hx Hxy. unfold matchAt, cellBreak, AtLeast2, reSpace, Plus, chr.
  cbn [matchR]. rewrite Hx.
  destruct (isSpace x) eqn:Ex; [|reflexivity].
  destruct t as [|y t]; [reflexivity|].
  destruct (isSpace y) eqn:Ey; [|reflexivity].
  exfalso. now apply Hxy.
Qed.

Lemma Lang_cellBreak (w : str) :
  Lang cellBreak w -> Forall (fun c => isSpace c = true) w.
Proof.
  unfold cellBreak, AtLeast2. intros H. inversion H as [| |? ? ? H1|? ? ? H2| | |]; subst.
  - apply Lang_seq in H1. destruct H1 as (a & b & -> & Ha & Hb).
    apply Lang_seq in Hb. destruct Hb as (b1 & b2 & -> & Hb1 & Hb2).
    apply Lang_chr in Ha, Hb1.
    destruct Ha as (x & -> & Hx), Hb1 as (y & -> & Hy).
    apply Lang_star_chr in Hb2.
    constructor; [exact Hx|]. constructor; [exact Hy | exact Hb2].
  - apply Lang_plus_chr in H2. destruct H2 as [_ H2].
    revert H2. apply Forall_impl. intros c Hc.
    apply Ascii.eqb_eq in Hc. now subst.
Qed.

Lemma splitTableRow_cell_shape (line : str) :
  Forall (fun cell =>
            cell <> [] /\ trim cell = cell /\ ~ In TAB cell
            /\ noAdjacent isSpace cell)
         (splitTableRow line).
Proof.
  unfold splitTableRow.
  pose proof (filter_trim_clean (jsSplit cellBreak line)) as H1.
  assert (H2 : Forall (noAdjacent isSpace)
                 (filter nonEmpty (map trim (jsSplit cellBreak line)))).
  { apply noAdjacent_trimmed_pieces. unfold jsSplit.
    destruct line as [|x t]; [repeat constructor|].
    apply splitLoop_noAdjacent; try reflexivity; try exact I.
    - exact cellBreak_two_spaces.
    - unfold splitMeasure. cbn [length Nat.eqb]. lia. }
  assert (H3 : Forall (Forall (fun c => Ascii.eqb TAB c = false))
                 (filter nonEmpty (map trim (jsSplit cellBreak line)))).
  { apply free_trimmed_pieces. unfold jsSplit.
    destruct line as [|x t]; [repeat constructor|].
    apply splitLoop_free; [reflexivity | exact cellBreak_tab | | constructor].
    unfold splitMeasure. cbn [length Nat.eqb]. lia. }
  rewrite Forall_forall in *. intros p Hp.
  destruct (H1 p Hp). split; [assumption|]. split; [assumption|].
  split; [|now apply H2].
  intros Hin. specialize (H3 p Hp). rewrite Forall_forall in H3.
  specialize (H3 TAB Hin). discriminate.
Qed.

(** X6.  The cells that [splitTableRow] returns are not empty, are trimmed
    and have no tabulation and no two white-space characters in a row;
    together they keep the characters of the line that are not white
    space, in their order; and a line with no tabulation and no two
    white-space characters in a row is one cell, or none when it is
    blank, so that it is no table row. *)
Theorem splitTableRow_cells (line : str) :
  Forall (fun cell =>
            cell <> [] /\ trim cell = cell /\ ~ In TAB cell
            /\ noAdjacent isSpace cell)
         (splitTableRow line)
  /\ inkOf (concat (splitTableRow line)) = inkOf line
  /\ (~ In TAB line -> noAdjacent isSpace line ->
      splitTableRow line = filter nonEmpty [trim line]
      /\ length (splitTableRow line) <= 1).
Proof.
  split; [|split]; [|unfold splitTableRow..].
  - apply splitTableRow_cell_shape.
  - rewrite inkOf_trimmed_pieces. unfold jsSplit.
    destruct line as [|x t]; [reflexivity|].
    rewrite inkOf_splitLoop; [reflexivity | reflexivity | | ].
    + exact Lang_cellBreak.
    + unfold splitMeasure. cbn [length Nat.eqb]. lia.
  - intros Htab HA.
    assert (E : filter nonEmpty (map trim (jsSplit cellBreak line))
                = filter nonEmpty [trim line]).
    { destruct line as [|x t]; [reflexivity|].
      rewrite jsSplit_no_match; [reflexivity | discriminate |].
      apply (search_none_noAdjacent _ isSpace (Ascii.eqb TAB));
        try exact HA.
      - reflexivity.
      - intros y Hy. now apply cellBreak_none.
      - intros a b u Ha Hab. now apply cellBreak_none.
      - apply Forall_forall. intros c Hc. apply Ascii.eqb_neq.
        intros <-. contradiction. }
    split; [exact E|]. rewrite E. cbn [filter].
    destruct (nonEmpty (trim line)); cbn [length]; lia.
Qed.
(** ** parsers/PdfParser.ts: the tables *)

Lemma closeBlock_ok (block : list (list str)) :
  2 <= length block ->
  Forall (fun r => 2 <= length r /\ Forall cellOk r) block ->
  tableOk (closeBlock block).
Proof.
  intros Hlen HF. destruct block as [|r1 [|r2 block]];
    cbn [length] in Hlen; try lia.
  inversion HF as [|? ? [H1 H1'] HF']; subst.
  unfold closeBlock, tableOk. cbn [detectHeaders].
  destruct (existsb cellLooksLikeHeader r1); cbn [headers rows skipn].
  - split; [discriminate|]. split; [exact HF' | now split].
  - split; [discriminate|]. split; [exact HF | cbn [length]; lia].
Qed.

Lemma tableLoop_ok (lines : list str) :
  forall tables cur b,
    Forall tableOk tables ->
    Forall (fun r => 2 <= length r /\ Forall cellOk r) cur ->
    Forall tableOk (tableLoop lines tables cur b)
    /\ 2 * length (tableLoop lines tables cur b)
       <= 2 * length tables + (if b then length cur else 0) + length lines.
Proof.
  induction lines as [|l lines IH]; intros tables cur b Ht Hc.
  - rewrite tableLoop_nil.
    destruct b; cbn [andb]; [|split; [exact Ht | lia]].
    destruct (1 <? length cur) eqn:E.
    + apply Nat.ltb_lt in E. split.
      * apply Forall_app. split; [exact Ht|].
        constructor; [|constructor]. apply closeBlock_ok; [lia | exact Hc].
      * rewrite length_app. cbn [length]. lia.
    + split; [exact Ht | lia].
  - rewrite tableLoop_cons. destruct (isTableRow l) eqn:Er.
    + assert (Hnew : Forall (fun r => 2 <= length r /\ Forall cellOk r)
                       ((if b then cur else []) ++ [cellsOf l])).
      { apply Forall_app. split; [destruct b; [exact Hc | constructor]|].
        constructor; [|constructor]. split.
        - unfold isTableRow in Er. now apply Nat.leb_le in Er.
        - apply splitTableRow_cell_shape. }
      destruct (IH tables _ true Ht Hnew) as [H1 H2].
      split; [exact H1|]. rewrite length_app in H2.
      cbn [length] in *. destruct b; cbn [length] in *; lia.
    + destruct b; cbn [andb].
      * destruct (1 <? length cur) eqn:E.
        -- apply Nat.ltb_lt in E.
           assert (Ht' : Forall tableOk (tables ++ [closeBlock cur])).
           { apply Forall_app. split; [exact Ht|].
             constructor; [|constructor].
             apply closeBlock_ok; [lia | exact Hc]. }
           destruct (IH _ [] false Ht' (Forall_nil _)) as [H1 H2].
           split; [exact H1|]. rewrite length_app in H2.
           cbn [length] in *. lia.
        -- destruct (IH tables [] false Ht (Forall_nil _)) as [H1 H2].
           split; [exact H1|]. cbn [length] in *. lia.
      * destruct (IH tables [] false Ht (Forall_nil _)) as [H1 H2].
        split; [exact H1|]. cbn [length] in *. lia.
Qed.

(** X7.  Every table that [extractTables] returns has at least one row;
    each of its rows, and its header when it has one, has two cells or
    more, none of them empty; a table without header has two rows or
    more.  A table takes two lines of the text at least, so there are at
    most half as many tables as lines. *)
Theorem extractTables_shape (text : str) :
  Forall tableOk (extractTables text)
  /\ 2 * length (extractTables text) <= length (splitOnChar LF text).
Proof.
  unfold extractTables.
  destruct (tableLoop_ok (splitOnChar LF text) [] [] false
              (Forall_nil _) (Forall_nil _)) as [H1 H2].
  split; [exact H1|]. cbn [length] in H2. lia.
Qed.
(** ** helpers.ts: sanitizeFilename *)

Lemma replaceLoop_chr (p : ascii -> bool) (by_ : str) (n : nat) (s : str) :
  length s < n ->
  replaceLoop (Chr p) by_ n s
  = flat_map (fun x => if p x then by_ else [x]) s.
Proof.
  revert s. induction n as [|n IH]; intros s Hlen; [lia|].
  destruct s as [|x s]; [reflexivity|].
  cbn [replaceLoop flat_map]. rewrite matchAt_chr.
  cbn [length] in Hlen.
  destruct (p x); cbn [matched rest length Nat.eqb app];
    rewrite IH by lia; reflexivity.
Qed.

(** X8.  [sanitizeFilename] replaces, one for one, every character that
    is not a letter, a digit, [_], [-] or [.] by [_]: the length is kept,
    no other character is left (no path separator in particular), a name
    of allowed characters is unchanged, and sanitizing twice is
    sanitizing once. *)
Theorem sanitizeFilename_safe (filename : str) :
  sanitizeFilename filename
  = map (fun c => if unsafeChar c then "_"%char else c) filename
  /\ length (sanitizeFilename filename) = length filename
  /\ Forall (fun c => unsafeChar c = false) (sanitizeFilename filename)
  /\ ~ In "/"%char (sanitizeFilename filename)
  /\ ~ In "\"%char (sanitizeFilename filename)
  /\ (Forall (fun c => unsafeChar c = false) filename ->
      sanitizeFilename filename = filename)
  /\ sanitizeFilename (sanitizeFilename filename) = sanitizeFilename filename.
Proof.
  assert (E : forall f, sanitizeFilename f
                = map (fun c => if unsafeChar c then "_"%char else c) f).
  { intros f. unfold sanitizeFilename, replaceAll.
    rewrite replaceLoop_chr by lia.
    induction f as [|x f IH]; [reflexivity|].
    cbn [flat_map map]. rewrite IH. now destruct (unsafeChar x). }
  assert (S : forall f, Forall (fun c => unsafeChar c = false)
                          (sanitizeFilename f)).
  { intros f. rewrite E. apply Forall_forall. intros c Hc.
    apply in_map_iff in Hc. destruct Hc as (x & <- & _).
    destruct (unsafeChar x) eqn:Ex; [reflexivity | exact Ex]. }
  assert (Fx : forall f, Forall (fun c => unsafeChar c = false) f ->
                         sanitizeFilename f = f).
  { intros f Hf. rewrite E. induction Hf as [|x f Hx _ IH]; [reflexivity|].
    cbn [map]. now rewrite Hx, IH. }
  split; [apply E|]. split; [rewrite E; apply length_map|].
  split; [apply S|].
  split; [|split; [|split; [apply Fx | apply Fx, S]]].
  - intros Hin. specialize (S filename). rewrite Forall_forall in S.
    specialize (S _ Hin). discriminate.
  - intros Hin. specialize (S filename). rewrite Forall_forall in S.
    specialize (S _ Hin). discriminate.
Qed.
(** ** helpers.ts: splitIntoSentences *)

Lemma backtrack_none (A : Type) (p : ascii -> bool) (k : cont A) (s : str)
  (c : captures) :
  k [] c = None ->
  (forall y t, p y = true -> k (y :: t) c = None) ->
  dropWhile p s = [] -> backtrack p k s c = None.
Proof.
  intros H0 H1. induction s as [|x s IH]; intros Hd; [exact H0|].
  cbn [dropWhile] in Hd. cbn [backtrack].
  destruct (p x) eqn:Ex; [|discriminate].
  rewrite (IH Hd). now apply H1.
Qed.

Lemma notTerm_isTerm (c : ascii) : notTerm c = negb (isTerm c).
Proof. reflexivity. Qed.

Lemma sentence_at (x : ascii) (t : str) :
  matchAt sentencePattern (x :: t)
  = if notTerm x
    then match dropWhile notTerm t with
         | [] => None
         | _ :: u =>
             Some (mkMatch
                     (firstn (length (x :: t) - length (dropWhile isTerm u))
                        (x :: t))
                     [] (dropWhile isTerm u))
         end
    else None.
Proof.
  unfold matchAt, sentencePattern.
  rewrite matchR_Seq, matchR_Plus_chr.
  destruct (notTerm x); [|reflexivity].
  destruct (dropWhile notTerm t) as [|y u] eqn:Ed.
  - apply backtrack_none; [reflexivity | | exact Ed].
    intros z v Hz. rewrite matchR_Plus_chr.
    unfold notTerm in Hz. apply negb_true_iff in Hz. now rewrite Hz.
  - apply backtrack_greedy. rewrite Ed, matchR_Plus_chr.
    assert (Hy : isTerm y = true).
    { destruct (isTerm y) eqn:Ey; [reflexivity|].
      exfalso. clear - Ed Ey.
      induction t as [|z t IH]; [discriminate|].
      cbn [dropWhile] in Ed. destruct (notTerm z) eqn:Ez; [now apply IH|].
      injection Ed as -> ->. unfold notTerm in Ez. now rewrite Ey in Ez. }
    rewrite Hy. now apply backtrack_greedy.
Qed.

Lemma sentence_nil : matchAt sentencePattern [] = None.
Proof. reflexivity. Qed.

Lemma dropWhile_all (p : ascii -> bool) (s : str) :
  Forall (fun c => p c = true) s -> dropWhile p s = [].
Proof.
  induction 1 as [|y s Hy _ IH]; [reflexivity|].
  cbn [dropWhile]. now rewrite Hy.
Qed.

Lemma dropWhile_app_all (p : ascii -> bool) (s tail : str) :
  Forall (fun c => p c = true) tail ->
  dropWhile p s = [] -> dropWhile p (s ++ tail) = [].
Proof.
  intros Ht. induction s as [|x s IH]; cbn [app dropWhile].
  - intros _. induction Ht as [|y tail Hy _ IHt]; [reflexivity|].
    cbn [dropWhile]. now rewrite Hy.
  - destruct (p x); [exact IH | discriminate].
Qed.

Lemma dropWhile_app_keep (p : ascii -> bool) (s tail : str) (y : ascii)
  (u : str) :
  dropWhile p s = y :: u -> dropWhile p (s ++ tail) = y :: u ++ tail.
Proof.
  induction s as [|x s IH]; cbn [app dropWhile]; [discriminate|].
  destruct (p x); [exact IH|]. now intros [= -> ->].
Qed.

Lemma dropWhile_app_stop_tail (p : ascii -> bool) (u tail : str) :
  match tail with
  | [] => True
  | z :: _ => p z = false
  end ->
  dropWhile p (u ++ tail) = dropWhile p u ++ tail.
Proof.
  intros Ht. induction u as [|x u IH]; cbn [app dropWhile].
  - destruct tail as [|z tail]; [reflexivity|].
    cbn [dropWhile]. now rewrite Ht.
  - destruct (p x); [exact IH | reflexivity].
Qed.

Lemma notTerm_tail_head (tail : str) :
  Forall (fun c => notTerm c = true) tail ->
  match tail with
  | [] => True
  | z :: _ => isTerm z = false
  end.
Proof.
  intros H. destruct H as [|z tail Hz _]; [exact I|].
  unfold notTerm in Hz. now apply negb_true_iff in Hz.
Qed.

Lemma firstn_app_le (n : nat) (a b : str) :
  n <= length a -> firstn n (a ++ b) = firstn n a.
Proof.
  intros H. rewrite firstn_app.
  replace (n - length a) with 0 by lia. cbn [firstn]. apply app_nil_r.
Qed.

Lemma sentence_at_tail (s tail : str) :
  Forall (fun c => notTerm c = true) tail ->
  matchAt sentencePattern (s ++ tail)
  = match matchAt sentencePattern s with
    | Some m => Some (mkMatch (matched m) [] (rest m ++ tail))
    | None => None
    end.
Proof.
  intros Ht. destruct s as [|x t].
  - cbn [app]. rewrite sentence_nil.
    destruct tail as [|z tail]; [reflexivity|].
    rewrite sentence_at. inversion Ht as [|? ? Hz Ht']; subst.
    rewrite Hz. now rewrite (dropWhile_all notTerm tail Ht').
  - cbn [app]. rewrite !sentence_at.
    destruct (notTerm x); [|reflexivity].
    destruct (dropWhile notTerm t) as [|y u] eqn:Ed.
    + now rewrite (dropWhile_app_all _ _ _ Ht Ed).
    + rewrite (dropWhile_app_keep _ _ tail _ _ Ed).
      rewrite (dropWhile_app_stop_tail isTerm u tail
                 (notTerm_tail_head _ Ht)).
      cbn [matched rest]. f_equal. f_equal.
      pose proof (dropWhile_length isTerm u) as L1.
      assert (L2 : length u < length t).
      { destruct (dropWhile_suffix notTerm t) as [a Ha].
        rewrite Ed in Ha. rewrite Ha, length_app. cbn [length]. lia. }
      change (x :: t ++ tail) with ((x :: t) ++ tail).
      rewrite !length_app.
      replace (length (x :: t) + length tail
               - (length (dropWhile isTerm u) + length tail))
        with (length (x :: t) - length (dropWhile isTerm u)) by lia.
      apply firstn_app_le. cbn [length]. lia.
Qed.

Lemma search_sentence_tail (s tail : str) :
  Forall (fun c => notTerm c = true) tail ->
  search sentencePattern (s ++ tail)
  = match search sentencePattern s with
    | Some m => Some (mkMatch (matched m) [] (rest m ++ tail))
    | None => None
    end.
Proof.
  intros Ht. induction s as [|x s IH].
  - cbn [app]. cbn [search]. rewrite sentence_nil.
    induction Ht as [|z tail Hz Ht' IHt]; [reflexivity|].
    cbn [search]. rewrite sentence_at, Hz.
    rewrite (dropWhile_all notTerm tail Ht'). exact IHt.
  - cbn [search app].
    change (x :: s ++ tail) with ((x :: s) ++ tail).
    rewrite (sentence_at_tail (x :: s) tail Ht).
    destruct (matchAt sentencePattern (x :: s)); [reflexivity | exact IH].
Qed.

Lemma search_sentence_caps (s : str) (m : Match) :
  search sentencePattern s = Some m ->
  caps m = [] /\ matched m <> [] /\ length (rest m) < length s.
Proof.
  intros H. split; [|split].
  - induction s as [|x s IH]; cbn [search] in H.
    + rewrite sentence_nil in H. discriminate.
    + rewrite sentence_at in H. destruct (notTerm x).
      * destruct (dropWhile notTerm s) as [|y u];
          [now apply IH | now injection H as <-].
      * now apply IH.
  - induction s as [|x s IH]; cbn [search] in H.
    + rewrite sentence_nil in H. discriminate.
    + destruct (matchAt sentencePattern (x :: s)) eqn:E; [|now apply IH].
      injection H as <-.
      now apply (matchAt_matched_nonempty sentencePattern (x :: s)).
  - now apply (search_rest_shorter sentencePattern).
Qed.

Lemma matchAll_sentence_tail (tail : str) :
  Forall (fun c => notTerm c = true) tail ->
  forall n s, length s < n ->
    matchAllLoop sentencePattern (n + length tail) (s ++ tail)
    = matchAllLoop sentencePattern n s.
Proof.
  intros Ht. induction n as [|n IH]; intros s Hn; [lia|].
  cbn [Nat.add matchAllLoop]. rewrite (search_sentence_tail s tail Ht).
  destruct (search sentencePattern s) as [m|] eqn:E; [|reflexivity].
  destruct (search_sentence_caps _ _ E) as (_ & Hne & Hlt).
  cbn [matched rest].
  replace (length (matched m) =? 0) with false
    by (symmetry; apply Nat.eqb_neq; destruct (matched m);
        [congruence | discriminate]).
  f_equal. apply IH. lia.
Qed.

Lemma matchAllLoop_fuel (r : regex) :
  forall n n' s, length s < n -> length s < n' ->
    matchAllLoop r n s = matchAllLoop r n' s.
Proof.
  induction n as [|n IH]; intros n' s H1 H2; [lia|].
  destruct n' as [|n']; [lia|]. cbn [matchAllLoop].
  destruct (search r s) as [m|] eqn:E; [|reflexivity].
  destruct (search_sound _ _ _ E) as (pre & Hs & _).
  assert (Hlen : length s = length pre + (length (matched m)
                                          + length (rest m)))
    by (rewrite Hs at 1; now rewrite !length_app).
  f_equal. destruct (length (matched m) =? 0) eqn:E0.
  - destruct (rest m) as [|y u] eqn:Er; [reflexivity|].
    cbn [length] in Hlen. apply IH; lia.
  - apply Nat.eqb_neq in E0. apply IH; lia.
Qed.

Lemma run_to_end (t : str) (x : ascii) :
  hasSentenceEnd (x :: t) = false -> notTerm x = true ->
  dropWhile notTerm t = [].
Proof.
  revert x. induction t as [|y t IH]; intros x H Hx; [reflexivity|].
  change (hasSentenceEnd (x :: y :: t))
    with ((notTerm x && isTerm y) || hasSentenceEnd (y :: t)) in H.
  apply orb_false_iff in H. destruct H as [H1 H2].
  rewrite Hx in H1. cbn [andb] in H1.
  cbn [dropWhile]. rewrite notTerm_isTerm, H1. cbn [negb].
  apply (IH y H2). now rewrite notTerm_isTerm, H1.
Qed.

Lemma hasSentenceEnd_tail (x : ascii) (t : str) :
  hasSentenceEnd (x :: t) = false -> hasSentenceEnd t = false.
Proof.
  destruct t as [|y t]; [reflexivity|].
  change (hasSentenceEnd (x :: y :: t))
    with ((notTerm x && isTerm y) || hasSentenceEnd (y :: t)).
  intros H. now apply orb_false_iff in H.
Qed.

Lemma hasSentenceEnd_search (s : str) :
  hasSentenceEnd s = false <-> search sentencePattern s = None.
Proof.
  split.
  - induction s as [|x s IH]; intros H; [reflexivity|].
    cbn [search]. rewrite sentence_at.
    rewrite (IH (hasSentenceEnd_tail _ _ H)).
    destruct (notTerm x) eqn:Ex; [|reflexivity].
    now rewrite (run_to_end s x H Ex).
  - induction s as [|x s IH]; intros H; [reflexivity|].
    apply search_none_cons in H. destruct H as [H1 H2].
    specialize (IH H2). destruct s as [|y s]; [reflexivity|].
    change (hasSentenceEnd (x :: y :: s))
      with ((notTerm x && isTerm y) || hasSentenceEnd (y :: s)).
    rewrite IH, Bool.orb_false_r.
    rewrite sentence_at in H1.
    destruct (notTerm x); [|reflexivity].
    destruct (isTerm y) eqn:Ey; [|reflexivity].
    cbn [dropWhile] in H1. rewrite notTerm_isTerm, Ey in H1. discriminate.
Qed.
Lemma matchAllLoop_Lang (r : regex) (n : nat) (s : str) :
  Forall (Lang r) (matchAllLoop r n s).
Proof.
  revert s. induction n as [|n IH]; intros s; [constructor|].
  cbn [matchAllLoop]. destruct (search r s) as [m|] eqn:E; [|constructor].
  destruct (search_sound _ _ _ E) as (pre & _ & HL).
  constructor; [exact HL|].
  destruct (length (matched m) =? 0); [|apply IH].
  destruct (rest m); [constructor | apply IH].
Qed.

Lemma isTerm_not_space (y : ascii) : isTerm y = true -> isSpace y = false.
Proof.
  unfold isTerm. intros H.
  apply orb_true_iff in H. destruct H as [H | H].
  - apply orb_true_iff in H.
    destruct H as [H | H]; apply Ascii.eqb_eq in H; now subst.
  - apply Ascii.eqb_eq in H. now subst.
Qed.

Lemma trim_keeps_last (s : str) (y : ascii) :
  isSpace y = false -> trim (s ++ [y]) = trimStart s ++ [y].
Proof.
  intros Hy. unfold trim, trimStart, trimEnd.
  rewrite (dropWhile_app_stop isSpace s y [] Hy).
  rewrite rev_app_distr. cbn [rev app dropWhile]. rewrite Hy.
  cbn [rev]. now rewrite rev_involutive.
Qed.

Lemma sentence_ends (w : str) :
  Lang sentencePattern w ->
  exists t y, trim w = t ++ [y] /\ isTerm y = true.
Proof.
  unfold sentencePattern. intros H.
  apply Lang_seq in H. destruct H as (a & b & -> & _ & Hb).
  apply Lang_plus_chr in Hb.
  destruct (runOf_last _ _ Hb) as (b' & y & -> & Hy).
  rewrite app_assoc, (trim_keeps_last _ y (isTerm_not_space _ Hy)).
  eauto.
Qed.

(** X9.  The sentences that [splitIntoSentences] returns are not empty and
    are trimmed.  When no character of the text other than [.], [!] and
    [?] is followed by one of these, the whole text is the one sentence
    (none when it is blank).  Otherwise every sentence ends with [.], [!]
    or [?], and what follows the last of them in the text is dropped:
    adding characters other than [.], [!] and [?] at the end of the text
    changes nothing. *)
Theorem splitIntoSentences_shape (text : str) :
  Forall (fun s => s <> [] /\ trim s = s) (splitIntoSentences text)
  /\ (hasSentenceEnd text = false ->
      splitIntoSentences text = filter nonEmpty [trim text])
  /\ (hasSentenceEnd text = true ->
      Forall (fun s => exists t y, s = t ++ [y] /\ isTerm y = true)
             (splitIntoSentences text)
      /\ forall tail,
           Forall (fun c => notTerm c = true) tail ->
           splitIntoSentences (text ++ tail) = splitIntoSentences text).
Proof.
  split; [apply filter_trim_clean|]. split.
  - intros H. apply hasSentenceEnd_search in H.
    unfold splitIntoSentences, jsMatchAll. cbn [matchAllLoop].
    now rewrite H.
  - intros H.
    assert (Hs : search sentencePattern text <> None).
    { intros E. apply hasSentenceEnd_search in E. congruence. }
    assert (Hl : matchAllLoop sentencePattern (S (length text)) text <> []).
    { cbn [matchAllLoop]. destruct (search sentencePattern text);
        [discriminate | congruence]. }
    split.
    + unfold splitIntoSentences, jsMatchAll.
      pose proof (matchAllLoop_Lang sentencePattern (S (length text)) text)
        as HL.
      destruct (matchAllLoop sentencePattern (S (length text)) text)
        as [|w ws]; [congruence|].
      apply Forall_forall. intros s Hin.
      apply filter_In in Hin. destruct Hin as [Hin _].
      apply in_map_iff in Hin. destruct Hin as (w0 & <- & Hw0).
      rewrite Forall_forall in HL. apply sentence_ends. now apply HL.
    + intros tail Ht. unfold splitIntoSentences, jsMatchAll.
      rewrite length_app.
      change (S (length text + length tail))
        with (S (length text) + length tail).
      rewrite (matchAll_sentence_tail tail Ht) by lia.
      destruct (matchAllLoop sentencePattern (S (length text)) text);
        [congruence | reflexivity].
Qed.

Lemma splitIntoSentences_shape_witness :
  hasSentenceEnd (lit "Done. Next") = true
  /\ Forall (fun c => notTerm c = true) (lit " steps")
  /\ splitIntoSentences (lit "Done. Next" ++ lit " steps")
     = splitIntoSentences (lit "Done. Next").
Proof.
  split; [reflexivity|]. split; [repeat constructor|].
  apply (splitIntoSentences_shape (lit "Done. Next"));
    [reflexivity | repeat constructor].
Defined.

(** ** The analyzer *)

Section AnalyzerUnits.
Context {F : Type} {ops : NumOps F} {C : Type} {cls : @IClassifier F C}.
Variable freshId : nat -> str.

Lemma analyzeLoop_units (a : @ContentAnalyzer F C) (pg : option nat)
  (paragraphs : list str) :
  forall i g units,
    analyzeLoop freshId a pg paragraphs i g = Ok units ->
    length units <= length paragraphs
    /\ map id units = map freshId (seq g (length units))
    /\ Forall (fun u =>
         In (content u) paragraphs
         /\ 10 <= length (content u)
         /\ (exists top others,
               classify (classifier a) (content u) (analyzerLabels a)
               = Ok (top :: others)
               /\ type u = label top
               /\ confidence u
                  = calculateConfidence (content u) (score top))
         /\ nle (analyzerThreshold a) (confidence u) = true
         /\ tableData u = None) units.
Proof.
  induction paragraphs as [|p ps IH]; intros i g units Hu.
  - injection Hu as <-. repeat split; [simpl; lia | constructor].
  - assert (Hskip : forall units,
      analyzeLoop freshId a pg ps (S i) g = Ok units ->
      length units <= length (p :: ps)
      /\ map id units = map freshId (seq g (length units))
      /\ Forall (fun u =>
           In (content u) (p :: ps)
           /\ 10 <= length (content u)
           /\ (exists top others,
                 classify (classifier a) (content u) (analyzerLabels a)
                 = Ok (top :: others)
                 /\ type u = label top
                 /\ confidence u
                    = calculateConfidence (content u) (score top))
           /\ nle (analyzerThreshold a) (confidence u) = true
           /\ tableData u = None) units).
    { intros us Hus. destruct (IH _ _ _ Hus) as (Hl & Hid & Hall).
      split; [simpl; lia|]. split; [exact Hid|].
      eapply Forall_impl; [|exact Hall].
      intros u (Hin & Hrest). split; [now right | exact Hrest]. }
    cbn [analyzeLoop] in Hu.
    destruct (length p <? 10) eqn:E10; [now apply Hskip|].
    apply Nat.ltb_ge in E10.
    destruct (classify (classifier a) p (analyzerLabels a)) as [cs|e] eqn:Ec;
      [|discriminate].
    cbn [bind] in Hu. destruct cs as [|top cs]; [now apply Hskip|].
    cbv zeta in Hu.
    destruct (nle (analyzerThreshold a)
                (calculateConfidence p (score top))) eqn:Et;
      [|now apply Hskip].
    destruct (analyzeLoop freshId a pg ps (S i) (S g)) as [more|e] eqn:Em;
      [|discriminate].
    cbn [bind] in Hu. injection Hu as <-.
    destruct (IH _ _ _ Em) as (Hl & Hid & Hall).
    split; [simpl; lia|]. split.
    + cbn [length seq map id]. now rewrite Hid.
    + constructor.
      * cbn [content type confidence tableData].
        split; [now left|]. split; [exact E10|].
        split; [exists top, cs; now rewrite Ec|]. now split.
      * eapply Forall_impl; [|exact Hall].
        intros u (Hin & Hrest). split; [now right | exact Hrest].
Qed.

(** X10.  Every unit that [analyzeText] returns comes from a paragraph of
    at least 10 characters: its type and its confidence are the label and
    the adjusted score of the first classification of that paragraph, its
    confidence is not below the threshold of the analyzer, and it carries
    no table.  There are no more units than paragraphs, and their
    identifiers are drawn one after the other. *)
Theorem analyzeText_units (a : @ContentAnalyzer F C) (text : str)
  (pg : option nat) (g : nat) (units : list ExtractedContent) :
  analyzeText freshId a text pg g = Ok units ->
  length units <= length (splitIntoParagraphs (normalizeText text))
  /\ map id units = map freshId (seq g (length units))
  /\ Forall (fun u =>
       In (content u) (splitIntoParagraphs (normalizeText text))
       /\ 10 <= length (content u)
       /\ (exists top others,
             classify (classifier a) (content u) (analyzerLabels a)
             = Ok (top :: others)
             /\ type u = label top
             /\ confidence u = calculateConfidence (content u) (score top))
       /\ nle (analyzerThreshold a) (confidence u) = true
       /\ tableData u = None) units.
Proof. unfold analyzeText. apply analyzeLoop_units. Qed.

End AnalyzerUnits.

Lemma analyzeText_units_witness :
  let a := newAnalyzer (@evenClassifier PrimFloat.float B64Ops) None None in
  let text := lit "Payment is due within 30 days." in
  exists units,
    analyzeText natToString a text None 0 = Ok units
    /\ length units <= length (splitIntoParagraphs (normalizeText text))
    /\ map id units = map natToString (seq 0 (length units))
    /\ Forall (fun u =>
         In (content u) (splitIntoParagraphs (normalizeText text))
         /\ 10 <= length (content u)
         /\ (exists top others,
               classify (classifier a) (content u) (analyzerLabels a)
               = Ok (top :: others)
               /\ type u = label top
               /\ confidence u
                  = calculateConfidence (content u) (score top))
         /\ nle (analyzerThreshold a) (confidence u) = true
         /\ tableData u = None) units.
Proof.
  eexists. split; [vm_compute; reflexivity|].
  apply (@analyzeText_units PrimFloat.float B64Ops
           (@ZeroShotClassifier PrimFloat.float) ZeroShot_IClassifier
           natToString
           (newAnalyzer (@evenClassifier PrimFloat.float B64Ops) None None)
           (lit "Payment is due within 30 days.") None 0).
  vm_compute. reflexivity.
Defined.

Section ThresholdFacts.
Context {C : Type} {cls : @IClassifier PrimFloat.float C}.
Variable freshId : nat -> str.

Lemma nan_not_below (t x : PrimFloat.float) :
  PrimFloat.is_nan t = true ->
  PrimFloat.ltb t x = false /\ PrimFloat.ltb x t = false
  /\ PrimFloat.leb t x = false.
Proof.
  intros Hn. repeat split.
  - destruct (PrimFloat.ltb t x) eqn:E; [|reflexivity].
    apply Rounding64.ltb_leb, Rounding64.leb_not_nan in E.
    destruct E; congruence.
  - destruct (PrimFloat.ltb x t) eqn:E; [|reflexivity].
    apply Rounding64.ltb_leb, Rounding64.leb_not_nan in E.
    destruct E; congruence.
  - destruct (PrimFloat.leb t x) eqn:E; [|reflexivity].
    apply Rounding64.leb_not_nan in E. destruct E; congruence.
Qed.

(** X11.  [setConfidenceThreshold] accepts every threshold that the
    configuration schema accepts, and one more, [NaN], which the schema
    rejects.  With [NaN] as its threshold the analyzer keeps no unit:
    [analyzeText] returns the empty list whenever it returns. *)
Theorem threshold_setter_and_schema (a : @ContentAnalyzer PrimFloat.float C)
  (t : PrimFloat.float) :
  ((exists a', setConfidenceThreshold a t = Ok a')
   <-> PrimFloat.is_nan t = true \/ checkThreshold t = Ok t)
  /\ (forall a', setConfidenceThreshold a t = Ok a' ->
        a' = mkAnalyzer (classifier a) t (analyzerLabels a))
  /\ (PrimFloat.is_nan t = true ->
      checkThreshold t = Throw (lit "Expected number, received nan")
      /\ forall text pg g units,
           analyzeText freshId
             (mkAnalyzer (classifier a) t (analyzerLabels a)) text pg g
           = Ok units ->
           units = []).
Proof.
  unfold setConfidenceThreshold, checkThreshold.
  change (@nisNaN _ B64Ops t) with (PrimFloat.is_nan t).
  split; [|split].
  - split.
    + intros [a' Ha].
      destruct (PrimFloat.is_nan t); [now left | right].
      destruct (nlt t num0); [discriminate|].
      destruct (nlt num1 t); [discriminate | reflexivity].
    + intros [Hn | Hc].
      * assert (H0 : @nlt _ B64Ops t num0 = false)
          by exact (proj1 (nan_not_below t _ Hn)).
        assert (H1 : @nlt _ B64Ops num1 t = false)
          by exact (proj1 (proj2 (nan_not_below t _ Hn))).
        rewrite H0, H1. cbn [orb]. eauto.
      * destruct (PrimFloat.is_nan t); [discriminate|].
        destruct (nlt t num0); [discriminate|].
        destruct (nlt num1 t); [discriminate|].
        cbn [orb]. eauto.
  - intros a' Ha.
    destruct (nlt t num0 || nlt num1 t); [discriminate|].
    now injection Ha as <-.
  - intros Hn. rewrite Hn. split; [reflexivity|].
    intros text pg g units Hu.
    apply (analyzeLoop_units freshId) in Hu.
    destruct Hu as (_ & _ & Hall).
    destruct units as [|u us]; [reflexivity|].
    inversion Hall as [|? ? (_ & _ & _ & Hle & _) _]; subst.
    cbn [analyzerThreshold] in Hle.
    assert (E : @nle _ B64Ops t (confidence u) = false)
      by exact (proj2 (proj2 (nan_not_below t _ Hn))).
    congruence.
Qed.

End ThresholdFacts.

Section UpdateFacts.
Context {F : Type} {ops : NumOps F}.
Variable loadPipeline : str -> outcome (@Scorer F).



End UpdateFacts.


Section BatchFacts.
Context {F : Type} {ops : NumOps F}.

Lemma zsClassify_result (z : @ZeroShotClassifier F) (scorer : @Scorer F)
  (text : str) (labels : list str) :
  pipeline z = Ok scorer ->
  exists result,
    zsClassify z text labels = Ok result
    /\ (trim text = [] -> result = zeroScores labels).
Proof.
  intros Hp. unfold zsClassify. rewrite Hp.
  destruct (length (trim text) =? 0) eqn:E.
  - eexists. split; [reflexivity | reflexivity].
  - apply Nat.eqb_neq in E.
    destruct (scorer text labels) as [r|e]; eexists;
      (split; [reflexivity|]); intros Ht; rewrite Ht in E; now elim E.
Qed.

(** X13.  Once the model is loaded [classifyBatch] never throws: it
    returns one result for each text, in order, the one [classify] gives
    for that text, and a blank text gets the score 0 for every label.
    When the model cannot be loaded, a batch with a text throws, and the
    empty batch still returns the empty list. *)
Theorem classifyBatch_results (z : @ZeroShotClassifier F)
  (texts : list str) (labels : list str) :
  (forall scorer, pipeline z = Ok scorer ->
     exists results,
       classifyBatch z texts labels = Ok results
       /\ Forall2 (fun text result =>
                     classify z text labels = Ok result
                     /\ (trim text = [] -> result = zeroScores labels))
                  texts results)
  /\ (forall e, pipeline z = Throw e ->
        classifyBatch z texts labels
        = match texts with
          | [] => Ok []
          | _ :: _ => Throw (lit "Failed to initialize classifier: " ++ e)
          end).
Proof.
  split.
  - intros scorer Hp. induction texts as [|text texts IH].
    + exists []. split; [reflexivity | constructor].
    + destruct (zsClassify_result z scorer text labels Hp)
        as (result & Hr & Hblank).
      destruct IH as (results & Hrs & Hall).
      exists (result :: results). cbn [classifyBatch].
      rewrite Hr, Hrs. split; [reflexivity|].
      constructor; [now split | exact Hall].
  - intros e Hp. destruct texts as [|text texts]; [reflexivity|].
    cbn [classifyBatch]. unfold zsClassify. now rewrite Hp.
Qed.

End BatchFacts.

Lemma classifyBatch_results_witness :
  exists results,
    classifyBatch (@evenClassifier PrimFloat.float B64Ops)
      [lit "Total = price * quantity"; lit "  "] [lit "formula"]
    = Ok results
    /\ Forall2 (fun text result =>
                  classify (@evenClassifier PrimFloat.float B64Ops) text
                    [lit "formula"] = Ok result
                  /\ (trim text = [] -> result = zeroScores [lit "formula"]))
               [lit "Total = price * quantity"; lit "  "] results.
Proof.
  apply (proj1 (@classifyBatch_results PrimFloat.float B64Ops evenClassifier
                  [lit "Total = price * quantity"; lit "  "]
                  [lit "formula"]) evenScorer).
  reflexivity.
Defined.

(** ** The summary of an extraction *)

Lemma ownGet_ownSet {V} (k k' : str) (v : V) (o : list (str * V)) :
  ownGet k (ownSet k' v o) = if str_eqb k' k then Some v else ownGet k o.
Proof.
  induction o as [|[k0 v0] o IH]; cbn [ownSet ownGet].
  - destruct (str_eqb k' k); reflexivity.
  - str_cases k0 k' E0; cbn [ownGet].
    + subst k0. destruct (str_eqb k' k); reflexivity.
    + rewrite IH. str_cases k0 k E1; [|reflexivity].
      subst k0. str_cases k' k E2; [congruence | reflexivity].
Qed.

Lemma ownSet_keys {V} (k : str) (v : V) (o : list (str * V)) :
  map fst (ownSet k v o)
  = match ownGet k o with
    | Some _ => map fst o
    | None => map fst o ++ [k]
    end.
Proof.
  induction o as [|[k0 v0] o IH]; cbn [ownSet ownGet map fst app];
    [reflexivity|].
  str_cases k0 k E; cbn [map fst].
  - now subst.
  - rewrite IH. now destruct (ownGet k o).
Qed.

Lemma ownGet_None {V} (k : str) (o : list (str * V)) :
  ownGet k o = None <-> ~ In k (map fst o).
Proof.
  induction o as [|[k0 v0] o IH]; cbn [ownGet map fst In]; [tauto|].
  str_cases k0 k E.
  - split; [discriminate | tauto].
  - rewrite IH. tauto.
Qed.

Lemma ownSet_NoDup {V} (k : str) (v : V) (o : list (str * V)) :
  NoDup (map fst o) -> NoDup (map fst (ownSet k v o)).
Proof.
  intros H. rewrite ownSet_keys. destruct (ownGet k o) eqn:E; [exact H|].
  apply ownGet_None in E.
  apply NoDup_app; [exact H | repeat constructor; intros [] |].
  intros x Hx [<- | []]. contradiction.
Qed.

Lemma ownSet_ownSet {V} (k : str) (v v' : V) (o : list (str * V)) :
  ownSet k v (ownSet k v' o) = ownSet k v o.
Proof.
  induction o as [|[k0 v0] o IH]; cbn [ownSet].
  - now rewrite str_eqb_refl.
  - destruct (str_eqb k0 k) eqn:E; cbn [ownSet].
    + now rewrite str_eqb_refl.
    + now rewrite E, IH.
Qed.

Lemma totalCount_ownSet (k : str) (c : Count) (o : list (str * Count)) :
  totalCount (ownSet k c o)
  + match ownGet k o with Some c0 => countValue c0 | None => 0 end
  = totalCount o + countValue c.
Proof.
  unfold totalCount.
  induction o as [|[k0 v0] o IH]; cbn [ownSet ownGet map snd list_sum];
    [simpl; lia|].
  destruct (str_eqb k0 k); simpl in *; lia.
Qed.

Lemma countStep_plain (byType : list (str * Count)) (k : str) :
  ~ In k inheritedNames ->
  Forall (fun kv => exists n, snd kv = Num (S n)) byType ->
  countStep byType k
  = ownSet k (Num (S (match ownGet k byType with
                      | Some c => countValue c
                      | None => 0
                      end))) byType.
Proof.
  intros Hk Hpos.
  assert (Hp : str_eqb k (lit "__proto__") = false).
  { apply str_eqb_neq. intros ->. apply Hk. cbn. tauto. }
  assert (Hi : arrIncludes inheritedNames k = false).
  { destruct (arrIncludes inheritedNames k) eqn:E; [|reflexivity].
    apply arrIncludes_In in E. contradiction. }
  unfold countStep, readCount, writeCount. rewrite Hp, Hi.
  destruct (ownGet k byType) as [c|] eqn:Eg.
  - assert (Hc : exists n, c = Num (S n)).
    { clear - Eg Hpos. induction Hpos as [|[k0 v0] o [n Hn] _ IH];
        cbn [ownGet] in Eg; [discriminate|].
      destruct (str_eqb k0 k); [|now apply IH].
      injection Eg as <-. now exists n. }
    destruct Hc as [n ->]. cbn [falsy]. rewrite Eg. reflexivity.
  - cbn [falsy]. rewrite ownGet_ownSet, str_eqb_refl. cbn [increment].
    apply ownSet_ownSet.
Qed.

Lemma countLoop_plain {F : Type} (contents : list (@ExtractedContent F)) :
  forall byType,
    (forall c, In c contents -> ~ In (type c) inheritedNames) ->
    NoDup (map fst byType) ->
    Forall (fun kv => exists n, snd kv = Num (S n)) byType ->
    let final :=
      fold_left (fun b c => countStep b (type c)) contents byType in
    NoDup (map fst final)
    /\ Forall (fun kv => exists n, snd kv = Num (S n)) final
    /\ totalCount final = totalCount byType + length contents
    /\ forall k,
         ownGet k final
         = match ownGet k byType with
           | Some c => Some (Num (countValue c + unitsOfType k contents))
           | None => if unitsOfType k contents =? 0 then None
                     else Some (Num (unitsOfType k contents))
           end.
Proof.
  induction contents as [|c cs IH]; intros byType Hty Hnd Hpos; cbv zeta.
  - cbn [fold_left length]. split; [exact Hnd|]. split; [exact Hpos|].
    split; [lia|]. intros k. unfold unitsOfType. cbn [filter length Nat.eqb].
    destruct (ownGet k byType) as [v|] eqn:E; [|reflexivity].
    assert (Hv : exists n, v = Num (S n)).
    { clear - E Hpos. induction Hpos as [|[k0 v0] o [n Hn] _ IH];
        cbn [ownGet] in E; [discriminate|].
      destruct (str_eqb k0 k); [|now apply IH].
      injection E as <-. now exists n. }
    destruct Hv as [n ->]. cbn [countValue]. do 2 f_equal. lia.
  - cbn [fold_left].
    assert (Hc : ~ In (type c) inheritedNames) by (apply Hty; now left).
    rewrite (countStep_plain byType (type c) Hc Hpos).
    set (v := Num (S match ownGet (type c) byType with
                     | Some c0 => countValue c0
                     | None => 0
                     end)).
    assert (Hpos' : Forall (fun kv => exists n, snd kv = Num (S n))
                      (ownSet (type c) v byType)).
    { clear - Hpos. subst v.
      set (n := match ownGet (type c) byType with
                | Some c0 => countValue c0 | None => 0 end).
      clearbody n.
      induction Hpos as [|[k0 v0] o Hx Ho IH']; cbn [ownSet].
      - constructor; [now exists n | constructor].
      - destruct (str_eqb k0 (type c)).
        + constructor; [now exists n | assumption].
        + constructor; assumption. }
    destruct (IH (ownSet (type c) v byType)
                (fun c0 H0 => Hty c0 (or_intror H0))
                (ownSet_NoDup _ _ _ Hnd) Hpos')
      as (H1 & H2 & H3 & H4).
    split; [exact H1|]. split; [exact H2|]. split.
    + rewrite H3. pose proof (totalCount_ownSet (type c) v byType) as Ht.
      subst v. cbn [countValue length] in *.
      destruct (ownGet (type c) byType); lia.
    + intros k. rewrite H4, ownGet_ownSet.
      unfold unitsOfType. cbn [filter].
      str_cases (type c) k E.
      * subst k. cbn [length]. subst v. cbn [countValue].
        destruct (ownGet (type c) byType) as [c0|].
        { do 2 f_equal. lia. }
        cbn [Nat.eqb]. reflexivity.
      * reflexivity.
Qed.

(** X14.  [calculateSummary] counts every unit in [totalItems].  When no
    type is a name that objects inherit from [Object.prototype], [byType]
    holds, for each type that occurs, the number of units of that type, and
    nothing else, so that its counts add up to [totalItems].  A unit whose
    type is such a name is not counted so: met once, [__proto__] leaves no
    entry and any other inherited name leaves [NaN]. *)
Theorem calculateSummary_counts {F : Type}
  (contents : list (@ExtractedContent F)) :
  fst (calculateSummary contents) = length contents
  /\ ((forall c, In c contents -> ~ In (type c) inheritedNames) ->
      let byType := snd (calculateSummary contents) in
      NoDup (map fst byType)
      /\ (forall k,
            ownGet k byType
            = if unitsOfType k contents =? 0 then None
              else Some (Num (unitsOfType k contents)))
      /\ totalCount byType = fst (calculateSummary contents))
  /\ (forall c,
        contents = [c] -> In (type c) inheritedNames ->
        snd (calculateSummary contents)
        = if str_eqb (type c) (lit "__proto__") then []
          else [(type c, NaN)]).
Proof.
  split; [reflexivity|]. split.
  - intros Hty. cbv zeta. unfold calculateSummary. cbn [fst snd].
    destruct (countLoop_plain contents [] Hty) as (H1 & _ & H3 & H4);
      [constructor | constructor |].
    split; [exact H1|]. split; [exact H4 | exact H3].
  - intros c -> Hin. unfold calculateSummary. cbn [snd fold_left].
    unfold countStep, readCount, writeCount. cbn [ownGet].
    apply arrIncludes_In in Hin. rewrite Hin. cbn [falsy increment].
    destruct (str_eqb (type c) (lit "__proto__")); reflexivity.
Qed.

Lemma calculateSummary_counts_witness :
  let contents :=
    [mkContent (lit "1") (lit "text") (lit "Payment is due.") 1%nat None None;
     mkContent (lit "2") (lit "table") (lit "a | b") 1%nat None None;
     mkContent (lit "3") (lit "text") (lit "Late fees apply.") 1%nat None
       None] in
  (forall c, In c contents -> ~ In (type c) inheritedNames)
  /\ NoDup (map fst (snd (calculateSummary contents)))
  /\ (forall k,
        ownGet k (snd (calculateSummary contents))
        = if unitsOfType k contents =? 0 then None
          else Some (Num (unitsOfType k contents)))
  /\ totalCount (snd (calculateSummary contents))
     = fst (calculateSummary contents).
Proof.
  cbv zeta.
  match goal with
  | |- ?H /\ _ => assert (Hty : H)
  end.
  { intros c [<- | [<- | [<- | []]]]; cbn [type]; intros Hin;
      apply arrIncludes_In in Hin; discriminate Hin. }
  split; [exact Hty|].
  exact (proj1 (proj2 (calculateSummary_counts _)) Hty).
Defined.

(** ** The column widths of a sheet *)

Lemma colStep_dense (pre w : list nat) (cell : option str) :
  Forall (fun x => 1 <= x) w ->
  colStep (map Some (pre ++ w)) (length pre, cell)
  = map Some (pre ++ mergeRow w [cell]).
Proof.
  intros Hw. unfold colStep, arrGet, arrSet. cbn [fst snd].
  rewrite length_map, length_app.
  destruct w as [|x w]; cbn [mergeRow].
  - rewrite app_nil_r.
    replace (length pre <? length pre + length (@nil nat)) with false
      by (symmetry; apply Nat.ltb_ge; cbn; lia).
    rewrite nth_overflow by (rewrite length_map; lia).
    cbn [length]. replace (length pre + 0 - (length pre + 0)) with 0 by lia.
    rewrite Nat.add_0_r, Nat.sub_diag. cbn [repeat app].
    now rewrite map_app.
  - replace (length pre <? length pre + length (x :: w)) with true
      by (symmetry; apply Nat.ltb_lt; cbn; lia).
    rewrite !map_app. cbn [map].
    rewrite app_nth2 by (rewrite length_map; lia).
    rewrite length_map, Nat.sub_diag. cbn [nth].
    inversion Hw as [|? ? Hx _]; subst.
    destruct x as [|x]; [lia|].
    rewrite firstn_app, length_map, Nat.sub_diag, firstn_O, app_nil_r.
    rewrite firstn_all2 by (rewrite length_map; lia).
    rewrite skipn_app, length_map.
    rewrite skipn_all2 by (rewrite length_map; lia).
    replace (S (length pre) - length pre) with 1 by lia.
    reflexivity.
Qed.

Lemma mergeRow_pos (w : list nat) (row : list (option str)) :
  Forall (fun x => 1 <= x) w -> Forall (fun x => 1 <= x) (mergeRow w row).
Proof.
  revert w. induction row as [|cell row IH]; intros w Hw; [exact Hw|].
  destruct w as [|x w]; cbn [mergeRow].
  - constructor; [lia | apply IH; constructor].
  - inversion Hw; subst. constructor; [lia | now apply IH].
Qed.

Lemma mergeRow_cons (w : list nat) (cell : option str)
  (row : list (option str)) :
  mergeRow w (cell :: row)
  = hd 10 (mergeRow w [cell]) :: mergeRow (tl w) row.
Proof. destruct w; reflexivity. Qed.

Lemma rowLoop_dense (row : list (option str)) :
  forall pre w,
    Forall (fun x => 1 <= x) w ->
    fold_left colStep (combine (seq (length pre) (length row)) row)
              (map Some (pre ++ w))
    = map Some (pre ++ mergeRow w row).
Proof.
  induction row as [|cell row IH]; intros pre w Hw; [reflexivity|].
  cbn [length seq combine fold_left].
  rewrite (colStep_dense pre w cell Hw).
  destruct w as [|x w].
  - cbn [mergeRow].
    replace (pre ++ [Nat.max 10 (cellWidth cell)])
      with ((pre ++ [Nat.max 10 (cellWidth cell)]) ++ [])
      by apply app_nil_r.
    replace (S (length pre))
      with (length (pre ++ [Nat.max 10 (cellWidth cell)]))
      by (rewrite length_app; cbn; lia).
    rewrite IH by constructor.
    now rewrite <- app_assoc.
  - cbn [mergeRow].
    replace (pre ++ Nat.max x (cellWidth cell) :: w)
      with ((pre ++ [Nat.max x (cellWidth cell)]) ++ w)
      by (now rewrite <- app_assoc).
    replace (S (length pre))
      with (length (pre ++ [Nat.max x (cellWidth cell)]))
      by (rewrite length_app; cbn; lia).
    inversion Hw; subst.
    rewrite IH by assumption.
    now rewrite <- app_assoc.
Qed.

Lemma mergeRow_length (w : list nat) (row : list (option str)) :
  length (mergeRow w row) = Nat.max (length w) (length row).
Proof.
  revert w. induction row as [|cell row IH]; intros w.
  - cbn [mergeRow length]. lia.
  - destruct w as [|x w]; cbn [mergeRow length]; rewrite IH; cbn [length];
      lia.
Qed.

Lemma mergeRow_nth (w : list nat) (row : list (option str)) (j : nat) :
  Forall (fun x => 10 <= x) w ->
  nth j (mergeRow w row) 10 = Nat.max (nth j w 10) (asked j row).
Proof.
  revert w j. induction row as [|cell row IH]; intros w j Hw.
  - unfold asked. cbn [mergeRow]. destruct j; cbn [nth_error]; lia.
  - destruct w as [|x w]; cbn [mergeRow].
    + destruct j as [|j]; [reflexivity|].
      cbn [nth]. rewrite IH by constructor.
      unfold asked. cbn [nth_error]. now destruct j.
    + inversion Hw; subst. destruct j as [|j]; [reflexivity|].
      cbn [nth]. now rewrite IH.
Qed.

Lemma mergeRow_ge (w : list nat) (row : list (option str)) :
  Forall (fun x => 10 <= x) w -> Forall (fun x => 10 <= x) (mergeRow w row).
Proof.
  revert w. induction row as [|cell row IH]; intros w Hw; [exact Hw|].
  destruct w as [|x w]; cbn [mergeRow].
  - constructor; [lia | apply IH; constructor].
  - inversion Hw; subst. constructor; [lia | now apply IH].
Qed.

Lemma sheetLoop_dense (data : list (list (option str))) :
  forall w,
    Forall (fun x => 10 <= x) w ->
    exists w',
      fold_left (fun colWidths row =>
                   fold_left colStep (indexed row) colWidths)
                data (map Some w)
      = map Some w'
      /\ length w' = fold_right Nat.max (length w) (map (@length _) data)
      /\ forall j, nth j w' 10 = Nat.max (nth j w 10) (colMax j data).
Proof.
  induction data as [|row data IH]; intros w Hw.
  - exists w. split; [reflexivity|]. split; [reflexivity|].
    intros j. unfold colMax. cbn. lia.
  - cbn [fold_left]. unfold indexed at 2.
    assert (Hpos : Forall (fun x => 1 <= x) w).
    { eapply Forall_impl; [|exact Hw]. cbn. intros; lia. }
    pose proof (rowLoop_dense row [] w Hpos) as Hrow.
    cbn [length app] in Hrow. rewrite Hrow.
    destruct (IH (mergeRow w row) (mergeRow_ge w row Hw))
      as (w' & E & Hlen & Hnth).
    exists w'. split; [exact E|]. split.
    + rewrite Hlen, mergeRow_length. cbn [map fold_right].
      clear. induction data as [|r data IH]; cbn [map fold_right]; lia.
    + intros j. rewrite Hnth, (mergeRow_nth w row j Hw).
      unfold colMax. cbn [map fold_right]. lia.
Qed.

Lemma colMax_bound (j : nat) (data : list (list (option str))) :
  colMax j data <= 50
  /\ (forall row cell,
        In row data -> nth_error row j = Some cell ->
        cellWidth cell <= colMax j data)
  /\ (colMax j data = 0
      \/ exists row cell,
           In row data /\ nth_error row j = Some cell
           /\ colMax j data = cellWidth cell).
Proof.
  unfold colMax. induction data as [|r data (IH1 & IH2 & IH3)].
  - cbn. split; [lia|]. split; [intros ? ? []| now left].
  - cbn [map fold_right]. split; [|split].
    + unfold asked at 1, cellWidth. destruct (nth_error r j); lia.
    + intros row cell [<- | Hin] Hc.
      * unfold asked at 1. rewrite Hc. lia.
      * specialize (IH2 row cell Hin Hc). lia.
    + destruct (Nat.max_spec (asked j r)
                  (fold_right Nat.max 0 (map (asked j) data)))
        as [[_ ->] | [_ ->]].
      * destruct IH3 as [E | (row & cell & Hin & Hc & E)];
          [now left | right].
        exists row, cell. split; [now right | now split].
      * unfold asked. destruct (nth_error r j) as [cell|] eqn:Ec;
          [right | now left].
        exists r, cell. split; [now left | now split].
Qed.

(** X15.  [autoSizeColumns] gives one width for each column of the
    longest row, without a hole.  A width is between 10 and 50; it is not
    below the length of any cell of its column plus 2, up to 50; and it is
    either 10 or exactly what one cell of the column asks for. *)
Theorem autoSizeColumns_widths (data : list (list (option str))) :
  length (autoSizeColumns data)
  = fold_right Nat.max 0 (map (@length _) data)
  /\ forall j, j < length (autoSizeColumns data) ->
       exists width,
         nth_error (autoSizeColumns data) j = Some (Some width)
         /\ 10 <= width <= 50
         /\ (forall row cell,
               In row data -> nth_error row j = Some cell ->
               Nat.min (length (cellText cell) + 2) 50 <= width)
         /\ (width = 10
             \/ exists row cell,
                  In row data /\ nth_error row j = Some cell
                  /\ width = Nat.min (length (cellText cell) + 2) 50).
Proof.
  unfold autoSizeColumns.
  destruct (sheetLoop_dense data [] ltac:(constructor))
    as (w & E & Hlen & Hnth).
  cbn [map] in E. rewrite E. rewrite length_map. split; [exact Hlen|].
  intros j Hj. exists (nth j w 10).
  split.
  - rewrite nth_error_map. now rewrite (nth_error_nth' w 10 Hj).
  - rewrite Hnth.
    replace (nth j (@nil nat) 10) with 10 by (now destruct j).
    destruct (colMax_bound j data) as (H50 & Hge & Hreach).
    split; [lia|]. split.
    + intros row cell Hin Hc. specialize (Hge row cell Hin Hc).
      unfold cellWidth in Hge. lia.
    + destruct Hreach as [E0 | (row & cell & Hin & Hc & E1)];
        [left; lia|].
      destruct (Nat.le_gt_cases (colMax j data) 10); [left; lia | right].
      exists row, cell. split; [exact Hin|]. split; [exact Hc|].
      unfold cellWidth in E1. lia.
Qed.

(** ** The sheet of structured data *)

Lemma pushUnique_NoDup_id (l existing : list str) :
  NoDup (existing ++ l) -> pushUnique existing l = existing ++ l.
Proof.
  revert existing. induction l as [|x l IH]; intros existing Hnd.
  - now rewrite app_nil_r.
  - change (pushUnique existing (x :: l))
      with (pushUnique (if arrIncludes existing x then existing
                        else existing ++ [x]) l).
    destruct (arrIncludes existing x) eqn:E.
    + apply arrIncludes_In in E. apply NoDup_remove_2 in Hnd.
      exfalso. apply Hnd. apply in_or_app. now left.
    + rewrite IH; rewrite <- app_assoc; [reflexivity | exact Hnd].
Qed.

Lemma objectKeys_plain {V} (o : list (str * V)) :
  Forall (fun k => isArrayIndex k = false) (map fst o) ->
  objectKeys o = map fst o.
Proof.
  unfold objectKeys. induction (map fst o) as [|k ks IH]; [reflexivity|].
  intros H. inversion H as [|? ? Hk Hks]; subst.
  cbn [filter]. rewrite Hk. cbn [negb].
  specialize (IH Hks).
  destruct (filter isArrayIndex ks) as [|k1 more] eqn:E.
  - cbn [fold_right app] in *. now rewrite IH.
  - exfalso. assert (In k1 (filter isArrayIndex ks)) as A
      by (rewrite E; now left).
    apply filter_In in A. destruct A as [A1 A2].
    rewrite Forall_forall in Hks. rewrite (Hks _ A1) in A2. discriminate.
Qed.

Lemma extractFromMultiple_fieldOk (texts : list str) :
  Forall fieldOk (extractFromMultiple texts).
Proof.
  unfold extractFromMultiple. induction texts as [|t texts IH];
    [constructor|].
  cbn [flat_map]. apply Forall_app. split; [|exact IH].
  apply extractLoop_fieldOk.
Qed.

(** X16.  The sheet of structured data holds one message cell when no
    field is found in the contents.  Otherwise, when no key is [__proto__]
    or an array index, its first row holds the merged keys in the order
    they are first met, and row [i] below it holds, under each key, the
    [i]-th merged value of the key, or the empty string when the key has
    fewer values; there is at least one such row, and the column widths
    are set from these rows. *)
Theorem structured_sheet {F : Type} (result : @ExtractionResult F) :
  let fs := extractFromMultiple (map (@content F) (contents result)) in
  let merged := mergeFields fs in
  let keys := mapKeys merged in
  (fs = [] ->
   addStructuredDataSheet result
   = ([[Some (lit "No structured key-value data found")]], None))
  /\ (fs <> [] ->
      ~ In (lit "__proto__") keys ->
      Forall (fun k => isArrayIndex k = false) keys ->
      let data :=
        map Some keys
        :: map (fun i =>
                  map (fun k => Some (nth i (valuesOf k merged) [])) keys)
               (seq 0 (maxLength merged)) in
      addStructuredDataSheet result = (data, Some (autoSizeColumns data))
      /\ 1 <= maxLength merged
      /\ NoDup keys
      /\ keys = pushUnique [] (map key fs)).
Proof.
  intros fs merged keys.
  pose proof (extractFromMultiple_fieldOk
                (map (@content F) (contents result))) as Hok.
  unfold addStructuredDataSheet, extractToExcelFormat.
  fold fs in Hok |- *.
  assert (Em : merged = mergeFields fs) by reflexivity.
  assert (Ek : keys = mapKeys merged) by reflexivity.
  clearbody keys. clearbody merged. clearbody fs.
  split.
  - intros ->. reflexivity.
  - intros Hfs _ Hidx.
    assert (Hkeys : keys = pushUnique [] (map key fs)).
    { rewrite Ek, Em. unfold mergeFields. now rewrite fold_mergeStep_keys. }
    assert (Hnd : NoDup keys).
    { rewrite Hkeys. apply pushUnique_NoDup. constructor. }
    assert (Hall : forall k', In k' keys -> mapGet k' merged <> None).
    { intros k' Hk' E. apply mapGet_None in E. rewrite Ek in Hk'.
      contradiction. }
    assert (Hmax : 1 <= maxLength merged).
    { destruct fs as [|f fs']; [congruence|].
      inversion Hok as [|? ? (_ & Hv & _) _]; subst.
      pose proof (fold_mergeStep_values (key f) (f :: fs') []) as G.
      cbn [mapGet] in G. unfold fieldsOf in G. cbn [filter] in G.
      rewrite str_eqb_refl in G.
      fold (mergeFields (f :: fs')) in G.
      apply mapGet_Some_In, maxLength_ge in G.
      destruct (values f) as [|v vs] eqn:Ev; [congruence|].
      assert (In v (pushUnique (v :: vs)
                      (flat_map values
                         (filter (fun f0 => str_eqb (key f0) (key f)) fs'))))
        as A by (apply pushUnique_In; left; now left).
      destruct (pushUnique (v :: vs) _); [destruct A|].
      cbn [length] in G. lia. }
    set (rowOf := fun i =>
      fold_left
        (fun (row : Row) key =>
           match mapGet key merged with
           | Some values => rowSet key (at_or_empty values i) row
           | None => row
           end) keys []).
    assert (Hflat : toFlatStructure fs
                    = map rowOf (seq 0 (maxLength merged))).
    { destruct fs as [|f fs']; [congruence|].
      cbn [toFlatStructure]. rewrite <- Em, <- Ek. reflexivity. }
    assert (Hfirst : objectKeys (rowOf 0) = keys).
    { unfold rowOf. rewrite objectKeys_plain;
        rewrite (flatRow_keys merged 0 keys [] Hall); cbn [map];
        rewrite (pushUnique_NoDup_id keys []) by exact Hnd;
        [reflexivity | exact Hidx]. }
    assert (Hrow : forall i,
      map (fun key => rowGet key (rowOf i)) keys
      = map (fun k => Some (nth i (valuesOf k merged) [])) keys).
    { intros i. apply map_ext_in. intros k Hk. unfold rowOf.
      rewrite (flatRow_get merged i keys k [] Hall).
      replace (arrIncludes keys k) with true; [reflexivity|].
      symmetry. now apply arrIncludes_In. }
    rewrite Hflat. cbv zeta.
    destruct (maxLength merged) as [|n]; [lia|].
    cbn [seq map]. rewrite Hfirst, map_map, (map_ext _ _ Hrow), (Hrow 0).
    repeat split; try assumption; lia.
Qed.

Lemma structured_sheet_witness :
  let fs := extractFromMultiple (map (@content nat) (contents scenarioResult))
  in
  let merged := mergeFields fs in
  let keys := mapKeys merged in
  let data :=
    map Some keys
    :: map (fun i => map (fun k => Some (nth i (valuesOf k merged) [])) keys)
           (seq 0 (maxLength merged)) in
  (fs <> [] /\ ~ In (lit "__proto__") keys
   /\ Forall (fun k => isArrayIndex k = false) keys)
  /\ addStructuredDataSheet scenarioResult
     = (data, Some (autoSizeColumns data))
  /\ 1 <= maxLength merged
  /\ NoDup keys
  /\ keys = pushUnique [] (map key fs).
Proof.
  cbv zeta.
  assert (H1 : extractFromMultiple
                 (map (@content nat) (contents scenarioResult)) <> [])
    by (vm_compute; discriminate).
  assert (H2 : ~ In (lit "__proto__")
                 (mapKeys (mergeFields
                    (extractFromMultiple
                       (map (@content nat) (contents scenarioResult))))))
    by (vm_compute; intros [H | [H | []]]; discriminate).
  assert (H3 : Forall (fun k => isArrayIndex k = false)
                 (mapKeys (mergeFields
                    (extractFromMultiple
                       (map (@content nat) (contents scenarioResult))))))
    by (apply Forall_forall; intros k Hk; vm_compute in Hk;
        destruct Hk as [<- | [<- | []]]; reflexivity).
  split; [now repeat split|].
  exact (proj2 (structured_sheet scenarioResult) H1 H2 H3).
Defined.

(** ** Reading back a line of the CSV text *)

Lemma plainCell_app (c rest : str) :
  ~ In ","%char c -> cellEnd rest -> plainCell (c ++ rest) = (c, rest).
Proof.
  intros Hc Hr. induction c as [|x c IH]; cbn [app].
  - destruct Hr as [-> | [r ->]]; reflexivity.
  - cbn [plainCell]. destruct (Ascii.eqb x ","%char) eqn:E.
    + apply Ascii.eqb_eq in E. subst. exfalso. apply Hc. now left.
    + rewrite IH by (intros H; apply Hc; now right). reflexivity.
Qed.

Lemma quotedCell_app (c rest : str) :
  cellEnd rest ->
  quotedCell (replaceChar DQUOTE [DQUOTE; DQUOTE] c ++ DQUOTE :: rest)
  = Some (c, rest).
Proof.
  intros Hr. induction c as [|x c IH].
  - cbn [replaceChar flat_map app quotedCell].
    rewrite Ascii.eqb_refl. destruct Hr as [-> | [r ->]]; reflexivity.
  - unfold replaceChar in *. cbn [flat_map].
    destruct (Ascii.eqb x DQUOTE) eqn:E.
    + apply Ascii.eqb_eq in E. subst x. cbn [app quotedCell].
      rewrite !Ascii.eqb_refl, IH. reflexivity.
    + cbn [app quotedCell]. rewrite E, IH. reflexivity.
Qed.

Lemma readCell_escape (c rest : str) :
  cellEnd rest -> readCell (escapeCsvCell c ++ rest) = Some (c, rest).
Proof.
  intros Hr. unfold escapeCsvCell.
  destruct (needsQuotes c) eqn:E.
  - cbn [app readCell]. rewrite Ascii.eqb_refl, <- app_assoc.
    now apply quotedCell_app.
  - assert (Hn : ~ mustQuote c).
    { intros H. apply needsQuotes_spec in H. congruence. }
    unfold mustQuote in Hn.
    destruct c as [|x c].
    + cbn [app]. destruct Hr as [-> | [r ->]]; reflexivity.
    + cbn [app readCell].
      destruct (Ascii.eqb x DQUOTE) eqn:Ex.
      * apply Ascii.eqb_eq in Ex. subst x. exfalso. apply Hn.
        right. left. now left.
      * change (x :: c ++ rest) with ((x :: c) ++ rest).
        rewrite plainCell_app; [reflexivity | tauto | exact Hr].
Qed.

Lemma escapeCsvRow_cons (c : str) (row : list str) :
  exists rest,
    escapeCsvRow (c :: row) = escapeCsvCell c ++ rest
    /\ cellEnd rest
    /\ (row = [] -> rest = [])
    /\ (row <> [] -> rest = ","%char :: escapeCsvRow row).
Proof.
  unfold escapeCsvRow. cbn [map join].
  destruct row as [|c' row].
  - exists []. cbn [map]. rewrite app_nil_r.
    split; [reflexivity|]. split; [now left|]. split; congruence.
  - exists (","%char :: escapeCsvRow (c' :: row)).
    split; [reflexivity|]. split; [right; eauto|].
    split; [discriminate | reflexivity].
Qed.

Lemma escapeCsvRow_inj (row1 : list str) :
  forall row2,
    row1 <> [] -> row2 <> [] ->
    escapeCsvRow row1 = escapeCsvRow row2 -> row1 = row2.
Proof.
  induction row1 as [|c1 r1 IH]; intros row2 H1 H2 E; [congruence|].
  destruct row2 as [|c2 r2]; [congruence|].
  destruct (escapeCsvRow_cons c1 r1) as (t1 & E1 & T1 & N1 & C1).
  destruct (escapeCsvRow_cons c2 r2) as (t2 & E2 & T2 & N2 & C2).
  rewrite E1, E2 in E.
  pose proof (readCell_escape c1 t1 T1) as R1.
  pose proof (readCell_escape c2 t2 T2) as R2.
  rewrite E in R1. rewrite R2 in R1. injection R1 as <- <-.
  f_equal.
  destruct r1 as [|c1' r1], r2 as [|c2' r2]; [reflexivity | | |].
  - rewrite N1 in C2 by reflexivity.
    specialize (C2 ltac:(discriminate)). discriminate.
  - rewrite N2 in C1 by reflexivity.
    specialize (C1 ltac:(discriminate)). discriminate.
  - apply IH; [discriminate.. |].
    specialize (C1 ltac:(discriminate)).
    specialize (C2 ltac:(discriminate)). congruence.
Qed.

(** X17.  Two different rows of cells never give the same line: the
    quoting of [escapeCsvRow] loses nothing of a row that has at least one
    cell, whatever commas, double quotes and line feeds its cells hold.
    The row without a cell and the row of one empty cell both give the
    empty line. *)
Theorem escapeCsvRow_distinct (row1 row2 : list str) :
  row1 <> [] -> row2 <> [] -> row1 <> row2 ->
  escapeCsvRow row1 <> escapeCsvRow row2
  /\ escapeCsvRow [] = escapeCsvRow [[]].
Proof.
  intros H1 H2 Hne. split; [|reflexivity].
  intros E. apply Hne. now apply escapeCsvRow_inj.
Qed.

Lemma escapeCsvRow_distinct_witness :
  [lit "rate, fee"] <> [] /\ [lit "rate"; lit " fee"] <> []
  /\ [lit "rate, fee"] <> [lit "rate"; lit " fee"]
  /\ escapeCsvRow [lit "rate, fee"] <> escapeCsvRow [lit "rate"; lit " fee"]
  /\ escapeCsvRow [] = escapeCsvRow [[]].
Proof.
  assert (H1 : [lit "rate, fee"] <> []) by discriminate.
  assert (H2 : [lit "rate"; lit " fee"] <> []) by discriminate.
  assert (H3 : [lit "rate, fee"] <> [lit "rate"; lit " fee"])
    by discriminate.
  split; [exact H1|]. split; [exact H2|]. split; [exact H3|].
  exact (escapeCsvRow_distinct _ _ H1 H2 H3).
Defined.

(** ** The units of the tables *)

Lemma splitOnChar_free (sep : ascii) (s : str) :
  ~ In sep s -> splitOnChar sep s = [s].
Proof.
  induction s as [|x s IH]; intros H; [reflexivity|].
  cbn [splitOnChar]. destruct (Ascii.eqb x sep) eqn:E.
  - apply Ascii.eqb_eq in E. subst. exfalso. apply H. now left.
  - rewrite IH by (intros Hin; apply H; now right). reflexivity.
Qed.

Lemma splitOnChar_app (sep : ascii) (a s : str) :
  ~ In sep a -> splitOnChar sep (a ++ sep :: s) = a :: splitOnChar sep s.
Proof.
  induction a as [|x a IH]; intros H; cbn [app splitOnChar].
  - now rewrite Ascii.eqb_refl.
  - destruct (Ascii.eqb x sep) eqn:E.
    + apply Ascii.eqb_eq in E. subst. exfalso. apply H. now left.
    + rewrite IH by (intros Hin; apply H; now right). reflexivity.
Qed.

Lemma splitOnChar_join (sep : ascii) (l : list str) :
  l <> [] -> Forall (fun a => ~ In sep a) l ->
  splitOnChar sep (join [sep] l) = l.
Proof.
  intros Hne Hall. revert Hne.
  induction Hall as [|a l Ha Hall IH]; intros Hne; [now elim Hne|].
  destruct l as [|b l].
  - cbn [join]. now apply splitOnChar_free.
  - change (join [sep] (a :: b :: l))
      with (a ++ sep :: join [sep] (b :: l)).
    rewrite splitOnChar_app by exact Ha.
    rewrite IH by discriminate. reflexivity.
Qed.

Lemma splitOnChar_pieces (sep : ascii) (s : str) :
  Forall (fun a => ~ In sep a) (splitOnChar sep s).
Proof.
  induction s as [|x s IH]; cbn [splitOnChar].
  - constructor; [intros [] | constructor].
  - destruct (Ascii.eqb x sep) eqn:E.
    + constructor; [intros [] | exact IH].
    + apply Ascii.eqb_neq in E.
      destruct (splitOnChar sep s) as [|p ps].
      * constructor; [|constructor]. intros [H | []]. congruence.
      * inversion IH; subst. constructor; [|assumption].
        intros [H | H]; [congruence | contradiction].
Qed.

Lemma cellsOf_oneLine (l : str) :
  ~ In LF l -> Forall (fun cell => ~ In LF cell) (cellsOf l).
Proof.
  intros H. unfold cellsOf, splitTableRow.
  assert (HF : Forall (fun c => c <> LF) (trim l)).
  { apply trim_Forall. apply Forall_forall. intros c Hc E. subst.
    contradiction. }
  pose proof (free_trimmed_pieces _ _ (jsSplit_Forall cellBreak _ _ HF))
    as Hp.
  eapply Forall_impl; [|exact Hp].
  intros cell Hcell Hin. rewrite Forall_forall in Hcell.
  now apply (Hcell LF).
Qed.

Lemma closeBlock_oneLine (block : list (list str)) :
  Forall (Forall (fun cell => ~ In LF cell)) block ->
  oneLineCells (closeBlock block).
Proof.
  intros H. unfold closeBlock, oneLineCells, detectHeaders.
  destruct block as [|r1 block]; [split; [constructor | exact I]|].
  inversion H; subst.
  destruct (existsb cellLooksLikeHeader r1); cbn [headers rows skipn];
    [now split | split; [exact H | exact I]].
Qed.

Lemma tableLoop_oneLine (lines : list str) :
  Forall (fun l => ~ In LF l) lines ->
  forall tables cur b,
    Forall oneLineCells tables ->
    Forall (Forall (fun cell => ~ In LF cell)) cur ->
    Forall oneLineCells (tableLoop lines tables cur b).
Proof.
  induction 1 as [|l lines Hl Hlines IH]; intros tables cur b Ht Hc.
  - rewrite tableLoop_nil. destruct (b && _); [|exact Ht].
    apply Forall_app. split; [exact Ht|].
    constructor; [now apply closeBlock_oneLine | constructor].
  - rewrite tableLoop_cons. destruct (isTableRow l).
    + apply IH; [exact Ht|]. apply Forall_app. split.
      * destruct b; [exact Hc | constructor].
      * constructor; [now apply cellsOf_oneLine | constructor].
    + apply IH; [|constructor].
      destruct (b && _); [|exact Ht].
      apply Forall_app. split; [exact Ht|].
      constructor; [now apply closeBlock_oneLine | constructor].
Qed.

Lemma tableToText_lines (table : TableData) :
  tableToText table = join [LF] (tableLines table).
Proof. reflexivity. Qed.

Lemma tableLines_split (table : TableData) :
  rows table <> [] -> oneLineCells table ->
  splitOnChar LF (tableToText table) = tableLines table.
Proof.
  intros Hrows [Hr Hh]. rewrite tableToText_lines.
  assert (Hsep : Forall (fun c => c <> LF) (lit " | "))
    by (repeat constructor; discriminate).
  assert (Hline : forall r, Forall (fun cell => ~ In LF cell) r ->
                            ~ In LF (join (lit " | ") r)).
  { intros r Hcells Hin.
    assert (A : Forall (fun c => c <> LF) (join (lit " | ") r)).
    { apply join_Forall; [exact Hsep|].
      eapply Forall_impl; [|exact Hcells].
      intros cell Hc. apply Forall_forall. intros c Hin' E. subst.
      contradiction. }
    rewrite Forall_forall in A. now apply (A LF). }
  apply splitOnChar_join.
  - unfold tableLines. destruct (rows table); [congruence|].
    destruct (headers table); discriminate.
  - unfold tableLines. apply Forall_app. split.
    + destruct (headers table) as [h|]; [|constructor].
      constructor; [now apply Hline|]. constructor; [|constructor].
      intros Hin. apply repeat_spec in Hin. discriminate.
    + apply Forall_forall. intros line Hin.
      apply in_map_iff in Hin. destruct Hin as (r & <- & Hr').
      apply Hline. rewrite Forall_forall in Hr. now apply Hr.
Qed.

Section TableUnits.
Context {F : Type} {ops : NumOps F}.
Variable freshId : nat -> str.

Lemma analyzeTables_units (tables : list TableData) (pg : option nat) :
  forall g,
    map (@tableData F) (analyzeTables freshId tables pg g)
    = map Some tables
    /\ map (@content F) (analyzeTables freshId tables pg g)
       = map tableToText tables
    /\ map (@id F) (analyzeTables freshId tables pg g)
       = map freshId (seq g (length tables))
    /\ Forall (fun u => type u = lit "table" /\ confidence u = num1
                        /\ position u = Some (mkPosition pg None None))
              (analyzeTables freshId tables pg g).
Proof.
  induction tables as [|t tables IH]; intros g.
  - repeat split; constructor.
  - destruct (IH (S g)) as (H1 & H2 & H3 & H4).
    cbn [analyzeTables map length seq tableData content id].
    rewrite H1, H2, H3. repeat split. constructor; [|exact H4].
    repeat split.
Qed.

(** X18.  [analyzeTables] makes one unit for each table, in order: a unit
    of type [table] with the confidence 1 that carries its table.  For the
    tables that [extractTables] finds in a text, the content of the unit
    reads back line by line: the header cells joined by [ | ] and a rule
    of 50 dashes when the table has a header, then one line for each row
    with its cells joined by [ | ]. *)
Theorem table_units (text : str) (pg : option nat) (g : nat) :
  let tables := extractTables text in
  let units := analyzeTables freshId tables pg g in
  map (@tableData F) units = map Some tables
  /\ Forall (fun u => type u = lit "table" /\ confidence u = num1
                      /\ position u = Some (mkPosition pg None None))
            units
  /\ map (fun u => splitOnChar LF (content u)) units
     = map (fun t =>
              match headers t with
              | Some h => [join (lit " | ") h; repeat "-"%char 50]
              | None => []
              end
              ++ map (join (lit " | ")) (rows t))
           tables.
Proof.
  intros tables units.
  destruct (analyzeTables_units tables pg g) as (H1 & H2 & _ & H4).
  split; [exact H1|]. split; [exact H4|].
  unfold units.
  rewrite <- (map_map (@content F) (splitOnChar LF)), H2, map_map.
  apply map_ext_in. intros t Ht.
  assert (Hok : Forall tableOk tables).
  { unfold tables, extractTables.
    apply (tableLoop_ok (splitOnChar LF text) [] [] false);
      constructor. }
  assert (Hone : Forall oneLineCells tables).
  { unfold tables, extractTables.
    apply tableLoop_oneLine; [apply splitOnChar_pieces | constructor..]. }
  rewrite Forall_forall in Hok, Hone.
  apply tableLines_split; [apply (Hok t Ht) | apply (Hone t Ht)].
Qed.

End TableUnits.

(** ** parsers/DocxParser.ts: the paragraph count *)

Lemma squeezeRuns_single (p : ascii -> bool) (c : ascii) (inRun : bool)
  (s : str) :
  p c = true ->
  noAdjacent p (squeezeRuns p [c] inRun s)
  /\ (inRun = true ->
      match squeezeRuns p [c] inRun s with
      | [] => True
      | y :: _ => p y = false
      end).
Proof.
  intros Hc. revert inRun. induction s as [|x s IH]; intros inRun.
  - cbn. split; [exact I | intros; exact I].
  - cbn [squeezeRuns]. destruct (p x) eqn:Ex.
    + destruct (IH true) as [H1 H2]. specialize (H2 eq_refl).
      destruct inRun; cbn [app].
      * split; [exact H1 | intros _; exact H2].
      * split; [|discriminate]. cbn [noAdjacent]. split; [|exact H1].
        destruct (squeezeRuns p [c] true s); [exact I|].
        intros [_ A]. congruence.
    + destruct (IH false) as [H1 _].
      split; [|intros _; exact Ex]. cbn [noAdjacent]. split; [|exact H1].
      destruct (squeezeRuns p [c] false s); [exact I|].
      intros [A _]. congruence.
Qed.

Lemma twoFeeds_none (s : str) :
  noAdjacent (Ascii.eqb LF) s -> search (Seq (chr LF) (chr LF)) s = None.
Proof.
  apply (search_none_noAdjacent _ (Ascii.eqb LF) (fun _ => false)).
  - reflexivity.
  - intros x _. unfold matchAt, chr. rewrite matchR_Seq, matchR_Chr.
    now destruct (Ascii.eqb LF x).
  - intros x y t _ H. unfold matchAt, chr.
    rewrite matchR_Seq, matchR_Chr.
    destruct (Ascii.eqb LF x) eqn:Ex; [|reflexivity].
    rewrite matchR_Chr.
    destruct (Ascii.eqb LF y) eqn:Ey; [|reflexivity].
    exfalso. now apply H.
  - apply Forall_forall. reflexivity.
Qed.

(** X19.  The text that [extractText] returns for a DOCX document is
    trimmed and has no two line feeds in a row, so the split on two line
    feeds in [parse] never splits it: the paragraph count of a DOCX
    document is 1, or 0 when the text is empty, however many paragraphs the
    document has. *)
Theorem docx_paragraph_count (unzipped : outcome (option str)) (text : str) :
  DocxParser.extractText unzipped = Ok text ->
  trim text = text
  /\ noAdjacent (Ascii.eqb LF) text
  /\ DocxParser.paragraphCount text = (if nonEmpty text then 1 else 0).
Proof.
  unfold DocxParser.extractText.
  destruct unzipped as [[xml|]|e]; try discriminate.
  destruct xml as [|x xml]; [discriminate|].
  cbv zeta. intros E. injection E as <-.
  set (t := replaceAll DocxParser.anyTag [] _).
  assert (Hadj : noAdjacent (Ascii.eqb LF)
                   (trim (replaceAll DocxParser.lineFeeds [LF] t))).
  { apply noAdjacent_trim. unfold replaceAll, DocxParser.lineFeeds, chr.
    rewrite replaceLoop_Plus_chr by lia.
    apply squeezeRuns_single. apply Ascii.eqb_refl. }
  split; [apply trim_idem|]. split; [exact Hadj|].
  unfold DocxParser.paragraphCount.
  set (text := trim (replaceAll DocxParser.lineFeeds [LF] t)) in *.
  destruct text as [|y text'] eqn:Et; [reflexivity|].
  rewrite jsSplit_no_match; [|discriminate | now apply twoFeeds_none].
  cbn [filter]. rewrite <- Et. unfold text. rewrite trim_idem.
  fold text. rewrite Et. reflexivity.
Qed.

Lemma docx_paragraph_count_witness :
  DocxParser.extractText (Ok (Some twoParagraphs))
  = Ok (lit "Alpha" ++ [LF] ++ lit "Beta")
  /\ trim (lit "Alpha" ++ [LF] ++ lit "Beta")
     = lit "Alpha" ++ [LF] ++ lit "Beta"
  /\ noAdjacent (Ascii.eqb LF) (lit "Alpha" ++ [LF] ++ lit "Beta")
  /\ DocxParser.paragraphCount (lit "Alpha" ++ [LF] ++ lit "Beta")
     = (if nonEmpty (lit "Alpha" ++ [LF] ++ lit "Beta") then 1 else 0).
Proof.
  assert (E : DocxParser.extractText (Ok (Some twoParagraphs))
              = Ok (lit "Alpha" ++ [LF] ++ lit "Beta"))
    by (vm_compute; reflexivity).
  split; [exact E|].
  exact (docx_paragraph_count (Ok (Some twoParagraphs)) _ E).
Defined.

(** ** The command line *)

Lemma splitOnChar_length (sep : ascii) (s : str) :
  length (splitOnChar sep s) = S (length (filter (Ascii.eqb sep) s)).
Proof.
  induction s as [|x s IH]; [reflexivity|].
  cbn [splitOnChar filter]. rewrite (Ascii.eqb_sym sep x).
  destruct (Ascii.eqb x sep); cbn [length]; [now rewrite IH|].
  destruct (splitOnChar sep s); cbn [length] in *; lia.
Qed.

Section CliFacts.
Context {F : Type} {ops : NumOps F}.
Variable loadPipeline : str -> outcome (@Scorer F).

(** X20.  The labels that the command reads from its option are the
    pieces between the commas, trimmed: one more than there are commas, so
    never none, though a piece may be empty.  Once the command has
    accepted the threshold and the format, the constructor cannot reject
    the configuration: the extractor is built with exactly these labels,
    this threshold, the table switch and the model name, for its analyzer
    too. *)
Theorem cli_builds_extractor (confidenceThreshold : F)
  (format labels : str) (tables : bool) (model : str) :
  length (cliLabels labels) = S (length (filter (Ascii.eqb ","%char) labels))
  /\ Forall (fun l => trim l = l /\ ~ In ","%char l) (cliLabels labels)
  /\ (nisNaN confidenceThreshold = false ->
      nlt confidenceThreshold num0 = false ->
      nlt num1 confidenceThreshold = false ->
      In (toLowerCase format) [lit "json"; lit "csv"; lit "xlsx"] ->
      exists d,
        cliExtractor loadPipeline confidenceThreshold format labels tables
          model = Ok d
        /\ config d
           = mkConfig (cliLabels labels) confidenceThreshold tables model
        /\ inSync d
        /\ analyzerLabels (analyzer d) <> []).
Proof.
  split; [|split].
  - unfold cliLabels. now rewrite length_map, splitOnChar_length.
  - unfold cliLabels. apply Forall_forall. intros l Hl.
    apply in_map_iff in Hl. destruct Hl as (p & <- & Hp).
    split; [apply trim_idem|].
    pose proof (splitOnChar_pieces ","%char labels) as Hfree.
    rewrite Forall_forall in Hfree. specialize (Hfree p Hp).
    intros Hin. apply Hfree.
    assert (A : Forall (fun c => In c p) (trim p)).
    { apply trim_Forall. apply Forall_forall. auto. }
    rewrite Forall_forall in A. now apply A.
  - intros Hn H0 H1 Hf. unfold cliExtractor. rewrite Hn, H0, H1.
    cbn [orb].
    assert (Hfmt : negb (str_eqb (toLowerCase format) (lit "json"))
                   && negb (str_eqb (toLowerCase format) (lit "csv"))
                   && negb (str_eqb (toLowerCase format) (lit "xlsx"))
                   = false).
    { destruct Hf as [<- | [<- | [<- | []]]]; reflexivity. }
    rewrite Hfmt.
    unfold newDocumentExtractor, parseConfig, checkThreshold.
    cbn [p_classificationLabels p_confidenceThreshold
         p_enableTableExtraction p_modelName].
    rewrite Hn, H0, H1. cbn [bind].
    eexists. split; [reflexivity|]. split; [reflexivity|].
    split; [now split|].
    cbn [analyzer newAnalyzer analyzerLabels classificationLabels].
    unfold cliLabels. destruct (splitOnChar ","%char labels) eqn:E.
    + pose proof (splitOnChar_length ","%char labels) as L.
      rewrite E in L. discriminate.
    + discriminate.
Qed.

End CliFacts.

Lemma cli_builds_extractor_witness :
  exists d,
    cliExtractor (fun _ => Ok evenScorer) (@num0_5 PrimFloat.float B64Ops)
      (lit "CSV") (lit "formula, ,text") true (lit "model") = Ok d
    /\ config d
       = mkConfig (cliLabels (lit "formula, ,text")) num0_5 true (lit "model")
    /\ inSync d
    /\ analyzerLabels (analyzer d) <> [].
Proof.
  apply (proj2 (proj2 (@cli_builds_extractor PrimFloat.float B64Ops
                         (fun _ => Ok evenScorer) num0_5 (lit "CSV")
                         (lit "formula, ,text") true (lit "model"))));
    try reflexivity.
  right. left. reflexivity.
Defined.

(** ** The lines of the CSV text *)

Lemma uint_digits (u : Decimal.uint) :
  ~ In LF (list_ascii_of_string (NilEmpty.string_of_uint u)).
Proof.
  induction u; cbn [NilEmpty.string_of_uint list_ascii_of_string In];
    [tauto | | | | | | | | | |];
    (intros [E | H]; [discriminate E | contradiction]).
Qed.

Lemma optNatToString_oneLine (n : option nat) :
  ~ In LF (optNatToString n []).
Proof.
  destruct n as [k|]; cbn [optNatToString]; [|tauto].
  apply uint_digits.
Qed.

Lemma escapeCsvCell_oneLine (cell : str) :
  ~ In LF cell -> ~ In LF (escapeCsvCell cell).
Proof.
  intros H. unfold escapeCsvCell. destruct (needsQuotes cell); [|exact H].
  rewrite !in_app_iff. intros [[E | []] | [Hin | [E | []]]];
    try discriminate E.
  unfold replaceChar in Hin. apply in_flat_map in Hin.
  destruct Hin as (x & Hx & Hin).
  destruct (Ascii.eqb x DQUOTE).
  - destruct Hin as [E | [E | []]]; discriminate E.
  - destruct Hin as [E | []]. subst x. contradiction.
Qed.

Lemma escapeCsvRow_oneLine (row : list str) :
  Forall (fun cell => ~ In LF cell) row -> ~ In LF (escapeCsvRow row).
Proof.
  intros H Hin.
  assert (A : Forall (fun c => c <> LF) (escapeCsvRow row)).
  { unfold escapeCsvRow. apply join_Forall.
    - repeat constructor. discriminate.
    - apply Forall_forall. intros cell Hc.
      apply in_map_iff in Hc. destruct Hc as (c0 & <- & Hc0).
      rewrite Forall_forall in H.
      apply Forall_forall. intros c Hc E. subst c.
      now apply (escapeCsvCell_oneLine c0 (H c0 Hc0)). }
  rewrite Forall_forall in A. now apply (A LF).
Qed.

Ltac no_feed :=
  let H := fresh "Hfeed" in
  intros H; vm_compute in H;
  repeat (destruct H as [H | H]; [discriminate H|]); exact H.

Section CsvLines.
Context {F : Type}.
Variable numToString : F -> str.

(** X21.  When no identifier, no type and no printed confidence holds a
    line feed, every unit takes exactly one line of the CSV text: without
    the metadata, splitting the text at its line feeds gives back the
    header line and, for each unit in order, the line of its seven
    cells. *)
Theorem csv_lines_read_back (result : @ExtractionResult F)
  (options : ExportOptions) :
  Forall (fun c => ~ In LF (id c) /\ ~ In LF (type c)
                   /\ ~ In LF (numToString (confidence c)))
         (contents result) ->
  includeMetadata options = false ->
  splitOnChar LF (generateCsv numToString result options)
  = escapeCsvRow csvHeaders
    :: map (fun c => escapeCsvRow (csvRow numToString c)) (contents result)
  /\ length (splitOnChar LF (generateCsv numToString result options))
     = S (length (contents result)).
Proof.
  intros Hc Hm.
  assert (E : splitOnChar LF (generateCsv numToString result options)
              = escapeCsvRow csvHeaders
                :: map (fun c => escapeCsvRow (csvRow numToString c))
                       (contents result)).
  { unfold generateCsv, csvLines. rewrite Hm, app_nil_r. cbn [app].
    apply splitOnChar_join; [discriminate|].
    constructor.
    - apply escapeCsvRow_oneLine.
      unfold csvHeaders. repeat (constructor; [no_feed|]). constructor.
    - apply Forall_forall. intros l Hl.
      apply in_map_iff in Hl. destruct Hl as (c & <- & Hin).
      rewrite Forall_forall in Hc. destruct (Hc c Hin) as (H1 & H2 & H3).
      apply escapeCsvRow_oneLine. unfold csvRow.
      constructor; [exact H1|]. constructor; [exact H2|].
      constructor; [rewrite replaceChar_LF; apply collapseLines_no_LF|].
      constructor; [exact H3|].
      constructor; [apply optNatToString_oneLine|].
      constructor; [apply optNatToString_oneLine|].
      constructor; [|constructor].
      destruct (tableData c); no_feed. }
  split; [exact E|]. rewrite E. cbn [length]. now rewrite length_map.
Qed.

End CsvLines.

Lemma csv_lines_read_back_witness :
  Forall (fun c => ~ In LF (id c) /\ ~ In LF (type c)
                   /\ ~ In LF (natToString (confidence c)))
         (contents twoLineResult)
  /\ splitOnChar LF (generateCsv natToString twoLineResult plainOptions)
     = escapeCsvRow csvHeaders
       :: map (fun c => escapeCsvRow (csvRow natToString c))
              (contents twoLineResult)
  /\ length (splitOnChar LF
               (generateCsv natToString twoLineResult plainOptions))
     = S (length (contents twoLineResult)).
Proof.
  assert (H : Forall (fun c => ~ In LF (id c) /\ ~ In LF (type c)
                               /\ ~ In LF (natToString (confidence c)))
                     (contents twoLineResult)).
  { constructor; [|constructor]. repeat split; no_feed. }
  split; [exact H|].
  exact (csv_lines_read_back natToString twoLineResult plainOptions H
           eq_refl).
Defined.

(** ** The extraction of a PDF document *)

Section ExtractFacts.
Context {F : Type} {ops : NumOps F}.
Variable freshId : nat -> str.

(** X22.  Once the model is loaded, [extract] on a PDF document that
    [pdf-parse] can read never throws.  Its contents are at most one unit
    for the text, whose content is the normalized text of the whole
    document, followed, when table extraction is enabled, by one unit for
    each table found in the text, in order; a unit carries a table exactly
    when it is one of the latter.  [totalItems] is the number of these
    units, and the metadata has the page count and no paragraph count.
    When the file cannot be read, the error of the parser is thrown. *)
Theorem extract_pdf (d : @DocumentExtractor F) (scorer : @Scorer F)
  (data : outcome (str * nat)) (fileName fileType now : str) (g : nat) :
  pipeline (extractorClassifier d) = Ok scorer ->
  classifier (analyzer d) = extractorClassifier d ->
  match data with
  | Throw e =>
      extract freshId d (parsePdf data) fileName fileType now g
      = Throw (lit "Failed to parse PDF file: " ++ e)
  | Ok (pdfText, numpages) =>
      exists textUnits,
        let tableUnits :=
          if enableTableExtraction (config d)
          then analyzeTables freshId (extractTables pdfText) None
                 (g + length textUnits)
          else [] in
        extract freshId d (parsePdf data) fileName fileType now g
        = Ok (mkMetadata fileName fileType now (Some numpages) None,
              textUnits ++ tableUnits,
              calculateSummary (textUnits ++ tableUnits))
        /\ length textUnits <= 1
        /\ Forall (fun u => content u = normalizeText pdfText
                            /\ tableData u = None) textUnits
        /\ map (@tableData F) tableUnits
           = (if enableTableExtraction (config d)
              then map Some (extractTables pdfText) else [])
        /\ fst (calculateSummary (textUnits ++ tableUnits))
           = length textUnits + length tableUnits
  end.
Proof.
  intros Hload Hcls. unfold extract. rewrite Hload.
  destruct data as [[pdfText numpages]|e]; [|reflexivity].
  cbn [parsePdf bind text tables pageCount paragraphCount].
  unfold analyzeText.
  destruct (analyzeLoop_returns freshId (extractorClassifier d) scorer
              (analyzer d) None Hload Hcls
              (splitIntoParagraphs (normalizeText pdfText)) 0 g)
    as [textUnits Hu].
  rewrite Hu. cbn [bind]. exists textUnits. cbv zeta.
  pose proof (analyzeLoop_units freshId _ _ _ _ _ _ Hu)
    as (Hlen & _ & Hall).
  rewrite splitIntoParagraphs_normalized in Hlen, Hall.
  assert (Htab :
    (if enableTableExtraction (config d)
        && (0 <? length (extractTables pdfText))
     then analyzeTables freshId (extractTables pdfText) None
            (g + length textUnits)
     else [])
    = (if enableTableExtraction (config d)
       then analyzeTables freshId (extractTables pdfText) None
              (g + length textUnits)
       else [])).
  { destruct (enableTableExtraction (config d)); [|reflexivity].
    cbn [andb]. destruct (extractTables pdfText); reflexivity. }
  rewrite Htab. split; [reflexivity|]. split; [|split; [|split]].
  - destruct (0 <? length (normalizeText pdfText)); cbn [length] in Hlen;
      lia.
  - eapply Forall_impl; [|exact Hall].
    intros u (Hin & _ & _ & _ & Ht). split; [|exact Ht].
    destruct (0 <? length (normalizeText pdfText));
      [destruct Hin as [E | []]; now symmetry | destruct Hin].
  - destruct (enableTableExtraction (config d)); [|reflexivity].
    apply analyzeTables_units.
  - unfold calculateSummary. cbn [fst]. apply length_app.
Qed.

End ExtractFacts.

Lemma extract_pdf_witness :
  exists textUnits,
    let tableUnits :=
      if enableTableExtraction (config sampleExtractor)
      then analyzeTables natToString (extractTables pdfSample) None
             (0 + length textUnits)
      else [] in
    extract natToString sampleExtractor (parsePdf (Ok (pdfSample, 1)))
      (lit "rules.pdf") (lit "pdf") (lit "2024-01-01T00:00:00.000Z") 0
    = Ok (mkMetadata (lit "rules.pdf") (lit "pdf")
            (lit "2024-01-01T00:00:00.000Z") (Some 1) None,
          textUnits ++ tableUnits,
          calculateSummary (textUnits ++ tableUnits))
    /\ length textUnits <= 1
    /\ Forall (fun u => content u = normalizeText pdfSample
                        /\ tableData u = None) textUnits
    /\ map (@tableData PrimFloat.float) tableUnits
       = (if enableTableExtraction (config sampleExtractor)
          then map Some (extractTables pdfSample) else [])
    /\ fst (calculateSummary (textUnits ++ tableUnits))
       = length textUnits + length tableUnits.
Proof.
  exact (@extract_pdf PrimFloat.float B64Ops natToString sampleExtractor
           evenScorer (Ok (pdfSample, 1)) (lit "rules.pdf") (lit "pdf")
           (lit "2024-01-01T00:00:00.000Z") 0 eq_refl eq_refl).
Defined.

(** ** helpers.ts: looksLikeFormula and looksLikeCondition *)

Lemma testPattern_chr (p : ascii -> bool) (text : str) :
  testPattern (Chr p) text = existsb p text.
Proof.
  unfold testPattern. induction text as [|x t IH]; [reflexivity|].
  cbn [search existsb]. rewrite matchAt_chr.
  destruct (p x); [reflexivity|]. exact IH.
Qed.

Lemma testPattern_plus_chr (p : ascii -> bool) (text : str) :
  testPattern (Plus (Chr p)) text = existsb p text.
Proof.
  unfold testPattern. induction text as [|x t IH]; [reflexivity|].
  cbn [search existsb]. unfold matchAt at 1. rewrite matchR_Plus_chr.
  destruct (p x); [|exact IH].
  destruct (backtrack p _ t []) eqn:E; [reflexivity|].
  exfalso. revert E. apply backtrack_total. discriminate.
Qed.

Lemma testPattern_words (r : regex) (text : str) :
  testPattern r text = true ->
  exists pre w post, text = pre ++ w ++ post /\ Lang r w.
Proof.
  unfold testPattern. destruct (search r text) as [m|] eqn:E;
    [|discriminate].
  intros _. destruct (search_sound _ _ _ E) as (pre & Ht & HL).
  now exists pre, (matched m), (rest m).
Qed.

Lemma search_app_found (r : regex) (pre s : str) :
  matchAt r s <> None -> search r (pre ++ s) <> None.
Proof.
  intros H. induction pre as [|x pre IH]; cbn [app].
  - destruct s; cbn [search]; destruct (matchAt r _); congruence.
  - cbn [search]. destruct (matchAt r (x :: pre ++ s)); [discriminate|].
    exact IH.
Qed.

Lemma existsb_app_mid (p : ascii -> bool) (a b : str) (x : ascii) :
  p x = true -> existsb p (a ++ x :: b) = true.
Proof.
  intros H. rewrite existsb_app. cbn [existsb]. rewrite H.
  now rewrite orb_true_r.
Qed.

(** X23.  [looksLikeFormula] holds exactly when the text has one of the
    characters [+ - * / = ( )], or one of the words SUM, AVG, COUNT, MAX,
    MIN, IF, THEN, ELSE between word boundaries, or an upper-case letter
    right before a digit: the pattern of an arithmetic expression never
    decides, since what it matches has an operator.  [looksLikeCondition]
    holds exactly when one of its three word patterns matches or the text
    has one of [< > = !].  So a text with a hyphen or a bracket looks like
    a formula, and a text with an equals sign looks like both. *)
Theorem looks_like (text : str) :
  (testPattern Looks.arithmetic text = true ->
   existsb Looks.opChar text = true)
  /\ Looks.looksLikeFormula text
     = existsb Looks.opChar text
       || testBounded Looks.formulaWords false text
       || testPattern Looks.cellReference text
  /\ (testPattern Looks.cellReference text = true
      <-> exists a x y b,
            text = a ++ x :: y :: b
            /\ Looks.isUpper x = true /\ isDigit y = true)
  /\ Looks.looksLikeCondition text
     = testBounded Looks.conditionWords false text
       || testBounded Looks.modalWords false text
       || testBounded Looks.logicWords false text
       || existsb Looks.cmpChar text
  /\ (In "="%char text ->
      Looks.looksLikeFormula text = true
      /\ Looks.looksLikeCondition text = true).
Proof.
  assert (Harith : testPattern Looks.arithmetic text = true ->
                   existsb Looks.opChar text = true).
  { intros H. apply testPattern_words in H.
    destruct H as (pre & w & post & -> & HL).
    unfold Looks.arithmetic in HL.
    apply Lang_seq in HL. destruct HL as (d1 & w1 & -> & _ & HL).
    apply Lang_seq in HL. destruct HL as (sp & w2 & -> & _ & HL).
    apply Lang_seq in HL. destruct HL as (o & w3 & -> & Ho & _).
    apply Lang_chr in Ho. destruct Ho as (x & -> & Hx).
    rewrite !existsb_app. cbn [existsb].
    replace (Looks.opChar x) with true; [now rewrite !orb_true_r|].
    symmetry. unfold Looks.arithChar, Looks.opChar in *. cbn in *.
    repeat (apply orb_true_iff in Hx; destruct Hx as [Hx | Hx];
            [rewrite Hx; now rewrite ?orb_true_r|]).
    discriminate. }
  assert (Hformula : Looks.looksLikeFormula text
     = existsb Looks.opChar text
       || testBounded Looks.formulaWords false text
       || testPattern Looks.cellReference text).
  { unfold Looks.looksLikeFormula. rewrite testPattern_chr.
    destruct (testPattern Looks.arithmetic text) eqn:E;
      [|now rewrite orb_false_r].
    rewrite (Harith eq_refl). reflexivity. }
  assert (Hcond : Looks.looksLikeCondition text
     = testBounded Looks.conditionWords false text
       || testBounded Looks.modalWords false text
       || testBounded Looks.logicWords false text
       || existsb Looks.cmpChar text).
  { unfold Looks.looksLikeCondition. now rewrite testPattern_plus_chr. }
  split; [exact Harith|]. split; [exact Hformula|]. split; [|split].
  - split.
    + intros H. apply testPattern_words in H.
      destruct H as (pre & w & post & -> & HL).
      unfold Looks.cellReference in HL.
      apply Lang_seq in HL. destruct HL as (u & ds & -> & Hu & Hd).
      apply Lang_chr in Hu. destruct Hu as (x & -> & Hx).
      apply Lang_plus_chr in Hd. destruct Hd as [Hne Hd].
      destruct ds as [|y ds]; [congruence|].
      inversion Hd; subst.
      exists pre, x, y, (ds ++ post). cbn [app].
      now repeat split.
    + intros (a & x & y & b & -> & Hx & Hy).
      unfold testPattern.
      destruct (search Looks.cellReference (a ++ x :: y :: b)) eqn:E;
        [reflexivity|].
      exfalso. revert E. apply search_app_found.
      unfold matchAt, Looks.cellReference.
      rewrite matchR_Seq, matchR_Chr, Hx, matchR_Plus_chr, Hy.
      apply backtrack_total. discriminate.
  - exact Hcond.
  - intros Hin. apply in_split in Hin. destruct Hin as (a & b & ->).
    rewrite Hformula, Hcond.
    rewrite (existsb_app_mid Looks.opChar a b "="%char eq_refl).
    rewrite (existsb_app_mid Looks.cmpChar a b "="%char eq_refl).
    now rewrite !orb_true_r.
Qed.
